(** * rspamd archive readers and ZIP writer (src/libmime/archives.c)

    A shallow embedding of the archive metadata readers (ZIP, RAR v4/v5,
    7-Zip, gzip) and of the ZIP writer.  Input buffers are lists of bytes,
    pointers into a buffer are [Z] offsets from its first byte, fixed-width C
    integers are [Z] with their wrap-around written out.  Collaborators that
    live outside archives.c (zlib, OpenSSL, ICU, libarchive, the charset
    detector, the clock) are type classes; stand-ins for them serve the
    worked examples. *)

From Stdlib Require Import ZArith List Lia Bool.
From Stdlib Require Import Strings.Byte.
Import ListNotations.
Local Open Scope Z_scope.

(** ** Bytes and fixed-width integers *)

Definition u8 (b : byte) : Z := Z.of_N (Byte.to_N b).

(** The low eight bits of [z], as a byte (a C conversion to [unsigned char]). *)
Definition byte_of_Z (z : Z) : byte :=
  match Byte.of_N (Z.to_N (z mod 256)) with
  | Some b => b
  | None => x00
  end.

Definition u16 (z : Z) : Z := z mod 2 ^ 16.
Definition u32 (z : Z) : Z := z mod 2 ^ 32.
Definition u64 (z : Z) : Z := z mod 2 ^ 64.

Definition len {A : Type} (l : list A) : Z := Z.of_nat (length l).

(** [*(buf + p)]; [None] when the address lies outside the buffer. *)
Definition byte_at (buf : list byte) (p : Z) : option byte :=
  if p <? 0 then None else nth_error buf (Z.to_nat p).

(** A read the source has guarded by a bounds check; outside the buffer the
    model yields 0, a value no guarded path uses. *)
Definition peek (buf : list byte) (p : Z) : Z :=
  match byte_at buf p with
  | Some b => u8 b
  | None => 0
  end.

(** The [n] bytes at offset [p]. *)
Definition sub (buf : list byte) (p n : Z) : list byte :=
  firstn (Z.to_nat n) (skipn (Z.to_nat p) buf).

(** [memcmp(a, b, n) == 0] for two byte strings of [n] bytes each. *)
Fixpoint bytes_eqb (a b : list byte) : bool :=
  match a, b with
  | [], [] => true
  | x :: a', y :: b' => Byte.eqb x y && bytes_eqb a' b'
  | _, _ => false
  end.

(** Little-endian loads: [memcpy] into an integer followed by
    [GUINT16_FROM_LE] / [GUINT32_FROM_LE] / [GUINT64_FROM_LE]. *)
Definition le16 (buf : list byte) (p : Z) : Z :=
  peek buf p + peek buf (p + 1) * 2 ^ 8.

Definition le32 (buf : list byte) (p : Z) : Z :=
  peek buf p + peek buf (p + 1) * 2 ^ 8 + peek buf (p + 2) * 2 ^ 16
  + peek buf (p + 3) * 2 ^ 24.

Definition le64 (buf : list byte) (p : Z) : Z :=
  le32 buf p + le32 buf (p + 4) * 2 ^ 32.

(** [rspamd_ba_append_u16le] and [rspamd_ba_append_u32le] append these bytes. *)
Definition u16le (v : Z) : list byte :=
  [byte_of_Z v; byte_of_Z (v / 2 ^ 8)].

Definition u32le (v : Z) : list byte :=
  [byte_of_Z v; byte_of_Z (v / 2 ^ 8); byte_of_Z (v / 2 ^ 16); byte_of_Z (v / 2 ^ 24)].

Definition rspamd_ba_append_u16le (ba : list byte) (v : Z) : list byte := ba ++ u16le v.
Definition rspamd_ba_append_u32le (ba : list byte) (v : Z) : list byte := ba ++ u32le v.

(** Overwrite [length bs] bytes of [buf] at offset [off] (a store through a
    pointer into the array; the array keeps its length). *)
Definition patch (buf : list byte) (off : Z) (bs : list byte) : list byte :=
  firstn (Z.to_nat off) buf ++ bs ++ skipn (Z.to_nat off + length bs) buf.

(** ** RAR variable-length integers *)

Inductive vint_result : Type :=
| VintBad                          (* return -1 *)
| VintOk (value : Z) (nread : Z)   (* *res = value; return nread *)
| VintOob.                         (* the loop dereferenced memory past [mem] *)

Definition rar_vint_exit (remain shift t nread : Z) : vint_result :=
  if (remain =? 0) || (64 <? shift) then VintBad else VintOk t nread.

(** The [while (remain > 0 && shift <= 57)] loop of
    [rspamd_archive_rar_read_vint]: [mem] is the memory from [p] on, [nread]
    is [p - start].  The terminating byte leaves the loop by [break], without
    decrementing [remain]. *)
Fixpoint rar_vint_loop (mem : list byte) (remain shift t nread : Z) : vint_result :=
  if (0 <? remain) && (shift <=? 57) then
    match mem with
    | [] => VintOob
    | b :: mem' =>
        let t' := Z.lor t (u64 (Z.shiftl (Z.land (u8 b) 0x7f) shift)) in
        if Z.testbit (u8 b) 7
        then rar_vint_loop mem' (remain - 1) (shift + 7) t' (nread + 1)
        else rar_vint_exit remain shift t' (nread + 1)
    end
  else rar_vint_exit remain shift t nread.

Definition rspamd_archive_rar_read_vint (start : list byte) (remain : Z) : vint_result :=
  rar_vint_loop start remain 0 0 0.

(** ** 7-Zip variable-length integers *)

(** [isset(&t, i)] of <sys/param.h> on a single byte. *)
Definition isset (t i : Z) : bool := Z.testbit t i.

(** What the C standard leaves open and the 7-Zip reader depends on.

    [tgt_uninit]: [tgt] in [rspamd_archive_7zip_read_vint] is declared
    without an initialiser and [memcpy] fills only its low [intlen] bytes; the
    remaining bytes keep whatever the stack held.

    [shr_oversized x n]: [tgt >>= sizeof(tgt) - NBBY * intlen] computes its
    count in [size_t]; for [intlen > 1] the count wraps to at least 64, which
    C leaves undefined. This is what the target machine yields then.

    [data_addr]: [p + proplen < end] in [rspamd_7zip_read_archive_props]
    forms the pointer before comparing it, and nothing keeps a 64-bit
    [proplen] inside the part's data, where alone C defines the sum.  The
    target machine adds addresses modulo 2^64; this is the address of the
    first byte of the data. *)
Class Platform : Type := {
  tgt_uninit : Z;
  shr_oversized : Z -> Z -> Z;
  data_addr : Z
}.

Section SevenZipVint.

Context `{Platform}.

Definition sz_shift_back (tgt intlen : Z) : Z :=
  let count := u64 (8 - 8 * intlen) in
  if count <? 64 then Z.shiftr tgt count else shr_oversized tgt count.

(** [memcpy(&tgt, start + 1, intlen)] on a little-endian host. *)
Fixpoint le_bytes (bs : list byte) : Z :=
  match bs with
  | [] => 0
  | b :: bs' => u8 b + 2 ^ 8 * le_bytes bs'
  end.

Definition sz_memcpy_tgt (rest : list byte) (intlen : Z) : Z :=
  tgt_uninit / 2 ^ (8 * intlen) * 2 ^ (8 * intlen)
  + le_bytes (firstn (Z.to_nat intlen) rest).

(** The [while (cur_bit > 0)] loop; [cur_bit] counts down from 6 and the
    loop is left without a result when it reaches 0. *)
Fixpoint sz_vint_loop (cur_bit : nat) (intlen t : Z) (rest : list byte) (remain : Z)
  : vint_result :=
  match cur_bit with
  | O => VintBad
  | S cur_bit' =>
      if negb (isset t (Z.of_nat cur_bit)) && (intlen + 1 <=? remain) then
        let tgt := sz_shift_back (sz_memcpy_tgt rest intlen) intlen in
        let mask := Z.shiftr 0xFF (8 - Z.of_nat cur_bit) in
        VintOk (u64 (tgt + u64 (Z.shiftl (Z.land t mask) (8 * intlen)))) (intlen + 1)
      else sz_vint_loop cur_bit' (intlen + 1) t rest remain
  end.

Definition rspamd_archive_7zip_read_vint (start : list byte) (remain : Z) : vint_result :=
  if remain =? 0 then VintBad
  else
    match start with
    | [] => VintOob
    | b :: rest =>
        let t := u8 b in
        if negb (isset t 7) then VintOk t 1
        else if t =? 0xFF then
          if 9 <=? remain then VintOk (le_bytes (firstn 8 rest)) 9 else VintBad
        else sz_vint_loop 6 1 t rest remain
    end.

End SevenZipVint.

(** ** The ZIP writer *)

(** [struct rspamd_zip_file_spec]: [name] is a C string (its bytes before
    the terminating NUL, [None] for a NULL pointer), [data] with its [len]
    is a byte list. *)
Record rspamd_zip_file_spec : Type := mk_zip_file_spec {
  spec_name : option (list byte);
  spec_data : list byte;
  spec_mtime : Z;
  spec_mode : Z
}.

(** [strstr(name, "..") != NULL] *)
Fixpoint has_dotdot (s : list byte) : bool :=
  match s with
  | [] => false
  | a :: rest =>
      match rest with
      | [] => false
      | b :: _ => (Byte.eqb a x2e && Byte.eqb b x2e) || has_dotdot rest
      end
  end.

(** [strchr(name, c) != NULL] *)
Definition has_char (c : byte) (s : list byte) : bool :=
  existsb (Byte.eqb c) s.

Definition rspamd_zip_validate_name (name : option (list byte)) : bool :=
  match name with
  | None => false
  | Some [] => false
  | Some (c :: rest) =>
      if Byte.eqb c x2f || Byte.eqb c x5c then false      (* '/' or '\\' *)
      else if has_dotdot (c :: rest) then false
      else if has_char x3a (c :: rest) then false         (* ':' *)
      else true
  end.

(** [struct tm], the fields the DOS time stamps read. *)
Record tm : Type := mk_tm {
  tm_sec : Z; tm_min : Z; tm_hour : Z; tm_mday : Z; tm_mon : Z; tm_year : Z
}.

Inductive deflate_result : Type :=
| DeflateInitFailed                 (* deflateInit2 did not return Z_OK *)
| DeflateFailed                     (* deflate returned an error code *)
| Deflated (out : list byte).       (* the [bound - avail_out] bytes produced *)

Inductive zip_write_error : Type :=
| ErrNoFiles                                  (* EINVAL, no files to archive *)
| ErrInvalidName (name : option (list byte))  (* EINVAL, invalid zip entry name *)
| ErrSalt                                     (* EIO, cannot generate AES salt *)
| ErrPbkdf2                                   (* EIO, PBKDF2(HMAC-SHA1) failed *)
| ErrAesInit                                  (* EIO, AES-CTR init failed *)
| ErrDeflateInit                              (* EIO, deflateInit2 failed *)
| ErrDeflate                                  (* EIO, deflate failed *)
| ErrAesEncrypt.                              (* EIO, AES-CTR encrypt failed *)

(** GLib counts the bytes of a byte array, and the bytes added to it, in a
    [guint]; zlib counts in [uInt] and [crc32] takes a [uInt]; OpenSSL takes
    its lengths as [int]. *)
Definition G_MAXUINT : Z := 2 ^ 32 - 1.
Definition G_MAXINT : Z := 2 ^ 31 - 1.

(** What the writer hands back: the byte array, or NULL with [*err] set.
    [WOverflow]: a length did not fit the type it is counted in.
    [g_byte_array_append] ends the process when the array would pass
    G_MAXUINT bytes ([g_error]: adding %u to array would overflow);
    [g_byte_array_set_size(zip, zip->len + bound)] takes the sum cut to 32
    bits, which leaves the window [deflate] and [memcpy] write to outside the
    array; a length that is cut on its way into [crc32], [deflate] or OpenSSL
    makes them work on other bytes than the file's.  The writer yields no
    archive of the files it was given then, and the model follows it no
    further. *)
Inductive write_result (A : Type) : Type :=
| WOk (a : A)
| WErr (e : zip_write_error)
| WOverflow.
Arguments WOk {A} a.
Arguments WErr {A} e.
Arguments WOverflow {A}.

(** [n] more bytes fit the byte array [a]. *)
Definition ba_fits (a : list byte) (n : Z) : bool := len a + n <=? G_MAXUINT.

(** Exactly [n] bytes of [l]: a fixed-size C array filled by a collaborator. *)
Definition fit (n : nat) (l : list byte) : list byte :=
  firstn n (l ++ repeat x00 n).

Definition ZIP_AES_EXTRA_ID : Z := 0x9901.

(** The clock and time zone: [time(NULL)] and [localtime_r]. *)
Class Clock : Type := {
  time_now : Z;
  localtime_r : Z -> tm
}.

(** zlib: [crc32] of a buffer starting from [crc32(0L, Z_NULL, 0)], the
    raw DEFLATE stream of a buffer ([DeflateInitFailed] stands for either
    [deflateInit2] call failing), and [deflateBound] for a buffer of the given
    length: the size of the window the stream is written to. *)
Class Zlib : Type := {
  crc32 : list byte -> Z;
  zlib_deflate : list byte -> deflate_result;
  deflateBound : Z -> Z
}.

(** OpenSSL.  [RAND_bytes i] is the salt drawn for the entry of index [i];
    [PKCS5_PBKDF2_HMAC password salt] is the derived key material (1000
    rounds of HMAC-SHA1, 66 bytes); [EVP_EncryptInit_ex key] tells whether the
    AES-256-CTR context could be set up with a zero IV; [EVP_Encrypt key
    plain] is the output of [EVP_EncryptUpdate] and [EVP_EncryptFinal_ex];
    [HMAC_sha1 key msg] is the HMAC-SHA1 tag. *)
Class OpenSSL : Type := {
  RAND_bytes : nat -> option (list byte);
  PKCS5_PBKDF2_HMAC : list byte -> list byte -> option (list byte);
  EVP_EncryptInit_ex : list byte -> bool;
  EVP_Encrypt : list byte -> list byte -> option (list byte);
  HMAC_sha1 : list byte -> list byte -> list byte
}.

Section ZipWriter.

Context `{Clock} `{Zlib} `{OpenSSL}.

Definition rspamd_zip_time_dos (t : Z) : Z :=
  let t := if t =? 0 then time_now else t in
  let lt := localtime_r t in
  u16 (Z.lor (Z.lor (Z.shiftl (u16 (Z.land (tm_hour lt) 0x1f)) 11)
                    (Z.shiftl (u16 (Z.land (tm_min lt) 0x3f)) 5))
             (u16 (Z.land (Z.quot (tm_sec lt) 2) 0x1f))).

Definition rspamd_zip_date_dos (t : Z) : Z :=
  let t := if t =? 0 then time_now else t in
  let lt := localtime_r t in
  let year := tm_year lt + 1900 in
  let year := if year <? 1980 then 1980 else year in
  u16 (Z.lor (Z.lor (Z.shiftl (u16 (Z.land (year - 1980) 0x7f)) 9)
                    (Z.shiftl (u16 (Z.land (tm_mon lt + 1) 0x0f)) 5))
             (u16 (Z.land (tm_mday lt) 0x1f))).

(** The 30 fixed bytes of a local file header. *)
Definition local_header_fixed (name : list byte)
  (ver_needed gp_flags method mtime crc csize usize extra_len : Z) : list byte :=
  u32le 0x04034b50 ++ u16le ver_needed ++ u16le gp_flags ++ u16le method
  ++ u16le (rspamd_zip_time_dos mtime) ++ u16le (rspamd_zip_date_dos mtime)
  ++ u32le crc ++ u32le csize ++ u32le usize
  ++ u16le (u16 (len name)) ++ u16le extra_len.

(** The header writers add their bytes with [g_byte_array_append]; the
    callers below ask [ba_fits] before, for all the bytes added in a row. *)
Definition rspamd_zip_write_local_header (zip name : list byte)
  (ver_needed gp_flags method mtime crc csize usize extra_len : Z) : list byte :=
  zip ++ local_header_fixed name ver_needed gp_flags method mtime crc csize usize extra_len
      ++ name.

(** The 46 fixed bytes of a central directory file header. *)
Definition central_header_fixed (name : list byte)
  (ver_needed gp_flags method mtime crc csize usize lfh_offset mode extra_len : Z)
  : list byte :=
  let xattr := if mode =? 0 then 420 (* 0644 *) else mode in
  let xattr := u32 (Z.shiftl (Z.land xattr 0xFFFF) 16) in
  u32le 0x02014b50 ++ u16le (u16 (Z.lor (Z.shiftl 3 8) 20))
  ++ u16le ver_needed ++ u16le gp_flags ++ u16le method
  ++ u16le (rspamd_zip_time_dos mtime) ++ u16le (rspamd_zip_date_dos mtime)
  ++ u32le crc ++ u32le csize ++ u32le usize
  ++ u16le (u16 (len name)) ++ u16le extra_len ++ u16le 0
  ++ u16le 0 ++ u16le 0
  ++ u32le xattr ++ u32le lfh_offset.

Definition rspamd_zip_write_central_header (cd name : list byte)
  (ver_needed gp_flags method mtime crc csize usize lfh_offset mode extra_len : Z)
  : list byte :=
  cd ++ central_header_fixed name ver_needed gp_flags method mtime crc csize usize
          lfh_offset mode extra_len
     ++ name.

(** The 11 bytes of the WinZip AES extra field. *)
Definition extra_aes (vendor_version strength actual_method : Z) : list byte :=
  u16le ZIP_AES_EXTRA_ID ++ u16le 7 ++ u16le vendor_version
  ++ [x41; x45] (* 'A', 'E' *) ++ [byte_of_Z strength] ++ u16le actual_method.

Definition rspamd_zip_write_extra_aes (ba : list byte)
  (vendor_version strength actual_method : Z) : list byte :=
  ba ++ extra_aes vendor_version strength actual_method.

(** [password != NULL && *password != '\0'] *)
Definition use_aes (password : option (list byte)) : bool :=
  match password with
  | Some (_ :: _) => true
  | _ => false
  end.

(** The body of the per-file loop for an entry without encryption (the
    [else] branch): DEFLATE into a window of [deflateBound] bytes reserved at
    the end of the array, fall back to a stored copy when DEFLATE did not
    shrink the data, cut the array to the payload, then patch method, CRC and
    compressed size into the local header already written.  The stored copy
    is no longer than the window: in that branch the data are no longer than
    what DEFLATE produced. *)
Definition zip_write_entry_plain (f : rspamd_zip_file_spec) (name : list byte)
  (zip cd : list byte) : write_result (list byte * list byte) :=
  let crc := u32 (crc32 (spec_data f)) in
  let method := 8 in
  let gp_flags := u16 (Z.shiftl 1 11) in
  let ver_needed := 20 in
  let extra_len := 0 in
  let usize := u32 (len (spec_data f)) in
  let lfh_off := len zip in
  if negb (ba_fits zip (30 + len name)) then WOverflow
  else
    let zip := rspamd_zip_write_local_header zip name ver_needed gp_flags method
                 (spec_mtime f) crc 0 usize extra_len in
    let bound := deflateBound (len (spec_data f)) in
    match zlib_deflate (spec_data f) with
    | DeflateInitFailed => WErr ErrDeflateInit
    | DeflateFailed =>
        if negb (ba_fits zip bound) then WOverflow else WErr ErrDeflate
    | Deflated out =>
        (* the window is in the array, and deflate stays in the window *)
        if negb (ba_fits zip bound) || (bound <? len out) then WOverflow
        else
          let stored := len (spec_data f) <=? len out in
          (* produced >= f->len: drop the DEFLATE output, copy the data *)
          let zip := if stored then zip ++ spec_data f else zip ++ out in
          let produced := if stored then len (spec_data f) else len out in
          let method := if stored then 0 else method in
          let zip := if stored then patch zip (lfh_off + 8) (u16le method) else zip in
          let csize_for_header := u32 produced in
          let zip := patch zip (lfh_off + 14) (u32le crc) in
          let zip := patch zip (lfh_off + 18) (u32le csize_for_header) in
          if negb (ba_fits cd (46 + len name)) then WOverflow
          else
            let cd := rspamd_zip_write_central_header cd name ver_needed gp_flags method
                        (spec_mtime f) crc csize_for_header usize lfh_off (spec_mode f)
                        extra_len in
            WOk (zip, cd)
    end.

(** The same body for an entry encrypted with WinZip AES (AE-2, AES-256),
    built with OpenSSL. [i] is the index of the entry.  The cipher text is
    written over the plain text, in the room the array has for it. *)
Definition zip_write_entry_aes (i : nat) (password : list byte)
  (f : rspamd_zip_file_spec) (name : list byte)
  (zip cd : list byte) : write_result (list byte * list byte) :=
  let method := 8 in
  let gp_flags := u16 (Z.shiftl 1 11) in
  let ver_needed := 20 in
  let actual_method := method in
  let aes_strength := 0x03 in
  let aes_vendor_ver := 0x0002 in
  let ver_needed := Z.max ver_needed 51 in
  let gp_flags := u16 (Z.lor gp_flags 1) in
  let method := 99 in
  let extra_len := 2 + 2 + 7 in
  let salt_len := 16%nat in
  let crc := 0 in
  let usize := u32 (len (spec_data f)) in
  let lfh_off := len zip in
  if negb (ba_fits zip (30 + len name + 11)) then WOverflow
  else
    let zip := rspamd_zip_write_local_header zip name ver_needed gp_flags method
                 (spec_mtime f) crc 0 usize extra_len in
    let zip := rspamd_zip_write_extra_aes zip aes_vendor_ver aes_strength actual_method in
    match RAND_bytes i with
    | None => WErr ErrSalt
    | Some salt =>
        let salt := fit salt_len salt in
        let klen := 32%nat in
        (* (int) strlen(password) *)
        if G_MAXINT <? len password then WOverflow
        else
          match PKCS5_PBKDF2_HMAC password salt with
          | None => WErr ErrPbkdf2
          | Some dk =>
              let dk := fit (klen * 2 + 2) dk in
              let ekey := firstn klen dk in
              let akey := firstn klen (skipn klen dk) in
              let pv := skipn (klen * 2) dk in
              if negb (ba_fits zip (Z.of_nat salt_len + 2)) then WOverflow
              else
                let zip := zip ++ salt ++ pv in
                if negb (EVP_EncryptInit_ex ekey) then WErr ErrAesInit
                else
                  let bound := deflateBound (len (spec_data f)) in
                  match zlib_deflate (spec_data f) with
                  | DeflateInitFailed => WErr ErrDeflateInit
                  | DeflateFailed =>
                      if negb (ba_fits zip bound) then WOverflow else WErr ErrDeflate
                  | Deflated out =>
                      if negb (ba_fits zip bound) || (bound <? len out) then WOverflow
                      else
                        let stored := len (spec_data f) <=? len out in
                        let plain := if stored then spec_data f else out in
                        let actual_method := if stored then 0 else actual_method in
                        (* what the array holds behind plain_off *)
                        let room := if stored then len (spec_data f) else bound in
                        (* (int) produced *)
                        if G_MAXINT <? len plain then WOverflow
                        else
                          match EVP_Encrypt ekey plain with
                          | None => WErr ErrAesEncrypt
                          | Some cipher =>
                              if (room <? len cipher) || (G_MAXINT <? len cipher)
                              then WOverflow
                              else
                                (* the array is cut to enc_before + outl + finl *)
                                let zip := zip ++ cipher in
                                let mac := HMAC_sha1 akey cipher in
                                if negb (ba_fits zip 10) then WOverflow
                                else
                                  let zip := zip ++ fit 10 mac in
                                  let csize_for_header :=
                                    u32 (Z.of_nat salt_len + 2 + len cipher + 10) in
                                  let zip := patch zip (lfh_off + 18)
                                               (u32le csize_for_header) in
                                  let zip := patch zip (lfh_off + 30 + u32 (len name) + 9)
                                               (u16le actual_method) in
                                  if negb (ba_fits cd (46 + len name + 11)) then WOverflow
                                  else
                                    let cd := rspamd_zip_write_central_header cd name
                                                ver_needed gp_flags method (spec_mtime f)
                                                crc csize_for_header usize lfh_off
                                                (spec_mode f) extra_len in
                                    let cd := rspamd_zip_write_extra_aes cd aes_vendor_ver
                                                aes_strength actual_method in
                                    WOk (zip, cd)
                          end
                  end
          end
    end.

(** The [for (i = 0; i < nfiles; i++)] loop over the entries from index [i].
    [crc32(crc, f->data, f->len)] at the head of the body and [deflate]
    later take the length of the data as a [uInt]. *)
Fixpoint zip_write_entries (i : nat) (password : option (list byte))
  (files : list rspamd_zip_file_spec) (zip cd : list byte)
  : write_result (list byte * list byte) :=
  match files with
  | [] => WOk (zip, cd)
  | f :: files' =>
      if negb (rspamd_zip_validate_name (spec_name f)) then
        WErr (ErrInvalidName (spec_name f))
      else if G_MAXUINT <? len (spec_data f) then WOverflow
      else
        let name := match spec_name f with Some n => n | None => [] end in
        let r := match password with
                 | Some (c :: pw) =>
                     zip_write_entry_aes i (c :: pw) f name zip cd
                 | _ => zip_write_entry_plain f name zip cd
                 end in
        match r with
        | WErr e => WErr e
        | WOverflow => WOverflow
        | WOk (zip', cd') => zip_write_entries (S i) password files' zip' cd'
        end
  end.

(** The end-of-central-directory record.  [GByteArray.len] is a [guint], so
    [cd_start] and [cd_size] are the array lengths themselves; the 32-bit
    stores keep their low 32 bits. *)
Definition eocd_record (nfiles cd_size cd_start : Z) : list byte :=
  u32le 0x06054b50 ++ u16le 0 ++ u16le 0
  ++ u16le (u16 nfiles) ++ u16le (u16 nfiles)
  ++ u32le cd_size ++ u32le cd_start ++ u16le 0.

Definition rspamd_archives_zip_write (files : list rspamd_zip_file_spec)
  (password : option (list byte)) : write_result (list byte) :=
  match files with
  | [] => WErr ErrNoFiles
  | _ =>
      match zip_write_entries 0 password files [] [] with
      | WErr e => WErr e
      | WOverflow => WOverflow
      | WOk (zip, cd) =>
          let cd_start := len zip in
          (* the central directory and the 22 bytes of the end record *)
          if negb (ba_fits zip (len cd + 22)) then WOverflow
          else
            let zip := zip ++ cd in
            let cd_size := len cd in
            WOk (zip ++ eocd_record (len files) cd_size cd_start)
      end
  end.

End ZipWriter.

(** ** Archives as the readers produce them *)

Inductive rspamd_archive_type : Type :=
| RSPAMD_ARCHIVE_ZIP
| RSPAMD_ARCHIVE_RAR
| RSPAMD_ARCHIVE_7ZIP
| RSPAMD_ARCHIVE_GZIP.

(** [struct rspamd_archive_file]; [flags] is split into its two bits,
    RSPAMD_ARCHIVE_FILE_ENCRYPTED and RSPAMD_ARCHIVE_FILE_OBFUSCATED.  Only
    entries whose [fname] is not NULL are ever added to an archive. *)
Record rspamd_archive_file : Type := mk_archive_file {
  fname : list byte;
  compressed_size : Z;
  uncompressed_size : Z;
  file_encrypted : bool;
  file_obfuscated : bool
}.

(** [struct rspamd_archive]; [flags] is split into RSPAMD_ARCHIVE_ENCRYPTED
    and RSPAMD_ARCHIVE_HAS_OBFUSCATED_FILES. *)
Record rspamd_archive : Type := mk_archive {
  arch_type : rspamd_archive_type;
  archive_name : option (list byte);
  arch_size : Z;
  arch_encrypted : bool;
  arch_has_obfuscated : bool;
  files : list rspamd_archive_file
}.

(** [rspamd_mempool_alloc0] followed by the initial assignments. *)
Definition new_archive (t : rspamd_archive_type) (name : option (list byte))
  : rspamd_archive :=
  mk_archive t name 0 false false [].

Definition add_file (a : rspamd_archive) (f : rspamd_archive_file) : rspamd_archive :=
  mk_archive (arch_type a) (archive_name a) (arch_size a) (arch_encrypted a)
    (arch_has_obfuscated a || file_obfuscated f) (files a ++ [f]).

Definition set_arch_encrypted (a : rspamd_archive) : rspamd_archive :=
  mk_archive (arch_type a) (archive_name a) (arch_size a) true
    (arch_has_obfuscated a) (files a).

Definition set_arch_size (a : rspamd_archive) (n : Z) : rspamd_archive :=
  mk_archive (arch_type a) (archive_name a) n (arch_encrypted a)
    (arch_has_obfuscated a) (files a).

Definition set_arch_name (a : rspamd_archive) (n : option (list byte)) : rspamd_archive :=
  mk_archive (arch_type a) n (arch_size a) (arch_encrypted a)
    (arch_has_obfuscated a) (files a).

Definition set_file_encrypted (f : rspamd_archive_file) : rspamd_archive_file :=
  mk_archive_file (fname f) (compressed_size f) (uncompressed_size f) true
    (file_obfuscated f).

(** [f->flags |= RSPAMD_ARCHIVE_FILE_ENCRYPTED] through the pointer [f] that
    was just stored as the last element of [arch->files]. *)
Definition mark_last_encrypted (a : rspamd_archive) : rspamd_archive :=
  mk_archive (arch_type a) (archive_name a) (arch_size a) (arch_encrypted a)
    (arch_has_obfuscated a)
    (match rev (files a) with
     | [] => []
     | f :: before => rev before ++ [set_file_encrypted f]
     end).

(** The diagnostics the readers log before giving up (or, for 7-Zip, while
    going on). *)
Inductive archive_diag : Type :=
| ZipNoEocd              (* zip archive is invalid (no EOCD) *)
| ZipShortEocd           (* zip archive is invalid (short EOCD) *)
| ZipBadCdExtent         (* zip archive is invalid (bad size/offset for CD) *)
| ZipBadCdRecord         (* zip archive is invalid (bad cd record) *)
| ZipCdRecordTooLarge    (* zip archive is invalid (too large cd record) *)
| RarTooSmall            (* rar archive is invalid (too small) *)
| RarNoMagic             (* rar archive is invalid (no rar magic) *)
| RarBadSkip             (* rar archive is invalid (bad skip value) *)
| RarTruncated           (* rar archive is invalid (truncated) *)
| RarBadVint             (* rar archive is invalid (bad vint) *)
| RarBadInt16            (* rar archive is invalid (bad int16) *)
| RarBadInt32            (* rar archive is invalid (bad int32) *)
| RarZeroSizeBlock       (* rar archive is invalid (zero size block) *)
| RarBadFilenameSize     (* rar archive is invalid (bad filename size) *)
| RarBadMainHeader       (* rar archive is invalid (bad main header) *)
| SzNoMagic              (* 7z archive is invalid (no 7z magic) *)
| SzBadUint64            (* 7zip archive is invalid (bad uint64) *)
| SzTruncatedCrc         (* 7z archive is invalid (truncated crc) *)
| SzBadSectionOffset     (* 7z archive is invalid (incorrect section offset) *)
| SzBadVint              (* 7z archive is invalid (bad vint) *)
| SzTruncated            (* 7zip archive is invalid (truncated) *)
| SzBadType              (* bad 7zip type *)
| SzBadName              (* bad 7zip name *)
| SzTooMany              (* a count above 8192: return NULL without a message *)
| SzLibarchiveOpen       (* 7zip: cannot open memory archive *)
| GzipNoMagic            (* gzip archive is invalid (no gzip magic) *)
| GzipBadExtra           (* gzip archive is invalid, bad extra length *)
| GzipBadFilename        (* gzip archive is invalid, bad filename *)
| GzipNoFallback.        (* no name in the stream and none from the part *)

(** What a reader leaves on the MIME part: nothing, or
    [part->part_type = RSPAMD_MIME_PART_ARCHIVE] with [part->specific.arch].
    [Undefined] stands for a run that loads bytes from outside the input
    buffer and uses them. *)
Inductive read_outcome : Type :=
| Rejected (why : archive_diag)
| Attached (arch : rspamd_archive)
| Undefined.

(** A step of a reader: go on with a value, or leave the function (a macro's
    [return], or [goto end]). *)
Inductive walk (A : Type) : Type :=
| Go (a : A)
| Stop (r : read_outcome).
Arguments Go {A} a.
Arguments Stop {A} r.

Definition walk_bind {A B : Type} (m : walk A) (k : A -> walk B) : walk B :=
  match m with
  | Go a => k a
  | Stop r => Stop r
  end.

Notation "x <- m ;; k" := (walk_bind m (fun x => k))
  (at level 61, m at next level, right associativity).
Notation "' pat <- m ;; k" := (walk_bind m (fun pat => k))
  (at level 61, pat pattern, m at next level, right associativity).

(** [if (c) return;] *)
Definition bail_if (c : bool) (d : archive_diag) : walk unit :=
  if c then Stop (Rejected d) else Go tt.

(** [(flags & mask) != 0] *)
Definition has_bits (flags mask : Z) : bool := negb (Z.land flags mask =? 0).

(** ** File name normalisation: [rspamd_archive_file_try_utf] *)

(** GLib's ASCII classes, on the byte read as [guchar]. *)
Definition g_ascii_isgraph (c : Z) : bool := (0x21 <=? c) && (c <=? 0x7e).
Definition g_ascii_iscntrl (c : Z) : bool := ((0 <=? c) && (c <? 0x20)) || (c =? 0x7f).

(** The value of a plain (signed) [char]. *)
Definition schar (b : byte) : Z := if u8 b <? 128 then u8 b else u8 b - 256.

(** ICU's U16_NEXT over the code units that follow: the next code point and
    the units left. *)
Definition U16_IS_LEAD (c : Z) : bool := Z.land c 0xfffffc00 =? 0xd800.
Definition U16_IS_TRAIL (c : Z) : bool := Z.land c 0xfffffc00 =? 0xdc00.
Definition U16_GET_SUPPLEMENTARY (lead trail : Z) : Z :=
  Z.shiftl lead 10 + trail - (Z.shiftl 0xd800 10 + 0xdc00 - 0x10000).

(** The charset detector and ICU. [rspamd_converter_to_uchars] and
    [ucnv_fromUChars] return [None] when they report an error. *)
Class Charsets : Type := {
  charset : Type;
  converter : Type;
  rspamd_mime_charset_find_by_content : list byte -> option charset;
  rspamd_mime_get_converter_cached : charset -> option converter;
  rspamd_converter_to_uchars : converter -> list byte -> option (list Z);
  ucnv_fromUChars : list Z -> option (list byte);
  IS_ZERO_WIDTH_SPACE : Z -> bool;
  u_iscntrl : Z -> bool
}.

Section Normalizer.

Context `{Charsets}.

(** The [while (i < r)] scan for a control or zero-width code point. *)
Fixpoint uchars_suspicious (s : list Z) : bool :=
  match s with
  | [] => false
  | c :: rest =>
      match rest with
      | c2 :: rest2 =>
          if U16_IS_LEAD c && U16_IS_TRAIL c2 then
            let uc := U16_GET_SUPPLEMENTARY c c2 in
            IS_ZERO_WIDTH_SPACE uc || u_iscntrl uc || uchars_suspicious rest2
          else IS_ZERO_WIDTH_SPACE c || u_iscntrl c || uchars_suspicious rest
      | [] => IS_ZERO_WIDTH_SPACE c || u_iscntrl c
      end
  end.

(** The branch taken when no charset was detected: every byte that is not
    a printable ASCII graphic becomes '?'. *)
Definition sanitize_byte (b : byte) : byte :=
  if g_ascii_isgraph (u8 b) then b else x3f.

Definition byte_suspicious (b : byte) : bool :=
  negb (g_ascii_isgraph (u8 b))
  && ((schar b <? 0x7f) && (g_ascii_iscntrl (u8 b) || (u8 b =? 0))).

(** The file name stored in [fentry->fname] and whether
    RSPAMD_ARCHIVE_FILE_OBFUSCATED was raised.  Every path stores a name. *)
Definition rspamd_archive_file_try_utf (input : list byte) : list byte * bool :=
  match rspamd_mime_charset_find_by_content input with
  | Some cs =>
      match rspamd_mime_get_converter_cached cs with
      | None => (input, true)
      | Some conv =>
          match rspamd_converter_to_uchars conv input with
          | None => (input, true)
          | Some tmp =>
              let obf := uchars_suspicious tmp in
              match ucnv_fromUChars tmp with
              | None => (input, true)
              | Some res => (res, obf)
              end
          end
      end
  | None => (map sanitize_byte input, existsb byte_suspicious input)
  end.

End Normalizer.

(** ** The ZIP reader *)

Section ZipReader.

Context `{Charsets}.

Definition eocd_magic : Z := 0x06054b50.
Definition cd_basic_len : Z := 46.
Definition cd_magic : list byte := [x50; x4b; x01; x02].
Definition max_processed : Z := 1024.

(** The backward search for the end-of-central-directory signature; [p]
    starts 22 bytes before the end of the input. *)
Fixpoint zip_find_eocd (fuel : nat) (buf : list byte) (p processed : Z) : option Z :=
  match fuel with
  | O => None
  | S fuel' =>
      if 0 + 4 <? p then
        if max_processed <? processed then None
        else if le32 buf p =? eocd_magic then Some p
        else zip_find_eocd fuel' buf (p - 1) (processed + 1)
      else None
  end.

(** The walk over the extra fields of one record: whether a header with id
    0x0017 was met. [None] when the fuel ran out. *)
Fixpoint zip_extra_walk (fuel : nat) (buf : list byte) (p extra_end : Z) (seen : bool)
  : option bool :=
  if p + 2 * 2 <? extra_end then
    match fuel with
    | O => None
    | S fuel' =>
        let hid := le16 buf p in
        let hlen := le16 buf (p + 2) in
        zip_extra_walk fuel' buf (p + (hlen + 2 * 2)) extra_end (seen || (hid =? 0x0017))
    end
  else Some seen.

(** One central directory record at [cd]: the entry it yields is added to
    the archive and the cursor moves behind the record. [None] when the
    fuel of the extra-field walk ran out. *)
Definition zip_cd_record (buf : list byte) (eocd cd : Z) (arch : rspamd_archive)
  : option (walk (Z * rspamd_archive)) :=
  if (eocd - cd <? cd_basic_len) || negb (bytes_eqb (sub buf cd 4) cd_magic)
  then Some (Stop (Rejected ZipBadCdRecord))
  else
    let flags := le16 buf (cd + 8) in
    let comp_size := le32 buf (cd + 20) in
    let uncomp_size := le32 buf (cd + 24) in
    let fname_len := le16 buf (cd + 28) in
    let extra_len := le16 buf (cd + 30) in
    let comment_len := le16 buf (cd + 32) in
    if eocd <? cd + fname_len + comment_len + extra_len + cd_basic_len
    then Some (Stop (Rejected ZipCdRecordTooLarge))
    else
      let '(name, obf) :=
        rspamd_archive_file_try_utf (sub buf (cd + cd_basic_len) fname_len) in
      let f := mk_archive_file name comp_size uncomp_size (has_bits flags 0x41) obf in
      (* f->fname is set on every path of the normaliser: the entry is added *)
      let arch := add_file arch f in
      let extra := cd + fname_len + cd_basic_len in
      match zip_extra_walk (Z.to_nat extra_len) buf extra (extra + extra_len) false with
      | None => None
      | Some seen =>
          let arch := if seen then mark_last_encrypted arch else arch in
          Some (Go (cd + (fname_len + comment_len + extra_len + cd_basic_len), arch))
      end.

(** The walk over the central directory records, [cd] running from
    [cd_offset] up to [cd_end = cd_offset + cd_size]. [None] when the fuel
    ran out. *)
Fixpoint zip_cd_walk (fuel : nat) (buf : list byte) (eocd cd_end cd : Z)
  (arch : rspamd_archive) : option read_outcome :=
  if cd <? cd_end then
    match fuel with
    | O => None
    | S fuel' =>
        match zip_cd_record buf eocd cd arch with
        | None => None
        | Some (Stop r) => Some r
        | Some (Go (cd', arch')) => zip_cd_walk fuel' buf eocd cd_end cd' arch'
        end
    end
  else Some (Attached (set_arch_size arch (len buf))).

(** [rspamd_archive_process_zip] on the part's data [buf]; [cd_filename]
    is the file name of the part's Content-Disposition, when it has one. *)
Definition rspamd_archive_process_zip (buf : list byte)
  (cd_filename : option (list byte)) : option read_outcome :=
  let end_ := len buf - 1 in
  match zip_find_eocd 1026 buf (end_ - 21) 0 with
  | None => Some (Rejected ZipNoEocd)
  | Some eocd =>
      if end_ - eocd <? 21 then Some (Rejected ZipShortEocd)
      else
        let cd_size := le32 buf (eocd + 12) in
        let cd_offset := le32 buf (eocd + 16) in
        if u32 eocd <? u32 (cd_offset + cd_size) then Some (Rejected ZipBadCdExtent)
        else
          zip_cd_walk (S (length buf)) buf eocd (cd_offset + cd_size) cd_offset
            (new_archive RSPAMD_ARCHIVE_ZIP cd_filename)
  end.

End ZipReader.

(** ** The RAR readers *)

(** The offset of the first NUL among the [n] bytes at [p]:
    [memchr(p, '\0', n)]. *)
Fixpoint find_byte (c : byte) (s : list byte) : option nat :=
  match s with
  | [] => None
  | b :: s' => if Byte.eqb b c then Some O else option_map S (find_byte c s')
  end.

Section RarReader.

Context `{Charsets}.

(** The macros of the RAR readers over the cursor [p]; [end_] is the offset
    one past the last byte. *)
Definition RAR_SKIP_BYTES (end_ p n : Z) : walk Z :=
  if n <=? 0 then Stop (Rejected RarBadSkip)
  else if u64 (end_ - p) <? n then Stop (Rejected RarTruncated)
  else Go (p + n).

Definition RAR_READ_VINT_SKIP (buf : list byte) (end_ p : Z) : walk (Z * Z) :=
  match rspamd_archive_rar_read_vint (skipn (Z.to_nat p) buf) (u64 (end_ - p)) with
  | VintBad => Stop (Rejected RarBadVint)
  | VintOob => Stop Undefined
  | VintOk vint r => Go (vint, p + r)
  end.

Definition RAR_READ_UINT16 (buf : list byte) (end_ p : Z) : walk (Z * Z) :=
  if end_ - p <? 2 then Stop (Rejected RarBadInt16)
  else Go (le16 buf p, p + 2).

Definition RAR_READ_UINT32 (buf : list byte) (end_ p : Z) : walk (Z * Z) :=
  if end_ - p <? 4 then Stop (Rejected RarBadInt32)
  else Go (le32 buf p, p + 4).

(** The file name bytes [p, p + n) handed to the normaliser.  The length
    checks of both readers compare [n] with [end - p] at an earlier cursor
    (v4) or not with the extent actually read (v5 extras), so the model asks
    again and marks an over-read. *)
Definition name_bytes (buf : list byte) (end_ p n : Z) : walk (list byte) :=
  if end_ <? p + n then Stop Undefined else Go (sub buf p n).

(** The name bytes the v4 reader hands to the normaliser.  With flag 0x200
    the field holds an ASCII name, a NUL and a Unicode form:
    [memchr(p, '\0', fname_len)] reads the bytes in order and stops at the
    first NUL, so a NUL among the bytes that are there ends the search inside
    the input, also when [fname_len] itself reaches past [end]; the name is
    then the [tmp - p] bytes before it.  With no NUL among them the search
    and the normaliser run over all [fname_len] bytes, as they do without
    the flag. *)
Definition rar_v4_name_bytes (buf : list byte) (end_ p flags fname_len : Z)
  : walk (list byte) :=
  if has_bits flags 0x200 then
    let avail := sub buf p (Z.min fname_len (end_ - p)) in
    match find_byte x00 avail with
    | Some k => Go (firstn k avail)     (* the ASCII part before the NUL *)
    | None => name_bytes buf end_ p fname_len
    end
  else name_bytes buf end_ p fname_len.

(** Loop state of the v4 walk: the cursor, [comp_sz], [uncomp_sz] (both
    declared outside the loop) and the archive under construction. *)
Record rar4_state : Type := mk_rar4_state {
  r4_p : Z; r4_comp_sz : Z; r4_uncomp_sz : Z; r4_arch : rspamd_archive
}.

(** [goto end]: attach the archive. *)
Definition rar_attach (buf : list byte) (arch : rspamd_archive) : read_outcome :=
  Attached (set_arch_size arch (len buf)).

(** The file header (type 0x74) of a v4 record: the name, sizes and flags of
    one entry. [p] stands behind the size fields of the record header. *)
Definition rar_v4_file_header (buf : list byte) (end_ p flags sz comp_sz : Z)
  (arch : rspamd_archive) : walk (Z * Z * Z * rspamd_archive) :=
  '(uncomp_sz, p) <- RAR_READ_UINT32 buf end_ p ;;
  p <- RAR_SKIP_BYTES end_ p 11 ;;
  '(fname_len, p) <- RAR_READ_UINT16 buf end_ p ;;
  _ <- bail_if ((fname_len =? 0) || (u64 (end_ - p) <? fname_len)) RarBadFilenameSize ;;
  p <- RAR_SKIP_BYTES end_ p 4 ;;
  '(sz, comp_sz, uncomp_sz, p) <-
    (if has_bits flags 0x100 then
       '(tmp, p) <- RAR_READ_UINT32 buf end_ p ;;
       '(tmp2, p) <- RAR_READ_UINT32 buf end_ p ;;
       Go (u64 (sz + tmp), u64 (comp_sz + tmp), u64 (uncomp_sz + tmp2), p)
     else Go (sz, comp_sz, uncomp_sz, p)) ;;
  raw <- rar_v4_name_bytes buf end_ p flags fname_len ;;
  let '(name, obf) := rspamd_archive_file_try_utf raw in
  let f := mk_archive_file name comp_sz uncomp_sz (has_bits flags 0x4) obf in
  Go (sz, comp_sz, uncomp_sz, add_file arch f).

(** One iteration of [while (p < end)] in [rspamd_archive_process_rar_v4]. *)
Definition rar_v4_record (buf : list byte) (end_ : Z) (st : rar4_state)
  : walk rar4_state :=
  let start_section := r4_p st in
  let arch := r4_arch st in
  p <- RAR_SKIP_BYTES end_ (r4_p st) 2 ;;
  let type := peek buf p in
  let p := p + 1 in
  '(flags, p) <- RAR_READ_UINT16 buf end_ p ;;
  if (type =? 0x73) && has_bits flags 0x80 then
    Stop (rar_attach buf (set_arch_encrypted arch))
  else
    '(sz, p) <- RAR_READ_UINT16 buf end_ p ;;
    '(sz, comp_sz, p) <-
      (if has_bits flags 0x8000 then
         '(tmp, p) <- RAR_READ_UINT32 buf end_ p ;;
         Go (sz + tmp, tmp, p)
       else Go (sz, r4_comp_sz st, p)) ;;
    _ <- bail_if (sz =? 0) RarZeroSizeBlock ;;
    '(sz, comp_sz, uncomp_sz, arch) <-
      (if type =? 0x74 then rar_v4_file_header buf end_ p flags sz comp_sz arch
       else Go (sz, comp_sz, r4_uncomp_sz st, arch)) ;;
    p <- RAR_SKIP_BYTES end_ start_section sz ;;
    Go (mk_rar4_state p comp_sz uncomp_sz arch).

(** [while (p < end)] of the v4 reader; [None] when the fuel ran out. *)
Fixpoint rar_v4_walk (fuel : nat) (buf : list byte) (end_ : Z) (st : rar4_state)
  : option read_outcome :=
  if r4_p st <? end_ then
    match fuel with
    | O => None
    | S fuel' =>
        match rar_v4_record buf end_ st with
        | Stop r => Some r
        | Go st' => rar_v4_walk fuel' buf end_ st'
        end
    end
  else Some (rar_attach buf (r4_arch st)).

Definition rspamd_archive_process_rar_v4 (fuel : nat) (buf : list byte)
  (start end_ : Z) (cd_filename : option (list byte)) : option read_outcome :=
  rar_v4_walk fuel buf end_
    (mk_rar4_state start 0 0 (new_archive RSPAMD_ARCHIVE_RAR cd_filename)).

(** The scan of a v5 file record's extra area for an encryption record:
    [while (ex < p + extra_sz)].  [limit] is [p + extra_sz].  The result tells
    whether a record of type 1 was met; [None] when the fuel ran out. *)
Fixpoint rar_v5_extra_walk (fuel : nat) (buf : list byte) (ex limit extra_sz : Z)
  : option (walk bool) :=
  if ex <? limit then
    match fuel with
    | O => None
    | S fuel' =>
        match rspamd_archive_rar_read_vint (skipn (Z.to_nat ex) buf) extra_sz with
        | VintBad => Some (Stop (Rejected RarBadVint))
        | VintOob => Some (Stop Undefined)
        | VintOk cur_sz r =>
            let t := ex + r in
            match rspamd_archive_rar_read_vint (skipn (Z.to_nat t) buf)
                    (u64 (extra_sz - r)) with
            | VintBad => Some (Stop (Rejected RarBadVint))
            | VintOob => Some (Stop Undefined)
            | VintOk sec_type _ =>
                if sec_type =? 0x01 then Some (Go true)
                else rar_v5_extra_walk fuel' buf (ex + cur_sz) limit extra_sz
            end
        end
    end
  else Some (Go false).

(** Loop state of the v5 walk: the cursor and the variables declared outside
    the loop that one iteration may read before writing. *)
Record rar5_state : Type := mk_rar5_state {
  r5_p : Z; r5_comp_sz : Z; r5_extra_sz : Z; r5_arch : rspamd_archive
}.

(** The common start of a v5 header behind its size field: type, header
    flags, the optional extra-area size and data size. Yields
    [(type, sz, extra, comp_sz, p)], [extra] being the extra size read. *)
Definition rar_v5_header (buf : list byte) (end_ p sz comp_sz : Z)
  : walk (Z * Z * option Z * Z * Z) :=
  '(type, p) <- RAR_READ_VINT_SKIP buf end_ p ;;
  '(flags, p) <- RAR_READ_VINT_SKIP buf end_ p ;;
  '(extra, p) <-
    (if has_bits flags 0x1 then
       '(vint, p) <- RAR_READ_VINT_SKIP buf end_ p ;; Go (Some vint, p)
     else Go (None, p)) ;;
  '(sz, comp_sz, p) <-
    (if has_bits flags 0x2 then
       '(vint, p) <- RAR_READ_VINT_SKIP buf end_ p ;; Go (u64 (sz + vint), vint, p)
     else Go (sz, comp_sz, p)) ;;
  Go (type, sz, extra, comp_sz, p).

(** The body of a v5 file header (type 2), [p] behind the common header
    fields. [None] when the fuel of the extra-area scan ran out. *)
Definition rar_v5_file_header (fuel : nat) (buf : list byte) (end_ p comp_sz : Z)
  (extra : option Z) (extra_sz : Z) (arch : rspamd_archive)
  : option (walk rspamd_archive) :=
  match
    ('(flags, p) <- RAR_READ_VINT_SKIP buf end_ p ;;
     '(uncomp_sz, p) <- RAR_READ_VINT_SKIP buf end_ p ;;
     '(_, p) <- RAR_READ_VINT_SKIP buf end_ p ;;
     p <- (if has_bits flags 0x2 then RAR_SKIP_BYTES end_ p 4 else Go p) ;;
     p <- (if has_bits flags 0x4 then RAR_SKIP_BYTES end_ p 4 else Go p) ;;
     if has_bits flags 0x1 then Go None       (* a directory: no entry *)
     else
       '(_, p) <- RAR_READ_VINT_SKIP buf end_ p ;;
       '(_, p) <- RAR_READ_VINT_SKIP buf end_ p ;;
       '(fname_len, p) <- RAR_READ_VINT_SKIP buf end_ p ;;
       _ <- bail_if ((fname_len =? 0) || (u64 (end_ - p) <? fname_len))
              RarBadFilenameSize ;;
       raw <- name_bytes buf end_ p fname_len ;;
       let '(name, obf) := rspamd_archive_file_try_utf raw in
       let f := mk_archive_file name comp_sz uncomp_sz false obf in
       Go (Some (add_file arch f, p, fname_len)))
  with
  | Stop r => Some (Stop r)
  | Go None => Some (Go arch)
  | Go (Some (arch, p, fname_len)) =>
      match extra with
      | Some _ =>
          if (0 <? extra_sz) && (p + fname_len + extra_sz <? end_) then
            match rar_v5_extra_walk fuel buf (p + fname_len) (p + extra_sz) extra_sz with
            | None => None
            | Some (Stop r) => Some (Stop r)
            | Some (Go true) =>
                Some (Go (set_arch_encrypted (mark_last_encrypted arch)))
            | Some (Go false) => Some (Go arch)
            end
          else Some (Go arch)
      | None => Some (Go arch)
      end
  end.

(** One iteration of [while (p < end)] in the v5 reader. *)
Definition rar_v5_record (fuel : nat) (buf : list byte) (end_ : Z) (st : rar5_state)
  : option (walk rar5_state) :=
  match
    (p <- RAR_SKIP_BYTES end_ (r5_p st) 4 ;;
     '(sz, p) <- RAR_READ_VINT_SKIP buf end_ p ;;
     _ <- bail_if (sz =? 0) RarZeroSizeBlock ;;
     let section_start := p in
     '(type, sz, extra, comp_sz, p) <- rar_v5_header buf end_ p sz (r5_comp_sz st) ;;
     Go (section_start, type, sz, extra, comp_sz, p))
  with
  | Stop r => Some (Stop r)
  | Go (section_start, type, sz, extra, comp_sz, p) =>
      let extra_sz := match extra with Some e => e | None => r5_extra_sz st end in
      if negb (type =? 2) then
        Some (p <- RAR_SKIP_BYTES end_ section_start sz ;;
              Go (mk_rar5_state p comp_sz extra_sz (r5_arch st)))
      else
        match rar_v5_file_header fuel buf end_ p comp_sz extra extra_sz (r5_arch st) with
        | None => None
        | Some (Stop r) => Some (Stop r)
        | Some (Go arch) =>
            Some (p <- RAR_SKIP_BYTES end_ section_start sz ;;
                  Go (mk_rar5_state p comp_sz extra_sz arch))
        end
  end.

(** [while (p < end)] of the v5 reader; [None] when the fuel ran out. *)
Fixpoint rar_v5_walk (fuel : nat) (inner : nat) (buf : list byte) (end_ : Z)
  (st : rar5_state) : option read_outcome :=
  if r5_p st <? end_ then
    match fuel with
    | O => None
    | S fuel' =>
        match rar_v5_record inner buf end_ st with
        | None => None
        | Some (Stop r) => Some r
        | Some (Go st') => rar_v5_walk fuel' inner buf end_ st'
        end
    end
  else Some (rar_attach buf (r5_arch st)).

Definition rar_v5_magic : list byte := [x52; x61; x72; x21; x1a; x07; x01; x00].
Definition rar_v4_magic : list byte := [x52; x61; x72; x21; x1a; x07; x00].

(** [rspamd_archive_process_rar] on the part's data [buf].  [fuel] bounds
    the iterations of each loop; the result is [None] when some loop was
    still running after [fuel] iterations. *)
Definition rspamd_archive_process_rar (fuel : nat) (buf : list byte)
  (cd_filename : option (list byte)) : option read_outcome :=
  let p := 0 in
  let end_ := len buf in
  if u64 (end_ - p) <=? 8 then Some (Rejected RarTooSmall)
  else if bytes_eqb (sub buf p 8) rar_v5_magic then
    let p := p + 8 in
    let arch := new_archive RSPAMD_ARCHIVE_RAR cd_filename in
    match
      (p <- RAR_SKIP_BYTES end_ p 4 ;;
       '(sz, p) <- RAR_READ_VINT_SKIP buf end_ p ;;
       let section_start := p in
       '(type, sz, _, _, p) <- rar_v5_header buf end_ p sz 0 ;;
       if type =? 4 then Stop (rar_attach buf (set_arch_encrypted arch))
       else
         _ <- bail_if (negb (type =? 1)) RarBadMainHeader ;;
         RAR_SKIP_BYTES end_ section_start sz)
    with
    | Stop r => Some r
    | Go p => rar_v5_walk fuel fuel buf end_ (mk_rar5_state p 0 0 arch)
    end
  else if bytes_eqb (sub buf p 7) rar_v4_magic then
    rspamd_archive_process_rar_v4 fuel buf (p + 7) end_ cd_filename
  else Some (Rejected RarNoMagic).

End RarReader.

(** ** The 7-Zip reader *)

(** [enum rspamd_7zip_header_mark] *)
Definition kEnd : Z := 0x00.
Definition kHeader : Z := 0x01.
Definition kArchiveProperties : Z := 0x02.
Definition kAdditionalStreamsInfo : Z := 0x03.
Definition kMainStreamsInfo : Z := 0x04.
Definition kFilesInfo : Z := 0x05.
Definition kPackInfo : Z := 0x06.
Definition kUnPackInfo : Z := 0x07.
Definition kSubStreamsInfo : Z := 0x08.
Definition kSize : Z := 0x09.
Definition kCRC : Z := 0x0A.
Definition kFolder : Z := 0x0B.
Definition kCodersUnPackSize : Z := 0x0C.
Definition kNumUnPackStream : Z := 0x0D.
Definition kEmptyStream : Z := 0x0E.
Definition kEmptyFile : Z := 0x0F.
Definition kAnti : Z := 0x10.
Definition kName : Z := 0x11.
Definition kCTime : Z := 0x12.
Definition kATime : Z := 0x13.
Definition kMTime : Z := 0x14.
Definition kWinAttributes : Z := 0x15.
Definition kComment : Z := 0x16.
Definition kEncodedHeader : Z := 0x17.
Definition kStartPos : Z := 0x18.
Definition kDummy : Z := 0x19.

Definition IS_SZ_ENCRYPTED (codec_id : Z) : bool :=
  (codec_id =? 0x06F10101) || (codec_id =? 0x06F10303) || (codec_id =? 0x06F10701).

(** libarchive, used for encoded headers.  [archive_read_7zip buf] is [None]
    when [archive_read_open_memory] fails; otherwise it lists what
    [archive_entry_pathname_utf8] gave for each header ([None] for NULL) up
    to the first [archive_read_next_header] that is not ARCHIVE_OK, and tells
    whether [archive_read_has_encrypted_entries] is positive. *)
Class Libarchive : Type := {
  archive_read_7zip : list byte -> option (list (option (list byte)) * bool)
}.

(** What the section handlers share: the archive they fill through [arch]
    and the failures met so far (every diagnostic about a malformed archive,
    and every [return NULL] that logs nothing).  Reaching the End section is
    no failure. *)
Record sz_state : Type := mk_sz_state {
  sz_arch : rspamd_archive;
  sz_failures : list archive_diag
}.

(** What a handler hands back: a value (for most, the cursor), NULL, a load
    of bytes that lie outside the input or were never stored, or no answer
    within the fuel. *)
Inductive sz_result (A : Type) : Type :=
| SzOk (a : A) (st : sz_state)
| SzNull (st : sz_state)
| SzUndefined
| SzFuel.
Arguments SzOk {A} a st.
Arguments SzNull {A} st.
Arguments SzUndefined {A}.
Arguments SzFuel {A}.

Definition szm (A : Type) : Type := sz_state -> sz_result A.

Definition sz_ret {A : Type} (a : A) : szm A := fun st => SzOk a st.

Definition sz_bind {A B : Type} (m : szm A) (k : A -> szm B) : szm B :=
  fun st =>
    match m st with
    | SzOk a st' => k a st'
    | SzNull st' => SzNull st'
    | SzUndefined => SzUndefined
    | SzFuel => SzFuel
    end.

Notation "x <~ m ;; k" := (sz_bind m (fun x => k))
  (at level 61, m at next level, right associativity).
Notation "' pat <~ m ;; k" := (sz_bind m (fun pat => k))
  (at level 61, pat pattern, m at next level, right associativity).

(** A diagnostic (or a silent failure) followed by [return NULL]. *)
Definition sz_fail {A : Type} (d : archive_diag) : szm A :=
  fun st => SzNull (mk_sz_state (sz_arch st) (sz_failures st ++ [d])).

(** A diagnostic after which the handler goes on. *)
Definition sz_log (d : archive_diag) : szm unit :=
  fun st => SzOk tt (mk_sz_state (sz_arch st) (sz_failures st ++ [d])).

(** [p = NULL] without a failure: the End section. *)
Definition sz_null {A : Type} : szm A := fun st => SzNull st.

Definition sz_undefined {A : Type} : szm A := fun _ => SzUndefined.
Definition sz_out_of_fuel {A : Type} : szm A := fun _ => SzFuel.

Definition sz_update_arch (g : rspamd_archive -> rspamd_archive) : szm unit :=
  fun st => SzOk tt (mk_sz_state (g (sz_arch st)) (sz_failures st)).

(** One round of a loop over the cursor: go round again, or leave the loop
    and the function with the cursor ([goto end]). *)
Inductive loop_step (S : Type) : Type :=
| Continue (s : S) (p : Z)
| Break (s : S) (p : Z).
Arguments Continue {S} s p.
Arguments Break {S} s p.

(** [while (p != NULL && p < end) body], with the loop's variables in [s]. *)
Fixpoint sz_while {S : Type} (fuel : nat) (end_ : Z)
  (body : S -> Z -> szm (loop_step S)) (s : S) (p : Z) : szm (S * Z) :=
  if p <? end_ then
    match fuel with
    | O => sz_out_of_fuel
    | Datatypes.S fuel' =>
        r <~ body s p ;;
        match r with
        | Continue s' p' => sz_while fuel' end_ body s' p'
        | Break s' p' => sz_ret (s', p')
        end
    end
  else sz_ret (s, p).

(** [for (i = 0; i < n; i++) body], the body moving the cursor. *)
Fixpoint sz_for {S : Type} (fuel : nat) (n : Z)
  (body : S -> Z -> szm (S * Z)) (s : S) (p : Z) : szm (S * Z) :=
  if 0 <? n then
    match fuel with
    | O => sz_out_of_fuel
    | Datatypes.S fuel' =>
        '(s', p') <~ body s p ;;
        sz_for fuel' (n - 1) body s' p'
    end
  else sz_ret (s, p).

(** [for (i = 0; i < n && p != NULL && p < end; i++) body] *)
Fixpoint sz_for_in {S : Type} (fuel : nat) (end_ n : Z)
  (body : S -> Z -> szm (S * Z)) (s : S) (p : Z) : szm (S * Z) :=
  if (0 <? n) && (p <? end_) then
    match fuel with
    | O => sz_out_of_fuel
    | Datatypes.S fuel' =>
        '(s', p') <~ body s p ;;
        sz_for_in fuel' end_ (n - 1) body s' p'
    end
  else sz_ret (s, p).

(** The value of a 64-bit pattern read as [int64_t]. *)
Definition s64 (z : Z) : Z := if u64 z <? 2 ^ 63 then u64 z else u64 z - 2 ^ 64.

(** The first aligned pair of zero bytes: the terminator of a UCS-2 name.
    [off] is [tp - p]. *)
Fixpoint find_ucs2_end (mem : list byte) (off : Z) : option Z :=
  match mem with
  | b0 :: mem1 =>
      match mem1 with
      | b1 :: mem2 =>
          if (u8 b0 =? 0) && (u8 b1 =? 0) then Some off
          else find_ucs2_end mem2 (off + 2)
      | [] => None
      end
  | [] => None
  end.

(** The 16-bit units of a byte string, as a little-endian host loads them
    through a pointer to [uint16_t]. *)
Fixpoint ucs2_units (s : list byte) : list Z :=
  match s with
  | b0 :: s1 =>
      match s1 with
      | b1 :: s2 => (u8 b0 + u8 b1 * 2 ^ 8) :: ucs2_units s2
      | [] => []
      end
  | [] => []
  end.

(** ICU's U8_APPEND; [None] when it sets [isError].  The capacity tests of
    the macro never fail here: the string is allocated with three bytes for
    every unit of the input and five more. *)
Definition U8_APPEND (c : Z) : option (list byte) :=
  if c <=? 0x7f then Some [byte_of_Z c]
  else if c <=? 0x7ff then
    Some [byte_of_Z (Z.lor (Z.shiftr c 6) 0xc0);
          byte_of_Z (Z.lor (Z.land c 0x3f) 0x80)]
  else if (c <=? 0xd7ff) || ((0xe000 <=? c) && (c <=? 0xffff)) then
    Some [byte_of_Z (Z.lor (Z.shiftr c 12) 0xe0);
          byte_of_Z (Z.lor (Z.land (Z.shiftr c 6) 0x3f) 0x80);
          byte_of_Z (Z.lor (Z.land c 0x3f) 0x80)]
  else if (0xffff <? c) && (c <=? 0x10ffff) then
    Some [byte_of_Z (Z.lor (Z.shiftr c 18) 0xf0);
          byte_of_Z (Z.lor (Z.land (Z.shiftr c 12) 0x3f) 0x80);
          byte_of_Z (Z.lor (Z.land (Z.shiftr c 6) 0x3f) 0x80);
          byte_of_Z (Z.lor (Z.land c 0x3f) 0x80)]
  else None.

(** The loop of [rspamd_7zip_ucs2_to_utf8] over the units left: U16_NEXT,
    then U8_APPEND of every code point above zero. *)
Fixpoint ucs2_to_utf8_units (units : list Z) : option (list byte) :=
  match units with
  | [] => Some []
  | c :: rest =>
      match rest with
      | c2 :: rest2 =>
          if U16_IS_LEAD c && U16_IS_TRAIL c2 then
            match U8_APPEND (U16_GET_SUPPLEMENTARY c c2), ucs2_to_utf8_units rest2 with
            | Some a, Some b => Some (a ++ b)
            | _, _ => None
            end
          else
            match (if 0 <? c then U8_APPEND c else Some []), ucs2_to_utf8_units rest with
            | Some a, Some b => Some (a ++ b)
            | _, _ => None
            end
      | [] =>
          if 0 <? c then U8_APPEND c else Some []
      end
  end.

(** [rspamd_7zip_ucs2_to_utf8] on the bytes between [p] and [end]; [None]
    for NULL. *)
Definition rspamd_7zip_ucs2_to_utf8 (raw : list byte) : option (list byte) :=
  ucs2_to_utf8_units (ucs2_units raw).

(** How the walk over the sections ends. *)
Inductive sz_walk_end : Type :=
| WalkDone (st : sz_state)
| WalkUndefined
| WalkFuel.

Section SevenZipReader.

Context `{Platform} `{Libarchive}.

(** The input and one past its last offset, fixed for all handlers.  A
    cursor is an offset into [buf], the pointer less [data_addr]. *)
Variable buf : list byte.
Variable end_ : Z.

(** Enough for any loop in which every round moves the cursor forward. *)
Definition sz_fuel : nat := S (length buf).

Definition SZ_READ_VINT (p : Z) : szm (Z * Z) :=
  fun st =>
    match rspamd_archive_7zip_read_vint (skipn (Z.to_nat p) buf) (u64 (end_ - p)) with
    | VintBad => sz_fail SzBadVint st
    | VintOob => SzUndefined
    | VintOk v r => SzOk (v, p + r) st
    end.

Definition SZ_SKIP_BYTES (p n : Z) : szm Z :=
  if n <=? end_ - p then sz_ret (p + n) else sz_fail SzTruncated.

(** [rspamd_7zip_read_bits]: the cursor behind [nbits] bits and the number
    of bits found set, added to [bits_set]. *)
Fixpoint rspamd_7zip_read_bits (nbits : nat) (p mask avail bits_set : Z)
  : szm (Z * Z) :=
  match nbits with
  | O => sz_ret (p, bits_set)
  | S nbits' =>
      '(p, mask, avail) <~
        (if mask =? 0 then
           let avail := peek buf p in
           p <~ SZ_SKIP_BYTES p 1 ;; sz_ret (p, 0x80, avail)
         else sz_ret (p, mask, avail)) ;;
      let bits_set := if has_bits avail mask then u32 (bits_set + 1) else bits_set in
      rspamd_7zip_read_bits nbits' p (Z.shiftr mask 1) avail bits_set
  end.

(** [rspamd_7zip_read_digest]: the cursor behind the digests and
    [num_defined]. *)
Definition rspamd_7zip_read_digest (p num_streams : Z) : szm (Z * Z) :=
  let all_defined := peek buf p in
  p <~ SZ_SKIP_BYTES p 1 ;;
  '(p, num_defined) <~
    (if negb (all_defined =? 0) then sz_ret (p, u32 num_streams)
     else if 8192 <? num_streams then sz_fail SzTooMany
     else rspamd_7zip_read_bits (Z.to_nat num_streams) p 0 0 0) ;;
  '(_, p) <~ sz_for sz_fuel num_defined
               (fun (_ : unit) p => p <~ SZ_SKIP_BYTES p 4 ;; sz_ret (tt, p)) tt p ;;
  sz_ret (p, num_defined).

(** A loop body that reads one vint and drops it. *)
Definition sz_skip_vint (_ : unit) (p : Z) : szm (unit * Z) :=
  '(_, p) <~ SZ_READ_VINT p ;; sz_ret (tt, p).

Definition rspamd_7zip_read_pack_info (p : Z) : szm Z :=
  '(_, p) <~ SZ_READ_VINT p ;;
  '(pack_streams, p) <~ SZ_READ_VINT p ;;
  '(_, p) <~ sz_while sz_fuel end_
    (fun (_ : unit) p =>
       let t := peek buf p in
       p <~ SZ_SKIP_BYTES p 1 ;;
       if t =? kSize then
         '(_, p) <~ sz_for sz_fuel pack_streams sz_skip_vint tt p ;;
         sz_ret (Continue tt p)
       else if t =? kCRC then
         '(p, _) <~ rspamd_7zip_read_digest p pack_streams ;;
         sz_ret (Continue tt p)
       else if t =? kEnd then sz_ret (Break tt p)
       else sz_fail SzBadType)
    tt p ;;
  sz_ret p.

(** The big-endian value of the [sz] bytes of a codec id:
    [tmp <<= 8; tmp += p[j]]. *)
Definition codec_id (bytes : list byte) : Z :=
  fold_left (fun tmp b => u64 (u64 (Z.shiftl tmp 8) + u8 b)) bytes 0.

(** One coder of a folder: the streams counted so far are
    [(ninstreams, noutstreams)]. *)
Definition sz_read_coder (s : Z * Z) (p : Z) : szm (Z * Z * Z) :=
  let '(ninstreams, noutstreams) := s in
  let t := peek buf p in
  p <~ SZ_SKIP_BYTES p 1 ;;
  let sz := Z.land t 0xF in
  (* the id bytes are loaded before their extent is checked *)
  if end_ <? p + sz then sz_undefined
  else
    let tmp := codec_id (sub buf p sz) in
    _ <~ (if IS_SZ_ENCRYPTED tmp then sz_update_arch set_arch_encrypted else sz_ret tt) ;;
    p <~ SZ_SKIP_BYTES p sz ;;
    '(ninstreams, noutstreams, p) <~
      (if has_bits t (Z.shiftl 1 4) then
         '(tmp, p) <~ SZ_READ_VINT p ;;
         let ninstreams := u64 (ninstreams + tmp) in
         '(tmp, p) <~ SZ_READ_VINT p ;;
         sz_ret (ninstreams, u64 (noutstreams + tmp), p)
       else sz_ret (u64 (ninstreams + 1), u64 (noutstreams + 1), p)) ;;
    p <~ (if has_bits t (Z.shiftl 1 5) then
            '(tmp, p) <~ SZ_READ_VINT p ;; SZ_SKIP_BYTES p tmp
          else sz_ret p) ;;
    sz_ret (ninstreams, noutstreams, p).

(** [rspamd_7zip_read_folder]: the cursor behind the folder, what is stored
    through [pnstreams] and what is added to [*ndigests]. *)
Definition rspamd_7zip_read_folder (p : Z) : szm (Z * Z * Z) :=
  '(ncoders, p) <~ SZ_READ_VINT p ;;
  '(ninstreams, noutstreams, p) <~
    sz_for_in sz_fuel end_ ncoders
      (fun s p => '(i, o, p) <~ sz_read_coder s p ;; sz_ret ((i, o), p)) (0, 0) p ;;
  '(_, p) <~
    (if 1 <? noutstreams then
       sz_for sz_fuel (noutstreams - 1)
         (fun (_ : unit) p =>
            '(_, p) <~ SZ_READ_VINT p ;; '(_, p) <~ SZ_READ_VINT p ;; sz_ret (tt, p))
         tt p
     else sz_ret (tt, p)) ;;
  let npacked := s64 (s64 ninstreams - s64 noutstreams + 1) in
  '(_, p) <~ (if 1 <? npacked then sz_for sz_fuel npacked sz_skip_vint tt p
             else sz_ret (tt, p)) ;;
  sz_ret (p, u32 noutstreams, npacked).

(** The variables of [rspamd_7zip_read_coders_info].  [ci_nstreams] is
    [folder_nstreams]: [None] for NULL, else the elements of the array that
    were stored; the others are what [g_malloc] left there. *)
Record coders_state : Type := mk_coders_state {
  ci_num_folders : Z;
  ci_nstreams : option (list Z);
  ci_num_digests : Z;
  ci_digests_read : Z
}.

(** [for (i = 0; i < num_folders && p != NULL && p < end; i++)
      p = rspamd_7zip_read_folder(..., &folder_nstreams[i], &num_digests)]:
    [todo] folders are left, [done] holds the elements stored so far. *)
Fixpoint sz_read_folders (todo : nat) (done : list Z) (num_digests p : Z)
  : szm (list Z * Z * Z) :=
  match todo with
  | O => sz_ret (done, num_digests, p)
  | S todo' =>
      if p <? end_ then
        '(p, nstreams, npacked) <~ rspamd_7zip_read_folder p ;;
        sz_read_folders todo' (done ++ [nstreams]) (u32 (num_digests + npacked)) p
      else sz_ret (done, num_digests, p)
  end.

(** [kCodersUnPackSize] when [folder_nstreams] is not NULL: for each folder,
    while the cursor is inside the input, as many vints as the folder has
    streams.  [nstreams] is the array from index [i] on, [todo] is
    [num_folders - i]. *)
Fixpoint sz_unpack_sizes (nstreams : list Z) (todo p : Z) : szm Z :=
  if (0 <? todo) && (p <? end_) then
    match nstreams with
    | [] => sz_undefined     (* folder_nstreams[i] was never stored, or lies
                                behind the array *)
    | n :: rest =>
        '(_, p) <~ sz_for sz_fuel n sz_skip_vint tt p ;;
        sz_unpack_sizes rest (todo - 1) p
    end
  else sz_ret p.

Definition rspamd_7zip_read_coders_info (p : Z) : szm (Z * Z * Z) :=
  '(s, p) <~ sz_while sz_fuel end_
    (fun s p =>
       let t := peek buf p in
       p <~ SZ_SKIP_BYTES p 1 ;;
       if t =? kFolder then
         '(num_folders, p) <~ SZ_READ_VINT p ;;
         if negb (peek buf p =? 0) then
           (* external folders *)
           p <~ SZ_SKIP_BYTES p 1 ;;
           '(_, p) <~ SZ_READ_VINT p ;;
           sz_ret (Continue (mk_coders_state num_folders (ci_nstreams s)
                               (ci_num_digests s) (ci_digests_read s)) p)
         else
           p <~ SZ_SKIP_BYTES p 1 ;;
           if 8192 <? num_folders then sz_fail SzTooMany
           else
             '(stored, num_digests, p) <~
               sz_read_folders (Z.to_nat num_folders) [] (ci_num_digests s) p ;;
             (* g_malloc(0) is NULL *)
             let array := if num_folders =? 0 then None else Some stored in
             sz_ret (Continue (mk_coders_state num_folders array num_digests
                                 (ci_digests_read s)) p)
       else if t =? kCodersUnPackSize then
         match ci_nstreams s with
         | Some array =>
             p <~ sz_unpack_sizes array (ci_num_folders s) p ;;
             sz_ret (Continue s p)
         | None =>
             (* folder_nstreams is NULL: every round logs "internal 7zip
                error" and leaves the cursor where it is *)
             sz_ret (Continue s p)
         end
       else if t =? kCRC then
         '(p, digests_read) <~ rspamd_7zip_read_digest p (ci_num_digests s) ;;
         sz_ret (Continue (mk_coders_state (ci_num_folders s) (ci_nstreams s)
                             (ci_num_digests s) digests_read) p)
       else if t =? kEnd then sz_ret (Break s p)
       else sz_fail SzBadType)
    (mk_coders_state 0 None 0 0) p ;;
  sz_ret (p, u32 (ci_num_folders s), u32 (ci_num_digests s - ci_digests_read s)).

(** [kNumUnPackStream]: one vint per folder, stored in turn. *)
Fixpoint sz_read_stream_counts (todo : nat) (done : list Z) (p : Z)
  : szm (list Z * Z) :=
  match todo with
  | O => sz_ret (done, p)
  | S todo' =>
      '(tmp, p) <~ SZ_READ_VINT p ;;
      sz_read_stream_counts todo' (done ++ [tmp]) p
  end.

(** [kSize]: for each folder as many vints as it has streams. *)
Fixpoint sz_skip_stream_sizes (nstreams : list Z) (p : Z) : szm Z :=
  match nstreams with
  | [] => sz_ret p
  | n :: rest =>
      '(_, p) <~ sz_for sz_fuel n sz_skip_vint tt p ;;
      sz_skip_stream_sizes rest p
  end.

Definition rspamd_7zip_read_substreams_info (p num_folders num_nodigest : Z)
  : szm Z :=
  if 8192 <? num_folders then sz_fail SzTooMany
  else
    let n := Z.to_nat num_folders in
    '(_, p) <~ sz_while sz_fuel end_
      (fun folder_nstreams p =>
         let t := peek buf p in
         p <~ SZ_SKIP_BYTES p 1 ;;
         if t =? kNumUnPackStream then
           '(counts, p) <~ sz_read_stream_counts n [] p ;;
           sz_ret (Continue counts p)
         else if t =? kCRC then
           '(p, _) <~ rspamd_7zip_read_digest p num_nodigest ;;
           sz_ret (Continue folder_nstreams p)
         else if t =? kSize then
           p <~ sz_skip_stream_sizes folder_nstreams p ;;
           sz_ret (Continue folder_nstreams p)
         else if t =? kEnd then sz_ret (Break folder_nstreams p)
         else sz_fail SzBadType)
      (repeat 0 n) p ;;
    sz_ret p.

Definition rspamd_7zip_read_main_streams_info (p : Z) : szm Z :=
  '(_, p) <~ sz_while sz_fuel end_
    (fun s p =>
       let '(num_folders, unknown_digests) := s in
       let t := peek buf p in
       p <~ SZ_SKIP_BYTES p 1 ;;
       if t =? kPackInfo then
         p <~ rspamd_7zip_read_pack_info p ;; sz_ret (Continue s p)
       else if t =? kUnPackInfo then
         '(p, num_folders, unknown_digests) <~ rspamd_7zip_read_coders_info p ;;
         sz_ret (Continue (num_folders, unknown_digests) p)
       else if t =? kSubStreamsInfo then
         p <~ rspamd_7zip_read_substreams_info p num_folders unknown_digests ;;
         sz_ret (Continue s p)
       else if t =? kEnd then sz_ret (Break s p)
       else sz_fail SzBadType)
    (0, 0) p ;;
  sz_ret p.

(** The pointer [p + n] for a [uint64_t] [n], as an offset: the address
    [data_addr + p + n] wrapped to 64 bits.  Past 2^64 the pointer comes out
    [2^64 - n] bytes below [p]. *)
Definition sz_ptr_add (p n : Z) : Z := u64 (data_addr + p + n) - data_addr.

(** The [while (proptype != 0)] loop of [rspamd_7zip_read_archive_props].
    [if (p + proplen < end) p += proplen;] compares the wrapped pointer with
    [end]: a pointer that wrapped passes the test and moves the cursor
    backwards, to a byte of the data or to one below it. *)
Fixpoint sz_archive_props_loop (fuel : nat) (proptype p : Z) : szm Z :=
  if negb (proptype =? 0) then
    match fuel with
    | O => sz_out_of_fuel
    | S fuel' =>
        '(proplen, p) <~ SZ_READ_VINT p ;;
        let q := sz_ptr_add p proplen in
        if q <? end_ then
          if q <? 0 then sz_undefined      (* [*p] below the data *)
          else
            let proptype := peek buf q in
            p <~ SZ_SKIP_BYTES q 1 ;;
            sz_archive_props_loop fuel' proptype p
        else sz_fail SzTruncated       (* return NULL, nothing logged *)
    end
  else sz_ret p.

Definition rspamd_7zip_read_archive_props (p : Z) : szm Z :=
  let proptype := peek buf p in
  p <~ SZ_SKIP_BYTES p 1 ;;
  sz_archive_props_loop sz_fuel proptype p.

(** The names of a kName property: [for (i = 0; i < nfiles; i++)].  The
    result is [inr p] when a name is missing or empty ([goto end]), [inl p]
    when the loop ran to its end. *)
Fixpoint sz_read_names (fuel : nat) (nfiles p : Z) : szm (Z + Z) :=
  if 0 <? nfiles then
    match fuel with
    | O => sz_out_of_fuel
    | S fuel' =>
        match find_ucs2_end (sub buf p (end_ - p)) 0 with
        | None => _ <~ sz_log SzBadName ;; sz_ret (inr p)
        | Some n =>
            if n =? 0 then _ <~ sz_log SzBadName ;; sz_ret (inr p)
            else
              _ <~ (match rspamd_7zip_ucs2_to_utf8 (sub buf p n) with
                    | Some res =>
                        sz_update_arch (fun a => add_file a (mk_archive_file res 0 0 false false))
                    | None => sz_log SzBadName   (* the name is dropped *)
                    end) ;;
              sz_read_names fuel' (nfiles - 1) (p + n + 2)
        end
    end
  else sz_ret (inl p).

Definition rspamd_7zip_read_files_info (p : Z) : szm Z :=
  '(nfiles, p) <~ SZ_READ_VINT p ;;
  '(_, p) <~ sz_while sz_fuel end_
    (fun (_ : unit) p =>
       let t := peek buf p in
       p <~ SZ_SKIP_BYTES p 1 ;;
       if t =? kEnd then sz_ret (Break tt p)
       else
         '(sz, p) <~ SZ_READ_VINT p ;;
         if (t =? kEmptyStream) || (t =? kEmptyFile) || (t =? kAnti)
            || (t =? kCTime) || (t =? kATime) || (t =? kMTime)
            || (t =? kDummy) || (t =? kWinAttributes) then
           p <~ (if 0 <? sz then SZ_SKIP_BYTES p sz else sz_ret p) ;;
           sz_ret (Continue tt p)
         else if t =? kName then
           let b := peek buf p in
           p <~ SZ_SKIP_BYTES p 1 ;;
           if negb (b =? 0) then
             '(_, p) <~ SZ_READ_VINT p ;; sz_ret (Continue tt p)
           else
             r <~ sz_read_names sz_fuel nfiles p ;;
             match r with
             | inl p => sz_ret (Continue tt p)
             | inr p => sz_ret (Break tt p)
             end
         else sz_fail SzBadType)
    tt p ;;
  sz_ret p.

(** The entries libarchive reports, in place of those collected so far. *)
Definition libarchive_files (names : list (option (list byte)))
  : list rspamd_archive_file :=
  flat_map (fun n => match n with
                     | Some name => [mk_archive_file name 0 0 false false]
                     | None => []
                     end) names.

Definition rspamd_7zip_read_next_section (p : Z) : szm Z :=
  let t := peek buf p in
  p <~ SZ_SKIP_BYTES p 1 ;;
  if t =? kHeader then sz_ret p
  else if t =? kEncodedHeader then
    match archive_read_7zip buf with
    | None => sz_fail SzLibarchiveOpen
    | Some (names, encrypted) =>
        _ <~ sz_update_arch (fun a =>
               let a := mk_archive (arch_type a) (archive_name a) (arch_size a)
                          (arch_encrypted a) (arch_has_obfuscated a)
                          (libarchive_files names) in
               if encrypted then set_arch_encrypted a else a) ;;
        sz_null
    end
  else if t =? kArchiveProperties then rspamd_7zip_read_archive_props p
  else if t =? kMainStreamsInfo then rspamd_7zip_read_main_streams_info p
  else if t =? kAdditionalStreamsInfo then rspamd_7zip_read_main_streams_info p
  else if t =? kFilesInfo then rspamd_7zip_read_files_info p
  else if t =? kEnd then sz_null
  else sz_fail SzBadType.

(** [while ((p = rspamd_7zip_read_next_section(...)) != NULL);] hands over
    the state the walk ends in, whether NULL came from the End section, from
    libarchive or from a failure. *)
Fixpoint sz_sections (fuel : nat) (p : Z) (st : sz_state) : sz_walk_end :=
  match fuel with
  | O => WalkFuel
  | S fuel' =>
      match rspamd_7zip_read_next_section p st with
      | SzOk p' st' => sz_sections fuel' p' st'
      | SzNull st' => WalkDone st'
      | SzUndefined => WalkUndefined
      | SzFuel => WalkFuel
      end
  end.

End SevenZipReader.

Definition sz_magic : list byte := [x37; x7a; xbc; xaf; x27; x1c].

(** The start header, up to the first section: the diagnostic it is refused
    with, or the offset of the first section. *)
Definition sz_start_header (buf : list byte) : archive_diag + Z :=
  let end_ := len buf in
  let p := 0 in
  if (u64 (end_ - p) <=? 8 + 4) || negb (bytes_eqb (sub buf p 6) sz_magic) then
    inl SzNoMagic
  else
    (* magic (6 bytes) + version (2 bytes) + crc32 (4 bytes) *)
    let p := p + (8 + 4) in
    if end_ - p <? 8 then inl SzBadUint64
    else
      let section_offset := le64 buf p in
      let p := p + 8 in
      (* section_length is read and not used *)
      if end_ - p <? 8 then inl SzBadUint64
      else
        let p := p + 8 in
        if negb (4 <? u64 (end_ - p)) then inl SzTruncatedCrc
        else
          let p := p + 4 in
          if negb (section_offset <? u64 (end_ - p)) then inl SzBadSectionOffset
          else inr (p + section_offset).

(** What [rspamd_archive_process_7zip] leaves behind: the outcome for the
    part, and the failures met while parsing. *)
Record sz_report : Type := mk_sz_report {
  sz_outcome : read_outcome;
  sz_parse_failures : list archive_diag
}.

(** [rspamd_archive_process_7zip] on the part's data [buf]; [cd_filename]
    is the file name of the part's Content-Disposition, when it has one.
    [None] when the fuel of some loop ran out. *)
Definition rspamd_archive_process_7zip `{Platform} `{Libarchive} (buf : list byte)
  (cd_filename : option (list byte)) : option sz_report :=
  match sz_start_header buf with
  | inl d => Some (mk_sz_report (Rejected d) [d])
  | inr p =>
      let arch := new_archive RSPAMD_ARCHIVE_7ZIP None in
      match sz_sections buf (len buf) (S (length buf)) p (mk_sz_state arch []) with
      | WalkDone st =>
          let arch := set_arch_size (set_arch_name (sz_arch st) cd_filename) (len buf) in
          Some (mk_sz_report (Attached arch) (sz_failures st))
      | WalkUndefined => Some (mk_sz_report Undefined [])
      | WalkFuel => None
      end
  end.

(** ** The gzip reader *)

(** The offset of the last [c] in [s]: [rspamd_memrchr]. *)
Fixpoint rfind_byte (c : byte) (s : list byte) : option nat :=
  match s with
  | [] => None
  | b :: s' =>
      match rfind_byte c s' with
      | Some k => Some (S k)
      | None => if Byte.eqb b c then Some O else None
      end
  end.

(** The scan for the end of the stored file name: the first NUL that does
    not stand at [fname_start] itself. [off] is [p - fname_start]. *)
Fixpoint gzip_name_end (mem : list byte) (off : Z) : option Z :=
  match mem with
  | [] => None
  | b :: mem' =>
      if (u8 b =? 0) && (0 <? off) then Some off
      else gzip_name_end mem' (off + 1)
  end.

(** The [else] branch of the fallback: the part of the name before its last
    dot when an earlier dot exists (foo.exe.gz), the whole name when the
    last dot is the only one (foo.gzz). *)
Definition gzip_fallback_no_dir (filename : list byte) (dot_pos : nat)
  : option (list byte) :=
  match find_byte x2e filename with          (* memchr(fname_start, '.', len) *)
  | Some k =>
      if negb (k =? dot_pos)%nat then Some (firstn dot_pos filename)
      else Some filename
  | None => Some (firstn dot_pos filename)
  end.

(** The entry name derived from the part's file name when the stream has
    none: [None] when the name has no dot. *)
Definition gzip_fallback_name (filename : list byte) : option (list byte) :=
  match rfind_byte x2e filename with         (* dot_pos *)
  | None => None
  | Some dot_pos =>
      let slash_pos := rfind_byte x2f filename in
      match slash_pos with
      | Some sp =>
          if (sp <? dot_pos)%nat then
            (* slash_pos && slash_pos < dot_pos *)
            Some (firstn (dot_pos - sp - 1) (skipn (sp + 1) filename))
          else gzip_fallback_no_dir filename dot_pos
      | None => gzip_fallback_no_dir filename dot_pos
      end
  end.

Section GzipReader.

Context `{Charsets}.

Definition gz_magic : list byte := [x1f; x8b].

Definition gzip_attach (buf : list byte) (arch : rspamd_archive) : read_outcome :=
  Attached (set_arch_size arch (len buf)).

(** The branch for a stream that carries its file name (FLG.FNAME). *)
Definition gzip_stored_name (buf : list byte) (end_ flags : Z) (arch : rspamd_archive)
  : walk read_outcome :=
  let p := if has_bits flags (Z.shiftl 1 1) then 0 + 12 else 0 + 10 in
  p <- (if has_bits flags (Z.shiftl 1 2) then
          '(optlen, p) <- RAR_READ_UINT16 buf end_ p ;;
          _ <- bail_if (end_ <=? p + optlen) GzipBadExtra ;;
          Go (p + optlen)
        else Go p) ;;
  let fname_start := p in
  match gzip_name_end (skipn (Z.to_nat fname_start) buf) 0 with
  | Some n =>
      let '(name, obf) := rspamd_archive_file_try_utf (sub buf fname_start n) in
      Go (gzip_attach buf (add_file arch (mk_archive_file name 0 0 false obf)))
  | None => Stop (Rejected GzipBadFilename)
  end.

(** [rspamd_archive_process_gzip] on the part's data [buf]; [cd_filename]
    is the file name of the part's Content-Disposition, when it has one. *)
Definition rspamd_archive_process_gzip (buf : list byte)
  (cd_filename : option (list byte)) : read_outcome :=
  let end_ := len buf in
  if (end_ - 0 <=? 10) || negb (bytes_eqb (sub buf 0 2) gz_magic) then
    Rejected GzipNoMagic
  else
    let arch := new_archive RSPAMD_ARCHIVE_GZIP cd_filename in
    let flags := peek buf 3 in
    let arch := if has_bits flags (Z.shiftl 1 5) then set_arch_encrypted arch else arch in
    if has_bits flags (Z.shiftl 1 3) then
      match gzip_stored_name buf end_ flags arch with
      | Go r => r
      | Stop r => r
      end
    else
      match cd_filename with
      | Some filename =>
          if 0 <? len filename then
            match gzip_fallback_name filename with
            | Some name =>
                gzip_attach buf (add_file arch (mk_archive_file name 0 0 false false))
            | None => Rejected GzipNoFallback
            end
          else Rejected GzipNoFallback
      | None => Rejected GzipNoFallback
      end.

End GzipReader.

(** ** The AES-256-CBC envelope: [rspamd_archives_encrypt_aes256_cbc] *)

(** The value of a 32-bit pattern read as [int]: a cast [(int) n]. *)
Definition s32 (z : Z) : Z := if u32 z <? 2 ^ 31 then u32 z else u32 z - 2 ^ 32.

Inductive envelope_error : Type :=
| EnvEmptyPassword        (* EINVAL, empty password *)
| EnvRandom               (* EIO, cannot generate random salt/iv *)
| EnvPbkdf2               (* EIO, PBKDF2 failed *)
| EnvNoCtx                (* ENOMEM, cannot alloc cipher ctx *)
| EnvCipherInit           (* EIO, cipher init failed *)
| EnvEncryptUpdate        (* EIO, encrypt update failed *)
| EnvEncryptFinal.        (* EIO, encrypt final failed *)

(** What the envelope writer hands back: the byte array, NULL with [*err]
    set, or, when the cipher wrote more than the room reserved for it, a
    store outside the array. *)
Inductive envelope_result : Type :=
| EnvOk (out : list byte)
| EnvErr (e : envelope_error)
| EnvOverrun.

(** OpenSSL as the envelope writer uses it (a build with HAVE_OPENSSL).
    [env_RAND_salt] and [env_RAND_iv] are the two [RAND_bytes] draws;
    [env_PBKDF2 password passlen salt] is the key of
    PBKDF2-HMAC-SHA256 with 100000 rounds, [passlen] being the [int] the
    length of the password is cast to; [env_CTX_new] tells whether
    [EVP_CIPHER_CTX_new] returned a context; [env_EncryptInit key iv] whether
    AES-256-CBC could be set up; [env_EncryptUpdate key iv input inl] is what
    [EVP_EncryptUpdate] writes for the [inl] bytes it is asked to encrypt, and
    [env_EncryptFinal key iv input inl] what [EVP_EncryptFinal_ex] adds. *)
Class EnvelopeCrypto : Type := {
  env_RAND_salt : option (list byte);
  env_RAND_iv : option (list byte);
  env_PBKDF2 : list byte -> Z -> list byte -> option (list byte);
  env_CTX_new : bool;
  env_EncryptInit : list byte -> list byte -> bool;
  env_EncryptUpdate : list byte -> list byte -> list byte -> Z -> option (list byte);
  env_EncryptFinal : list byte -> list byte -> list byte -> Z -> option (list byte)
}.

(** "RZAE0001" *)
Definition env_magic : list byte := [x52; x5a; x41; x45; x30; x30; x30; x31].

(** [EVP_CIPHER_block_size(EVP_aes_256_cbc())] *)
Definition aes_block_size : Z := 16.

(** [password] is a C string ([None] for NULL), [input] the [inlen] bytes at
    [in] (fewer than 4 GiB, the capacity of a byte array). *)
Definition rspamd_archives_encrypt_aes256_cbc `{EnvelopeCrypto} (input : list byte)
  (password : option (list byte)) : envelope_result :=
  match password with
  | None => EnvErr EnvEmptyPassword
  | Some [] => EnvErr EnvEmptyPassword
  | Some (c :: pw) =>
      let password := c :: pw in
      match env_RAND_salt with
      | None => EnvErr EnvRandom
      | Some salt =>
          match env_RAND_iv with
          | None => EnvErr EnvRandom
          | Some iv =>
              let salt := fit 16 salt in
              let iv := fit 16 iv in
              match env_PBKDF2 password (s32 (len password)) salt with
              | None => EnvErr EnvPbkdf2
              | Some key =>
                  let key := fit 32 key in
                  if negb env_CTX_new then EnvErr EnvNoCtx
                  else if negb (env_EncryptInit key iv) then EnvErr EnvCipherInit
                  else
                    let out := env_magic ++ salt ++ iv in
                    (* room for the cipher: inlen + one block *)
                    let room := len input + aes_block_size in
                    match env_EncryptUpdate key iv input (s32 (len input)) with
                    | None => EnvErr EnvEncryptUpdate
                    | Some upd =>
                        if room <? len upd then EnvOverrun
                        else
                          match env_EncryptFinal key iv input (s32 (len input)) with
                          | None => EnvErr EnvEncryptFinal
                          | Some fin =>
                              if room <? len upd + len fin then EnvOverrun
                              else EnvOk (out ++ upd ++ fin)
                          end
                    end
              end
          end
      end
  end.

(** ** MIME parts, as far as the archive code reads and writes them *)

(** [struct rspamd_content_type]: type and subtype tokens, and the three
    bits of [flags] that archives.c tests or sets. *)
Record rspamd_content_type : Type := mk_content_type {
  ct_type : list byte;
  ct_subtype : list byte;
  ct_text : bool;          (* RSPAMD_CONTENT_TYPE_TEXT *)
  ct_missing : bool;       (* RSPAMD_CONTENT_TYPE_MISSING *)
  ct_broken : bool         (* RSPAMD_CONTENT_TYPE_BROKEN *)
}.

(** [part_type] with the member of the [specific] union it selects:
    RSPAMD_MIME_PART_ARCHIVE with [specific.arch] (which may be NULL), or any
    other type. *)
Inductive part_kind : Type :=
| PartArchive (arch : option rspamd_archive)
| PartOther.

(** [struct rspamd_mime_part]: [part_cd] is the file name of the
    Content-Disposition ([None] when [cd] is NULL), [detected_ext] a C
    string ([None] for NULL). *)
Record rspamd_mime_part : Type := mk_mime_part {
  part_ct : option rspamd_content_type;
  part_cd : option (list byte);
  parsed_data : list byte;
  part_type : part_kind;
  detected_ext : option (list byte)
}.

Definition set_part_type (part : rspamd_mime_part) (k : part_kind) : rspamd_mime_part :=
  mk_mime_part (part_ct part) (part_cd part) (parsed_data part) k (detected_ext part).

Definition set_part_ct (part : rspamd_mime_part) (ct : rspamd_content_type)
  : rspamd_mime_part :=
  mk_mime_part (Some ct) (part_cd part) (parsed_data part) (part_type part)
    (detected_ext part).

(** ** [rspamd_archive_cheat_detect] *)

(** The string helpers of libutil the detection calls:
    [rspamd_ftok_cmp a b], [rspamd_substring_search_caseless hay needle] (an
    offset, or -1) and [rspamd_lc_cmp a b] over the bytes of [b]. *)
Class StrUtil : Type := {
  rspamd_ftok_cmp : list byte -> list byte -> Z;
  rspamd_substring_search_caseless : list byte -> list byte -> Z;
  rspamd_lc_cmp : list byte -> list byte -> Z
}.

(** [part->parsed_data.len > magic_len &&
     memcmp(part->parsed_data.begin, magic_start, magic_len) == 0] *)
Definition magic_matches (data magic : list byte) : bool :=
  (len magic <? len data) && bytes_eqb (sub data 0 (len magic)) magic.

(** "application" *)
Definition str_application : list byte :=
  [x61; x70; x70; x6c; x69; x63; x61; x74; x69; x6f; x6e].

(** [str] is the extension looked for, a C string; [magic] is
    [magic_start] with its [magic_len] ([None] for NULL). *)
Definition rspamd_archive_cheat_detect `{StrUtil} (part : rspamd_mime_part)
  (str : list byte) (magic : option (list byte)) : bool :=
  let check_magic (otherwise : bool) :=
    match magic with
    | Some m => magic_matches (parsed_data part) m
    | None => otherwise
    end in
  let by_content_type :=
    match part_ct part with
    | Some ct =>
        negb (len (ct_type ct) =? 0) && (0 <? len (ct_subtype ct))
        && (rspamd_ftok_cmp (ct_type ct) str_application =? 0)
        && negb (rspamd_substring_search_caseless (ct_subtype ct) str =? -1)
    | None => false
    end in
  if by_content_type then check_magic true
  else
    match part_cd part with
    | Some fname =>
        if (len str <? len fname)
           && (rspamd_lc_cmp (skipn (length fname - length str) fname) str =? 0)
           && (peek fname (len fname - len str - 1) =? 0x2e)      (* '.' *)
        then check_magic true
        else check_magic false
    | None => check_magic false
    end.

(** ** [rspamd_archive_type_str] *)

Definition rspamd_archive_type_str (t : rspamd_archive_type) : list byte :=
  match t with
  | RSPAMD_ARCHIVE_ZIP => [x7a; x69; x70]         (* "zip" *)
  | RSPAMD_ARCHIVE_RAR => [x72; x61; x72]         (* "rar" *)
  | RSPAMD_ARCHIVE_7ZIP => [x37; x7a]             (* "7z" *)
  | RSPAMD_ARCHIVE_GZIP => [x67; x7a]             (* "gz" *)
  end.

(** ** The dispatcher: [rspamd_archives_process] *)

(** GLib's [g_ascii_tolower] and [g_ascii_strcasecmp] on C strings. *)
Definition g_ascii_tolower (c : Z) : Z :=
  if (0x41 <=? c) && (c <=? 0x5a) then c - 0x41 + 0x61 else c.

Fixpoint g_ascii_strcasecmp (s1 s2 : list byte) : Z :=
  match s1, s2 with
  | c1 :: r1, c2 :: r2 =>
      let a := g_ascii_tolower (u8 c1) in
      let b := g_ascii_tolower (u8 c2) in
      if a =? b then g_ascii_strcasecmp r1 r2 else a - b
  | c1 :: _, [] => u8 c1
  | [], c2 :: _ => - u8 c2
  | [], [] => 0
  end.

(** How a run over the parts ends: with the parts as the readers left them,
    in a reader that loads bytes outside its input, or in a reader that is
    still running when the fuel is spent. *)
Inductive run (A : Type) : Type :=
| Done (a : A)
| RunUndefined
| RunDiverges.
Arguments Done {A} a.
Arguments RunUndefined {A}.
Arguments RunDiverges {A}.

(** What a reader's outcome leaves on the part. *)
Definition part_after (part : rspamd_mime_part) (o : option read_outcome)
  : run rspamd_mime_part :=
  match o with
  | Some (Rejected _) => Done part
  | Some (Attached arch) => Done (set_part_type part (PartArchive (Some arch)))
  | Some Undefined => RunUndefined
  | None => RunDiverges
  end.

Definition ext_zip : list byte := [x7a; x69; x70].
Definition ext_rar : list byte := [x72; x61; x72].
Definition ext_7z : list byte := [x37; x7a].
Definition ext_gz : list byte := [x67; x7a].

Section Dispatcher.

Context `{Platform} `{Libarchive} `{Charsets}.

(** The reader chosen by the detected extension, run on the part. *)
Definition archives_run_reader (fuel : nat) (part : rspamd_mime_part)
  : run rspamd_mime_part :=
  match detected_ext part with
  | Some ext =>
      if g_ascii_strcasecmp ext ext_zip =? 0 then
        part_after part (rspamd_archive_process_zip (parsed_data part) (part_cd part))
      else if g_ascii_strcasecmp ext ext_rar =? 0 then
        part_after part (rspamd_archive_process_rar fuel (parsed_data part) (part_cd part))
      else if g_ascii_strcasecmp ext ext_7z =? 0 then
        part_after part
          (option_map sz_outcome
             (rspamd_archive_process_7zip (parsed_data part) (part_cd part)))
      else if g_ascii_strcasecmp ext ext_gz =? 0 then
        part_after part
          (Some (rspamd_archive_process_gzip (parsed_data part) (part_cd part)))
      else Done part
  | None => Done part
  end.

(** The check behind the readers: an archive found under a text content
    type marks the content type as broken, unless it was missing. *)
Definition archives_check_content_type (part : rspamd_mime_part) : rspamd_mime_part :=
  match part_ct part, part_type part with
  | Some ct, PartArchive (Some arch) =>
      if ct_text ct && negb (ct_missing ct) then
        set_part_ct part
          (mk_content_type (ct_type ct) (ct_subtype ct) (ct_text ct) (ct_missing ct) true)
      else part
  | _, _ => part
  end.

(** The body of the loop over the parts. *)
Definition archives_process_part (fuel : nat) (part : rspamd_mime_part)
  : run rspamd_mime_part :=
  let is_archive := match part_type part with PartArchive _ => true | PartOther => false end in
  if (0 <? len (parsed_data part)) && negb is_archive then
    match archives_run_reader fuel part with
    | Done part' => Done (archives_check_content_type part')
    | RunUndefined => RunUndefined
    | RunDiverges => RunDiverges
    end
  else Done part.

(** [rspamd_archives_process] over the parts of the message, in order;
    [fuel] bounds the loops of the RAR reader. *)
Fixpoint rspamd_archives_process (fuel : nat) (parts : list rspamd_mime_part)
  : run (list rspamd_mime_part) :=
  match parts with
  | [] => Done []
  | part :: rest =>
      match archives_process_part fuel part with
      | Done part' =>
          match rspamd_archives_process fuel rest with
          | Done rest' => Done (part' :: rest')
          | RunUndefined => RunUndefined
          | RunDiverges => RunDiverges
          end
      | RunUndefined => RunUndefined
      | RunDiverges => RunDiverges
      end
  end.

End Dispatcher.

(** ** The simdutf wrapper: [rspamd_fast_utf8_validate] *)

(** [simdutf::validate_utf8_with_errors]: [None] for SUCCESS, else the
    [count] of the result, the offset of the error. *)
Class Simdutf : Type := {
  validate_utf8_with_errors : list byte -> option Z
}.

(** The value of a 64-bit pattern read as [off_t]. *)
Definition rspamd_fast_utf8_validate `{Simdutf} (data : list byte) : Z :=
  match validate_utf8_with_errors data with
  | None => 0
  | Some count =>
      let r := u64 (count + 1) in
      if r <? 2 ^ 63 then r else r - 2 ^ 64
  end.

(** ** Predicates used in the statements *)

(** The features of a name for which the writer is to fail: a NULL or empty
    name, a leading '/' or '\\', a substring "..", a ':'. *)
Definition name_rejected (name : option (list byte)) : Prop :=
  match name with
  | None => True
  | Some n =>
      n = []
      \/ (exists r, n = x2f :: r)
      \/ (exists r, n = x5c :: r)
      \/ (exists a b, n = a ++ x2e :: x2e :: b)
      \/ In x3a n
  end.

(** zlib and OpenSSL report no failure on any call and do what they
    document: DEFLATE stays within the bound [deflateBound] gives for its
    input, and the cipher text of AES in counter mode is as long as the plain
    text. *)
Definition collaborators_succeed `{Zlib} `{OpenSSL} : Prop :=
  (forall d, exists out,
      zlib_deflate d = Deflated out /\ len out <= deflateBound (len d))
  /\ (forall i, exists salt, RAND_bytes i = Some salt)
  /\ (forall pw salt, exists dk, PKCS5_PBKDF2_HMAC pw salt = Some dk)
  /\ (forall key, EVP_EncryptInit_ex key = true)
  /\ (forall key plain, exists c, EVP_Encrypt key plain = Some c /\ len c = len plain).

(** The room the writer takes in its byte arrays for one file: the local
    header (30 bytes) and the name, the window of [deflateBound] bytes the
    payload is written to, and in the central directory a record of 46 bytes
    and the name again; under a password also the AES extra field (11 bytes)
    in both places, the salt (16), the password check (2) and the tag (10). *)
Definition zip_entry_room `{Zlib} (aes : bool) (f : rspamd_zip_file_spec) : Z :=
  (if aes then 126 else 76)
  + 2 * len (match spec_name f with Some n => n | None => [] end)
  + deflateBound (len (spec_data f)).

(** The same for a list of files, with the 22 bytes of the end record. *)
Definition zip_write_room `{Zlib} (aes : bool) (files : list rspamd_zip_file_spec)
  : Z :=
  fold_right (fun f acc => zip_entry_room aes f + acc) 22 files.


(** The central directory record of an entry written without encryption. *)
Definition plain_cd_record `{Clock} (f : rspamd_zip_file_spec) (name : list byte)
  (method crc csize lfh_off : Z) : list byte :=
  central_header_fixed name 20 2048 method (spec_mtime f) crc csize
    (u32 (len (spec_data f))) lfh_off (spec_mode f) 0
  ++ name.

(** The shape of the central directory records of a whole unencrypted
    write: one per file, in order, each holding the file's own name and
    32-bit size. *)
Definition plain_cd_records `{Clock} (files : list rspamd_zip_file_spec)
  (cds : list (list byte)) : Prop :=
  Forall2 (fun f cdrec => exists name method crc csize off,
             spec_name f = Some name
             /\ cdrec = plain_cd_record f name method crc csize off)
    files cds.

(** The entries a reader makes of the records of an unencrypted write:
    each has the name and the size of its file. *)
Definition entries_match (files : list rspamd_zip_file_spec)
  (entries : list rspamd_archive_file) : Prop :=
  Forall2 (fun f e => spec_name f = Some (fname e)
                      /\ uncompressed_size e = len (spec_data f)
                      /\ file_encrypted e = false)
    files entries.

(** What the round trip asks of one file: a name the writer accepts, short
    enough for the 16-bit length field and left unchanged by the file name
    normaliser, data short enough for the 32-bit size field, and a DEFLATE
    run that reports no error and stays within the bound zlib gives for
    it. *)
Definition round_trip_entry `{Zlib} `{Charsets} (f : rspamd_zip_file_spec) : Prop :=
  exists name,
    spec_name f = Some name
    /\ rspamd_zip_validate_name (Some name) = true
    /\ len name < 2 ^ 16
    /\ len (spec_data f) < 2 ^ 32
    /\ fst (rspamd_archive_file_try_utf name) = name
    /\ exists out,
         zlib_deflate (spec_data f) = Deflated out
         /\ len out <= deflateBound (len (spec_data f)).

(** [sz_post Q m]: the 7-Zip handler [m] does not run out of fuel, and what
    it returns, when it returns a value, satisfies [Q]. *)
Definition sz_post {A : Type} (Q : A -> Prop) (m : szm A) : Prop :=
  forall st,
    match m st with
    | SzOk a _ => Q a
    | SzNull _ => True
    | SzUndefined => True
    | SzFuel => False
    end.

(** ** All or nothing: what a record loop hands to the caller *)


Section RecordLoop.

Context {S : Type}.
Variable running : S -> bool.            (* the condition of the loop *)
Variable round : S -> option (walk S).   (* one round; [None] when fuel ran out *)
Variable attach : S -> read_outcome.     (* the code behind the loop *)

(** [reaches s s']: the loop entered in the state [s] comes to the head of
    a round in the state [s'], every round on the way having run to its
    end. *)
Inductive reaches : S -> S -> Prop :=
| reaches_start (s : S) : reaches s s
| reaches_round (s s1 s2 : S) :
    running s = true -> round s = Some (Go s1) -> reaches s1 s2 -> reaches s s2.

(** [loop_result s0 r]: the loop entered in [s0] ends with [r]: either every
    round ran to its end until the condition of the loop was false, and [r]
    is what the code behind the loop makes of the last state; or [r] is what
    the first round that left the function left it with, the state it had
    worked on being dropped. *)
Inductive loop_result (s0 : S) : read_outcome -> Prop :=
| loop_through (s : S) :
    reaches s0 s -> running s = false -> loop_result s0 (attach s)
| loop_left (s : S) (r : read_outcome) :
    reaches s0 s -> running s = true -> round s = Some (Stop r) ->
    loop_result s0 r.

End RecordLoop.






(** No property length of the input carries the address of the cursor past
    2^64: [p + proplen] in [rspamd_7zip_read_archive_props] is the sum the
    file format means. *)
Definition sz_props_fit `{Platform} (buf : list byte) (end_ : Z) : Prop :=
  0 <= data_addr
  /\ forall p v r,
       0 <= p <= end_ ->
       rspamd_archive_7zip_read_vint (skipn (Z.to_nat p) buf) (u64 (end_ - p))
       = VintOk v r ->
       data_addr + p + r + v < 2 ^ 64.

(** [walk_post Q m]: what the step [m] hands on, when it does not leave the
    function, satisfies [Q]. *)
Definition walk_post {A : Type} (Q : A -> Prop) (m : walk A) : Prop :=
  match m with
  | Go a => Q a
  | Stop _ => True
  end.

(** ** Collaborators for the worked examples *)

(** A clock stopped at 1980-01-01 00:00:00. *)
Definition demo_clock : Clock :=
  {| time_now := 315532800; localtime_r := fun _ => mk_tm 0 0 0 1 0 80 |}.

(** CRC-32 (polynomial 0xEDB88320), bit by bit. *)
Fixpoint crc_bits (n : nat) (c : Z) : Z :=
  match n with
  | O => c
  | S n' =>
      crc_bits n' (if Z.odd c then Z.lxor (Z.shiftr c 1) 0xEDB88320 else Z.shiftr c 1)
  end.

Definition demo_crc32 (d : list byte) : Z :=
  Z.lxor (fold_left (fun c b => crc_bits 8 (Z.lxor c (u8 b))) d 0xFFFFFFFF) 0xFFFFFFFF.

(** A DEFLATE encoder that emits one stored block (what zlib does at
    compression level 0, for data below 64 KiB). *)
Definition demo_zlib : Zlib :=
  {| crc32 := demo_crc32;
     zlib_deflate := fun d =>
       Deflated ([x01] ++ u16le (len d) ++ u16le (Z.lxor (len d) 0xFFFF) ++ d);
     deflateBound := fun n => n + 5 |}.

(** A zlib whose [deflate] reports an error. *)
Definition failing_zlib : Zlib :=
  {| crc32 := demo_crc32;
     zlib_deflate := fun _ => DeflateFailed;
     deflateBound := fun n => n + 5 |}.

(** Stand-ins of the right sizes for the OpenSSL calls; no cryptography. *)
Definition demo_openssl : OpenSSL :=
  {| RAND_bytes := fun i => Some (repeat (byte_of_Z (Z.of_nat i + 0xA0)) 16);
     PKCS5_PBKDF2_HMAC := fun pw salt => Some (firstn 66 (pw ++ salt ++ repeat x22 66));
     EVP_EncryptInit_ex := fun _ => true;
     EVP_Encrypt := fun key plain => Some (map (fun b => byte_of_Z (Z.lxor (u8 b) 0x5A)) plain);
     HMAC_sha1 := fun key msg => repeat x33 20 |}.

(** A charset detector that knows ASCII only: it answers for inputs made of
    bytes below 0x80, which convert to UTF-16 and back unchanged. *)
Definition ascii_charsets : Charsets :=
  {| charset := unit;
     converter := unit;
     rspamd_mime_charset_find_by_content := fun s =>
       if forallb (fun b => u8 b <? 128) s then Some tt else None;
     rspamd_mime_get_converter_cached := fun _ => Some tt;
     rspamd_converter_to_uchars := fun _ s => Some (map u8 s);
     ucnv_fromUChars := fun u => Some (map byte_of_Z u);
     IS_ZERO_WIDTH_SPACE := fun c =>
       (c =? 0x200B) || (c =? 0x200C) || (c =? 0x200D) || (c =? 0xFEFF);
     u_iscntrl := fun c => (c <? 0x20) || ((0x7F <=? c) && (c <? 0xA0)) |}.

(** An x86-64 machine with a zeroed stack: a 64-bit right shift
    takes its count modulo 64; the data lies where the heap of a process
    usually does. *)
Definition x86_64_zeroed : Platform :=
  {| tgt_uninit := 0;
     shr_oversized := fun x n => Z.shiftr x (n mod 64);
     data_addr := 0x7f0000001000 |}.

(** A libarchive that cannot open what it is given. *)
Definition no_libarchive : Libarchive :=
  {| archive_read_7zip := fun _ => None |}.

(** ** Worked inputs *)

Definition name_a_txt : list byte := [x61; x2e; x74; x78; x74].            (* a.txt *)
Definition name_b_bin : list byte := [x62; x2e; x62; x69; x6e].            (* b.bin *)
Definition data_hello : list byte := [x68; x65; x6c; x6c; x6f].            (* hello *)
Definition name_traversal : list byte :=
  [x2e; x2e; x2f; x65; x74; x63; x2f; x70; x61; x73; x73; x77; x64].      (* ../etc/passwd *)
Definition password_pw : list byte := [x70; x77].                          (* pw *)

(** The archive of the round-trip scenario: a.txt holding "hello" and b.bin
    holding 00 01 02. *)
Definition two_files : list rspamd_zip_file_spec :=
  [mk_zip_file_spec (Some name_a_txt) data_hello 0 0;
   mk_zip_file_spec (Some name_b_bin) [x00; x01; x02] 0 0].

(** A 70-byte input whose end-of-central-directory record, at offset 48,
    declares a central directory of 0xFFFFFFFF bytes at offset 1; one well
    formed record for a file "a" stands at offset 1. *)
Definition zip_wrapped_extent : list byte :=
  [x00]
  (* offset 1: central directory file header, 46 bytes and the name *)
  ++ [x50; x4b; x01; x02] ++ repeat x00 24
  ++ [x01; x00]                      (* +28 file name length = 1 *)
  ++ [x00; x00] ++ [x00; x00]        (* +30 extra length, +32 comment length *)
  ++ repeat x00 12
  ++ [x61]                           (* a *)
  (* offset 48: end of central directory, 22 bytes *)
  ++ [x50; x4b; x05; x06] ++ repeat x00 8
  ++ [xff; xff; xff; xff]            (* +12 cd_size = 0xFFFFFFFF *)
  ++ [x01; x00; x00; x00]            (* +16 cd_offset = 1 *)
  ++ [x00; x00].

(** A central directory record for a file "a" with general-purpose flags 0
    and the extra area [extra], followed by the end-of-central-directory
    record that covers it. *)
Definition zip_one_record (extra : list byte) : list byte :=
  [x50; x4b; x01; x02] ++ repeat x00 24
  ++ [x01; x00]                      (* +28 file name length = 1 *)
  ++ u16le (len extra)               (* +30 extra length *)
  ++ [x00; x00]                      (* +32 comment length *)
  ++ repeat x00 12
  ++ [x61]                           (* a *)
  ++ extra
  ++ [x50; x4b; x05; x06] ++ repeat x00 8
  ++ u32le (47 + len extra)          (* +12 cd_size *)
  ++ [x00; x00; x00; x00]            (* +16 cd_offset = 0 *)
  ++ [x00; x00].

(** A central directory of two records, the first well formed, for a file
    "a", the second 46 zero bytes, and the end-of-central-directory record
    that covers both. *)
Definition zip_bad_second_record : list byte :=
  [x50; x4b; x01; x02] ++ repeat x00 24
  ++ [x01; x00]                      (* +28 file name length = 1 *)
  ++ [x00; x00] ++ [x00; x00]        (* +30 extra length, +32 comment length *)
  ++ repeat x00 12
  ++ [x61]                           (* a *)
  ++ repeat x00 46                   (* offset 47: no signature *)
  ++ [x50; x4b; x05; x06] ++ repeat x00 8
  ++ [x5d; x00; x00; x00]            (* +12 cd_size = 93 *)
  ++ [x00; x00; x00; x00]            (* +16 cd_offset = 0 *)
  ++ [x00; x00].

(** A RAR v4 input of 37 bytes: the signature and one file header with
    flag 0x200 whose name field, declared six bytes long, starts two bytes
    before the end of the input and holds "a" and a NUL. *)
Definition rar4_unicode_short : list byte :=
  [x52; x61; x72; x21; x1a; x07; x00;        (* offset 0: signature *)
   x00; x00;                                 (* 7: header CRC16 *)
   x74;                                      (* 9: type = file header *)
   x00; x02;                                 (* 10: flags = 0x200 *)
   x1e; x00;                                 (* 12: header size = 30 *)
   x00; x00; x00; x00;                       (* 14: unpacked size *)
   x00; x00; x00; x00; x00; x00; x00; x00; x00; x00; x00;   (* 18: 11 bytes *)
   x06; x00;                                 (* 29: name size = 6 *)
   x00; x00; x00; x00;                       (* 31: attributes *)
   x61; x00].                                (* 35: "a", NUL *)

(** A 7-Zip input of 44 bytes: the start header, kHeader, and an archive
    properties section whose one property declares a length of 2^64 - 10. *)
Definition sz_props_wrap : list byte :=
  [x37; x7a; xbc; xaf; x27; x1c;             (* offset 0: signature *)
   x00; x04;                                 (* 6: version *)
   x00; x00; x00; x00;                       (* 8: start header CRC32 *)
   x00; x00; x00; x00; x00; x00; x00; x00;   (* 12: next header offset = 0 *)
   x0c; x00; x00; x00; x00; x00; x00; x00;   (* 20: next header size *)
   x00; x00; x00; x00;                       (* 28: next header CRC32 *)
   x01;                                      (* 32: kHeader *)
   x02;                                      (* 33: kArchiveProperties *)
   x01;                                      (* 34: property type *)
   xff; xf6; xff; xff; xff; xff; xff; xff; xff].   (* 35: length = 2^64 - 10 *)

(** An extra area that is one strong-encryption header (id 0x0017) with an
    empty payload, and one where a second empty record follows it. *)
Definition extra_0017_last : list byte := [x17; x00; x00; x00].
Definition extra_0017_first : list byte := [x17; x00; x00; x00; x01; x00; x00; x00].

(** The fallback name as the claim words it: the directory component
    (everything up to the last '/') stripped, then the final dot-suffix
    (from the last '.') dropped. *)
Definition strip_directory (s : list byte) : list byte :=
  match rfind_byte x2f s with
  | Some k => skipn (S k) s
  | None => s
  end.

Definition drop_suffix (s : list byte) : list byte :=
  match rfind_byte x2e s with
  | Some k => firstn k s
  | None => s
  end.

Definition claimed_gzip_fallback (filename : list byte) : list byte :=
  drop_suffix (strip_directory filename).

(** A gzip stream of 12 bytes with FLG = 0: no stored name, no extra field. *)
Definition gz_no_name : list byte :=
  [x1f; x8b; x08; x00; x00; x00; x00; x00; x00; x03; x03; x00].

Definition name_foo_gz : list byte := [x66; x6f; x6f; x2e; x67; x7a].     (* foo.gz *)
Definition name_foo : list byte := [x66; x6f; x6f].                        (* foo *)
Definition name_dir_foo_txt_gz : list byte :=                              (* dir/foo.txt.gz *)
  [x64; x69; x72; x2f; x66; x6f; x6f; x2e; x74; x78; x74; x2e; x67; x7a].

(** A RAR v5 input of 33 bytes: the signature, a main header, and a file
    header for a file "a" whose extra area of two bytes is a record of size
    0 and type 0. *)
Definition rar5_zero_extra : list byte :=
  [x52; x61; x72; x21; x1a; x07; x01; x00;   (* offset 0: signature *)
   x00; x00; x00; x00;                       (* 8: main header CRC32 *)
   x02;                                      (* 12: header size = 2 *)
   x01;                                      (* 13: type = 1, main *)
   x00;                                      (* 14: header flags = 0 *)
   x00; x00; x00; x00;                       (* 15: file header CRC32 *)
   x0d;                                      (* 19: header size = 13 *)
   x02;                                      (* 20: type = 2, file *)
   x01;                                      (* 21: header flags = 1, extra area *)
   x02;                                      (* 22: extra area size = 2 *)
   x00;                                      (* 23: file flags = 0 *)
   x00;                                      (* 24: unpacked size = 0 *)
   x00;                                      (* 25: attributes = 0 *)
   x00;                                      (* 26: compression = 0 *)
   x00;                                      (* 27: host OS = 0 *)
   x01;                                      (* 28: name length = 1 *)
   x61;                                      (* 29: a *)
   x00;                                      (* 30: extra record size = 0 *)
   x00;                                      (* 31: extra record type = 0 *)
   x00].                                     (* 32 *)

(** A 7-Zip input whose header names one file "a" and then goes on with a
    property of an unknown type. *)
Definition sz_bad_after_name : list byte :=
  [x37; x7a; xbc; xaf; x27; x1c;             (* offset 0: signature *)
   x00; x04;                                 (* 6: version *)
   x00; x00; x00; x00;                       (* 8: start header CRC32 *)
   x00; x00; x00; x00; x00; x00; x00; x00;   (* 12: next header offset = 0 *)
   x0c; x00; x00; x00; x00; x00; x00; x00;   (* 20: next header size *)
   x00; x00; x00; x00;                       (* 28: next header CRC32 *)
   x01;                                      (* 32: kHeader *)
   x05;                                      (* 33: kFilesInfo *)
   x01;                                      (* 34: number of files = 1 *)
   x11;                                      (* 35: kName *)
   x05;                                      (* 36: property size *)
   x00;                                      (* 37: names are not external *)
   x61; x00;                                 (* 38: "a" in UCS-2 *)
   x00; x00;                                 (* 40: terminator *)
   x7f;                                      (* 42: a property of type 0x7f *)
   x00].                                     (* 43: property size = 0 *)


(** A name of 65536 letters a: one more than the 16-bit length field of a
    ZIP header holds. *)
Definition name_64k : list byte := repeat x61 (Z.to_nat 65536).

(** What the reader makes of what the writer returns for [specs] without a
    password; [None] too when the writer returns an error. *)
Definition zip_read_written `{Clock} `{Zlib} `{OpenSSL} `{Charsets}
  (specs : list rspamd_zip_file_spec) : option read_outcome :=
  match rspamd_archives_zip_write specs None with
  | WOk out => rspamd_archive_process_zip out None
  | _ => None
  end.

(** The 16-bit field at [off] of what the writer returns for [specs]
    without a password. *)
Definition zip_written_le16 `{Clock} `{Zlib} `{OpenSSL}
  (specs : list rspamd_zip_file_spec) (off : Z) : option Z :=
  match rspamd_archives_zip_write specs None with
  | WOk out => Some (le16 out off)
  | _ => None
  end.

(** The archive of [two_files] under the password "pw", with the stand-ins
    for zlib and OpenSSL. *)
Definition zip_two_files_aes : list byte :=
  Eval vm_compute in
    match @rspamd_archives_zip_write demo_clock demo_zlib demo_openssl two_files
            (Some password_pw) with
    | WOk out => out
    | _ => []
    end.

(** A charset detector that recognises nothing: every name takes the
    branch of the normaliser that replaces unsafe bytes. *)
Definition no_charsets : Charsets :=
  {| charset := unit;
     converter := unit;
     rspamd_mime_charset_find_by_content := fun _ => None;
     rspamd_mime_get_converter_cached := fun _ => None;
     rspamd_converter_to_uchars := fun _ _ => None;
     ucnv_fromUChars := fun _ => None;
     IS_ZERO_WIDTH_SPACE := fun _ => false;
     u_iscntrl := fun _ => false |}.

(** A RAR v5 service record of size 3 (type 5, no flags) and the loop state
    in front of it. *)
Definition rar5_service_record : list byte :=
  [x00; x00; x00; x00;                       (* offset 0: CRC32 *)
   x03;                                      (* 4: header size = 3 *)
   x05;                                      (* 5: type = 5 *)
   x00;                                      (* 6: header flags = 0 *)
   x00].                                     (* 7: one byte more *)

Definition rar5_at (p : Z) : rar5_state :=
  mk_rar5_state p 0 0 (new_archive RSPAMD_ARCHIVE_RAR None).

(** ** Predicates for the statements about the readers and the dispatcher *)

(** [walk_ends Q R m]: what the step [m] hands on satisfies [Q], and the
    archive it attaches, when it leaves the function attaching one,
    satisfies [R]. *)
Definition walk_ends {A : Type} (Q : A -> Prop) (R : rspamd_archive -> Prop)
  (m : walk A) : Prop :=
  match m with
  | Go a => Q a
  | Stop (Attached arch) => R arch
  | Stop _ => True
  end.

(** [sz_keeps P m]: the 7-Zip handler [m] keeps the property [P] of the
    archive under construction. *)
Definition sz_keeps {A : Type} (P : rspamd_archive -> Prop) (m : szm A) : Prop :=
  forall st, P (sz_arch st) ->
    match m st with
    | SzOk _ st' => P (sz_arch st')
    | SzNull st' => P (sz_arch st')
    | SzUndefined => True
    | SzFuel => True
    end.

(** What every reader sets on the archive it attaches: its own type, the
    file name of the part's Content-Disposition and the length of the
    part. *)
Definition attached_as (t : rspamd_archive_type) (buf : list byte)
  (cd_filename : option (list byte)) (o : read_outcome) : Prop :=
  forall arch, o = Attached arch ->
    arch_type arch = t /\ archive_name arch = cd_filename /\ arch_size arch = len buf.

(** The fields of an archive that entries and flags leave alone. *)
Definition same_head (a b : rspamd_archive) : Prop :=
  arch_type b = arch_type a /\ archive_name b = archive_name a.

(** [built_from a b]: the archive [b] is [a] after some entries were added
    to it, flags were set on it or on its last entry, and its size was
    stored: the updates the ZIP, RAR and gzip readers make. *)
Inductive built_from (a : rspamd_archive) : rspamd_archive -> Prop :=
| built_refl : built_from a a
| built_add_file (b : rspamd_archive) (f : rspamd_archive_file) :
    built_from a b -> built_from a (add_file b f)
| built_encrypted (b : rspamd_archive) :
    built_from a b -> built_from a (set_arch_encrypted b)
| built_mark_last (b : rspamd_archive) :
    built_from a b -> built_from a (mark_last_encrypted b)
| built_size (b : rspamd_archive) (n : Z) :
    built_from a b -> built_from a (set_arch_size b n).

(** RSPAMD_ARCHIVE_HAS_OBFUSCATED_FILES is set on the archive exactly when
    RSPAMD_ARCHIVE_FILE_OBFUSCATED is set on one of its entries. *)
Definition obfuscated_flag_accurate (a : rspamd_archive) : Prop :=
  arch_has_obfuscated a = existsb file_obfuscated (files a).

(** [attaches P o]: the archive the outcome [o] attaches to the part, when
    it attaches one, satisfies [P]. *)
Definition attaches (P : rspamd_archive -> Prop) (o : read_outcome) : Prop :=
  forall arch, o = Attached arch -> P arch.

(** ** The dispatcher *)

(** [ct->flags |= RSPAMD_CONTENT_TYPE_BROKEN] *)
Definition set_ct_broken (ct : rspamd_content_type) : rspamd_content_type :=
  mk_content_type (ct_type ct) (ct_subtype ct) (ct_text ct) (ct_missing ct) true.

(** The part [part] was handed to the reader that stands for its detected
    extension, and [arch] is for that part: of the reader's type, with the
    part's file name and length. *)
Definition archive_detected (part : rspamd_mime_part) (arch : rspamd_archive) : Prop :=
  0 < len (parsed_data part)
  /\ part_type part = PartOther
  /\ (exists ext, detected_ext part = Some ext
                  /\ g_ascii_strcasecmp ext (rspamd_archive_type_str (arch_type arch)) = 0)
  /\ archive_name arch = part_cd part
  /\ arch_size arch = len (parsed_data part)
  /\ obfuscated_flag_accurate arch.

(** [part'] is [part] with [arch] attached: an archive part, with a text
    content type that was not missing marked as broken, and nothing else
    changed. *)
Definition archive_found (part part' : rspamd_mime_part) (arch : rspamd_archive) : Prop :=
  part_type part' = PartArchive (Some arch)
  /\ parsed_data part' = parsed_data part
  /\ part_cd part' = part_cd part
  /\ detected_ext part' = detected_ext part
  /\ part_ct part' =
     option_map (fun ct => if ct_text ct && negb (ct_missing ct) then set_ct_broken ct else ct)
       (part_ct part).

(** What [rspamd_archives_process] makes of one part. *)
Definition part_processed (part part' : rspamd_mime_part) : Prop :=
  part' = part
  \/ exists arch, archive_detected part arch /\ archive_found part part' arch.

(** A message of three parts: a gzip stream named foo.gz that is declared as
    text/plain, a part without a detected extension, and an empty part. *)
Definition ct_text_plain : rspamd_content_type :=
  mk_content_type [x74; x65; x78; x74] [x70; x6c; x61; x69; x6e] true false false.

Definition part_gz_as_text : rspamd_mime_part :=
  mk_mime_part (Some ct_text_plain) (Some name_foo_gz) gz_no_name PartOther
    (Some [x47; x5a]).                                                       (* GZ *)

Definition part_unknown : rspamd_mime_part :=
  mk_mime_part None None data_hello PartOther None.

Definition part_empty : rspamd_mime_part :=
  mk_mime_part None None [] PartOther (Some ext_zip).

Definition three_parts : list rspamd_mime_part :=
  [part_gz_as_text; part_unknown; part_empty].

(** The same message after [rspamd_archives_process]: the first part is a
    gzip archive of the one entry foo.gz, and its content type is broken. *)
Definition gz_foo_archive : rspamd_archive :=
  mk_archive RSPAMD_ARCHIVE_GZIP (Some name_foo_gz) 12 false false
    [mk_archive_file name_foo_gz 0 0 false false].

Definition three_parts_processed : list rspamd_mime_part :=
  [mk_mime_part (Some (set_ct_broken ct_text_plain)) (Some name_foo_gz) gz_no_name
     (PartArchive (Some gz_foo_archive)) (Some [x47; x5a]);
   part_unknown; part_empty].

(** The same message with a fourth part: [rar4_unicode_short], detected as
    rar, which comes back as a RAR archive of the one entry "a". *)
Definition part_rar4_short : rspamd_mime_part :=
  mk_mime_part None None rar4_unicode_short PartOther (Some ext_rar).

Definition rar4_short_archive : rspamd_archive :=
  mk_archive RSPAMD_ARCHIVE_RAR None 37 false false
    [mk_archive_file [x61] 0 0 false false].

Definition four_parts : list rspamd_mime_part := three_parts ++ [part_rar4_short].

Definition four_parts_processed : list rspamd_mime_part :=
  three_parts_processed
  ++ [mk_mime_part None None rar4_unicode_short (PartArchive (Some rar4_short_archive))
        (Some ext_rar)].

(** ** Collaborators and inputs for the envelope writer *)

(** Stand-ins of the right sizes for the OpenSSL calls of the envelope
    writer; no cryptography.  The cipher hands out the whole blocks of the
    input on update and one padded block at the end. *)
Definition demo_envelope : EnvelopeCrypto :=
  {| env_RAND_salt := Some (repeat xa0 16);
     env_RAND_iv := Some (repeat xa1 16);
     env_PBKDF2 := fun pw _ salt => Some (firstn 32 (pw ++ salt ++ repeat x22 32));
     env_CTX_new := true;
     env_EncryptInit := fun _ _ => true;
     env_EncryptUpdate := fun _ _ input _ =>
       Some (map (fun b => byte_of_Z (Z.lxor (u8 b) 0x5A))
               (firstn (16 * (length input / 16)) input));
     env_EncryptFinal := fun _ _ input _ =>
       Some (fit 16 (map (fun b => byte_of_Z (Z.lxor (u8 b) 0x5A))
                       (skipn (16 * (length input / 16)) input))) |}.

(** The envelope [demo_envelope] makes of "hello" under the password "pw". *)
Definition envelope_hello : list byte :=
  Eval vm_compute in
    match @rspamd_archives_encrypt_aes256_cbc demo_envelope data_hello (Some password_pw) with
    | EnvOk out => out
    | _ => []
    end.

(** ** UCS-2 *)

(** The bytes of an ASCII name as UTF-16LE. *)
Definition ascii_as_ucs2 (name : list byte) : list byte :=
  flat_map (fun b => [b; x00]) name.

(** ** DOS time stamps *)

(** A clock that shows 2024-02-29 23:59:58 whatever the time asked for. *)
Definition clock_2024 : Clock :=
  {| time_now := 1709251198; localtime_r := fun _ => mk_tm 58 59 23 29 1 124 |}.

(** ** Encrypted archives read back *)

(** The central directory record of an entry written with WinZip AES: the
    header, the name, and the AES extra field with the real method. *)
Definition aes_cd_record `{Clock} (f : rspamd_zip_file_spec) (name : list byte)
  (actual_method csize lfh_off : Z) : list byte :=
  central_header_fixed name 51 2049 99 (spec_mtime f) 0 csize
    (u32 (len (spec_data f))) lfh_off (spec_mode f) 11
  ++ name ++ extra_aes 2 3 actual_method.

Definition aes_cd_records `{Clock} (files : list rspamd_zip_file_spec)
  (cds : list (list byte)) : Prop :=
  Forall2 (fun f cdrec => exists name actual_method csize off,
             spec_name f = Some name
             /\ cdrec = aes_cd_record f name actual_method csize off)
    files cds.

(** The entries a reader makes of the records of an encrypted write: each
    has the name and the size of its file, and is marked as encrypted. *)
Definition entries_match_encrypted (files : list rspamd_zip_file_spec)
  (entries : list rspamd_archive_file) : Prop :=
  Forall2 (fun f e => spec_name f = Some (fname e)
                      /\ uncompressed_size e = len (spec_data f)
                      /\ file_encrypted e = true)
    files entries.

(** What reading back asks of one file: a name short enough for the 16-bit
    length field and left unchanged by the file name normaliser, and data
    short enough for the 32-bit size field. *)
Definition reads_back `{Charsets} (f : rspamd_zip_file_spec) : Prop :=
  exists name,
    spec_name f = Some name
    /\ len name < 2 ^ 16
    /\ len (spec_data f) < 2 ^ 32
    /\ fst (rspamd_archive_file_try_utf name) = name.

(** ** The layout of an unencrypted archive *)



(** ** A 7-Zip archive that only names its files *)

(** A name as the kName property holds it: UTF-16LE and a terminator. *)
Definition ucs2_name (name : list byte) : list byte :=
  ascii_as_ucs2 name ++ [x00; x00].

(** The start header, followed at once by a header whose only section is a
    kFilesInfo with the single property kName. *)
Definition sz_names_only (names : list (list byte)) : list byte :=
  [x37; x7a; xbc; xaf; x27; x1c;             (* offset 0: signature *)
   x00; x04;                                 (* 6: version *)
   x00; x00; x00; x00;                       (* 8: start header CRC32 *)
   x00; x00; x00; x00; x00; x00; x00; x00;   (* 12: next header offset = 0 *)
   x00; x00; x00; x00; x00; x00; x00; x00;   (* 20: next header size, not read *)
   x00; x00; x00; x00;                       (* 28: next header CRC32 *)
   x01;                                      (* 32: kHeader *)
   x05;                                      (* 33: kFilesInfo *)
   byte_of_Z (len names);                    (* 34: number of files *)
   x11;                                      (* 35: kName *)
   x00;                                      (* 36: property size, not used *)
   x00]                                      (* 37: names are not external *)
  ++ concat (map ucs2_name names)            (* 38: the names *)
  ++ [x00;                                   (* kEnd of the properties *)
      x00].                                  (* kEnd of the header *)

(** The entries of a 7-Zip archive: names without sizes or flags. *)
Definition sz_entries (names : list (list byte)) : list rspamd_archive_file :=
  map (fun name => mk_archive_file name 0 0 false false) names.

(** ** A gzip stream that carries its file name *)

(** A member header with FLG = FNAME only, the name with its terminator,
    and whatever follows. *)
Definition gz_named (name rest : list byte) : list byte :=
  [x1f; x8b;                                 (* offset 0: ID1, ID2 *)
   x08;                                      (* 2: CM = deflate *)
   x08;                                      (* 3: FLG = FNAME *)
   x00; x00; x00; x00;                       (* 4: MTIME *)
   x00;                                      (* 8: XFL *)
   x03]                                      (* 9: OS *)
  ++ name ++ [x00] ++ rest.

(** ** A RAR v5 archive of plain file headers *)

(** A file header that carries nothing but the name: no extra area, no data
    area, no time, no checksum. *)
Definition rar5_file_record (name : list byte) : list byte :=
  [x00; x00; x00; x00;                       (* offset 0: header CRC32 *)
   byte_of_Z (8 + len name);                 (* 4: header size *)
   x02;                                      (* 5: header type = file *)
   x00;                                      (* 6: header flags *)
   x00;                                      (* 7: file flags *)
   x00;                                      (* 8: unpacked size *)
   x00;                                      (* 9: attributes *)
   x00;                                      (* 10: compression information *)
   x00;                                      (* 11: host OS *)
   byte_of_Z (len name)]                     (* 12: name length *)
  ++ name.                                   (* 13: name *)

(** The signature, a main archive header, the file headers and an end of
    archive header. *)
Definition rar5_names_only (names : list (list byte)) : list byte :=
  [x52; x61; x72; x21; x1a; x07; x01; x00;   (* offset 0: signature *)
   x00; x00; x00; x00;                       (* 8: header CRC32 *)
   x03;                                      (* 12: header size *)
   x01;                                      (* 13: header type = main *)
   x00;                                      (* 14: header flags *)
   x00]                                      (* 15: archive flags *)
  ++ concat (map rar5_file_record names)     (* 16: the file headers *)
  ++ [x00; x00; x00; x00;                    (* header CRC32 *)
      x03;                                   (* header size *)
      x05;                                   (* header type = end of archive *)
      x00;                                   (* header flags *)
      x00].                                  (* end of archive flags *)

(** The entries the RAR reader makes of such names: what the file name
    normaliser makes of each, without sizes. *)
Definition rar_entries `{Charsets} (names : list (list byte))
  : list rspamd_archive_file :=
  map (fun name =>
         mk_archive_file (fst (rspamd_archive_file_try_utf name)) 0 0 false
           (snd (rspamd_archive_file_try_utf name)))
    names.

(** ** A RAR v4 archive of plain file headers *)

(** A file header (type 0x74) with the flag LONG_BLOCK alone: no data, no
    large sizes, no Unicode name, no salt. *)
Definition rar4_file_record (name : list byte) : list byte :=
  [x00; x00;                                 (* offset 0: HEAD_CRC *)
   x74;                                      (* 2: HEAD_TYPE = file *)
   x00; x80]                                 (* 3: HEAD_FLAGS = 0x8000 *)
  ++ u16le (32 + len name)                   (* 5: HEAD_SIZE *)
  ++ [x00; x00; x00; x00;                    (* 7: PACK_SIZE *)
      x00; x00; x00; x00;                    (* 11: UNP_SIZE *)
      x00;                                   (* 15: HOST_OS *)
      x00; x00; x00; x00;                    (* 16: FILE_CRC *)
      x00; x00; x00; x00;                    (* 20: FTIME *)
      x1d;                                   (* 24: UNP_VER *)
      x30]                                   (* 25: METHOD *)
  ++ u16le (len name)                        (* 26: NAME_SIZE *)
  ++ [x00; x00; x00; x00]                    (* 28: ATTR *)
  ++ name.                                   (* 32: FILE_NAME *)

(** The signature, a main header, the file headers and an end block. *)
Definition rar4_names_only (names : list (list byte)) : list byte :=
  [x52; x61; x72; x21; x1a; x07; x00;        (* offset 0: signature *)
   x00; x00;                                 (* 7: HEAD_CRC *)
   x73;                                      (* 9: HEAD_TYPE = main *)
   x00; x00;                                 (* 10: HEAD_FLAGS *)
   x0d; x00;                                 (* 12: HEAD_SIZE = 13 *)
   x00; x00; x00; x00; x00; x00]             (* 14: reserved *)
  ++ concat (map rar4_file_record names)     (* 20: the file headers *)
  ++ [x00; x00;                              (* HEAD_CRC *)
      x7b;                                   (* HEAD_TYPE = end of archive *)
      x00; x40;                              (* HEAD_FLAGS = 0x4000 *)
      x07; x00].                             (* HEAD_SIZE = 7 *)

(** ** RAR archives with encrypted headers *)

(** A v5 archive whose first header is an archive encryption header
    (type 4), and whatever follows. *)
Definition rar5_encrypted (rest : list byte) : list byte :=
  [x52; x61; x72; x21; x1a; x07; x01; x00;   (* offset 0: signature *)
   x00; x00; x00; x00;                       (* 8: header CRC32 *)
   x04;                                      (* 12: header size *)
   x04;                                      (* 13: header type = encryption *)
   x00]                                      (* 14: header flags *)
  ++ rest.

(** A v4 archive whose main header has the flag 0x0080 (block headers are
    encrypted), and whatever follows. *)
Definition rar4_encrypted (rest : list byte) : list byte :=
  [x52; x61; x72; x21; x1a; x07; x00;        (* offset 0: signature *)
   x00; x00;                                 (* 7: HEAD_CRC *)
   x73;                                      (* 9: HEAD_TYPE = main *)
   x80; x00]                                 (* 10: HEAD_FLAGS = 0x0080 *)
  ++ rest.

(** * Facts *)

(** ** Bytes, loads and stores *)

Lemma u8_range (b : byte) : 0 <= u8 b < 256.
Proof.
  unfold u8. pose proof (Byte.to_N_bounded b). lia.
Qed.

Lemma u8_byte_of_Z (z : Z) : u8 (byte_of_Z z) = z mod 256.
Proof.
  unfold u8, byte_of_Z.
  destruct (Byte.of_N (Z.to_N (z mod 256))) eqn:E.
  - apply Byte.to_of_N in E. rewrite E, Z2N.id; [reflexivity|].
    apply Z.mod_pos_bound. lia.
  - apply Byte.of_N_None_iff in E. pose proof (Z.mod_pos_bound z 256). lia.
Qed.

Lemma byte_of_Z_u8 (b : byte) : byte_of_Z (u8 b) = b.
Proof.
  unfold byte_of_Z, u8.
  rewrite Z.mod_small by (pose proof (Byte.to_N_bounded b); lia).
  rewrite N2Z.id, Byte.of_to_N. reflexivity.
Qed.

Lemma byte_eqb_eq (a b : byte) : Byte.eqb a b = true <-> a = b.
Proof.
  split; [apply Byte.byte_dec_bl | apply Byte.byte_dec_lb].
Qed.

Lemma byte_eqb_refl (a : byte) : Byte.eqb a a = true.
Proof. now apply byte_eqb_eq. Qed.

Lemma byte_eqb_neq (a b : byte) : Byte.eqb a b = false <-> a <> b.
Proof.
  destruct (Byte.eqb a b) eqn:E.
  - apply byte_eqb_eq in E. split; [discriminate | congruence].
  - split; [intros _ Hab | reflexivity].
    apply byte_eqb_eq in Hab. congruence.
Qed.

Lemma bytes_eqb_eq (a b : list byte) : bytes_eqb a b = true <-> a = b.
Proof.
  revert b. induction a as [|x a IH]; intros [|y b]; simpl; try easy.
  rewrite andb_true_iff, byte_eqb_eq, IH. split.
  - intros [-> ->]. reflexivity.
  - intros E. inversion E. auto.
Qed.

Lemma len_nonneg {A : Type} (l : list A) : 0 <= len l.
Proof. unfold len. lia. Qed.

Lemma len_app {A : Type} (a b : list A) : len (a ++ b) = len a + len b.
Proof. unfold len. rewrite length_app. lia. Qed.

Lemma len_cons {A : Type} (x : A) (l : list A) : len (x :: l) = 1 + len l.
Proof. unfold len. simpl length. lia. Qed.

Lemma len_nil {A : Type} : len (@nil A) = 0.
Proof. reflexivity. Qed.

Lemma len_u16le (v : Z) : len (u16le v) = 2.
Proof. reflexivity. Qed.

Lemma len_u32le (v : Z) : len (u32le v) = 4.
Proof. reflexivity. Qed.

Lemma byte_at_app_r (a r : list byte) (k : Z) :
  0 <= k -> byte_at (a ++ r) (len a + k) = byte_at r k.
Proof.
  intros Hk. unfold byte_at, len.
  destruct (Z.ltb_spec (Z.of_nat (length a) + k) 0); [lia|].
  destruct (Z.ltb_spec k 0); [lia|].
  replace (Z.to_nat (Z.of_nat (length a) + k)) with (length a + Z.to_nat k)%nat by lia.
  rewrite nth_error_app2 by lia. f_equal. lia.
Qed.

Lemma byte_at_app_l (a r : list byte) (k : Z) :
  k < len a -> byte_at (a ++ r) k = byte_at a k.
Proof.
  intros Hk. unfold byte_at, len in *.
  destruct (Z.ltb_spec k 0); [reflexivity|].
  rewrite nth_error_app1 by lia. reflexivity.
Qed.

Lemma peek_app_r (a r : list byte) (k : Z) :
  0 <= k -> peek (a ++ r) (len a + k) = peek r k.
Proof. intros. unfold peek. now rewrite byte_at_app_r. Qed.

Lemma peek_app_l (a r : list byte) (k : Z) :
  k < len a -> peek (a ++ r) k = peek a k.
Proof. intros. unfold peek. now rewrite byte_at_app_l. Qed.

Lemma peek_range (buf : list byte) (p : Z) : 0 <= peek buf p < 256.
Proof.
  unfold peek. destruct (byte_at buf p); [apply u8_range | lia].
Qed.

Lemma le16_app_r (a r : list byte) (k : Z) :
  0 <= k -> le16 (a ++ r) (len a + k) = le16 r k.
Proof.
  intros. unfold le16.
  rewrite <- Z.add_assoc, !peek_app_r by lia. reflexivity.
Qed.

Lemma le32_app_r (a r : list byte) (k : Z) :
  0 <= k -> le32 (a ++ r) (len a + k) = le32 r k.
Proof.
  intros. unfold le32.
  rewrite <- !Z.add_assoc, !peek_app_r by lia. reflexivity.
Qed.

Lemma le16_app_l (a r : list byte) (k : Z) :
  k + 2 <= len a -> le16 (a ++ r) k = le16 a k.
Proof.
  intros. unfold le16. rewrite !peek_app_l by lia. reflexivity.
Qed.

Lemma le32_app_l (a r : list byte) (k : Z) :
  k + 4 <= len a -> le32 (a ++ r) k = le32 a k.
Proof.
  intros. unfold le32. rewrite !peek_app_l by lia. reflexivity.
Qed.

Lemma le16_range (buf : list byte) (p : Z) : 0 <= le16 buf p < 2 ^ 16.
Proof.
  unfold le16.
  pose proof (peek_range buf p). pose proof (peek_range buf (p + 1)). lia.
Qed.

Lemma le32_range (buf : list byte) (p : Z) : 0 <= le32 buf p < 2 ^ 32.
Proof.
  unfold le32.
  pose proof (peek_range buf p). pose proof (peek_range buf (p + 1)).
  pose proof (peek_range buf (p + 2)). pose proof (peek_range buf (p + 3)). lia.
Qed.

Lemma sub_app_r (a r : list byte) (k n : Z) :
  0 <= k -> sub (a ++ r) (len a + k) n = sub r k n.
Proof.
  intros. unfold sub, len.
  replace (Z.to_nat (Z.of_nat (length a) + k)) with (length a + Z.to_nat k)%nat by lia.
  rewrite skipn_app, skipn_all2 by lia. simpl.
  replace (length a + Z.to_nat k - length a)%nat with (Z.to_nat k) by lia.
  reflexivity.
Qed.

Lemma sub_prefix (a r : list byte) : sub (a ++ r) 0 (len a) = a.
Proof.
  unfold sub, len. simpl. rewrite Nat2Z.id, firstn_app, firstn_all.
  replace (length a - length a)%nat with 0%nat by lia. simpl. apply app_nil_r.
Qed.

(** A 16-bit store followed by a 16-bit load. *)
Lemma le16_u16le (v : Z) (r : list byte) : le16 (u16le v ++ r) 0 = u16 v.
Proof.
  unfold le16, u16le, u16.
  change (peek ([byte_of_Z v; byte_of_Z (v / 2 ^ 8)] ++ r) 0) with (u8 (byte_of_Z v)).
  change (peek ([byte_of_Z v; byte_of_Z (v / 2 ^ 8)] ++ r) (0 + 1))
    with (u8 (byte_of_Z (v / 2 ^ 8))).
  rewrite !u8_byte_of_Z.
  change (2 ^ 16) with (256 * 256). change (2 ^ 8) with 256.
  rewrite (Z.rem_mul_r v 256 256) by lia. lia.
Qed.

(** A 32-bit store followed by a 32-bit load. *)
Lemma le32_u32le (v : Z) (r : list byte) : le32 (u32le v ++ r) 0 = u32 v.
Proof.
  unfold le32, u32le, u32.
  set (b0 := byte_of_Z v). set (b1 := byte_of_Z (v / 2 ^ 8)).
  set (b2 := byte_of_Z (v / 2 ^ 16)). set (b3 := byte_of_Z (v / 2 ^ 24)).
  change (peek ([b0; b1; b2; b3] ++ r) 0) with (u8 b0).
  change (peek ([b0; b1; b2; b3] ++ r) (0 + 1)) with (u8 b1).
  change (peek ([b0; b1; b2; b3] ++ r) (0 + 2)) with (u8 b2).
  change (peek ([b0; b1; b2; b3] ++ r) (0 + 3)) with (u8 b3).
  subst b0 b1 b2 b3. rewrite !u8_byte_of_Z.
  change (2 ^ 8) with 256. change (2 ^ 16) with (256 * 256).
  change (2 ^ 24) with (256 * 256 * 256).
  change (2 ^ 32) with (256 * (256 * (256 * 256))).
  rewrite <- !Z.div_div by lia.
  rewrite (Z.rem_mul_r v 256 (256 * (256 * 256))) by lia.
  rewrite (Z.rem_mul_r (v / 256) 256 (256 * 256)) by lia.
  rewrite (Z.rem_mul_r (v / 256 / 256) 256 256) by lia.
  lia.
Qed.

Lemma u16_small (v : Z) : 0 <= v < 2 ^ 16 -> u16 v = v.
Proof. intros. unfold u16. now apply Z.mod_small. Qed.

Lemma u32_small (v : Z) : 0 <= v < 2 ^ 32 -> u32 v = v.
Proof. intros. unfold u32. now apply Z.mod_small. Qed.

Lemma u64_small (v : Z) : 0 <= v < 2 ^ 64 -> u64 v = v.
Proof. intros. unfold u64. now apply Z.mod_small. Qed.

(** ** The variable-length integer decoders *)

(** The loop of the RAR decoder never raises its shift above 63, so the
    [shift > 64] test behind the loop cannot fire. *)
Lemma rar_vint_exit_shift (remain shift t nread : Z) :
  shift <= 64 ->
  rar_vint_exit remain shift t nread
  = if remain =? 0 then VintBad else VintOk t nread.
Proof.
  intros Hs. unfold rar_vint_exit.
  destruct (Z.ltb_spec 64 shift); [lia|]. now rewrite orb_false_r.
Qed.

(** While continuation bytes last and the shift stays below 63, the loop
    goes on; at shift 63 it stops and succeeds if input remains. *)
Lemma rar_vint_loop_continuations (cs rest : list byte) :
  Forall (fun b => Z.testbit (u8 b) 7 = true) cs ->
  forall remain shift t nread,
    len cs < remain -> shift + 7 * len cs = 63 ->
    exists v, rar_vint_loop (cs ++ rest) remain shift t nread = VintOk v (nread + len cs).
Proof.
  induction 1 as [|c cs Hc _ IH]; intros remain shift t nread Hr Hs.
  - rewrite len_nil in *. simpl app.
    assert (E : rar_vint_loop rest remain shift t nread
                = rar_vint_exit remain shift t nread).
    { destruct rest; cbn [rar_vint_loop];
        (destruct (Z.leb_spec shift 57); [lia|]); now rewrite andb_false_r. }
    rewrite E, rar_vint_exit_shift by lia.
    destruct (Z.eqb_spec remain 0); [lia|]. exists t. f_equal. lia.
  - rewrite len_cons in *. pose proof (len_nonneg cs).
    cbn [app rar_vint_loop].
    destruct (Z.ltb_spec 0 remain); [|lia].
    destruct (Z.leb_spec shift 57); [|lia].
    cbn [andb]. rewrite Hc.
    destruct (IH (remain - 1) (shift + 7)
                (Z.lor t (u64 (Z.shiftl (Z.land (u8 c) 127) shift))) (nread + 1))
      as [v Hv]; [lia | lia |].
    exists v. rewrite Hv. f_equal. lia.
Qed.

(** Nine bytes with the continuation bit set, followed by at least one more
    byte of input: the RAR decoder stops after the ninth and reports success
    without having met a terminating byte. *)
Lemma rar_vint_nine_continuations (cs rest : list byte) (remain : Z) :
  len cs = 9 ->
  Forall (fun b => Z.testbit (u8 b) 7 = true) cs ->
  9 < remain ->
  exists v, rspamd_archive_rar_read_vint (cs ++ rest) remain = VintOk v 9.
Proof.
  intros Hl Hc Hr. unfold rspamd_archive_rar_read_vint.
  destruct (rar_vint_loop_continuations cs rest Hc remain 0 0 0) as [v Hv]; [lia | lia |].
  exists v. rewrite Hv, Hl. reflexivity.
Qed.

(** C3 (evaluated at the failing input): ten bytes 0xFF hold no byte with a
    clear continuation bit, yet the RAR decoder does not fail; it returns the
    63 bits of the first nine bytes and reports nine bytes consumed. *)
Theorem rar_vint_unterminated_input_accepted :
  rspamd_archive_rar_read_vint (repeat xff 10) 10 = VintOk (2 ^ 63 - 1) 9.
Proof. vm_compute. reflexivity. Qed.

(** The eight extra bytes after a first byte 0xFF are the value, the first
    byte contributing nothing. *)
Lemma sz_vint_0xff `{Platform} (rest : list byte) (remain : Z) :
  9 <= remain ->
  rspamd_archive_7zip_read_vint (xff :: rest) remain
  = VintOk (le_bytes (firstn 8 rest)) 9.
Proof.
  intros Hr. unfold rspamd_archive_7zip_read_vint.
  destruct (Z.eqb_spec remain 0); [lia|].
  change (u8 xff) with 255. cbn [isset negb].
  replace (Z.testbit 255 7) with true by reflexivity. cbn [negb].
  replace (255 =? 255) with true by reflexivity.
  destruct (Z.leb_spec 9 remain); [reflexivity | lia].
Qed.

(** A first byte below 0x80 is the value itself. *)
Lemma sz_vint_single `{Platform} (b : byte) (rest : list byte) (remain : Z) :
  u8 b < 128 -> 0 < remain ->
  rspamd_archive_7zip_read_vint (b :: rest) remain = VintOk (u8 b) 1.
Proof.
  intros Hb Hr. unfold rspamd_archive_7zip_read_vint.
  destruct (Z.eqb_spec remain 0); [lia|].
  unfold isset.
  assert (Z.testbit (u8 b) 7 = false) as ->.
  { pose proof (u8_range b).
    destruct (Z.eqb_spec (u8 b) 0) as [->|]; [reflexivity|].
    apply Z.bits_above_log2; [lia|].
    apply Z.log2_lt_pow2; [lia|]. change (2 ^ 7) with 128. lia. }
  reflexivity.
Qed.

(** C4 (evaluated at every input with the failing prefix): on a first byte
    0xFE the 7-Zip decoder returns -1 whatever follows and however many
    bytes remain, where the claim and the table in the source's own comment
    have it read seven little-endian bytes: the scan of the length prefix
    stops at bit 1 and never looks at bit 0. *)
Theorem sz_vint_0xfe_always_fails `{Platform} (rest : list byte) (remain : Z) :
  rspamd_archive_7zip_read_vint (xfe :: rest) remain = VintBad.
Proof.
  unfold rspamd_archive_7zip_read_vint.
  destruct (remain =? 0); reflexivity.
Qed.

(** ** Name validation in the ZIP writer *)

Lemma has_char_In (c : byte) (s : list byte) : has_char c s = true <-> In c s.
Proof.
  unfold has_char. rewrite existsb_exists. split.
  - intros [x [Hin Hx]]. apply byte_eqb_eq in Hx. now subst.
  - intros Hin. exists c. split; [assumption | apply byte_eqb_refl].
Qed.

Lemma has_dotdot_iff (s : list byte) :
  has_dotdot s = true <-> exists a b, s = a ++ x2e :: x2e :: b.
Proof.
  induction s as [|x s IH].
  - split; [discriminate|]. intros [[|? ?] [t E]]; discriminate.
  - cbn [has_dotdot]. destruct s as [|y s'].
    + split; [discriminate|].
      intros [[|? [|? ?]] [t E]]; discriminate.
    + rewrite orb_true_iff, andb_true_iff, !byte_eqb_eq, IH. split.
      * intros [[-> ->] | [a [b E]]].
        -- now exists [], s'.
        -- exists (x :: a), b. now rewrite E.
      * intros [[|x' a] [b E]]; simpl in E; inversion E; subst.
        -- now left.
        -- right. now exists a, b.
Qed.

(** The writer's validation refuses exactly the names with one of the
    listed features. *)
Lemma validate_name_false_iff (name : option (list byte)) :
  rspamd_zip_validate_name name = false <-> name_rejected name.
Proof.
  destruct name as [[|c rest]|]; unfold rspamd_zip_validate_name, name_rejected.
  - split; [now left | reflexivity].
  - destruct (Byte.eqb c x2f) eqn:E1.
    { apply byte_eqb_eq in E1. subst. split; [|reflexivity].
      intros _. right. left. now exists rest. }
    destruct (Byte.eqb c x5c) eqn:E2.
    { apply byte_eqb_eq in E2. subst. split; [|reflexivity].
      intros _. right. right. left. now exists rest. }
    cbn [orb].
    destruct (has_dotdot (c :: rest)) eqn:E3.
    { apply has_dotdot_iff in E3. split; [|reflexivity].
      intros _. right. right. right. now left. }
    destruct (has_char x3a (c :: rest)) eqn:E4.
    { apply has_char_In in E4. split; [|reflexivity].
      intros _. right. right. right. now right. }
    split; [discriminate|].
    apply byte_eqb_neq in E1, E2.
    intros [E | [[r E] | [[r E] | [E | E]]]].
    + discriminate.
    + inversion E. congruence.
    + inversion E. congruence.
    + apply has_dotdot_iff in E. congruence.
    + apply has_char_In in E. congruence.
  - split; [trivial | reflexivity].
Qed.

Section ZipWriterFacts.

Context `{Clock} `{Zlib} `{OpenSSL}.

(** The loop over a list in two parts: the second part is written behind
    what the first has left, unless the first has failed. *)
Lemma zip_write_entries_app (password : option (list byte))
  (pre post : list rspamd_zip_file_spec) :
  forall i zip cd,
    zip_write_entries i password (pre ++ post) zip cd
    = match zip_write_entries i password pre zip cd with
      | WOk (zip', cd') =>
          zip_write_entries (length pre + i) password post zip' cd'
      | WErr e => WErr e
      | WOverflow => WOverflow
      end.
Proof.
  induction pre as [|f pre IH]; intros i zip cd; [reflexivity|].
  cbn [app zip_write_entries length].
  destruct (negb (rspamd_zip_validate_name (spec_name f))); [reflexivity|].
  destruct (G_MAXUINT <? len (spec_data f)); [reflexivity|].
  match goal with
  | |- context [match ?r with WOk _ => _ | WErr _ => _ | WOverflow => _ end] =>
      destruct r as [[zip' cd']|e|]
  end; try reflexivity.
  rewrite IH. replace (length pre + S i)%nat with (S (length pre + i)) by lia.
  reflexivity.
Qed.

(** Whatever the collaborators do, a list that holds a refused name yields
    no archive. *)
Lemma zip_write_entries_refused (password : option (list byte))
  (files : list rspamd_zip_file_spec) :
  Exists (fun f => name_rejected (spec_name f)) files ->
  forall i zip cd r, zip_write_entries i password files zip cd <> WOk r.
Proof.
  induction files as [|f files IH]; intros Hex i zip cd r.
  - inversion Hex.
  - cbn [zip_write_entries].
    destruct (rspamd_zip_validate_name (spec_name f)) eqn:Hv; cbn [negb];
      [|discriminate].
    assert (Hex' : Exists (fun f => name_rejected (spec_name f)) files).
    { inversion Hex as [? ? Hbad|]; subst; [|assumption].
      apply validate_name_false_iff in Hbad. congruence. }
    destruct (G_MAXUINT <? len (spec_data f)); [discriminate|].
    match goal with
    | |- context [match ?r with WOk _ => _ | WErr _ => _ | WOverflow => _ end] =>
        destruct r as [[zip' cd']|e|]
    end; try discriminate.
    apply IH. assumption.
Qed.

(** C8, as the code has it: the writer's validation refuses a name exactly
    when it is NULL or empty, begins with '/' or '\\', contains ".." or
    contains ':' (so a name with none of these features passes); a list
    holding such a name never yields an archive, whatever the password; and
    since each name is validated at the head of its own round of the loop
    over the files, what the writer returns for a list with a refused name
    [f] is the invalid-name error for [f] when the files before [f] were all
    written, and otherwise the failure of the first of them that was not:
    an earlier refused name, an error of zlib or OpenSSL, or a length that
    does not fit. *)
Theorem zip_write_rejects_invalid_names :
  (forall name, rspamd_zip_validate_name name = false <-> name_rejected name)
  /\ (forall files password out,
        Exists (fun f => name_rejected (spec_name f)) files ->
        rspamd_archives_zip_write files password <> WOk out)
  /\ (forall pre f post password,
        name_rejected (spec_name f) ->
        rspamd_archives_zip_write (pre ++ f :: post) password
        = match zip_write_entries 0 password pre [] [] with
          | WOk _ => WErr (ErrInvalidName (spec_name f))
          | WErr e => WErr e
          | WOverflow => WOverflow
          end).
Proof.
  split; [exact validate_name_false_iff|]. split.
  - intros files password out Hex. unfold rspamd_archives_zip_write.
    destruct files as [|f files]; [discriminate|].
    pose proof (zip_write_entries_refused password (f :: files) Hex 0%nat [] []) as Hr.
    destruct (zip_write_entries 0 password (f :: files) [] []) as [[zip cd]|e|];
      try discriminate.
    exfalso. eapply Hr. reflexivity.
  - intros pre f post password Hbad. unfold rspamd_archives_zip_write.
    assert (Hne : exists g l, pre ++ f :: post = g :: l)
      by (destruct pre; cbn; eauto).
    destruct Hne as (g & l & Hgl). rewrite Hgl, <- Hgl. clear g l Hgl.
    rewrite zip_write_entries_app.
    destruct (zip_write_entries 0 password pre [] []) as [[zip cd]|e|]; try reflexivity.
    cbn [zip_write_entries].
    apply validate_name_false_iff in Hbad. rewrite Hbad. reflexivity.
Qed.

End ZipWriterFacts.

(** C8 (counterexample): a.txt, then ../etc/passwd, with a zlib whose
    [deflate] fails: the second name is one the writer refuses, and the
    error returned is the one of zlib on the first file. *)
Lemma zip_invalid_name_not_reported :
  name_rejected (Some name_traversal)
  /\ @rspamd_archives_zip_write demo_clock failing_zlib demo_openssl
       [mk_zip_file_spec (Some name_a_txt) data_hello 0 0;
        mk_zip_file_spec (Some name_traversal) [] 0 0] None
     = WErr ErrDeflate.
Proof.
  split; [|vm_compute; reflexivity].
  right. right. right. left. exists [], [x2f; x65; x74; x63; x2f; x70; x61; x73; x73; x77; x64].
  reflexivity.
Qed.

(** ** The bytes the ZIP writer emits *)

Lemma patch_app_r (a r bs : list byte) (k : Z) :
  0 <= k -> patch (a ++ r) (len a + k) bs = a ++ patch r k bs.
Proof.
  intros Hk. unfold patch, len.
  replace (Z.to_nat (Z.of_nat (length a) + k)) with (length a + Z.to_nat k)%nat by lia.
  rewrite firstn_app, firstn_all2 by lia.
  replace (length a + Z.to_nat k - length a)%nat with (Z.to_nat k) by lia.
  rewrite skipn_app, (skipn_all2 a) by lia.
  replace (length a + Z.to_nat k + length bs - length a)%nat
    with (Z.to_nat k + length bs)%nat by lia.
  now rewrite <- app_assoc.
Qed.

Lemma len_patch (buf bs : list byte) (k : Z) :
  0 <= k -> k + len bs <= len buf -> len (patch buf k bs) = len buf.
Proof.
  intros Hk Hb. unfold patch, len in *.
  rewrite !length_app, length_firstn, length_skipn. lia.
Qed.

(** A store behind a prefix of the array leaves the prefix and the length
    as they were. *)
Lemma patch_keeps_prefix (a r bs : list byte) (k : Z) :
  len a <= k -> k + len bs <= len (a ++ r) ->
  exists r', patch (a ++ r) k bs = a ++ r' /\ len r' = len r.
Proof.
  intros Hk Hb. exists (patch r (k - len a) bs). split.
  - rewrite <- patch_app_r by lia. f_equal. lia.
  - rewrite len_app in Hb. apply len_patch; lia.
Qed.

Lemma u32_le (x : Z) : 0 <= x -> 0 <= u32 x <= x.
Proof.
  intros Hx. unfold u32. split.
  - apply Z.mod_pos_bound. lia.
  - apply Z.mod_le; lia.
Qed.

Lemma len_local_header_fixed `{Clock} (name : list byte) (v g m t c cs us el : Z) :
  len (local_header_fixed name v g m t c cs us el) = 30.
Proof. reflexivity. Qed.

Lemma len_central_header_fixed `{Clock} (name : list byte) (v g m t c cs us off mode el : Z) :
  len (central_header_fixed name v g m t c cs us off mode el) = 46.
Proof. reflexivity. Qed.

Lemma len_extra_aes (v s m : Z) : len (extra_aes v s m) = 11.
Proof. reflexivity. Qed.






(** A step of the writer that has returned an array has passed every
    test before it: [write_ok H] goes through them in [H]. *)
Ltac write_fails H :=
  solve [ discriminate H
        | match type of H with
          | (if ?c then _ else _) = _ => destruct c; discriminate H
          end ].

Ltac write_ok H :=
  cbv beta zeta in H;
  repeat lazymatch type of H with
         | (if ?c then _ else _) = WOk _ => destruct c eqn:?; [write_fails H|]
         | match ?x with _ => _ end = WOk _ => destruct x eqn:?; try write_fails H
         end.

Section ZipWriterBytes.

Context `{Clock} `{Zlib} `{OpenSSL}.




(** Whatever the length of the name, an encrypted write only appends. *)
Lemma zip_write_entry_aes_extent (i : nat) (pw : list byte) (f : rspamd_zip_file_spec)
  (name zip cd zip' cd' : list byte) :
  zip_write_entry_aes i pw f name zip cd = WOk (zip', cd') ->
  exists rec, zip' = zip ++ rec /\ len name <= len rec.
Proof.
  unfold zip_write_entry_aes. intros Hw. write_ok Hw.
  inversion Hw as [[Hz Hc]]. clear Hw Hc Hz.
  unfold rspamd_zip_write_extra_aes, rspamd_zip_write_local_header.
  rewrite <- !app_assoc.
  pose proof (len_nonneg zip). pose proof (len_nonneg name).
  pose proof (u32_le (len name) ltac:(lia)).
  match goal with
  | |- exists rec, patch (patch (zip ++ ?R) ?a ?x) ?b ?y = _ /\ _ =>
      assert (HR : 30 + len name + 11 <= len R)
        by (rewrite !len_app, len_local_header_fixed, len_extra_aes;
            repeat match goal with
                   | |- context [len ?l] =>
                       lazymatch goal with
                       | _ : 0 <= len l |- _ => fail
                       | _ => pose proof (len_nonneg l)
                       end
                   end; lia);
      destruct (patch_keeps_prefix zip R x a) as (r1 & -> & Hr1);
      [lia | rewrite len_app; change (len x) with 4; lia |];
      destruct (patch_keeps_prefix zip r1 y b) as (r2 & -> & Hr2);
      [lia | rewrite len_app; change (len y) with 2; lia |]
  end.
  exists r2. split; [reflexivity | lia].
Qed.



End ZipWriterBytes.

(** ** The central directory an unencrypted write emits *)

Section ZipWriterPlain.

Context `{Clock} `{Zlib} `{OpenSSL}.

(** An unencrypted write appends one local entry of at least 30 bytes to
    the array and one record to the central directory. *)
Lemma zip_write_entry_plain_bytes (f : rspamd_zip_file_spec)
  (name zip cd zip' cd' : list byte) :
  zip_write_entry_plain f name zip cd = WOk (zip', cd') ->
  exists rec method crc csize,
    zip' = zip ++ rec
    /\ 30 <= len rec <= 30 + len name + deflateBound (len (spec_data f))
    /\ cd' = cd ++ plain_cd_record f name method crc csize (len zip).
Proof.
  unfold zip_write_entry_plain. intros Hw. write_ok Hw.
  match goal with Hd : zlib_deflate _ = Deflated ?o |- _ => rename o into out end.
  match goal with
  | Hg : (_ || (_ <? len out)) = false |- _ =>
      apply orb_false_elim in Hg as [_ Hb]; apply Z.ltb_ge in Hb
  end.
  inversion Hw as [[Hz Hc]]. clear Hw Hz Hc.
  unfold rspamd_zip_write_local_header, rspamd_zip_write_central_header, plain_cd_record.
  change (u16 (Z.shiftl 1 11)) with 2048.
  pose proof (len_nonneg zip). pose proof (len_nonneg name).
  pose proof (len_nonneg (spec_data f)). pose proof (len_nonneg out).
  destruct (Z.leb_spec (len (spec_data f)) (len out)).
  - rewrite <- !app_assoc.
    match goal with
    | |- exists rec method crc csize,
          patch (patch (patch (zip ++ ?R) ?a ?x) ?b ?y) ?c ?z = _ /\ _ /\ _ =>
        assert (HR : len R = 30 + len name + len (spec_data f))
          by (rewrite !len_app, len_local_header_fixed; lia);
        destruct (patch_keeps_prefix zip R x a) as (r1 & -> & Hr1);
        [lia | rewrite len_app; change (len x) with 2; lia |];
        destruct (patch_keeps_prefix zip r1 y b) as (r2 & -> & Hr2);
        [lia | rewrite len_app; change (len y) with 4; lia |];
        destruct (patch_keeps_prefix zip r2 z c) as (r3 & -> & Hr3);
        [lia | rewrite len_app; change (len z) with 4; lia |]
    end.
    exists r3. eexists. eexists. eexists.
    split; [reflexivity|]. split; [lia|]. reflexivity.
  - rewrite <- !app_assoc.
    match goal with
    | |- exists rec method crc csize,
          patch (patch (zip ++ ?R) ?b ?y) ?c ?z = _ /\ _ /\ _ =>
        assert (HR : len R = 30 + len name + len out)
          by (rewrite !len_app, len_local_header_fixed; lia);
        destruct (patch_keeps_prefix zip R y b) as (r2 & -> & Hr2);
        [lia | rewrite len_app; change (len y) with 4; lia |];
        destruct (patch_keeps_prefix zip r2 z c) as (r3 & -> & Hr3);
        [lia | rewrite len_app; change (len z) with 4; lia |]
    end.
    exists r3. eexists. eexists. eexists.
    split; [reflexivity|]. split; [lia|]. reflexivity.
Qed.

Lemma zip_write_entries_plain_bytes (password : option (list byte))
  (files : list rspamd_zip_file_spec) :
  use_aes password = false ->
  forall i zip cd zip' cd',
    zip_write_entries i password files zip cd = WOk (zip', cd') ->
    exists local cds,
      zip' = zip ++ local /\ cd' = cd ++ concat cds
      /\ plain_cd_records files cds
      /\ (files <> [] -> 30 <= len local).
Proof.
  intros Hpw.
  induction files as [|f files IH]; intros i zip cd zip' cd' Hw.
  - inversion Hw; subst. exists [], []. rewrite !app_nil_r.
    repeat split; [constructor | congruence].
  - cbn [zip_write_entries] in Hw.
    destruct (rspamd_zip_validate_name (spec_name f)) eqn:Hv; [|discriminate].
    cbn [negb] in Hw.
    destruct (spec_name f) as [name|] eqn:Hname; [|discriminate].
    destruct (G_MAXUINT <? len (spec_data f)); [discriminate|].
    assert (He : exists zip1 cd1,
               zip_write_entry_plain f name zip cd = WOk (zip1, cd1)
               /\ zip_write_entries (S i) password files zip1 cd1 = WOk (zip', cd')).
    { destruct password as [[|c pw]|]; try discriminate;
        destruct (zip_write_entry_plain f name zip cd) as [[zip1 cd1]|e|];
        try discriminate; now exists zip1, cd1. }
    destruct He as (zip1 & cd1 & He & Hrest).
    destruct (zip_write_entry_plain_bytes _ _ _ _ _ _ He)
      as (rec & method & crc & csize & -> & Hrec & ->).
    destruct (IH _ _ _ _ _ Hrest) as (local & cds & -> & -> & Hall & _).
    exists (rec ++ local), (plain_cd_record f name method crc csize (len zip) :: cds).
    cbn [concat]. rewrite <- !app_assoc.
    repeat split.
    + constructor; [|assumption]. now exists name, method, crc, csize, (len zip).
    + intros _. rewrite len_app. pose proof (len_nonneg local). lia.
Qed.

End ZipWriterPlain.

(** ** The ZIP reader *)

(** C5 (evaluated at the failing input): the end-of-central-directory
    record of [zip_wrapped_extent] stands at offset 48 and declares
    cd_offset = 1 and cd_size = 0xFFFFFFFF, whose sum 2^32 exceeds 48.  The
    reader adds the two fields in 32 bits, gets 0, lets the input pass the
    extent check and walks the central directory at offset 1; the input is
    refused only by the record check of the walk's second round. *)
Theorem zip_wrapped_extent_is_walked :
  @zip_find_eocd 1026 zip_wrapped_extent (len zip_wrapped_extent - 1 - 21) 0 = Some 48
  /\ le32 zip_wrapped_extent (48 + 16) + le32 zip_wrapped_extent (48 + 12) = 2 ^ 32
  /\ (u32 48 <? u32 (le32 zip_wrapped_extent (48 + 16) + le32 zip_wrapped_extent (48 + 12)))
     = false
  /\ (exists arch,
        @zip_cd_record ascii_charsets zip_wrapped_extent 48 1 (new_archive RSPAMD_ARCHIVE_ZIP None)
        = Some (Go (48, arch))
        /\ map fname (files arch) = [[x61]])
  /\ @rspamd_archive_process_zip ascii_charsets zip_wrapped_extent None
     = Some (Rejected ZipBadCdRecord).
Proof.
  split; [vm_compute; reflexivity|].
  split; [vm_compute; reflexivity|].
  split; [vm_compute; reflexivity|].
  split; [|vm_compute; reflexivity].
  eexists. split; vm_compute; reflexivity.
Qed.

(** C6 (evaluated at the failing input): a record with general-purpose
    flags 0 whose extra area is exactly one header with id 0x0017 and an
    empty payload is accepted and its entry is not marked encrypted, because
    the walk over the extra fields asks for more than four bytes to remain;
    the same header is seen, and the entry marked, as soon as anything
    follows it.  The archive-level flag stays clear in both cases. *)
Theorem zip_extra_0017_last_not_seen :
  (exists arch,
     @rspamd_archive_process_zip ascii_charsets (zip_one_record extra_0017_last) None
     = Some (Attached arch)
     /\ map file_encrypted (files arch) = [false]
     /\ arch_encrypted arch = false)
  /\ (exists arch,
        @rspamd_archive_process_zip ascii_charsets (zip_one_record extra_0017_first) None
        = Some (Attached arch)
        /\ map file_encrypted (files arch) = [true]
        /\ arch_encrypted arch = false).
Proof.
  split; eexists; (split; [vm_compute; reflexivity|]); split; reflexivity.
Qed.

Section ZipReaderFacts.

Context `{Clock} `{Charsets}.

(** The reader never raises the archive-level encrypted flag. *)
Lemma zip_cd_record_arch_encrypted (buf : list byte) (eocd cd cd' : Z)
  (arch arch' : rspamd_archive) :
  zip_cd_record buf eocd cd arch = Some (Go (cd', arch')) ->
  arch_encrypted arch' = arch_encrypted arch.
Proof.
  unfold zip_cd_record. intros Hr.
  destruct (_ || _); [discriminate|].
  destruct (_ <? _); [discriminate|].
  destruct (rspamd_archive_file_try_utf _) as [name obf].
  destruct (zip_extra_walk _ _ _ _ _) as [[|]|]; inversion Hr; reflexivity.
Qed.

Lemma zip_cd_record_stop (buf : list byte) (eocd cd : Z) (arch : rspamd_archive)
  (r : read_outcome) :
  zip_cd_record buf eocd cd arch = Some (Stop r) -> exists d, r = Rejected d.
Proof.
  unfold zip_cd_record. intros Hr.
  destruct (_ || _); [inversion Hr; now eexists|].
  destruct (_ <? _); [inversion Hr; now eexists|].
  destruct (rspamd_archive_file_try_utf _) as [name obf].
  destruct (zip_extra_walk _ _ _ _ _) as [[|]|]; discriminate.
Qed.

Lemma zip_cd_walk_arch_encrypted (fuel : nat) (buf : list byte) (eocd cd_end : Z) :
  forall cd arch arch',
    zip_cd_walk fuel buf eocd cd_end cd arch = Some (Attached arch') ->
    arch_encrypted arch' = arch_encrypted arch.
Proof.
  induction fuel as [|fuel IH]; intros cd arch arch' Hw; cbn [zip_cd_walk] in Hw.
  - destruct (cd <? cd_end); [discriminate|]. now inversion Hw.
  - destruct (cd <? cd_end); [|now inversion Hw].
    destruct (zip_cd_record buf eocd cd arch) as [[[cd1 arch1]|r]|] eqn:Hr;
      try discriminate.
    + rewrite (IH _ _ _ Hw). eapply zip_cd_record_arch_encrypted; eassumption.
    + apply zip_cd_record_stop in Hr. destruct Hr as [d ->]. discriminate.
Qed.

(** Whatever the per-entry markers, an archive the ZIP reader attaches has
    its archive-level encrypted flag clear. *)
Lemma zip_never_sets_arch_encrypted (buf : list byte) (cdname : option (list byte))
  (arch : rspamd_archive) :
  rspamd_archive_process_zip buf cdname = Some (Attached arch) ->
  arch_encrypted arch = false.
Proof.
  unfold rspamd_archive_process_zip. intros Hp.
  destruct (zip_find_eocd _ _ _ _) as [eocd|]; [|discriminate].
  destruct (_ <? 21); [discriminate|].
  destruct (u32 eocd <? _); [discriminate|].
  now apply zip_cd_walk_arch_encrypted in Hp.
Qed.

(** The fields the reader loads from a central directory record written
    without encryption. *)
Lemma plain_cd_record_fields (f : rspamd_zip_file_spec) (name r : list byte)
  (method crc csize off : Z) :
  let rec := plain_cd_record f name method crc csize off ++ r in
  sub rec 0 4 = cd_magic
  /\ le16 rec 8 = 2048
  /\ le32 rec 20 = u32 csize
  /\ le32 rec 24 = u32 (u32 (len (spec_data f)))
  /\ le16 rec 28 = u16 (u16 (len name))
  /\ le16 rec 30 = 0
  /\ le16 rec 32 = 0
  /\ sub rec 46 (len name) = name.
Proof.
  intros rec. subst rec. unfold plain_cd_record.
  set (hdr := central_header_fixed name 20 2048 method (spec_mtime f) crc csize
                (u32 (len (spec_data f))) off (spec_mode f) 0).
  assert (Hh : len hdr = 46) by reflexivity.
  split; [reflexivity|].
  split; [reflexivity|].
  split; [change (le32 ((hdr ++ name) ++ r) 20) with (le32 (u32le csize ++ []) 0);
          apply le32_u32le|].
  split; [change (le32 ((hdr ++ name) ++ r) 24)
            with (le32 (u32le (u32 (len (spec_data f))) ++ []) 0);
          apply le32_u32le|].
  split; [change (le16 ((hdr ++ name) ++ r) 28)
            with (le16 (u16le (u16 (len name)) ++ []) 0);
          apply le16_u16le|].
  split; [reflexivity|].
  split; [reflexivity|].
  rewrite <- app_assoc. rewrite <- Hh.
  replace (len hdr) with (len hdr + 0) at 1 by lia.
  rewrite sub_app_r by lia. apply sub_prefix.
Qed.

Lemma len_plain_cd_record (f : rspamd_zip_file_spec) (name : list byte)
  (method crc csize off : Z) :
  len (plain_cd_record f name method crc csize off) = 46 + len name.
Proof.
  unfold plain_cd_record. now rewrite len_app, len_central_header_fixed.
Qed.

End ZipReaderFacts.

(** ** Writing an archive and reading it back *)

Section ZipRoundTrip.

Context `{Clock} `{Zlib} `{OpenSSL} `{Charsets}.

(** The reader's step over one record written without encryption. *)
Lemma zip_cd_record_plain (f : rspamd_zip_file_spec) (name pre post : list byte)
  (method crc csize off eocd : Z) (arch : rspamd_archive) :
  len name < 2 ^ 16 ->
  len (spec_data f) < 2 ^ 32 ->
  fst (rspamd_archive_file_try_utf name) = name ->
  len pre + (46 + len name) <= eocd ->
  zip_cd_record (pre ++ plain_cd_record f name method crc csize off ++ post)
    eocd (len pre) arch
  = Some (Go (len pre + (46 + len name),
              add_file arch
                (mk_archive_file name (u32 csize) (len (spec_data f)) false
                   (snd (rspamd_archive_file_try_utf name))))).
Proof.
  intros Hn Hd Hfix Heocd.
  pose proof (len_nonneg name). pose proof (len_nonneg (spec_data f)).
  pose proof (len_nonneg pre).
  destruct (plain_cd_record_fields f name post method crc csize off)
    as (Fm & Ffl & Fcs & Fus & Ffn & Fel & Fcl & Fname).
  set (rec := plain_cd_record f name method crc csize off ++ post) in *.
  unfold zip_cd_record, cd_basic_len.
  replace (sub (pre ++ rec) (len pre) 4) with (sub rec 0 4)
    by (rewrite <- (sub_app_r pre rec 0 4) by lia; f_equal; lia).
  rewrite !le16_app_r, !le32_app_r, sub_app_r by lia.
  rewrite Fm, Ffl, Fcs, Fus, Ffn, Fel, Fcl.
  rewrite (u16_small (len name)) by lia.
  rewrite (u16_small (len name)) by lia.
  rewrite (u32_small (len (spec_data f))) by lia.
  rewrite (u32_small (len (spec_data f))) by lia.
  rewrite Fname.
  destruct (Z.ltb_spec (eocd - len pre) 46); [lia|].
  replace (bytes_eqb cd_magic cd_magic) with true by reflexivity. cbn [negb orb].
  destruct (Z.ltb_spec eocd (len pre + len name + 0 + 0 + 46)); [lia|].
  destruct (rspamd_archive_file_try_utf name) as [n obf] eqn:Hutf.
  cbn [fst snd] in *. subst n.
  change (Z.to_nat 0) with 0%nat. cbn [zip_extra_walk].
  destruct (Z.ltb_spec (len pre + len name + 46 + 2 * 2) (len pre + len name + 46 + 0));
    [lia|].
  change (has_bits 2048 65) with false.
  do 3 f_equal. lia.
Qed.


Lemma zip_cd_walk_done (fuel : nat) (buf : list byte) (eocd cd_end cd : Z)
  (arch : rspamd_archive) :
  cd_end <= cd ->
  zip_cd_walk fuel buf eocd cd_end cd arch
  = Some (Attached (set_arch_size arch (len buf))).
Proof.
  intros Hc. destruct fuel; cbn [zip_cd_walk];
    (destruct (Z.ltb_spec cd cd_end); [lia | reflexivity]).
Qed.

(** The reader's walk over the central directory of an unencrypted write. *)
Lemma zip_cd_walk_plain (files : list rspamd_zip_file_spec) (cds : list (list byte)) :
  plain_cd_records files cds ->
  Forall round_trip_entry files ->
  forall pre post arch fuel,
    (length cds <= fuel)%nat ->
    exists entries,
      entries_match files entries
      /\ zip_cd_walk fuel (pre ++ concat cds ++ post)
           (len pre + len (concat cds)) (len pre + len (concat cds)) (len pre) arch
         = Some (Attached (set_arch_size (fold_left add_file entries arch)
                             (len (pre ++ concat cds ++ post)))).
Proof.
  induction 1 as [|f cdrec files cds Hrec Hall IH];
    intros Hok pre post arch fuel Hfuel.
  - exists []. split; [constructor|].
    cbn [concat]. rewrite len_nil. apply zip_cd_walk_done. lia.
  - inversion Hok as [|? ? Hf Hok']; subst.
    destruct Hrec as (name & method & crc & csize & off & Hname & ->).
    destruct Hf as (name' & Hname' & _ & Hn & Hd & Hfix & _).
    rewrite Hname in Hname'. inversion Hname'; subst name'. clear Hname'.
    destruct fuel as [|fuel]; [simpl in Hfuel; lia|].
    cbn [concat]. rewrite len_app, len_plain_cd_record.
    pose proof (len_nonneg name). pose proof (len_nonneg (concat cds)).
    pose proof (len_nonneg pre).
    cbn [zip_cd_walk].
    destruct (Z.ltb_spec (len pre) (len pre + (46 + len name + len (concat cds))));
      [|lia].
    rewrite <- app_assoc.
    rewrite zip_cd_record_plain by (assumption || lia).
    set (e := mk_archive_file name (u32 csize) (len (spec_data f)) false
                (snd (rspamd_archive_file_try_utf name))).
    destruct (IH Hok' (pre ++ plain_cd_record f name method crc csize off) post
                (add_file arch e) fuel ltac:(simpl in Hfuel; lia))
      as (entries & Hm & Hw).
    exists (e :: entries). split.
    + constructor; [|assumption]. subst e. cbn. auto.
    + rewrite len_app, len_plain_cd_record in Hw.
      rewrite <- !app_assoc in Hw.
      replace (len pre + (46 + len name) + len (concat cds))
        with (len pre + (46 + len name + len (concat cds))) in Hw by lia.
      exact Hw.
Qed.

Lemma plain_cd_records_count (files : list rspamd_zip_file_spec)
  (cds : list (list byte)) :
  plain_cd_records files cds -> (length cds <= length (concat cds))%nat.
Proof.
  induction 1 as [|f cdrec files cds (name & m & c & cs & off & _ & ->) _ IH].
  - reflexivity.
  - cbn [concat length]. rewrite length_app.
    pose proof (len_plain_cd_record f name m c cs off) as Hl.
    pose proof (len_nonneg name). unfold len in *. lia.
Qed.

(** An entry whose header, name and DEFLATE window fit the array, and
    whose record fits the central directory, is written. *)
Lemma zip_write_entry_plain_fits (f : rspamd_zip_file_spec)
  (name zip cd out : list byte) :
  zlib_deflate (spec_data f) = Deflated out ->
  len out <= deflateBound (len (spec_data f)) ->
  len zip + 30 + len name + deflateBound (len (spec_data f)) <= G_MAXUINT ->
  len cd + 46 + len name <= G_MAXUINT ->
  exists zip' cd', zip_write_entry_plain f name zip cd = WOk (zip', cd').
Proof.
  intros Hd Hb Hz Hc.
  pose proof (len_nonneg out). pose proof (len_nonneg name).
  unfold zip_write_entry_plain. cbv zeta. rewrite Hd.
  unfold ba_fits, rspamd_zip_write_local_header.
  rewrite !len_app, len_local_header_fixed.
  destruct (Z.leb_spec (len zip + (30 + len name)) G_MAXUINT); [|lia].
  destruct (Z.leb_spec (len zip + (30 + len name) + deflateBound (len (spec_data f)))
              G_MAXUINT); [|lia].
  destruct (Z.ltb_spec (deflateBound (len (spec_data f))) (len out)); [lia|].
  destruct (Z.leb_spec (len cd + (46 + len name)) G_MAXUINT); [|lia].
  cbn [negb orb]. now eexists _, _.
Qed.

Lemma zip_write_room_ge (files : list rspamd_zip_file_spec) :
  Forall round_trip_entry files -> 22 <= zip_write_room false files.
Proof.
  induction 1 as [|f files (name & Hname & _ & _ & _ & _ & out & _ & Hb) _ IH];
    cbn [zip_write_room fold_right]; [lia|].
  fold (zip_write_room false files). unfold zip_entry_room. rewrite Hname.
  pose proof (len_nonneg out). pose proof (len_nonneg name). lia.
Qed.

(** Files that satisfy [round_trip_entry] and fit the byte arrays are all
    written, and leave room for the end record. *)
Lemma zip_write_entries_plain_succeeds (password : option (list byte))
  (files : list rspamd_zip_file_spec) :
  use_aes password = false ->
  Forall round_trip_entry files ->
  forall i zip cd,
    len zip + len cd + zip_write_room false files <= G_MAXUINT ->
    exists zip' cd',
      zip_write_entries i password files zip cd = WOk (zip', cd')
      /\ len zip' + len cd' + 22 <= G_MAXUINT.
Proof.
  intros Hpw. induction 1 as [|f files Hf Hall IH]; intros i zip cd Hroom.
  - exists zip, cd. split; [reflexivity | exact Hroom].
  - pose proof (zip_write_room_ge files Hall) as Hge.
    destruct Hf as (name & Hname & Hv & _ & Hlen & _ & out & Hd & Hb).
    cbn [zip_write_room fold_right] in Hroom. fold (zip_write_room false files) in Hroom.
    unfold zip_entry_room in Hroom. rewrite Hname in Hroom.
    pose proof (len_nonneg out). pose proof (len_nonneg name).
    pose proof (len_nonneg zip). pose proof (len_nonneg cd).
    cbn [zip_write_entries]. rewrite Hname, Hv. cbn [negb].
    destruct (Z.ltb_spec G_MAXUINT (len (spec_data f))); [unfold G_MAXUINT in *; lia|].
    destruct (zip_write_entry_plain_fits f name zip cd out Hd Hb) as (zip1 & cd1 & He);
      [lia | lia |].
    destruct (zip_write_entry_plain_bytes _ _ _ _ _ _ He)
      as (rec & method & crc & csize & -> & Hrec & ->).
    destruct (IH (S i) (zip ++ rec)
                (cd ++ plain_cd_record f name method crc csize (len zip)))
      as (zip' & cd' & Hw & Hfit).
    { rewrite !len_app, len_plain_cd_record. lia. }
    exists zip', cd'. split; [|exact Hfit].
    destruct password as [[|c pw]|]; try discriminate; now rewrite He.
Qed.

(** The backward search stops at once on a signature inside the first
    1024 candidates. *)
Lemma zip_find_eocd_found (fuel : nat) (buf : list byte) (p processed : Z) :
  4 < p -> (max_processed <? processed) = false -> le32 buf p = eocd_magic ->
  zip_find_eocd (S fuel) buf p processed = Some p.
Proof.
  intros Hp Hproc Hsig. cbn [zip_find_eocd].
  destruct (Z.ltb_spec (0 + 4) p); [|lia].
  now rewrite Hproc, Hsig, Z.eqb_refl.
Qed.

(** C1, amended: for every non-empty list of files that each satisfy
    [round_trip_entry] and together fit a byte array (the headers, the names
    and the DEFLATE windows of [zip_write_room] add up to no more than
    G_MAXUINT bytes), writing them without a password returns a byte array,
    and the ZIP reader attaches for it an archive that holds one entry per
    file, in order, with the file's name and the length of its data as
    uncompressed size. *)
Theorem zip_write_read_round_trip (specs : list rspamd_zip_file_spec)
  (password cdname : option (list byte)) :
  use_aes password = false ->
  specs <> [] ->
  Forall round_trip_entry specs ->
  zip_write_room false specs <= G_MAXUINT ->
  exists out,
    rspamd_archives_zip_write specs password = WOk out
    /\ exists arch,
         rspamd_archive_process_zip out cdname = Some (Attached arch)
         /\ arch_type arch = RSPAMD_ARCHIVE_ZIP
         /\ arch_size arch = len out
         /\ entries_match specs (files arch).
Proof.
  intros Hpw Hne Hok Hroom.
  destruct (zip_write_entries_plain_succeeds password specs Hpw Hok 0%nat [] [] Hroom)
    as (zip & cd & Hw & Hfit).
  destruct (zip_write_entries_plain_bytes password specs Hpw _ _ _ _ _ Hw)
    as (local & cds & -> & -> & Hrec & Hlocal).
  specialize (Hlocal Hne). cbn [app] in *.
  unfold rspamd_archives_zip_write. rewrite Hw.
  destruct specs as [|f0 specs0]; [congruence|].
  set (specs := f0 :: specs0) in *. clearbody specs.
  unfold ba_fits.
  destruct (Z.leb_spec (len local + (len (concat cds) + 22)) G_MAXUINT); [|lia].
  cbn [negb].
  eexists. split; [reflexivity|].
  assert (Hcap : len local + len (concat cds) + 22 < 2 ^ 32)
    by (unfold G_MAXUINT in *; lia).
  set (CD := concat cds) in *.
  set (tail := eocd_record (len specs) (len CD) (len local)) in *.
  assert (Hlen : len ((local ++ CD) ++ tail) = len local + len CD + 22)
    by (now rewrite !len_app).
  pose proof (len_nonneg local). pose proof (len_nonneg CD).
  assert (Hsig : le32 ((local ++ CD) ++ tail) (len (local ++ CD) + 0) = eocd_magic)
    by (rewrite le32_app_r by lia; reflexivity).
  assert (Hfind : zip_find_eocd 1026 ((local ++ CD) ++ tail)
                    (len ((local ++ CD) ++ tail) - 1 - 21) 0
                  = Some (len (local ++ CD) + 0)).
  { rewrite Hlen.
    replace (len local + len CD + 22 - 1 - 21) with (len (local ++ CD) + 0)
      by (rewrite len_app; lia).
    apply (zip_find_eocd_found 1025); [rewrite len_app; lia | reflexivity | exact Hsig]. }
  unfold rspamd_archive_process_zip. rewrite Hfind. clear Hfind. rewrite Hlen.
  destruct (Z.ltb_spec (len local + len CD + 22 - 1 - (len (local ++ CD) + 0)) 21);
    [rewrite len_app in *; lia|].
  rewrite <- !Z.add_assoc, !le32_app_r by lia.
  change (le32 tail (0 + 12)) with (le32 (u32le (len CD) ++ []) 0).
  change (le32 tail (0 + 16)) with (le32 (u32le (len local) ++ []) 0).
  rewrite !le32_u32le.
  rewrite Z.add_0_r, len_app.
  rewrite (u32_small (len local)), (u32_small (len CD)) by lia.
  rewrite !u32_small by lia.
  rewrite Z.ltb_irrefl.
  destruct (zip_cd_walk_plain specs cds Hrec Hok local tail
              (new_archive RSPAMD_ARCHIVE_ZIP cdname)
              (S (length ((local ++ CD) ++ tail))))
    as (entries & Hm & Hwalk).
  { apply plain_cd_records_count in Hrec. fold CD in Hrec.
    rewrite !length_app. lia. }
  fold CD in Hwalk. rewrite <- app_assoc. rewrite <- app_assoc in Hwalk.
  rewrite Hwalk. eexists. split; [reflexivity|].
  assert (Hfiles : forall es a, files (fold_left add_file es a) = files a ++ es).
  { clear. induction es as [|e es IH]; intros a; cbn [fold_left].
    - now rewrite app_nil_r.
    - rewrite IH. cbn. now rewrite <- app_assoc. }
  assert (Htype : forall es a, arch_type (fold_left add_file es a) = arch_type a).
  { clear. induction es as [|e es IH]; intros a; cbn [fold_left]; [reflexivity|].
    now rewrite IH. }
  cbn [arch_type arch_size files set_arch_size].
  rewrite Htype, Hfiles. cbn. repeat split; [|assumption].
  rewrite !len_app. reflexivity.
Qed.

End ZipRoundTrip.

(** ** The gzip reader's fallback name *)

Lemma find_byte_first (c : byte) (a b : list byte) :
  ~ In c a -> find_byte c (a ++ c :: b) = Some (length a).
Proof.
  induction a as [|x a IH]; intros Hn; cbn [app find_byte length].
  - now rewrite byte_eqb_refl.
  - destruct (Byte.eqb x c) eqn:E.
    + apply byte_eqb_eq in E. subst. exfalso. apply Hn. now left.
    + rewrite IH; [reflexivity|]. intros Hin. apply Hn. now right.
Qed.

Lemma find_byte_None (c : byte) (s : list byte) :
  find_byte c s = None <-> ~ In c s.
Proof.
  induction s as [|x s IH]; cbn [find_byte].
  - split; [intros _ []|reflexivity].
  - destruct (Byte.eqb x c) eqn:E.
    + apply byte_eqb_eq in E. subst. split; [discriminate|].
      intros Hn. exfalso. apply Hn. now left.
    + apply byte_eqb_neq in E. destruct (find_byte c s) eqn:F; cbn [option_map].
      * split; [discriminate|]. intros Hn. exfalso.
        assert (Hs : ~ In c s) by (intros Hin; apply Hn; now right).
        apply IH in Hs. discriminate.
      * split; [|reflexivity]. intros _ [->|Hin]; [congruence|].
        destruct IH as [IH _]. now apply IH.
Qed.

Lemma rfind_byte_None (c : byte) (s : list byte) :
  rfind_byte c s = None <-> ~ In c s.
Proof.
  induction s as [|x s IH]; cbn [rfind_byte].
  - split; [intros _ []|reflexivity].
  - destruct (rfind_byte c s) eqn:F.
    + split; [discriminate|]. intros Hn. exfalso.
      assert (Hs : ~ In c s) by (intros Hin; apply Hn; now right).
      apply IH in Hs. discriminate.
    + destruct (Byte.eqb x c) eqn:E.
      * apply byte_eqb_eq in E. subst. split; [discriminate|].
        intros Hn. exfalso. apply Hn. now left.
      * apply byte_eqb_neq in E. split; [|reflexivity].
        intros _ [->|Hin]; [congruence|]. destruct IH as [IH _]. now apply IH.
Qed.

Lemma rfind_byte_last (c : byte) (a b : list byte) :
  ~ In c b -> rfind_byte c (a ++ c :: b) = Some (length a).
Proof.
  intros Hn. apply rfind_byte_None in Hn.
  induction a as [|x a IH]; cbn [app rfind_byte length].
  - now rewrite Hn, byte_eqb_refl.
  - now rewrite IH.
Qed.

(** A last occurrence lies behind every prefix free of the byte. *)
Lemma rfind_byte_after (c : byte) (a b : list byte) (k : nat) :
  ~ In c a -> rfind_byte c (a ++ b) = Some k -> (length a <= k)%nat.
Proof.
  revert k. induction a as [|x a IH]; intros k Hn Hr; cbn [app length] in *; [lia|].
  cbn [rfind_byte] in Hr.
  destruct (rfind_byte c (a ++ b)) as [j|] eqn:F.
  - inversion Hr; subst. assert (length a <= j)%nat; [|lia].
    apply IH; [|reflexivity]. intros Hin. apply Hn. now right.
  - destruct (Byte.eqb x c) eqn:E; [|discriminate].
    apply byte_eqb_eq in E. subst. exfalso. apply Hn. now left.
Qed.

Lemma in_split_last (c : byte) (s : list byte) :
  In c s -> exists a b, s = a ++ c :: b /\ ~ In c b.
Proof.
  induction s as [|x s IH]; intros Hin; [inversion Hin|].
  destruct (in_dec Byte.byte_eq_dec c s) as [Hs|Hs].
  - destruct (IH Hs) as (a & b & -> & Hb). now exists (x :: a), b.
  - destruct Hin as [->|Hin]; [|contradiction]. now exists [], s.
Qed.

(** The fallback name when a '/' stands before the last '.': what lies
    between that '/' and the last '.'. *)
Lemma gzip_fallback_name_dir (dir base ext : list byte) :
  ~ In x2f base -> ~ In x2f ext -> ~ In x2e ext ->
  gzip_fallback_name (dir ++ x2f :: base ++ x2e :: ext) = Some base.
Proof.
  intros Hsb Hse Hde. unfold gzip_fallback_name.
  assert (Hdot : rfind_byte x2e (dir ++ x2f :: base ++ x2e :: ext)
                 = Some (length dir + 1 + length base)%nat).
  { replace (dir ++ x2f :: base ++ x2e :: ext) with ((dir ++ x2f :: base) ++ x2e :: ext)
      by (now rewrite <- app_assoc).
    rewrite rfind_byte_last by assumption. rewrite length_app. cbn [length]. f_equal. lia. }
  assert (Hslash : rfind_byte x2f (dir ++ x2f :: base ++ x2e :: ext) = Some (length dir)).
  { apply rfind_byte_last. intros Hin. apply in_app_or in Hin.
    destruct Hin as [Hin|[Hin|Hin]]; [contradiction | discriminate | contradiction]. }
  rewrite Hdot, Hslash.
  destruct (Nat.ltb_spec (length dir) (length dir + 1 + length base)); [|lia].
  f_equal.
  replace (length dir + 1)%nat with (length dir + 1 + 0)%nat by lia.
  rewrite skipn_app, skipn_all2 by lia.
  replace (length dir + 1 + 0 - length dir)%nat with 1%nat by lia.
  cbn [app skipn].
  replace (length dir + 1 + 0 + length base - length dir - 1)%nat with (length base)
    by lia.
  rewrite firstn_app, firstn_all, Nat.sub_diag. cbn [firstn]. apply app_nil_r.
Qed.

(** The fallback name when the last '/' does not stand before the last
    '.' (there is no '/', or the last one stands behind the last '.'): the
    part before the last '.' if an earlier '.' exists, the whole file name
    otherwise. *)
Lemma gzip_fallback_name_no_dir (stem ext : list byte) :
  In x2f ext \/ ~ In x2f stem -> ~ In x2e ext ->
  gzip_fallback_name (stem ++ x2e :: ext)
  = Some (if in_dec Byte.byte_eq_dec x2e stem then stem else stem ++ x2e :: ext).
Proof.
  intros Hss Hde. unfold gzip_fallback_name.
  rewrite rfind_byte_last by assumption.
  assert (Hnd : gzip_fallback_no_dir (stem ++ x2e :: ext) (length stem)
                = Some (if in_dec Byte.byte_eq_dec x2e stem then stem
                        else stem ++ x2e :: ext)).
  { unfold gzip_fallback_no_dir.
    destruct (in_dec Byte.byte_eq_dec x2e stem) as [Hin|Hnin].
    - apply in_split in Hin. destruct Hin as (a & b & ->).
      destruct (in_dec Byte.byte_eq_dec x2e a) as [Ha|Ha].
      + apply in_split in Ha. destruct Ha as (a1 & a2 & ->).
        assert (Hfirst : exists k, find_byte x2e (((a1 ++ x2e :: a2) ++ x2e :: b) ++ x2e :: ext) = Some k
                          /\ (k < length ((a1 ++ x2e :: a2) ++ x2e :: b))%nat).
        { clear. induction a1 as [|x a1 IH]; cbn [app find_byte].
          - rewrite byte_eqb_refl. exists 0%nat. split; [reflexivity|]. cbn. lia.
          - destruct (Byte.eqb x x2e).
            + exists 0%nat. split; [reflexivity|]. cbn. lia.
            + destruct IH as (k & -> & Hk). exists (S k). split; [reflexivity|].
              cbn [length]. lia. }
        destruct Hfirst as (k & -> & Hk).
        destruct (Nat.eqb_spec k (length ((a1 ++ x2e :: a2) ++ x2e :: b))); [lia|].
        cbn [negb]. f_equal. rewrite firstn_app, firstn_all, Nat.sub_diag.
        cbn [firstn]. apply app_nil_r.
      + rewrite <- app_assoc. cbn [app]. rewrite find_byte_first by assumption.
        destruct (Nat.eqb_spec (length a) (length (a ++ x2e :: b)));
          [rewrite length_app in *; cbn [length] in *; lia|].
        cbn [negb]. f_equal.
        replace (a ++ x2e :: b ++ x2e :: ext) with ((a ++ x2e :: b) ++ x2e :: ext)
          by (now rewrite <- app_assoc).
        rewrite firstn_app, firstn_all, Nat.sub_diag. cbn [firstn]. apply app_nil_r.
    - rewrite find_byte_first by assumption. now rewrite Nat.eqb_refl. }
  destruct (rfind_byte x2f (stem ++ x2e :: ext)) as [sp|] eqn:Hsl; [|exact Hnd].
  assert (length (stem ++ [x2e]) <= sp)%nat.
  { destruct Hss as [Hse|Hss].
    - apply in_split_last in Hse. destruct Hse as (e1 & e2 & -> & He2).
      replace (stem ++ x2e :: e1 ++ x2f :: e2) with ((stem ++ x2e :: e1) ++ x2f :: e2)
        in Hsl by (now rewrite <- app_assoc).
      rewrite rfind_byte_last in Hsl by assumption. injection Hsl as <-.
      rewrite !length_app. cbn [length]. lia.
    - apply (rfind_byte_after x2f (stem ++ [x2e]) ext).
      + intros Hin. apply in_app_or in Hin. destruct Hin as [Hin|[Hin|[]]];
          [contradiction | discriminate].
      + now rewrite <- app_assoc. }
  rewrite length_app in *. cbn [length] in *.
  destruct (Nat.ltb_spec sp (length stem)); [lia | exact Hnd].
Qed.

Section GzipFacts.

Context `{Charsets}.

(** C9, amended: for a gzip input (longer than 10 bytes, with the gzip
    magic) whose FLG byte has FNAME clear, and a container file name that
    contains a dot, the reader attaches an archive with exactly one entry.
    Its name is what stands between the last '/' and the last '.' when the
    last '/' precedes the last '.'; otherwise (the name holds no '/', or its
    last '/' stands behind the last '.') it is the part before the last '.'
    when an earlier '.' exists, and the whole container file name, suffix and
    directories included, when the last '.' is the only one.  The two cases
    cover every file name with a dot. *)
Theorem gzip_fallback_entry_name (buf filename : list byte) :
  10 < len buf ->
  sub buf 0 2 = gz_magic ->
  has_bits (peek buf 3) 8 = false ->
  In x2e filename ->
  exists name,
    rspamd_archive_process_gzip buf (Some filename)
    = Attached
        (mk_archive RSPAMD_ARCHIVE_GZIP (Some filename) (len buf)
           (has_bits (peek buf 3) 32) false
           [mk_archive_file name 0 0 false false])
    /\ (forall dir base ext,
          filename = dir ++ x2f :: base ++ x2e :: ext ->
          ~ In x2f base -> ~ In x2f ext -> ~ In x2e ext ->
          name = base)
    /\ (forall stem ext,
          filename = stem ++ x2e :: ext ->
          In x2f ext \/ ~ In x2f stem -> ~ In x2e ext ->
          (In x2e stem -> name = stem) /\ (~ In x2e stem -> name = filename))
    /\ ((exists dir base ext,
           filename = dir ++ x2f :: base ++ x2e :: ext
           /\ ~ In x2f base /\ ~ In x2f ext /\ ~ In x2e ext)
        \/ (exists stem ext,
              filename = stem ++ x2e :: ext
              /\ (In x2f ext \/ ~ In x2f stem) /\ ~ In x2e ext)).
Proof.
  intros Hlen Hmagic Hflg Hdot.
  assert (Hsome : exists name, gzip_fallback_name filename = Some name).
  { unfold gzip_fallback_name, gzip_fallback_no_dir.
    destruct (rfind_byte x2e filename) eqn:E.
    - destruct (rfind_byte x2f filename); [destruct (_ <? _)%nat|];
        try (now eexists); destruct (find_byte x2e filename);
        try destruct (negb _); now eexists.
    - apply rfind_byte_None in E. contradiction. }
  destruct Hsome as [name Hname]. exists name. split; [|split; [|split]].
  - unfold rspamd_archive_process_gzip.
    destruct (Z.leb_spec (len buf - 0) 10); [lia|].
    rewrite Hmagic. replace (bytes_eqb gz_magic gz_magic) with true by reflexivity.
    cbn [negb orb]. change (Z.shiftl 1 3) with 8. rewrite Hflg.
    destruct (Z.ltb_spec 0 (len filename)).
    + rewrite Hname. change (Z.shiftl 1 5) with 32.
      destruct (has_bits (peek buf 3) 32); reflexivity.
    + destruct filename; [inversion Hdot|]. rewrite len_cons in *.
      pose proof (len_nonneg filename). lia.
  - intros dir base ext -> Hsb Hse Hde.
    rewrite gzip_fallback_name_dir in Hname by assumption. congruence.
  - intros stem ext -> Hss Hde.
    rewrite gzip_fallback_name_no_dir in Hname by assumption.
    destruct (in_dec Byte.byte_eq_dec x2e stem); split; intros; congruence || contradiction.
  - destruct (in_split_last x2e filename Hdot) as (stem & ext & -> & Hde).
    destruct (in_dec Byte.byte_eq_dec x2f ext) as [Hse|Hse];
      [right; exists stem, ext; auto|].
    destruct (in_dec Byte.byte_eq_dec x2f stem) as [Hss|Hss];
      [|right; exists stem, ext; auto].
    destruct (in_split_last x2f stem Hss) as (dir & base & -> & Hsb).
    left. exists dir, base, ext. rewrite <- app_assoc. auto.
Qed.

End GzipFacts.

(** C9, counterexample: for the container file name foo.gz the entry is
    named foo.gz, where the claim has the suffix dropped and the name foo. *)
Lemma gzip_single_dot_keeps_suffix :
  @rspamd_archive_process_gzip ascii_charsets gz_no_name (Some name_foo_gz)
  = Attached
      (mk_archive RSPAMD_ARCHIVE_GZIP (Some name_foo_gz) 12 false false
         [mk_archive_file name_foo_gz 0 0 false false])
  /\ claimed_gzip_fallback name_foo_gz = name_foo.
Proof. split; reflexivity. Qed.

(** The theorem at dir/foo.txt.gz: the entry is named foo.txt. *)
Lemma gzip_fallback_entry_name_witness :
  exists name,
    @rspamd_archive_process_gzip ascii_charsets gz_no_name (Some name_dir_foo_txt_gz)
    = Attached
        (mk_archive RSPAMD_ARCHIVE_GZIP (Some name_dir_foo_txt_gz) (len gz_no_name)
           (has_bits (peek gz_no_name 3) 32) false
           [mk_archive_file name 0 0 false false])
    /\ (forall dir base ext,
          name_dir_foo_txt_gz = dir ++ x2f :: base ++ x2e :: ext ->
          ~ In x2f base -> ~ In x2f ext -> ~ In x2e ext ->
          name = base)
    /\ (forall stem ext,
          name_dir_foo_txt_gz = stem ++ x2e :: ext ->
          In x2f ext \/ ~ In x2f stem -> ~ In x2e ext ->
          (In x2e stem -> name = stem) /\ (~ In x2e stem -> name = name_dir_foo_txt_gz))
    /\ ((exists dir base ext,
           name_dir_foo_txt_gz = dir ++ x2f :: base ++ x2e :: ext
           /\ ~ In x2f base /\ ~ In x2f ext /\ ~ In x2e ext)
        \/ (exists stem ext,
              name_dir_foo_txt_gz = stem ++ x2e :: ext
              /\ (In x2f ext \/ ~ In x2f stem) /\ ~ In x2e ext)).
Proof.
  apply (@gzip_fallback_entry_name ascii_charsets gz_no_name name_dir_foo_txt_gz).
  - vm_compute. reflexivity.
  - reflexivity.
  - reflexivity.
  - vm_compute. tauto.
Defined.

(** For the container file name a/b.c/d, whose last '/' stands behind its
    only '.', the entry carries the whole name. *)
Lemma gzip_slash_behind_dot :
  @rspamd_archive_process_gzip ascii_charsets gz_no_name
    (Some [x61; x2f; x62; x2e; x63; x2f; x64])
  = Attached
      (mk_archive RSPAMD_ARCHIVE_GZIP (Some [x61; x2f; x62; x2e; x63; x2f; x64]) 12
         false false
         [mk_archive_file [x61; x2f; x62; x2e; x63; x2f; x64] 0 0 false false]).
Proof. reflexivity. Qed.

(** ** The RAR v5 walk on an extra record of size zero *)

(** Replace the closed scrutinee of the match on the left by its value. *)
Ltac eval_scrutinee :=
  match goal with
  | |- match ?X with _ => _ end = _ =>
      let v := eval vm_compute in X in
      replace X with v by (vm_compute; reflexivity); cbv beta iota
  | |- (if ?X then _ else _) = _ =>
      let v := eval vm_compute in X in
      replace X with v by (vm_compute; reflexivity); cbv beta iota
  end.

(** The scan of the extra area of [rar5_zero_extra] comes back to the state
    it started from: the record at offset 30 has size 0 and a type other
    than 1, so [ex += cur_sz] leaves [ex] where it was. *)
Lemma rar5_zero_extra_scan_repeats (fuel : nat) :
  rar_v5_extra_walk (S fuel) rar5_zero_extra 30 31 2
  = rar_v5_extra_walk fuel rar5_zero_extra 30 31 2.
Proof.
  cbn [rar_v5_extra_walk].
  eval_scrutinee. eval_scrutinee. eval_scrutinee. eval_scrutinee.
  reflexivity.
Qed.

Lemma rar5_zero_extra_scan_diverges (fuel : nat) :
  rar_v5_extra_walk fuel rar5_zero_extra 30 31 2 = None.
Proof.
  induction fuel as [|fuel IH].
  - reflexivity.
  - now rewrite rar5_zero_extra_scan_repeats.
Qed.

Lemma rar5_zero_extra_file_header_diverges (fuel : nat) :
  @rar_v5_file_header ascii_charsets fuel rar5_zero_extra 33 23 0 (Some 2) 2
    (new_archive RSPAMD_ARCHIVE_RAR None)
  = None.
Proof.
  unfold rar_v5_file_header.
  eval_scrutinee. eval_scrutinee.
  now rewrite rar5_zero_extra_scan_diverges.
Qed.

Lemma rar5_zero_extra_record_diverges (fuel : nat) :
  @rar_v5_record ascii_charsets fuel rar5_zero_extra 33
    (mk_rar5_state 15 0 0 (new_archive RSPAMD_ARCHIVE_RAR None))
  = None.
Proof.
  unfold rar_v5_record.
  eval_scrutinee. eval_scrutinee.
  now rewrite rar5_zero_extra_file_header_diverges.
Qed.

(** C10 (evaluated at the failing input): on [rar5_zero_extra] the v5
    reader is still running after any number of loop iterations.  The record
    walk itself advances; the scan of the file record's extra area does not,
    because a record of size 0 leaves its cursor in place and, unlike the
    record walk, the scan has no check for a zero size. *)
Theorem rar_v5_zero_extra_never_returns (fuel : nat) :
  @rspamd_archive_process_rar ascii_charsets fuel rar5_zero_extra None = None.
Proof.
  unfold rspamd_archive_process_rar.
  eval_scrutinee. eval_scrutinee. eval_scrutinee.
  destruct fuel as [|fuel]; [reflexivity|].
  cbn [rar_v5_walk r5_p].
  eval_scrutinee.
  now rewrite rar5_zero_extra_record_diverges.
Qed.

(** * The 7-Zip reader: where the walk moves forward, and what it attaches *)

Lemma u64_le (x : Z) : 0 <= x -> 0 <= u64 x <= x.
Proof.
  intros Hx. unfold u64. split.
  - apply Z.mod_pos_bound. lia.
  - apply Z.mod_le; lia.
Qed.

Lemma le_bytes_nonneg (bs : list byte) : 0 <= le_bytes bs.
Proof.
  induction bs as [|b bs IH]; cbn [le_bytes]; [lia|].
  pose proof (u8_range b). lia.
Qed.

Lemma sz_vint_loop_bounds `{Platform} (cur_bit : nat) (intlen t : Z)
  (rest : list byte) (remain v r : Z) :
  0 <= intlen ->
  sz_vint_loop cur_bit intlen t rest remain = VintOk v r ->
  1 <= r <= remain /\ 0 <= v.
Proof.
  revert intlen. induction cur_bit as [|n IH]; intros intlen Hi; cbn [sz_vint_loop].
  - discriminate.
  - destruct (negb (isset t (Z.of_nat (S n))) && (intlen + 1 <=? remain)) eqn:E.
    + intros [= <- <-]. apply andb_prop in E as [_ E]. apply Z.leb_le in E.
      split; [lia|]. unfold u64. apply Z.mod_pos_bound. lia.
    + apply IH. lia.
Qed.

(** A decoded 7-Zip vint took at least one byte and no more than there
    were. *)
Lemma sz_read_vint_bounds `{Platform} (start : list byte) (remain v r : Z) :
  rspamd_archive_7zip_read_vint start remain = VintOk v r ->
  0 <= remain ->
  1 <= r <= remain /\ 0 <= v.
Proof.
  unfold rspamd_archive_7zip_read_vint. intros Hv Hr.
  destruct (Z.eqb_spec remain 0); [discriminate|].
  destruct start as [|b rest]; [discriminate|].
  destruct (negb (isset (u8 b) 7)).
  - injection Hv as <- <-. pose proof (u8_range b). lia.
  - destruct (u8 b =? 255).
    + destruct (Z.leb_spec 9 remain); [|discriminate].
      injection Hv as <- <-. split; [lia | apply le_bytes_nonneg].
    + apply sz_vint_loop_bounds in Hv; [exact Hv | lia].
Qed.



Section SevenZipTotal.

Context `{Platform} `{Libarchive}.

Variable buf : list byte.
Variable end_ : Z.
Hypothesis end_in_buf : end_ <= len buf.

Lemma sz_post_ret {A : Type} (Q : A -> Prop) (a : A) : Q a -> sz_post Q (sz_ret a).
Proof. intros Ha st. exact Ha. Qed.

Lemma sz_post_fail {A : Type} (Q : A -> Prop) (d : archive_diag) :
  sz_post Q (sz_fail d).
Proof. intros st. exact I. Qed.

Lemma sz_post_null {A : Type} (Q : A -> Prop) : sz_post Q sz_null.
Proof. intros st. exact I. Qed.

Lemma sz_post_undefined {A : Type} (Q : A -> Prop) : sz_post Q sz_undefined.
Proof. intros st. exact I. Qed.

Lemma sz_post_bind {A B : Type} (Q : A -> Prop) (R : B -> Prop)
  (m : szm A) (k : A -> szm B) :
  sz_post Q m -> (forall a, Q a -> sz_post R (k a)) -> sz_post R (sz_bind m k).
Proof.
  intros Hm Hk st. unfold sz_bind. specialize (Hm st).
  destruct (m st) as [a st'| | |]; try exact I; [|contradiction].
  apply Hk. exact Hm.
Qed.

Lemma sz_post_weaken {A : Type} (Q R : A -> Prop) (m : szm A) :
  sz_post Q m -> (forall a, Q a -> R a) -> sz_post R m.
Proof.
  intros Hm HQR st. specialize (Hm st).
  destruct (m st); try exact Hm. apply HQR. exact Hm.
Qed.

Lemma sz_post_update_arch (g : rspamd_archive -> rspamd_archive) :
  sz_post (fun _ => True) (sz_update_arch g).
Proof. intros st. exact I. Qed.

Lemma sz_post_log (d : archive_diag) : sz_post (fun _ => True) (sz_log d).
Proof. intros st. exact I. Qed.

Lemma SZ_SKIP_BYTES_post (p n : Z) :
  sz_post (fun p' => p' = p + n /\ p + n <= end_) (SZ_SKIP_BYTES end_ p n).
Proof.
  unfold SZ_SKIP_BYTES. destruct (Z.leb_spec n (end_ - p)).
  - apply sz_post_ret. lia.
  - apply sz_post_fail.
Qed.

Lemma SZ_READ_VINT_post (p : Z) :
  p <= end_ ->
  sz_post (fun r => p < snd r <= end_ /\ 0 <= fst r) (SZ_READ_VINT buf end_ p).
Proof.
  intros Hp st. unfold SZ_READ_VINT.
  destruct (rspamd_archive_7zip_read_vint _ _) as [|v r|] eqn:E; try exact I.
  apply sz_read_vint_bounds in E; [|apply u64_le; lia].
  pose proof (u64_le (end_ - p)). cbn [fst snd]. lia.
Qed.

(** The three loops end within the fuel when every round moves the cursor
    forward and keeps it inside the input. *)
Lemma sz_while_post {S : Type} (body : S -> Z -> szm (loop_step S)) :
  (forall s p, 0 <= p < end_ ->
     sz_post (fun r => match r with
                       | Continue _ p' => p < p' <= end_
                       | Break _ p' => p < p' <= end_
                       end) (body s p)) ->
  forall (fuel : nat) (s : S) (p : Z),
    0 <= p <= end_ -> end_ - p < Z.of_nat fuel ->
    sz_post (fun r => p <= snd r <= end_) (sz_while fuel end_ body s p).
Proof.
  intros Hbody. induction fuel as [|fuel IH]; intros s p Hp Hf; cbn [sz_while];
    (destruct (Z.ltb_spec p end_); [|apply sz_post_ret; cbn [snd]; lia]).
  - lia.
  - eapply sz_post_bind; [apply Hbody; lia|].
    intros [s' p'|s' p'] Hr.
    + eapply sz_post_weaken; [apply IH; lia|]. cbn beta. intros r. lia.
    + apply sz_post_ret. cbn [snd]. lia.
Qed.

Lemma sz_for_post {S : Type} (body : S -> Z -> szm (S * Z)) :
  (forall s p, 0 <= p <= end_ -> sz_post (fun r => p < snd r <= end_) (body s p)) ->
  forall (fuel : nat) (n : Z) (s : S) (p : Z),
    0 <= p <= end_ -> end_ - p < Z.of_nat fuel ->
    sz_post (fun r => p <= snd r <= end_) (sz_for fuel n body s p).
Proof.
  intros Hbody. induction fuel as [|fuel IH]; intros n s p Hp Hf; cbn [sz_for];
    (destruct (Z.ltb_spec 0 n); [|apply sz_post_ret; cbn [snd]; lia]).
  - lia.
  - eapply sz_post_bind; [apply Hbody; lia|].
    intros [s' p'] Hr. cbn [snd] in Hr.
    eapply sz_post_weaken; [apply IH; lia|]. cbn beta. intros r. lia.
Qed.

Lemma sz_for_in_post {S : Type} (body : S -> Z -> szm (S * Z)) :
  (forall s p, 0 <= p < end_ -> sz_post (fun r => p < snd r <= end_) (body s p)) ->
  forall (fuel : nat) (n : Z) (s : S) (p : Z),
    0 <= p <= end_ -> end_ - p < Z.of_nat fuel ->
    sz_post (fun r => p <= snd r <= end_) (sz_for_in fuel end_ n body s p).
Proof.
  intros Hbody. induction fuel as [|fuel IH]; intros n s p Hp Hf; cbn [sz_for_in];
    (destruct ((0 <? n) && (p <? end_)) eqn:E; [|apply sz_post_ret; cbn [snd]; lia]);
    apply andb_prop in E as [_ E]; apply Z.ltb_lt in E.
  - lia.
  - eapply sz_post_bind; [apply Hbody; lia|].
    intros [s' p'] Hr. cbn [snd] in Hr.
    eapply sz_post_weaken; [apply IH; lia|]. cbn beta. intros r. lia.
Qed.

(** ** Every handler keeps the cursor inside the input and ends *)

Create HintDb szpost.

#[local] Hint Extern 1 (sz_post _ (SZ_SKIP_BYTES _ _ _)) =>
  apply SZ_SKIP_BYTES_post : szpost.
#[local] Hint Extern 1 (sz_post _ (SZ_READ_VINT _ _ _)) =>
  apply SZ_READ_VINT_post; lia : szpost.
#[local] Hint Extern 1 (sz_post _ (sz_update_arch _)) =>
  apply sz_post_update_arch : szpost.
#[local] Hint Extern 1 (sz_post _ (sz_log _)) =>
  apply sz_post_log : szpost.

Ltac sz_split :=
  repeat match goal with
         | x : (_ * _)%type |- _ => destruct x
         | x : unit |- _ => destruct x
         | H : _ /\ _ |- _ => destruct H
         end;
  cbn [fst snd] in *; subst.

Ltac sz_arith := cbn [fst snd]; unfold sz_fuel, len in *; lia.

(** One step through a handler's body. *)
Ltac sz_step :=
  lazymatch goal with
  | |- sz_post _ (sz_ret _) => apply sz_post_ret; try sz_arith
  | |- sz_post _ (sz_fail _) => apply sz_post_fail
  | |- sz_post _ sz_null => apply sz_post_null
  | |- sz_post _ sz_undefined => apply sz_post_undefined
  | |- sz_post _ (sz_bind _ _) =>
      eapply sz_post_bind; [solve [eauto with szpost] | cbn beta; intros; sz_split]
  | |- sz_post _ (if ?c then _ else _) => destruct c eqn:?
  | |- sz_post _ (match ?x with _ => _ end) => destruct x eqn:?
  | |- sz_post _ (let _ := _ in _) => cbv zeta
  | |- sz_post _ _ =>
      eapply sz_post_weaken;
      [solve [eauto with szpost] | cbn beta; intros; sz_split; sz_arith]
  end.

Lemma rspamd_7zip_read_bits_post (nbits : nat) (p mask avail bits_set : Z) :
  p <= end_ ->
  sz_post (fun r => p <= fst r <= end_)
    (rspamd_7zip_read_bits buf end_ nbits p mask avail bits_set).
Proof.
  revert p mask avail bits_set.
  induction nbits as [|n IH]; intros p mask avail bits_set Hp;
    cbn [rspamd_7zip_read_bits].
  - sz_step.
  - eapply sz_post_bind with (Q := fun r => p <= fst (fst r) <= end_).
    + repeat sz_step.
    + intros [[p' mask'] avail'] Hr. cbn [fst] in Hr.
      eapply sz_post_weaken; [apply IH; lia|]. cbn beta. intros r. lia.
Qed.

#[local] Hint Extern 1 (sz_post _ (rspamd_7zip_read_bits _ _ _ _ _ _ _)) =>
  apply rspamd_7zip_read_bits_post; lia : szpost.

Lemma sz_skip_vint_post (s : unit) (p : Z) :
  p <= end_ -> sz_post (fun r => p < snd r <= end_) (sz_skip_vint buf end_ s p).
Proof. intros Hp. unfold sz_skip_vint. repeat sz_step. Qed.

Lemma sz_for_skip_vint_post (n p : Z) :
  0 <= p <= end_ ->
  sz_post (fun r => p <= snd r <= end_)
    (sz_for (sz_fuel buf) n (sz_skip_vint buf end_) tt p).
Proof.
  intros Hp. apply sz_for_post; [|lia|sz_arith].
  intros s q Hq. apply sz_skip_vint_post. lia.
Qed.

#[local] Hint Extern 1 (sz_post _ (sz_for _ _ (sz_skip_vint _ _) _ _)) =>
  apply sz_for_skip_vint_post; lia : szpost.

Lemma rspamd_7zip_read_digest_post (p num_streams : Z) :
  0 <= p <= end_ ->
  sz_post (fun r => p < fst r <= end_) (rspamd_7zip_read_digest buf end_ p num_streams).
Proof.
  intros Hp. unfold rspamd_7zip_read_digest. cbv zeta.
  sz_step.
  eapply sz_post_bind with (Q := fun r => p + 1 <= fst r <= end_).
  { repeat sz_step. }
  intros [q num_defined] Hq. cbn [fst] in Hq.
  eapply sz_post_bind with (Q := fun r => q <= snd r <= end_).
  { apply sz_for_post; [|lia|sz_arith].
    intros s q' Hq'. repeat sz_step. }
  intros [u q'] Hq'. cbn [snd] in Hq'. sz_step.
Qed.

#[local] Hint Extern 1 (sz_post _ (rspamd_7zip_read_digest _ _ _ _)) =>
  apply rspamd_7zip_read_digest_post; lia : szpost.

Lemma rspamd_7zip_read_pack_info_post (p : Z) :
  0 <= p <= end_ ->
  sz_post (fun p' => p < p' <= end_) (rspamd_7zip_read_pack_info buf end_ p).
Proof.
  intros Hp. unfold rspamd_7zip_read_pack_info.
  sz_step. sz_step.
  eapply sz_post_bind with (Q := fun r => z2 <= snd r <= end_).
  { apply sz_while_post; [|lia|sz_arith].
    intros s q Hq. cbv zeta. repeat sz_step. }
  intros [u q] Hq. cbn [snd] in Hq. sz_step.
Qed.

#[local] Hint Extern 1 (sz_post _ (rspamd_7zip_read_pack_info _ _ _)) =>
  apply rspamd_7zip_read_pack_info_post; lia : szpost.

Lemma sz_read_coder_post (s : Z * Z) (p : Z) :
  0 <= p < end_ ->
  sz_post (fun r => p < snd r <= end_) (sz_read_coder buf end_ s p).
Proof.
  intros Hp. unfold sz_read_coder. destruct s as [ninstreams noutstreams]. cbv zeta.
  sz_step.
  assert (0 <= Z.land (peek buf p) 15) as Hsz by (apply Z.land_nonneg; lia).
  sz_step; [sz_step|].
  eapply sz_post_bind with (Q := fun _ => True).
  { sz_step; [auto with szpost|sz_step]. }
  intros _ _.
  sz_step.
  eapply sz_post_bind with (Q := fun r => p + 1 <= snd r <= end_).
  { repeat sz_step. }
  intros [[i o] q] Hq. cbn [snd] in Hq.
  eapply sz_post_bind with (Q := fun q' => p + 1 <= q' <= end_).
  { repeat sz_step. }
  intros q' Hq'. sz_step.
Qed.

#[local] Hint Extern 1 (sz_post _ (sz_read_coder _ _ _ _)) =>
  apply sz_read_coder_post; lia : szpost.

Lemma rspamd_7zip_read_folder_post (p : Z) :
  0 <= p <= end_ ->
  sz_post (fun r => p < fst (fst r) <= end_) (rspamd_7zip_read_folder buf end_ p).
Proof.
  intros Hp. unfold rspamd_7zip_read_folder.
  sz_step.
  eapply sz_post_bind with (Q := fun r => p + 1 <= snd r <= end_).
  { eapply sz_post_weaken.
    - apply sz_for_in_post; [|lia|sz_arith].
      intros s q Hq. repeat sz_step.
    - cbn beta. intros r. lia. }
  intros [[i o] q] Hq. cbn [snd] in Hq.
  eapply sz_post_bind with (Q := fun r => q <= snd r <= end_).
  { sz_step; [|sz_step].
    apply sz_for_post; [|lia|sz_arith].
    intros s q' Hq'. repeat sz_step. }
  intros [u q'] Hq'. cbn [snd] in Hq'. cbv zeta.
  eapply sz_post_bind with (Q := fun r => q' <= snd r <= end_).
  { repeat sz_step. }
  intros [u' q''] Hq''. cbn [snd] in Hq''. sz_step.
Qed.

#[local] Hint Extern 1 (sz_post _ (rspamd_7zip_read_folder _ _ _)) =>
  apply rspamd_7zip_read_folder_post; lia : szpost.

Lemma sz_read_folders_post (todo : nat) (done : list Z) (num_digests p : Z) :
  0 <= p <= end_ ->
  sz_post (fun r => p <= snd r <= end_)
    (sz_read_folders buf end_ todo done num_digests p).
Proof.
  revert done num_digests p.
  induction todo as [|n IH]; intros done num_digests p Hp; cbn [sz_read_folders].
  - sz_step.
  - sz_step; [|sz_step].
    sz_step.
    eapply sz_post_weaken; [apply IH; lia|]. cbn beta. intros r. lia.
Qed.

Lemma sz_unpack_sizes_post (nstreams : list Z) (todo p : Z) :
  0 <= p <= end_ ->
  sz_post (fun p' => p <= p' <= end_) (sz_unpack_sizes buf end_ nstreams todo p).
Proof.
  revert todo p.
  induction nstreams as [|n rest IH]; intros todo p Hp; cbn [sz_unpack_sizes].
  - repeat sz_step.
  - sz_step; [|sz_step].
    sz_step.
    eapply sz_post_weaken; [apply IH; lia|]. cbn beta. intros r. lia.
Qed.

Lemma rspamd_7zip_read_coders_info_post (p : Z) :
  0 <= p <= end_ ->
  sz_post (fun r => p <= fst (fst r) <= end_)
    (rspamd_7zip_read_coders_info buf end_ p).
Proof.
  intros Hp. unfold rspamd_7zip_read_coders_info.
  eapply sz_post_bind with (Q := fun r => p <= snd r <= end_).
  { apply sz_while_post; [|lia|sz_arith].
    intros s q Hq. cbv zeta.
    sz_step.
    sz_step.
    - (* kFolder *)
      sz_step. sz_step.
      + repeat sz_step.
      + sz_step. sz_step; [sz_step|].
        eapply sz_post_bind; [apply sz_read_folders_post; lia|].
        cbn beta. intros [[stored nd] q'] Hq'. cbn [snd] in Hq'. sz_step.
    - sz_step.
      + (* kCodersUnPackSize *)
        sz_step; [|sz_step].
        eapply sz_post_bind; [apply sz_unpack_sizes_post; lia|].
        cbn beta. intros q' Hq'. sz_step.
      + repeat sz_step. }
  intros [s q] Hq. cbn [snd] in Hq. sz_step.
Qed.

#[local] Hint Extern 1 (sz_post _ (rspamd_7zip_read_coders_info _ _ _)) =>
  apply rspamd_7zip_read_coders_info_post; lia : szpost.

Lemma sz_read_stream_counts_post (todo : nat) (done : list Z) (p : Z) :
  0 <= p <= end_ ->
  sz_post (fun r => p <= snd r <= end_) (sz_read_stream_counts buf end_ todo done p).
Proof.
  revert done p.
  induction todo as [|n IH]; intros done p Hp; cbn [sz_read_stream_counts].
  - sz_step.
  - sz_step.
    eapply sz_post_weaken; [apply IH; lia|]. cbn beta. intros r. lia.
Qed.

Lemma sz_skip_stream_sizes_post (nstreams : list Z) (p : Z) :
  0 <= p <= end_ ->
  sz_post (fun p' => p <= p' <= end_) (sz_skip_stream_sizes buf end_ nstreams p).
Proof.
  revert p.
  induction nstreams as [|n rest IH]; intros p Hp; cbn [sz_skip_stream_sizes].
  - sz_step.
  - sz_step.
    eapply sz_post_weaken; [apply IH; lia|]. cbn beta. intros r. lia.
Qed.

Lemma rspamd_7zip_read_substreams_info_post (p num_folders num_nodigest : Z) :
  0 <= p <= end_ ->
  sz_post (fun p' => p <= p' <= end_)
    (rspamd_7zip_read_substreams_info buf end_ p num_folders num_nodigest).
Proof.
  intros Hp. unfold rspamd_7zip_read_substreams_info.
  sz_step; [sz_step|]. cbv zeta.
  eapply sz_post_bind with (Q := fun r => p <= snd r <= end_).
  { apply sz_while_post; [|lia|sz_arith].
    intros s q Hq. cbv zeta.
    sz_step.
    sz_step.
    - eapply sz_post_bind; [apply sz_read_stream_counts_post; lia|].
      cbn beta. intros [counts q'] Hq'. cbn [snd] in Hq'. sz_step.
    - sz_step; [repeat sz_step|].
      sz_step.
      + eapply sz_post_bind; [apply sz_skip_stream_sizes_post; lia|].
        cbn beta. intros q' Hq'. sz_step.
      + repeat sz_step. }
  intros [s q] Hq. cbn [snd] in Hq. sz_step.
Qed.

#[local] Hint Extern 1 (sz_post _ (rspamd_7zip_read_substreams_info _ _ _ _ _)) =>
  apply rspamd_7zip_read_substreams_info_post; lia : szpost.





(** From here on, no property length carries the address of the cursor
    past 2^64. *)
Hypothesis props_fit : sz_props_fit buf end_.





End SevenZipTotal.




(** * The theorems at worked inputs *)

(** C1 (counterexample): the writer refuses the empty list, which holds no
    name that fails validation and no two equal names; and a single file
    whose name of 65536 letters passes validation is written with a name
    length field of 0, an archive the reader rejects. *)
Lemma zip_round_trip_breaks :
  @rspamd_archives_zip_write demo_clock demo_zlib demo_openssl [] None
  = WErr ErrNoFiles
  /\ rspamd_zip_validate_name (Some name_64k) = true
  /\ @zip_written_le16 demo_clock demo_zlib demo_openssl
       [mk_zip_file_spec (Some name_64k) data_hello 0 0] 26 = Some 0
  /\ @zip_read_written demo_clock demo_zlib demo_openssl ascii_charsets
       [mk_zip_file_spec (Some name_64k) data_hello 0 0]
     = Some (Rejected ZipBadCdRecord).
Proof.
  split; [reflexivity|].
  split; [vm_compute; reflexivity|].
  split; vm_compute; reflexivity.
Qed.

(** The round trip at [two_files]: a.txt and b.bin come back in order. *)
Lemma zip_write_read_round_trip_witness :
  exists out,
    @rspamd_archives_zip_write demo_clock demo_zlib demo_openssl two_files None = WOk out
    /\ exists arch,
         @rspamd_archive_process_zip ascii_charsets out None = Some (Attached arch)
         /\ arch_type arch = RSPAMD_ARCHIVE_ZIP
         /\ arch_size arch = len out
         /\ entries_match two_files (files arch).
Proof.
  apply (@zip_write_read_round_trip demo_clock demo_zlib demo_openssl ascii_charsets
           two_files None None).
  - reflexivity.
  - discriminate.
  - repeat constructor.
    + exists name_a_txt. repeat split; try reflexivity.
      eexists. split; [reflexivity | vm_compute; discriminate].
    + exists name_b_bin. repeat split; try reflexivity.
      eexists. split; [reflexivity | vm_compute; discriminate].
  - vm_compute. discriminate.
Defined.


(** Nine continuation bytes at nine bytes 0xFF followed by one more. *)
Lemma rar_vint_nine_continuations_witness :
  exists v, rspamd_archive_rar_read_vint (repeat xff 9 ++ [xff]) 10 = VintOk v 9.
Proof.
  apply (rar_vint_nine_continuations (repeat xff 9) [xff] 10).
  - reflexivity.
  - repeat constructor.
  - lia.
Defined.

(** The first byte 0xFF followed by 01 02 03 04 05 06 07 08. *)
Lemma sz_vint_0xff_witness :
  @rspamd_archive_7zip_read_vint x86_64_zeroed
    [xff; x01; x02; x03; x04; x05; x06; x07; x08] 9
  = VintOk (le_bytes (firstn 8 [x01; x02; x03; x04; x05; x06; x07; x08])) 9.
Proof.
  apply (@sz_vint_0xff x86_64_zeroed [x01; x02; x03; x04; x05; x06; x07; x08] 9). lia.
Defined.

(** The first byte 0x2A is the value 42. *)
Lemma sz_vint_single_witness :
  @rspamd_archive_7zip_read_vint x86_64_zeroed [x2a] 1 = VintOk (u8 x2a) 1.
Proof.
  apply (@sz_vint_single x86_64_zeroed x2a [] 1); reflexivity.
Defined.

Section NormalizerFacts.

Context `{Charsets}.

Lemma sanitize_graph (s : list byte) :
  Forall (fun b => g_ascii_isgraph (u8 b) = true) s ->
  map sanitize_byte s = s /\ existsb byte_suspicious s = false.
Proof.
  induction 1 as [|b s Hb _ [IHm IHe]]; [split; reflexivity|].
  cbn [map existsb]. unfold sanitize_byte at 1, byte_suspicious at 1.
  rewrite Hb, IHm, IHe. split; reflexivity.
Qed.

(** When no charset is detected, a name made of printable ASCII characters
    (0x21 to 0x7e) comes out of the normaliser unchanged and is not flagged
    as obfuscated. *)
Theorem try_utf_keeps_printable_ascii (name : list byte) :
  rspamd_mime_charset_find_by_content name = None ->
  Forall (fun b => g_ascii_isgraph (u8 b) = true) name ->
  rspamd_archive_file_try_utf name = (name, false).
Proof.
  intros Hcs Hg. unfold rspamd_archive_file_try_utf. rewrite Hcs.
  destruct (sanitize_graph name Hg) as [-> ->]. reflexivity.
Qed.

End NormalizerFacts.

(** The normaliser at a.txt, with a detector that recognises nothing. *)
Lemma try_utf_keeps_printable_ascii_witness :
  @rspamd_archive_file_try_utf no_charsets name_a_txt = (name_a_txt, false).
Proof.
  apply (@try_utf_keeps_printable_ascii no_charsets name_a_txt).
  - reflexivity.
  - repeat constructor.
Defined.

(** * The ZIP reader: every walk ends, and an extent past the EOCD record is
      refused one way or the other *)

Section ZipReaderTotal.

Context `{Charsets}.

(** The walk over the extra fields ends within the fuel it is given. *)
Lemma zip_extra_walk_ends (buf : list byte) (extra_end : Z) :
  forall (fuel : nat) (p : Z) (seen : bool),
    extra_end - p <= Z.of_nat fuel ->
    exists b, zip_extra_walk fuel buf p extra_end seen = Some b.
Proof.
  induction fuel as [|fuel IH]; intros p seen Hf; cbn [zip_extra_walk];
    (destruct (Z.ltb_spec (p + 2 * 2) extra_end); [|now eexists]).
  - lia.
  - cbv zeta. apply IH. pose proof (le16_range buf (p + 2)). lia.
Qed.

(** A record of the central directory is refused, or leaves the cursor
    further on and not behind the EOCD record. *)
Lemma zip_cd_record_ends (buf : list byte) (eocd cd : Z) (arch : rspamd_archive) :
  (exists d, zip_cd_record buf eocd cd arch = Some (Stop (Rejected d)))
  \/ (exists cd' arch',
        zip_cd_record buf eocd cd arch = Some (Go (cd', arch'))
        /\ cd + cd_basic_len <= cd' <= eocd).
Proof.
  unfold zip_cd_record.
  destruct (_ || _); [left; now eexists|]. cbv zeta.
  destruct (Z.ltb_spec eocd
              (cd + le16 buf (cd + 28) + le16 buf (cd + 32) + le16 buf (cd + 30)
               + cd_basic_len)); [left; now eexists|].
  destruct (rspamd_archive_file_try_utf _) as [name obf].
  pose proof (le16_range buf (cd + 28)). pose proof (le16_range buf (cd + 30)).
  pose proof (le16_range buf (cd + 32)).
  destruct (zip_extra_walk_ends buf
              (cd + le16 buf (cd + 28) + cd_basic_len + le16 buf (cd + 30))
              (Z.to_nat (le16 buf (cd + 30)))
              (cd + le16 buf (cd + 28) + cd_basic_len) false) as [seen ->]; [lia|].
  right. do 2 eexists. split; [reflexivity|]. unfold cd_basic_len in *. lia.
Qed.

(** The walk over the central directory ends within the fuel. *)
Lemma zip_cd_walk_ends (buf : list byte) (eocd cd_end : Z) :
  forall (fuel : nat) (cd : Z) (arch : rspamd_archive),
    Z.max 0 (eocd - cd) < Z.of_nat fuel ->
    exists r, zip_cd_walk fuel buf eocd cd_end cd arch = Some r.
Proof.
  induction fuel as [|fuel IH]; intros cd arch Hf; [lia|].
  cbn [zip_cd_walk].
  destruct (Z.ltb_spec cd cd_end); [|now eexists].
  destruct (zip_cd_record_ends buf eocd cd arch)
    as [[d ->] | (cd' & arch' & -> & Hcd)]; [now eexists|].
  apply IH. unfold cd_basic_len in *. lia.
Qed.

(** When the directory is announced to end behind the EOCD record, the walk
    cannot reach that end: it is refused at some record. *)
Lemma zip_cd_walk_past_eocd (buf : list byte) (eocd cd_end : Z) :
  eocd < cd_end ->
  forall (fuel : nat) (cd : Z) (arch : rspamd_archive),
    Z.max 0 (eocd - cd) < Z.of_nat fuel -> cd < cd_end ->
    exists d, zip_cd_walk fuel buf eocd cd_end cd arch = Some (Rejected d).
Proof.
  intros Hend. induction fuel as [|fuel IH]; intros cd arch Hf Hcd; [lia|].
  cbn [zip_cd_walk].
  destruct (Z.ltb_spec cd cd_end); [|lia].
  destruct (zip_cd_record_ends buf eocd cd arch)
    as [[d ->] | (cd' & arch' & -> & Hcd')]; [now eexists|].
  apply IH; unfold cd_basic_len in *; lia.
Qed.

(** The signature the backward search stops at lies in the input, at least
    22 bytes before its end. *)
Lemma zip_find_eocd_inside (buf : list byte) :
  forall (fuel : nat) (p processed eocd : Z),
    zip_find_eocd fuel buf p processed = Some eocd -> 4 < eocd <= p.
Proof.
  induction fuel as [|fuel IH]; intros p processed eocd; cbn [zip_find_eocd];
    [discriminate|].
  destruct (Z.ltb_spec (0 + 4) p); [|discriminate].
  destruct (max_processed <? processed); [discriminate|].
  destruct (le32 buf p =? eocd_magic).
  - intros [= <-]. lia.
  - intros Hf. apply IH in Hf. lia.
Qed.

(** The ZIP reader returns on every input. *)
Theorem zip_reader_total (buf : list byte) (cd_filename : option (list byte)) :
  exists r, rspamd_archive_process_zip buf cd_filename = Some r.
Proof.
  unfold rspamd_archive_process_zip. cbv zeta.
  destruct (zip_find_eocd 1026 buf (len buf - 1 - 21) 0) as [eocd|] eqn:E;
    [|now eexists].
  apply zip_find_eocd_inside in E.
  destruct (_ <? 21); [now eexists|].
  destruct (u32 eocd <? _); [now eexists|].
  apply zip_cd_walk_ends.
  pose proof (le32_range buf (eocd + 16)). unfold len in *. lia.
Qed.

(** A central directory whose announced offset and size add up, as numbers,
    to more than the position of the EOCD record never yields an archive:
    where the 32-bit sum of the extent check wraps and lets the input pass,
    the walk is refused at a record. *)
Theorem zip_extent_past_eocd_rejected (buf : list byte)
  (cd_filename : option (list byte)) (eocd : Z) :
  zip_find_eocd 1026 buf (len buf - 1 - 21) 0 = Some eocd ->
  eocd < le32 buf (eocd + 16) + le32 buf (eocd + 12) ->
  exists d, rspamd_archive_process_zip buf cd_filename = Some (Rejected d).
Proof.
  intros E Hsum. unfold rspamd_archive_process_zip. cbv zeta. rewrite E.
  apply zip_find_eocd_inside in E.
  destruct (_ <? 21); [now eexists|].
  destruct (u32 eocd <? _) eqn:Hchk; [now eexists|].
  pose proof (le32_range buf (eocd + 16)).
  pose proof (le32_range buf (eocd + 12)).
  apply zip_cd_walk_past_eocd; [exact Hsum | unfold len in *; lia | ].
  (* the walk is entered: the size is not zero, or the check had refused *)
  destruct (Z.eq_dec (le32 buf (eocd + 12)) 0) as [Hz|]; [|lia].
  exfalso. rewrite Hz, Z.add_0_r in *.
  rewrite (u32_small (le32 buf (eocd + 16))) in Hchk by lia.
  apply Z.ltb_ge in Hchk. pose proof (u32_le eocd). lia.
Qed.

End ZipReaderTotal.

(** The extent theorem at [zip_wrapped_extent]. *)
Lemma zip_extent_past_eocd_rejected_witness :
  exists d,
    @rspamd_archive_process_zip ascii_charsets zip_wrapped_extent None
    = Some (Rejected d).
Proof.
  apply (@zip_extent_past_eocd_rejected ascii_charsets zip_wrapped_extent None 48).
  - vm_compute. reflexivity.
  - vm_compute. reflexivity.
Defined.

(** The archive-level flag at the input whose only record carries the
    header 0x0017 followed by another header. *)
Lemma zip_never_sets_arch_encrypted_witness :
  exists arch,
    @rspamd_archive_process_zip ascii_charsets (zip_one_record extra_0017_first) None
    = Some (Attached arch)
    /\ arch_encrypted arch = false.
Proof.
  eexists. split; [vm_compute; reflexivity|].
  apply (@zip_never_sets_arch_encrypted ascii_charsets
           (zip_one_record extra_0017_first) None).
  vm_compute. reflexivity.
Defined.

(** * The RAR readers: the record walks move forward *)

Lemma rar_vint_exit_nread (remain shift t nread v r : Z) :
  rar_vint_exit remain shift t nread = VintOk v r -> r = nread /\ remain <> 0.
Proof.
  unfold rar_vint_exit. destruct (Z.eqb_spec remain 0); [discriminate|].
  destruct (64 <? shift); [discriminate|]. cbn. now intros [= _ <-].
Qed.

Lemma rar_vint_loop_bounds (mem : list byte) :
  forall remain shift t nread v r,
    rar_vint_loop mem remain shift t nread = VintOk v r ->
    0 <= remain ->
    nread <= r <= nread + remain /\ (0 < remain -> shift <= 57 -> nread < r).
Proof.
  induction mem as [|b mem IH]; intros remain shift t nread v r; cbn [rar_vint_loop];
    destruct (Z.ltb_spec 0 remain); destruct (Z.leb_spec shift 57); cbn [andb];
    try discriminate;
    try (intros Hx Hr; apply rar_vint_exit_nread in Hx; lia).
  destruct (Z.testbit (u8 b) 7).
  - intros Hx Hr. apply IH in Hx; lia.
  - intros Hx Hr. apply rar_vint_exit_nread in Hx. lia.
Qed.

(** A decoded RAR vint took at least one byte and no more than there
    were. *)
Lemma rar_read_vint_bounds (start : list byte) (remain v r : Z) :
  rspamd_archive_rar_read_vint start remain = VintOk v r ->
  0 <= remain ->
  1 <= r <= remain.
Proof.
  unfold rspamd_archive_rar_read_vint. intros Hx Hr.
  pose proof (rar_vint_loop_bounds _ _ _ _ _ _ _ Hx Hr) as [Hb Hs].
  destruct (Z.eq_dec remain 0) as [->|]; [|lia].
  destruct start; cbn in Hx; discriminate.
Qed.

Section RarWalks.

Context `{Charsets}.

Variable buf : list byte.
Variable end_ : Z.

Lemma walk_post_bind {A B : Type} (Q : A -> Prop) (R : B -> Prop)
  (m : walk A) (k : A -> walk B) :
  walk_post Q m -> (forall a, Q a -> walk_post R (k a)) -> walk_post R (walk_bind m k).
Proof. destruct m as [a|r]; cbn; auto. Qed.

Lemma walk_post_any {A : Type} (m : walk A) : walk_post (fun _ => True) m.
Proof. destruct m; exact I. Qed.

(** A skip that goes on has moved the cursor forward, inside the input. *)
Lemma RAR_SKIP_BYTES_post (p n : Z) :
  p <= end_ ->
  walk_post (fun p' => p < p' <= end_) (RAR_SKIP_BYTES end_ p n).
Proof.
  intros Hp. unfold RAR_SKIP_BYTES.
  destruct (Z.leb_spec n 0); [exact I|].
  destruct (Z.ltb_spec (u64 (end_ - p)) n); [exact I|].
  cbn. pose proof (u64_le (end_ - p)). lia.
Qed.

(** A v4 record that does not end the walk leaves the cursor further on. *)
Lemma rar_v4_record_advances (st : rar4_state) :
  r4_p st <= end_ ->
  walk_post (fun st' => r4_p st < r4_p st' <= end_) (rar_v4_record buf end_ st).
Proof.
  intros Hp. unfold rar_v4_record. cbv zeta.
  eapply walk_post_bind; [apply walk_post_any|]. intros p _.
  eapply walk_post_bind; [apply walk_post_any|]. intros [flags p1] _.
  destruct (_ && _); [exact I|].
  eapply walk_post_bind; [apply walk_post_any|]. intros [sz p2] _.
  eapply walk_post_bind; [apply walk_post_any|]. intros [[sz1 comp_sz] p3] _.
  eapply walk_post_bind; [apply walk_post_any|]. intros _ _.
  eapply walk_post_bind; [apply walk_post_any|]. intros [[[sz2 comp_sz2] uncomp_sz] arch] _.
  eapply walk_post_bind; [apply RAR_SKIP_BYTES_post; exact Hp|].
  intros p' Hp'. exact Hp'.
Qed.

(** The v4 record walk ends within the fuel. *)
Lemma rar_v4_walk_ends :
  forall (fuel : nat) (st : rar4_state),
    r4_p st <= end_ \/ (0 < fuel)%nat -> end_ - r4_p st < Z.of_nat fuel ->
    exists r, rar_v4_walk fuel buf end_ st = Some r.
Proof.
  induction fuel as [|fuel IH]; intros st Hp Hf; cbn [rar_v4_walk];
    (destruct (Z.ltb_spec (r4_p st) end_); [|now eexists]).
  - lia.
  - pose proof (rar_v4_record_advances st ltac:(lia)) as Hadv.
    destruct (rar_v4_record buf end_ st) as [st'|r]; [|now eexists].
    cbn in Hadv. apply IH; lia.
Qed.

(** A v5 record that does not end the walk leaves the cursor further on,
    whatever the scan of its extra area found. *)
Lemma rar_v5_record_advances (inner : nat) (st st' : rar5_state) :
  r5_p st <= end_ ->
  rar_v5_record inner buf end_ st = Some (Go st') ->
  r5_p st < r5_p st' <= end_.
Proof.
  intros Hp. unfold rar_v5_record.
  assert (Hstart :
    walk_post (fun x => let '(section_start, _, _, _, _, _) := x in
                        r5_p st < section_start <= end_)
      (p <- RAR_SKIP_BYTES end_ (r5_p st) 4 ;;
       '(sz, p) <- RAR_READ_VINT_SKIP buf end_ p ;;
       _ <- bail_if (sz =? 0) RarZeroSizeBlock ;;
       let section_start := p in
       '(type, sz, extra, comp_sz, p) <- rar_v5_header buf end_ p sz (r5_comp_sz st) ;;
       Go (section_start, type, sz, extra, comp_sz, p))).
  { eapply walk_post_bind; [apply RAR_SKIP_BYTES_post; exact Hp|]. intros p Hp4. cbn beta in Hp4.
    eapply walk_post_bind with (Q := fun x => p < snd x <= end_).
    { unfold RAR_READ_VINT_SKIP.
      destruct (rspamd_archive_rar_read_vint _ _) as [|v r|] eqn:E; try exact I.
      pose proof (u64_le (end_ - p) ltac:(lia)) as Hu.
      apply rar_read_vint_bounds in E; [|lia]. cbn. lia. }
    intros [sz p1] Hp1. cbn beta in Hp1. cbn [snd] in Hp1.
    eapply walk_post_bind; [apply walk_post_any|]. intros _ _. cbv zeta.
    eapply walk_post_bind; [apply walk_post_any|].
    intros [[[[type sz1] extra] comp_sz] p2] _. cbn. lia. }
  destruct (walk_bind _ _) as [[[[[[section_start type] sz] extra] comp_sz] p]|r];
    [|discriminate].
  cbn in Hstart. cbv zeta.
  assert (Hskip : forall arch st1,
            (p' <- RAR_SKIP_BYTES end_ section_start sz ;;
             Go (mk_rar5_state p' comp_sz
                   match extra with Some e => e | None => r5_extra_sz st end arch))
            = Go st1 -> r5_p st < r5_p st1 <= end_).
  { intros arch st1 Hs.
    pose proof (RAR_SKIP_BYTES_post section_start sz ltac:(lia)) as Hsk.
    destruct (RAR_SKIP_BYTES end_ section_start sz) as [p'|]; [|discriminate].
    cbn in Hs, Hsk. injection Hs as <-. cbn. lia. }
  destruct (negb (type =? 2)).
  - intros [= Hs]. eapply Hskip. exact Hs.
  - destruct (rar_v5_file_header _ _ _ _ _ _ _ _) as [[arch|r]|]; try discriminate.
    intros [= Hs]. eapply Hskip. exact Hs.
Qed.

End RarWalks.

(** The v4 reader returns on every input, given fuel for as many records as
    the input has bytes. *)
Theorem rar_v4_reader_total `{Charsets} (buf : list byte) (start : Z)
  (cd_filename : option (list byte)) :
  0 <= start ->
  exists r,
    rspamd_archive_process_rar_v4 (S (length buf)) buf start (len buf) cd_filename
    = Some r.
Proof.
  intros Hs. unfold rspamd_archive_process_rar_v4.
  apply rar_v4_walk_ends; cbn [r4_p]; [right; lia | unfold len; lia].
Qed.

(** The v4 reader at [rar4_unicode_short], behind the signature: the walk
    goes through the file header and ends at the end of the input. *)
Lemma rar_v4_reader_total_witness :
  exists r,
    @rspamd_archive_process_rar_v4 ascii_charsets (S (length rar4_unicode_short))
      rar4_unicode_short 7 (len rar4_unicode_short) None
    = Some r.
Proof.
  apply (@rar_v4_reader_total ascii_charsets rar4_unicode_short 7 None). lia.
Defined.

(** The v5 record walk over [rar5_service_record]: from offset 0 to 8. *)
Lemma rar_v5_record_advances_witness :
  r5_p (rar5_at 0) < r5_p (rar5_at 8) <= 8.
Proof.
  apply (@rar_v5_record_advances ascii_charsets rar5_service_record 8 0%nat
           (rar5_at 0) (rar5_at 8)).
  - vm_compute. discriminate.
  - vm_compute. reflexivity.
Defined.
(** * What the readers set on the archive they attach *)

Lemma built_from_trans (a b c : rspamd_archive) :
  built_from a b -> built_from b c -> built_from a c.
Proof. intros Hab Hbc. induction Hbc; try constructor; assumption. Qed.

Lemma built_from_head (a b : rspamd_archive) : built_from a b -> same_head a b.
Proof.
  unfold same_head. intros Hb. induction Hb as [|b f _ IH|b _ IH|b _ IH|b n _ IH];
    [split; reflexivity|..]; destruct IH as [Ht Hn]; split; assumption.
Qed.

Create HintDb heads.

#[local] Hint Constructors built_from : heads.

(** ** ZIP *)

Section ZipHead.

Context `{Charsets}.

Lemma zip_cd_record_head (buf : list byte) (eocd cd cd' : Z)
  (arch arch' : rspamd_archive) :
  zip_cd_record buf eocd cd arch = Some (Go (cd', arch')) -> built_from arch arch'.
Proof.
  unfold zip_cd_record. intros Hr.
  destruct (_ || _); [discriminate|].
  destruct (_ <? _); [discriminate|].
  destruct (rspamd_archive_file_try_utf _) as [name obf].
  destruct (zip_extra_walk _ _ _ _ _) as [[|]|]; inversion Hr; auto with heads.
Qed.

Lemma zip_cd_walk_head (fuel : nat) (buf : list byte) (eocd cd_end : Z) :
  forall cd arch arch',
    zip_cd_walk fuel buf eocd cd_end cd arch = Some (Attached arch') ->
    built_from arch arch' /\ arch_size arch' = len buf.
Proof.
  induction fuel as [|fuel IH]; intros cd arch arch' Hw; cbn [zip_cd_walk] in Hw.
  - destruct (cd <? cd_end); [discriminate|]. inversion Hw. split; [auto with heads | reflexivity].
  - destruct (cd <? cd_end); [|inversion Hw; split; [auto with heads | reflexivity]].
    destruct (zip_cd_record buf eocd cd arch) as [[[cd1 arch1]|r]|] eqn:Hr;
      try discriminate.
    + apply zip_cd_record_head in Hr. apply IH in Hw as [Hh Hs].
      split; [eapply built_from_trans; eassumption | assumption].
    + apply zip_cd_record_stop in Hr. destruct Hr as [d ->]. discriminate.
Qed.

Lemma zip_built (buf : list byte) (cd_filename : option (list byte))
  (arch : rspamd_archive) :
  rspamd_archive_process_zip buf cd_filename = Some (Attached arch) ->
  built_from (new_archive RSPAMD_ARCHIVE_ZIP cd_filename) arch
  /\ arch_size arch = len buf.
Proof.
  unfold rspamd_archive_process_zip. intros Hp.
  destruct (zip_find_eocd _ _ _ _) as [eocd|]; [|discriminate].
  destruct (_ <? 21); [discriminate|].
  destruct (u32 eocd <? _); [discriminate|].
  apply zip_cd_walk_head in Hp. exact Hp.
Qed.

End ZipHead.

(** ** gzip *)

(** Case analysis on every [match] and [if] of the hypotheses. *)
Ltac split_cases :=
  repeat match goal with
         | H : Go _ = Go _ |- _ => inversion H; clear H; subst
         | H : Stop _ = Stop _ |- _ => inversion H; clear H; subst
         | H : Some _ = Some _ |- _ => inversion H; clear H; subst
         | H : Attached _ = Attached _ |- _ => inversion H; clear H; subst
         | H : (_, _) = (_, _) |- _ => inversion H; clear H; subst
         | H : Go _ = Stop _ |- _ => discriminate H
         | H : Stop _ = Go _ |- _ => discriminate H
         | H : Some _ = None |- _ => discriminate H
         | H : None = Some _ |- _ => discriminate H
         | H : Rejected _ = Attached _ |- _ => discriminate H
         | H : Undefined = Attached _ |- _ => discriminate H
         | H : context [match ?x with _ => _ end] |- _ => destruct x eqn:?
         end.

Lemma gzip_built `{Charsets} (buf : list byte) (cd_filename : option (list byte))
  (arch : rspamd_archive) :
  rspamd_archive_process_gzip buf cd_filename = Attached arch ->
  built_from (new_archive RSPAMD_ARCHIVE_GZIP cd_filename) arch
  /\ arch_size arch = len buf.
Proof.
  unfold rspamd_archive_process_gzip, gzip_stored_name, gzip_attach, RAR_READ_UINT16,
    bail_if, walk_bind.
  intros Ha. cbv zeta in Ha.
  split_cases; (split; [|reflexivity]);
    try match goal with |- context [if ?c then _ else _] => destruct c end;
    auto 6 with heads.
Qed.

(** ** RAR *)

Section RarHead.

Context `{Charsets}.

Variable buf : list byte.
Variable end_ : Z.

Lemma walk_ends_bind {A B : Type} (Q : A -> Prop) (Q' : B -> Prop)
  (R : rspamd_archive -> Prop) (m : walk A) (k : A -> walk B) :
  walk_ends Q R m -> (forall a, Q a -> walk_ends Q' R (k a)) ->
  walk_ends Q' R (walk_bind m k).
Proof. destruct m as [a|[d|arch|]]; cbn; auto. Qed.


(** The macros leave the function without attaching anything. *)
Lemma RAR_SKIP_BYTES_ends (R : rspamd_archive -> Prop) (p n : Z) :
  walk_ends (fun _ => True) R (RAR_SKIP_BYTES end_ p n).
Proof. unfold RAR_SKIP_BYTES. destruct (_ <=? _); [exact I|]. destruct (_ <? _); exact I. Qed.

Lemma RAR_READ_VINT_SKIP_ends (R : rspamd_archive -> Prop) (p : Z) :
  walk_ends (fun _ => True) R (RAR_READ_VINT_SKIP buf end_ p).
Proof. unfold RAR_READ_VINT_SKIP. destruct (rspamd_archive_rar_read_vint _ _); exact I. Qed.

Lemma RAR_READ_UINT16_ends (R : rspamd_archive -> Prop) (p : Z) :
  walk_ends (fun _ => True) R (RAR_READ_UINT16 buf end_ p).
Proof. unfold RAR_READ_UINT16. destruct (_ <? _); exact I. Qed.

Lemma RAR_READ_UINT32_ends (R : rspamd_archive -> Prop) (p : Z) :
  walk_ends (fun _ => True) R (RAR_READ_UINT32 buf end_ p).
Proof. unfold RAR_READ_UINT32. destruct (_ <? _); exact I. Qed.

Lemma bail_if_ends (R : rspamd_archive -> Prop) (c : bool) (d : archive_diag) :
  walk_ends (fun _ => True) R (bail_if c d).
Proof. destruct c; exact I. Qed.

Lemma name_bytes_ends (R : rspamd_archive -> Prop) (p n : Z) :
  walk_ends (fun _ => True) R (name_bytes buf end_ p n).
Proof. unfold name_bytes. destruct (_ <? _); exact I. Qed.

Lemma rar_v4_name_bytes_ends (R : rspamd_archive -> Prop) (p flags n : Z) :
  walk_ends (fun _ => True) R (rar_v4_name_bytes buf end_ p flags n).
Proof.
  unfold rar_v4_name_bytes. cbv zeta.
  destruct (has_bits _ _); [|apply name_bytes_ends].
  destruct (find_byte _ _); [exact I | apply name_bytes_ends].
Qed.

Create HintDb walkends.

#[local] Hint Resolve RAR_SKIP_BYTES_ends RAR_READ_VINT_SKIP_ends RAR_READ_UINT16_ends
  RAR_READ_UINT32_ends bail_if_ends name_bytes_ends rar_v4_name_bytes_ends : walkends.

(** One step through a reader's body; a step made of macros only hands
    on nothing that matters here. *)
Ltac walk_step :=
  lazymatch goal with
  | |- walk_ends _ _ (walk_bind _ _) =>
      first [ eapply walk_ends_bind;
              [solve [eauto with walkends] | cbn beta; intros ? _]
            | eapply walk_ends_bind with (Q := fun _ => True);
              [solve [repeat walk_step] | cbn beta; intros ? _] ]
  | |- walk_ends _ _ (Go _) => cbn [walk_ends]; try exact I
  | |- walk_ends _ _ (Stop (Rejected _)) => exact I
  | |- walk_ends _ _ (Stop Undefined) => exact I
  | |- walk_ends _ _ (Stop _) => cbn [walk_ends]
  | |- walk_ends _ _ (if ?c then _ else _) => destruct c
  | |- walk_ends _ _ (match ?x with _ => _ end) => destruct x
  | |- walk_ends _ _ (let _ := _ in _) => cbv zeta
  | |- walk_ends _ _ _ => solve [eauto with walkends]
  end.

Lemma rar_v4_file_header_ends (R : rspamd_archive -> Prop)
  (p flags sz comp_sz : Z) (arch : rspamd_archive) :
  walk_ends (fun r => built_from arch (snd r)) R
    (rar_v4_file_header buf end_ p flags sz comp_sz arch).
Proof.
  unfold rar_v4_file_header. repeat walk_step.
  cbn. auto with heads.
Qed.

Lemma rar_v4_record_ends (st : rar4_state) :
  walk_ends (fun st' => built_from (r4_arch st) (r4_arch st'))
    (fun a => built_from (r4_arch st) a /\ arch_size a = len buf)
    (rar_v4_record buf end_ st).
Proof.
  unfold rar_v4_record. cbv zeta. repeat walk_step.
  - unfold rar_attach. cbn. split; [auto with heads | reflexivity].
  - eapply walk_ends_bind with (Q := fun r => built_from (r4_arch st) (snd r)).
    { walk_step; [apply rar_v4_file_header_ends|]. cbn. auto with heads. }
    intros [[[sz' comp'] uncomp'] arch'] Hh. cbn [snd] in Hh.
    repeat walk_step. cbn. exact Hh.
Qed.


Lemma rar_v4_walk_head :
  forall (fuel : nat) (st : rar4_state) (arch : rspamd_archive),
    rar_v4_walk fuel buf end_ st = Some (Attached arch) ->
    built_from (r4_arch st) arch /\ arch_size arch = len buf.
Proof.
  induction fuel as [|fuel IH]; intros st arch; cbn [rar_v4_walk];
    (destruct (r4_p st <? end_);
     [|intros [= <-]; split; [auto with heads | reflexivity]]).
  - discriminate.
  - pose proof (rar_v4_record_ends st) as He.
    destruct (rar_v4_record buf end_ st) as [st'|r].
    + intros Hw. apply IH in Hw as [Hh Hs]. cbn in He.
      split; [eapply built_from_trans; eassumption | assumption].
    + intros [= ->]. exact He.
Qed.

Lemma rar_v5_header_ends (R : rspamd_archive -> Prop) (p sz comp_sz : Z) :
  walk_ends (fun _ => True) R (rar_v5_header buf end_ p sz comp_sz).
Proof. unfold rar_v5_header. repeat walk_step. Qed.

#[local] Hint Resolve rar_v5_header_ends : walkends.

Lemma rar_v5_extra_walk_ends (limit extra_sz : Z) :
  forall (fuel : nat) (ex : Z) (r : read_outcome),
    rar_v5_extra_walk fuel buf ex limit extra_sz = Some (Stop r) ->
    forall arch, r <> Attached arch.
Proof.
  induction fuel as [|fuel IH]; intros ex r; cbn [rar_v5_extra_walk];
    (destruct (ex <? limit); [|discriminate]).
  - discriminate.
  - destruct (rspamd_archive_rar_read_vint _ _) as [|cur_sz n|];
      try (intros [= <-]; discriminate).
    destruct (rspamd_archive_rar_read_vint _ _) as [|sec_type n'|];
      try (intros [= <-]; discriminate).
    destruct (sec_type =? 1); [discriminate|]. apply IH.
Qed.

Lemma rar_v5_file_header_ends (fuel : nat) (p comp_sz : Z) (extra : option Z)
  (extra_sz : Z) (arch : rspamd_archive) (w : walk rspamd_archive) :
  rar_v5_file_header fuel buf end_ p comp_sz extra extra_sz arch = Some w ->
  walk_ends (built_from arch) (fun _ => False) w.
Proof.
  unfold rar_v5_file_header.
  match goal with
  | |- match ?m with _ => _ end = _ -> _ =>
      assert (He : walk_ends
                     (fun r => match r with
                               | Some (a, _, _) => built_from arch a
                               | None => True
                               end) (fun _ => False) m)
  end.
  { repeat walk_step. cbn. auto with heads. }
  match goal with
  | |- match ?m with _ => _ end = _ -> _ => destruct m as [[[[a p'] fl]|]|r]
  end.
  - cbn in He. destruct extra as [e|]; [|intros [= <-]; exact He].
    destruct (_ && _); [|intros [= <-]; exact He].
    destruct (rar_v5_extra_walk _ _ _ _ _) as [[[|]|r]|] eqn:Ew; try discriminate;
      intros [= <-]; cbn; auto with heads.
    pose proof (rar_v5_extra_walk_ends _ _ _ _ _ Ew) as Hn.
    destruct r; try exact I. exfalso. eapply Hn. reflexivity.
  - intros [= <-]. cbn. auto with heads.
  - intros [= <-]. exact He.
Qed.

Lemma rar_v5_record_ends (fuel : nat) (st : rar5_state) (w : walk rar5_state) :
  rar_v5_record fuel buf end_ st = Some w ->
  walk_ends (fun st' => built_from (r5_arch st) (r5_arch st')) (fun _ => False) w.
Proof.
  unfold rar_v5_record.
  match goal with
  | |- match ?m with _ => _ end = _ -> _ =>
      assert (He : walk_ends (fun _ => True) (fun _ => False) m)
  end.
  { repeat walk_step. }
  match goal with
  | |- match ?m with _ => _ end = _ -> _ =>
      destruct m as [[[[[[section_start type] sz] extra] comp_sz] p]|r]
  end; [|intros [= <-]; exact He].
  cbv zeta.
  destruct (negb (type =? 2)).
  - intros [= <-]. repeat walk_step. cbn. auto with heads.
  - destruct (rar_v5_file_header _ _ _ _ _ _ _ _) as [[arch|r]|] eqn:Ef; try discriminate.
    + apply rar_v5_file_header_ends in Ef. cbn in Ef.
      intros [= <-]. repeat walk_step. cbn. exact Ef.
    + apply rar_v5_file_header_ends in Ef. intros [= <-]. exact Ef.
Qed.


Lemma rar_v5_walk_head (inner : nat) :
  forall (fuel : nat) (st : rar5_state) (arch : rspamd_archive),
    rar_v5_walk fuel inner buf end_ st = Some (Attached arch) ->
    built_from (r5_arch st) arch /\ arch_size arch = len buf.
Proof.
  induction fuel as [|fuel IH]; intros st arch; cbn [rar_v5_walk];
    (destruct (r5_p st <? end_);
     [|intros [= <-]; split; [auto with heads | reflexivity]]).
  - discriminate.
  - destruct (rar_v5_record inner buf end_ st) as [[st'|r]|] eqn:Er; try discriminate.
    + apply rar_v5_record_ends in Er. cbn in Er.
      intros Hw. apply IH in Hw as [Hh Hs].
      split; [eapply built_from_trans; eassumption | assumption].
    + apply rar_v5_record_ends in Er. intros [= ->]. contradiction.
Qed.

End RarHead.

Lemma rar_built `{Charsets} (fuel : nat) (buf : list byte)
  (cd_filename : option (list byte)) (arch : rspamd_archive) :
  rspamd_archive_process_rar fuel buf cd_filename = Some (Attached arch) ->
  built_from (new_archive RSPAMD_ARCHIVE_RAR cd_filename) arch
  /\ arch_size arch = len buf.
Proof.
  unfold rspamd_archive_process_rar. cbv zeta. intros Hp.
  destruct (_ <=? 8); [discriminate|].
  destruct (bytes_eqb _ rar_v5_magic).
  - match type of Hp with
    | match ?m with _ => _ end = _ =>
        assert (He : walk_ends (fun _ => True)
                       (fun a => built_from (new_archive RSPAMD_ARCHIVE_RAR cd_filename) a
                                 /\ arch_size a = len buf) m)
    end.
    { eapply walk_ends_bind; [apply RAR_SKIP_BYTES_ends|]. intros p _.
      eapply walk_ends_bind; [apply RAR_READ_VINT_SKIP_ends|]. intros [sz p1] _.
      eapply walk_ends_bind; [apply rar_v5_header_ends|].
      intros [[[[type sz1] extra] comp_sz] p2] _.
      destruct (type =? 4).
      - unfold rar_attach. cbn. split; [auto with heads | reflexivity].
      - eapply walk_ends_bind; [apply bail_if_ends|]. intros _ _.
        apply RAR_SKIP_BYTES_ends. }
    match type of Hp with
    | match ?m with _ => _ end = _ => destruct m as [p|r]
    end.
    + apply rar_v5_walk_head in Hp. exact Hp.
    + injection Hp as ->. exact He.
  - destruct (bytes_eqb _ rar_v4_magic); [|discriminate].
    unfold rspamd_archive_process_rar_v4 in Hp.
    apply rar_v4_walk_head in Hp. exact Hp.
Qed.
(** ** 7-Zip: the handlers keep the archive's type and name *)

Section SevenZipHead.

Context `{Platform} `{Libarchive}.
Variable buf : list byte.
Variable end_ : Z.
Variable P : rspamd_archive -> Prop.

Hypothesis P_encrypted : forall a, P a -> P (set_arch_encrypted a).
Hypothesis P_add_file : forall a name,
  P a -> P (add_file a (mk_archive_file name 0 0 false false)).
Hypothesis P_files : forall a names,
  P a -> P (mk_archive (arch_type a) (archive_name a) (arch_size a)
              (arch_encrypted a) (arch_has_obfuscated a) (libarchive_files names)).

Lemma sz_keeps_ret {A : Type} (a : A) : sz_keeps P (sz_ret a).
Proof. intros st Hp. exact Hp. Qed.

Lemma sz_keeps_fail {A : Type} (d : archive_diag) : sz_keeps P (@sz_fail A d).
Proof. intros st Hp. exact Hp. Qed.

Lemma sz_keeps_log (d : archive_diag) : sz_keeps P (sz_log d).
Proof. intros st Hp. exact Hp. Qed.

Lemma sz_keeps_null {A : Type} : sz_keeps P (@sz_null A).
Proof. intros st Hp. exact Hp. Qed.

Lemma sz_keeps_undefined {A : Type} : sz_keeps P (@sz_undefined A).
Proof. intros st Hp. exact I. Qed.

Lemma sz_keeps_out_of_fuel {A : Type} : sz_keeps P (@sz_out_of_fuel A).
Proof. intros st Hp. exact I. Qed.

Lemma sz_keeps_update (g : rspamd_archive -> rspamd_archive) :
  (forall a, P a -> P (g a)) -> sz_keeps P (sz_update_arch g).
Proof. intros Hg st Hp. cbn. apply Hg, Hp. Qed.

Lemma sz_keeps_bind {A B : Type} (m : szm A) (k : A -> szm B) :
  sz_keeps P m -> (forall a, sz_keeps P (k a)) -> sz_keeps P (sz_bind m k).
Proof.
  intros Hm Hk st Hp. unfold sz_bind. specialize (Hm st Hp).
  destruct (m st) as [a st'| st'| |]; try assumption.
  apply Hk, Hm.
Qed.

Lemma SZ_READ_VINT_keeps (p : Z) : sz_keeps P (SZ_READ_VINT buf end_ p).
Proof.
  intros st Hp. unfold SZ_READ_VINT.
  destruct (rspamd_archive_7zip_read_vint _ _); cbn; auto.
Qed.

Lemma SZ_SKIP_BYTES_keeps (p n : Z) : sz_keeps P (SZ_SKIP_BYTES end_ p n).
Proof.
  unfold SZ_SKIP_BYTES. destruct (_ <=? _); [apply sz_keeps_ret | apply sz_keeps_fail].
Qed.

Lemma sz_while_keeps {S : Type} (body : S -> Z -> szm (loop_step S)) (e : Z) :
  (forall s p, sz_keeps P (body s p)) ->
  forall (fuel : nat) (s : S) (p : Z), sz_keeps P (sz_while fuel e body s p).
Proof.
  intros Hb. induction fuel as [|fuel IH]; intros s p; cbn [sz_while];
    (destruct (p <? e); [|apply sz_keeps_ret]).
  - apply sz_keeps_out_of_fuel.
  - apply sz_keeps_bind; [apply Hb|]. intros [s' p'|s' p']; [apply IH | apply sz_keeps_ret].
Qed.

Lemma sz_for_keeps {S : Type} (body : S -> Z -> szm (S * Z)) :
  (forall s p, sz_keeps P (body s p)) ->
  forall (fuel : nat) (n : Z) (s : S) (p : Z), sz_keeps P (sz_for fuel n body s p).
Proof.
  intros Hb. induction fuel as [|fuel IH]; intros n s p; cbn [sz_for];
    (destruct (0 <? n); [|apply sz_keeps_ret]).
  - apply sz_keeps_out_of_fuel.
  - apply sz_keeps_bind; [apply Hb|]. intros [s' p']. apply IH.
Qed.

Lemma sz_for_in_keeps {S : Type} (body : S -> Z -> szm (S * Z)) (e : Z) :
  (forall s p, sz_keeps P (body s p)) ->
  forall (fuel : nat) (n : Z) (s : S) (p : Z), sz_keeps P (sz_for_in fuel e n body s p).
Proof.
  intros Hb. induction fuel as [|fuel IH]; intros n s p; cbn [sz_for_in];
    (destruct (_ && _); [|apply sz_keeps_ret]).
  - apply sz_keeps_out_of_fuel.
  - apply sz_keeps_bind; [apply Hb|]. intros [s' p']. apply IH.
Qed.

Create HintDb szkeeps.

#[local] Hint Resolve SZ_READ_VINT_keeps SZ_SKIP_BYTES_keeps : szkeeps.

(** One step through a handler's body. *)
Ltac keep_step :=
  lazymatch goal with
  | |- sz_keeps _ (sz_ret _) => apply sz_keeps_ret
  | |- sz_keeps _ (sz_fail _) => apply sz_keeps_fail
  | |- sz_keeps _ (sz_log _) => apply sz_keeps_log
  | |- sz_keeps _ sz_null => apply sz_keeps_null
  | |- sz_keeps _ sz_undefined => apply sz_keeps_undefined
  | |- sz_keeps _ sz_out_of_fuel => apply sz_keeps_out_of_fuel
  | |- sz_keeps _ (sz_update_arch _) =>
      apply sz_keeps_update; cbn beta zeta; intros;
      repeat match goal with |- context [if ?c then _ else _] => destruct c end;
      auto
  | |- sz_keeps _ (sz_bind _ _) => apply sz_keeps_bind; [|intros ?]
  | |- sz_keeps _ (sz_while _ _ _ _ _) => apply sz_while_keeps; intros ? ?
  | |- sz_keeps _ (sz_for_in _ _ _ _ _ _) => apply sz_for_in_keeps; intros ? ?
  | |- sz_keeps _ (sz_for _ _ _ _ _) => apply sz_for_keeps; intros ? ?
  | |- sz_keeps _ (if ?c then _ else _) => destruct c
  | |- sz_keeps _ (match ?x with _ => _ end) => destruct x
  | |- sz_keeps _ (let _ := _ in _) => cbv zeta
  | |- sz_keeps _ _ => solve [eauto with szkeeps]
  end.

Lemma rspamd_7zip_read_bits_keeps (nbits : nat) :
  forall p mask avail bits_set,
    sz_keeps P (rspamd_7zip_read_bits buf end_ nbits p mask avail bits_set).
Proof.
  induction nbits as [|n IH]; intros; cbn [rspamd_7zip_read_bits];
    repeat keep_step; apply IH.
Qed.

#[local] Hint Resolve rspamd_7zip_read_bits_keeps : szkeeps.

Lemma rspamd_7zip_read_digest_keeps (p num_streams : Z) :
  sz_keeps P (rspamd_7zip_read_digest buf end_ p num_streams).
Proof. unfold rspamd_7zip_read_digest. repeat keep_step. Qed.

Lemma sz_skip_vint_keeps (s : unit) (p : Z) : sz_keeps P (sz_skip_vint buf end_ s p).
Proof. unfold sz_skip_vint. repeat keep_step. Qed.

#[local] Hint Resolve rspamd_7zip_read_digest_keeps sz_skip_vint_keeps : szkeeps.

Lemma rspamd_7zip_read_pack_info_keeps (p : Z) :
  sz_keeps P (rspamd_7zip_read_pack_info buf end_ p).
Proof. unfold rspamd_7zip_read_pack_info. repeat keep_step. Qed.

Lemma sz_read_coder_keeps (s : Z * Z) (p : Z) :
  sz_keeps P (sz_read_coder buf end_ s p).
Proof. unfold sz_read_coder. repeat keep_step. Qed.

#[local] Hint Resolve rspamd_7zip_read_pack_info_keeps sz_read_coder_keeps : szkeeps.

Lemma rspamd_7zip_read_folder_keeps (p : Z) :
  sz_keeps P (rspamd_7zip_read_folder buf end_ p).
Proof. unfold rspamd_7zip_read_folder. repeat keep_step. Qed.

#[local] Hint Resolve rspamd_7zip_read_folder_keeps : szkeeps.

Lemma sz_read_folders_keeps (todo : nat) :
  forall done num_digests p,
    sz_keeps P (sz_read_folders buf end_ todo done num_digests p).
Proof.
  induction todo as [|n IH]; intros; cbn [sz_read_folders];
    repeat keep_step; apply IH.
Qed.

Lemma sz_unpack_sizes_keeps (nstreams : list Z) :
  forall todo p, sz_keeps P (sz_unpack_sizes buf end_ nstreams todo p).
Proof.
  induction nstreams as [|n rest IH]; intros; cbn [sz_unpack_sizes];
    repeat keep_step; apply IH.
Qed.

#[local] Hint Resolve sz_read_folders_keeps sz_unpack_sizes_keeps : szkeeps.

Lemma rspamd_7zip_read_coders_info_keeps (p : Z) :
  sz_keeps P (rspamd_7zip_read_coders_info buf end_ p).
Proof. unfold rspamd_7zip_read_coders_info. repeat keep_step. Qed.

Lemma sz_read_stream_counts_keeps (todo : nat) :
  forall done p, sz_keeps P (sz_read_stream_counts buf end_ todo done p).
Proof.
  induction todo as [|n IH]; intros; cbn [sz_read_stream_counts];
    repeat keep_step; apply IH.
Qed.

Lemma sz_skip_stream_sizes_keeps (nstreams : list Z) :
  forall p, sz_keeps P (sz_skip_stream_sizes buf end_ nstreams p).
Proof.
  induction nstreams as [|n rest IH]; intros; cbn [sz_skip_stream_sizes];
    repeat keep_step; apply IH.
Qed.

#[local] Hint Resolve rspamd_7zip_read_coders_info_keeps sz_read_stream_counts_keeps
  sz_skip_stream_sizes_keeps : szkeeps.

Lemma rspamd_7zip_read_substreams_info_keeps (p num_folders num_nodigest : Z) :
  sz_keeps P (rspamd_7zip_read_substreams_info buf end_ p num_folders num_nodigest).
Proof. unfold rspamd_7zip_read_substreams_info. repeat keep_step. Qed.

#[local] Hint Resolve rspamd_7zip_read_substreams_info_keeps : szkeeps.

Lemma rspamd_7zip_read_main_streams_info_keeps (p : Z) :
  sz_keeps P (rspamd_7zip_read_main_streams_info buf end_ p).
Proof. unfold rspamd_7zip_read_main_streams_info. repeat keep_step. Qed.

Lemma sz_archive_props_loop_keeps (fuel : nat) :
  forall proptype p, sz_keeps P (sz_archive_props_loop buf end_ fuel proptype p).
Proof.
  induction fuel as [|n IH]; intros; cbn [sz_archive_props_loop];
    repeat keep_step; apply IH.
Qed.

#[local] Hint Resolve rspamd_7zip_read_main_streams_info_keeps
  sz_archive_props_loop_keeps : szkeeps.

Lemma rspamd_7zip_read_archive_props_keeps (p : Z) :
  sz_keeps P (rspamd_7zip_read_archive_props buf end_ p).
Proof. unfold rspamd_7zip_read_archive_props. repeat keep_step. Qed.

Lemma sz_read_names_keeps (fuel : nat) :
  forall nfiles p, sz_keeps P (sz_read_names buf end_ fuel nfiles p).
Proof.
  induction fuel as [|n IH]; intros; cbn [sz_read_names];
    repeat keep_step; apply IH.
Qed.

#[local] Hint Resolve rspamd_7zip_read_archive_props_keeps sz_read_names_keeps : szkeeps.

Lemma rspamd_7zip_read_files_info_keeps (p : Z) :
  sz_keeps P (rspamd_7zip_read_files_info buf end_ p).
Proof. unfold rspamd_7zip_read_files_info. repeat keep_step. Qed.

#[local] Hint Resolve rspamd_7zip_read_files_info_keeps : szkeeps.

Lemma rspamd_7zip_read_next_section_keeps (p : Z) :
  sz_keeps P (rspamd_7zip_read_next_section buf end_ p).
Proof. unfold rspamd_7zip_read_next_section. repeat keep_step. Qed.


Lemma sz_sections_keeps (fuel : nat) :
  forall (p : Z) (st st' : sz_state),
    P (sz_arch st) -> sz_sections buf end_ fuel p st = WalkDone st' -> P (sz_arch st').
Proof.
  induction fuel as [|n IH]; intros p st st' Hp; cbn [sz_sections]; [discriminate|].
  pose proof (rspamd_7zip_read_next_section_keeps p st Hp) as Hk.
  destruct (rspamd_7zip_read_next_section buf end_ p st) as [a s| s| |];
    try discriminate.
  - apply IH, Hk.
  - intros [= <-]. exact Hk.
Qed.

End SevenZipHead.


Lemma libarchive_files_plain (names : list (option (list byte))) :
  existsb file_obfuscated (libarchive_files names) = false.
Proof.
  unfold libarchive_files. induction names as [|[name|] rest IH]; cbn; auto.
Qed.

Lemma existsb_snoc {A : Type} (f : A -> bool) (l : list A) (x : A) :
  existsb f (l ++ [x]) = existsb f l || f x.
Proof. rewrite existsb_app. cbn. rewrite orb_false_r. reflexivity. Qed.

(** The archive the 7-Zip reader attaches: its type, and no entry or flag
    that says obfuscated. *)
Lemma sz_built `{Platform} `{Libarchive} (buf : list byte)
  (cd_filename : option (list byte)) (r : sz_report) (arch : rspamd_archive) :
  rspamd_archive_process_7zip buf cd_filename = Some r ->
  sz_outcome r = Attached arch ->
  (arch_type arch = RSPAMD_ARCHIVE_7ZIP /\ archive_name arch = cd_filename
   /\ arch_size arch = len buf)
  /\ arch_has_obfuscated arch = false
  /\ existsb file_obfuscated (files arch) = false.
Proof.
  unfold rspamd_archive_process_7zip. intros Hp Ha.
  destruct (sz_start_header buf) as [d|p].
  - injection Hp as <-. discriminate.
  - cbv zeta in Hp.
    destruct (sz_sections _ _ _ _ _) as [st| |] eqn:Ew; try discriminate.
    + injection Hp as <-. cbn in Ha. injection Ha as <-.
      apply (sz_sections_keeps buf (len buf)
               (fun a => arch_type a = RSPAMD_ARCHIVE_7ZIP
                         /\ arch_has_obfuscated a = false
                         /\ existsb file_obfuscated (files a) = false)) in Ew.
      * cbn. tauto.
      * intros a (Ht & Ho & Hf). auto.
      * intros a name (Ht & Ho & Hf). cbn. rewrite Ho, existsb_snoc, Hf. auto.
      * intros a names (Ht & Ho & Hf). cbn. auto using libarchive_files_plain.
      * cbn. auto.
    + injection Hp as <-. discriminate.
Qed.
(** * The readers together, and the dispatcher *)

Lemma built_attached_as (t : rspamd_archive_type) (buf : list byte)
  (cd_filename : option (list byte)) (arch : rspamd_archive) :
  built_from (new_archive t cd_filename) arch /\ arch_size arch = len buf ->
  arch_type arch = t /\ archive_name arch = cd_filename /\ arch_size arch = len buf.
Proof. intros [Hb Hs]. apply built_from_head in Hb as [Ht Hn]. auto. Qed.

Lemma existsb_mark_last (l : list rspamd_archive_file) :
  existsb file_obfuscated
    (match rev l with
     | [] => []
     | f :: before => rev before ++ [set_file_encrypted f]
     end) = existsb file_obfuscated l.
Proof.
  destruct (rev l) as [|f before] eqn:Hr.
  - apply (f_equal (@rev _)) in Hr. rewrite rev_involutive in Hr. subst l. reflexivity.
  - apply (f_equal (@rev _)) in Hr. rewrite rev_involutive in Hr. subst l.
    cbn [rev]. rewrite !existsb_snoc. reflexivity.
Qed.

Lemma built_from_obfuscated (a b : rspamd_archive) :
  built_from a b -> obfuscated_flag_accurate a -> obfuscated_flag_accurate b.
Proof.
  unfold obfuscated_flag_accurate. intros Hb Ha.
  induction Hb as [|b f _ IH|b _ IH|b _ IH|b n _ IH]; cbn; auto.
  - rewrite existsb_snoc, IH. reflexivity.
  - rewrite existsb_mark_last. exact IH.
Qed.

Lemma built_obfuscated (t : rspamd_archive_type) (n : option (list byte))
  (b : rspamd_archive) :
  built_from (new_archive t n) b -> obfuscated_flag_accurate b.
Proof. intros Hb. apply (built_from_obfuscated _ _ Hb). reflexivity. Qed.

Section Readers.

Context `{Platform} `{Libarchive} `{Charsets}.

(** Whatever a reader attaches to a part is an archive of the reader's
    own type that carries the file name of the part's Content-Disposition
    and, as its size, the length of the part's data. *)
Theorem readers_attach_their_type (fuel : nat) (buf : list byte)
  (cd_filename : option (list byte)) :
  (forall o, rspamd_archive_process_zip buf cd_filename = Some o ->
             attached_as RSPAMD_ARCHIVE_ZIP buf cd_filename o)
  /\ (forall o, rspamd_archive_process_rar fuel buf cd_filename = Some o ->
                attached_as RSPAMD_ARCHIVE_RAR buf cd_filename o)
  /\ (forall r, rspamd_archive_process_7zip buf cd_filename = Some r ->
                attached_as RSPAMD_ARCHIVE_7ZIP buf cd_filename (sz_outcome r))
  /\ attached_as RSPAMD_ARCHIVE_GZIP buf cd_filename
       (rspamd_archive_process_gzip buf cd_filename).
Proof.
  unfold attached_as. split; [|split; [|split]].
  - intros o Hp arch ->. apply zip_built in Hp. apply built_attached_as, Hp.
  - intros o Hp arch ->. apply rar_built in Hp. apply built_attached_as, Hp.
  - intros r Hp arch Ha. destruct (sz_built _ _ _ _ Hp Ha) as [Hh _]. exact Hh.
  - intros arch Hp. apply gzip_built in Hp. apply built_attached_as, Hp.
Qed.

(** On every archive a reader attaches, the flag that says the archive
    has obfuscated file names is set exactly when one of its entries is
    flagged as obfuscated; on an archive the 7-Zip reader attaches neither
    the flag nor any entry says so. *)
Theorem readers_flag_obfuscated_archives (fuel : nat) (buf : list byte)
  (cd_filename : option (list byte)) :
  (forall o, rspamd_archive_process_zip buf cd_filename = Some o ->
             attaches obfuscated_flag_accurate o)
  /\ (forall o, rspamd_archive_process_rar fuel buf cd_filename = Some o ->
                attaches obfuscated_flag_accurate o)
  /\ (forall r, rspamd_archive_process_7zip buf cd_filename = Some r ->
                attaches (fun a => arch_has_obfuscated a = false
                                   /\ existsb file_obfuscated (files a) = false)
                  (sz_outcome r))
  /\ attaches obfuscated_flag_accurate (rspamd_archive_process_gzip buf cd_filename).
Proof.
  unfold attaches. split; [|split; [|split]].
  - intros o Hp arch ->. apply zip_built in Hp as [Hb _]. eapply built_obfuscated, Hb.
  - intros o Hp arch ->. apply rar_built in Hp as [Hb _]. eapply built_obfuscated, Hb.
  - intros r Hp arch Ha. destruct (sz_built _ _ _ _ Hp Ha) as (_ & Ho & Hf).
    split; assumption.
  - intros arch Hp. apply gzip_built in Hp as [Hb _]. eapply built_obfuscated, Hb.
Qed.

(** ** The dispatcher *)

Lemma part_after_cases (t : rspamd_archive_type) (part part' : rspamd_mime_part)
  (o : option read_outcome) :
  (forall arch, o = Some (Attached arch) ->
     (arch_type arch = t /\ archive_name arch = part_cd part
      /\ arch_size arch = len (parsed_data part))
     /\ obfuscated_flag_accurate arch) ->
  part_after part o = Done part' ->
  part' = part
  \/ exists arch,
       (arch_type arch = t /\ archive_name arch = part_cd part
        /\ arch_size arch = len (parsed_data part) /\ obfuscated_flag_accurate arch)
       /\ part' = set_part_type part (PartArchive (Some arch)).
Proof.
  intros Ho. destruct o as [[d|arch|]|]; cbn; try discriminate.
  - intros [= <-]. left. reflexivity.
  - intros [= <-]. right. exists arch. specialize (Ho arch eq_refl). tauto.
Qed.

Lemma archives_run_reader_cases (fuel : nat) (part part' : rspamd_mime_part) :
  archives_run_reader fuel part = Done part' ->
  part' = part
  \/ exists ext arch,
       detected_ext part = Some ext
       /\ g_ascii_strcasecmp ext (rspamd_archive_type_str (arch_type arch)) = 0
       /\ archive_name arch = part_cd part
       /\ arch_size arch = len (parsed_data part)
       /\ obfuscated_flag_accurate arch
       /\ part' = set_part_type part (PartArchive (Some arch)).
Proof.
  unfold archives_run_reader.
  destruct (detected_ext part) as [ext|]; [|intros [= <-]; left; reflexivity].
  assert (Hfin : forall t,
    g_ascii_strcasecmp ext (rspamd_archive_type_str t) = 0 ->
    forall o,
      (forall arch, o = Some (Attached arch) ->
         (arch_type arch = t /\ archive_name arch = part_cd part
          /\ arch_size arch = len (parsed_data part))
         /\ obfuscated_flag_accurate arch) ->
      part_after part o = Done part' ->
      part' = part
      \/ exists ext0 arch,
           Some ext = Some ext0
           /\ g_ascii_strcasecmp ext0 (rspamd_archive_type_str (arch_type arch)) = 0
           /\ archive_name arch = part_cd part
           /\ arch_size arch = len (parsed_data part)
           /\ obfuscated_flag_accurate arch
           /\ part' = set_part_type part (PartArchive (Some arch))).
  { intros t Ht o Ho Hp. destruct (part_after_cases t _ _ _ Ho Hp) as [->|[arch [Ha ->]]].
    - left. reflexivity.
    - right. exists ext, arch. destruct Ha as (Hty & Hn & Hs & Hob). rewrite Hty. auto 8. }
  destruct (g_ascii_strcasecmp ext ext_zip =? 0) eqn:Ez.
  { apply Z.eqb_eq in Ez. apply (Hfin RSPAMD_ARCHIVE_ZIP Ez).
    intros arch Ha. apply zip_built in Ha.
    split; [apply built_attached_as, Ha | eapply built_obfuscated, Ha]. }
  destruct (g_ascii_strcasecmp ext ext_rar =? 0) eqn:Er.
  { apply Z.eqb_eq in Er. apply (Hfin RSPAMD_ARCHIVE_RAR Er).
    intros arch Ha. apply rar_built in Ha.
    split; [apply built_attached_as, Ha | eapply built_obfuscated, Ha]. }
  destruct (g_ascii_strcasecmp ext ext_7z =? 0) eqn:E7.
  { apply Z.eqb_eq in E7. apply (Hfin RSPAMD_ARCHIVE_7ZIP E7).
    intros arch Ha.
    destruct (rspamd_archive_process_7zip _ _) as [r|] eqn:Hp; [|discriminate].
    cbn in Ha. injection Ha as Ha.
    destruct (sz_built _ _ _ _ Hp Ha) as (Hh & Ho & Hf).
    split; [exact Hh | unfold obfuscated_flag_accurate; congruence]. }
  destruct (g_ascii_strcasecmp ext ext_gz =? 0) eqn:Eg.
  { apply Z.eqb_eq in Eg. apply (Hfin RSPAMD_ARCHIVE_GZIP Eg).
    intros arch [= Ha]. apply gzip_built in Ha.
    split; [apply built_attached_as, Ha | eapply built_obfuscated, Ha]. }
  intros [= <-]. left. reflexivity.
Qed.

Lemma archives_process_part_cases (fuel : nat) (part part' : rspamd_mime_part) :
  archives_process_part fuel part = Done part' -> part_processed part part'.
Proof.
  unfold archives_process_part. cbv zeta.
  destruct (0 <? len (parsed_data part)) eqn:Hl; cbn [andb];
    [|intros [= <-]; left; reflexivity].
  destruct (part_type part) as [a|] eqn:Hk; cbn [negb];
    [intros [= <-]; left; reflexivity|].
  destruct (archives_run_reader fuel part) as [p1| |] eqn:Hr; try discriminate.
  intros [= <-].
  apply archives_run_reader_cases in Hr
    as [->|(ext & arch & He & Hc & Hn & Hs & Hob & ->)].
  - left. unfold archives_check_content_type. rewrite Hk.
    destruct (part_ct part); reflexivity.
  - right. exists arch. split.
    + unfold archive_detected. apply Z.ltb_lt in Hl. eauto 10.
    + unfold archive_found, archives_check_content_type.
      destruct part as [[ct|] cd data k e]; cbn; [|auto 6].
      destruct (ct_text ct && negb (ct_missing ct)); cbn; auto 6.
Qed.

(** [rspamd_archives_process] hands back the parts of the message in
    their order, each one either as it was, or as an archive part: the part
    had data, was no archive before and had a detected extension that is,
    without regard to case, the name of the archive's type; the archive
    carries the part's file name and length; and nothing else of the part
    changed but the broken flag of a text content type that was not
    missing. *)
Theorem rspamd_archives_process_parts (fuel : nat)
  (parts parts' : list rspamd_mime_part) :
  rspamd_archives_process fuel parts = Done parts' ->
  Forall2 part_processed parts parts'.
Proof.
  revert parts'. induction parts as [|part rest IH]; intros parts';
    cbn [rspamd_archives_process].
  - intros [= <-]. constructor.
  - destruct (archives_process_part fuel part) as [p1| |] eqn:Hp; try discriminate.
    destruct (rspamd_archives_process fuel rest) as [r1| |]; try discriminate.
    intros [= <-]. constructor;
      [apply (archives_process_part_cases fuel), Hp | apply IH; reflexivity].
Qed.

Lemma archives_process_part_again (fuel : nat) (part part' : rspamd_mime_part) :
  archives_process_part fuel part = Done part' ->
  archives_process_part fuel part' = Done part'.
Proof.
  intros Hp. pose proof Hp as Hc. apply archives_process_part_cases in Hc.
  destruct Hc as [->|(arch & _ & Hk & _)]; [exact Hp|].
  unfold archives_process_part. rewrite Hk. cbn. rewrite andb_false_r. reflexivity.
Qed.

(** A second pass of [rspamd_archives_process] over the parts the
    first pass handed back changes nothing: a part that has an archive
    attached is not parsed again. *)
Theorem rspamd_archives_process_twice (fuel : nat)
  (parts parts' : list rspamd_mime_part) :
  rspamd_archives_process fuel parts = Done parts' ->
  rspamd_archives_process fuel parts' = Done parts'.
Proof.
  revert parts'. induction parts as [|part rest IH]; intros parts';
    cbn [rspamd_archives_process].
  - intros [= <-]. reflexivity.
  - destruct (archives_process_part fuel part) as [p1| |] eqn:Hp; try discriminate.
    destruct (rspamd_archives_process fuel rest) as [r1| |]; try discriminate.
    intros [= <-]. cbn [rspamd_archives_process].
    rewrite (archives_process_part_again _ _ _ Hp), (IH r1 eq_refl). reflexivity.
Qed.

End Readers.

(** The dispatcher at [four_parts]: the gzip part and the RAR part come
    back as archive parts, the other two as they were. *)
Lemma rspamd_archives_process_parts_witness :
  Forall2 part_processed four_parts four_parts_processed.
Proof.
  apply (@rspamd_archives_process_parts x86_64_zeroed no_libarchive ascii_charsets
           38 four_parts four_parts_processed).
  vm_compute. reflexivity.
Defined.

(** The second pass at the outcome of the first over [four_parts]. *)
Lemma rspamd_archives_process_twice_witness :
  @rspamd_archives_process x86_64_zeroed no_libarchive ascii_charsets
    38 four_parts_processed = Done four_parts_processed.
Proof.
  apply (@rspamd_archives_process_twice x86_64_zeroed no_libarchive ascii_charsets
           38 four_parts four_parts_processed).
  vm_compute. reflexivity.
Defined.
(** * The detection by magic, the envelope writer, and the small decoders *)

(** When a magic is given, [rspamd_archive_cheat_detect] says yes
    exactly when the part is longer than the magic and starts with it:
    neither the content type nor the file name of the part has any say. *)
Theorem cheat_detect_magic_decides `{StrUtil} (part : rspamd_mime_part)
  (str magic : list byte) :
  rspamd_archive_cheat_detect part str (Some magic)
  = magic_matches (parsed_data part) magic.
Proof.
  unfold rspamd_archive_cheat_detect. cbv zeta.
  destruct (part_ct part) as [ct|].
  - destruct (_ && _); [reflexivity|].
    destruct (part_cd part) as [fname|]; [|reflexivity].
    destruct (_ && _); reflexivity.
  - destruct (part_cd part) as [fname|]; [|reflexivity].
    destruct (_ && _); reflexivity.
Qed.

Lemma len_fit (n : nat) (l : list byte) : len (fit n l) = Z.of_nat n.
Proof.
  unfold fit, len. rewrite length_firstn, length_app, repeat_length. lia.
Qed.

(** What [rspamd_archives_encrypt_aes256_cbc] returns on success is
    the magic RZAE0001, a salt of 16 bytes, an IV of 16 bytes and a
    ciphertext of at most the length of the input and one cipher block; the
    password was not empty, and the cipher was set up with that IV and the
    key PBKDF2 derives from the password and that salt. *)
Theorem envelope_layout `{EnvelopeCrypto} (input : list byte)
  (password : option (list byte)) (out : list byte) :
  rspamd_archives_encrypt_aes256_cbc input password = EnvOk out ->
  exists pw salt iv key ct,
    password = Some pw /\ pw <> []
    /\ len salt = 16 /\ len iv = 16
    /\ env_PBKDF2 pw (s32 (len pw)) salt = Some key
    /\ env_EncryptInit (fit 32 key) iv = true
    /\ len ct <= len input + 16
    /\ out = env_magic ++ salt ++ iv ++ ct.
Proof.
  unfold rspamd_archives_encrypt_aes256_cbc.
  destruct password as [[|c pw]|]; try discriminate. cbv zeta.
  destruct env_RAND_salt as [salt|]; [|discriminate].
  destruct env_RAND_iv as [iv|]; [|discriminate].
  destruct (env_PBKDF2 _ _ _) as [key|] eqn:Hk; [|discriminate].
  destruct env_CTX_new; [|discriminate]. cbn [negb].
  destruct (env_EncryptInit _ _) eqn:Hi; [|discriminate]. cbn [negb].
  destruct (env_EncryptUpdate _ _ _ _) as [upd|]; [|discriminate].
  destruct (Z.ltb_spec (len input + aes_block_size) (len upd)); [discriminate|].
  destruct (env_EncryptFinal _ _ _ _) as [fin|]; [|discriminate].
  destruct (Z.ltb_spec (len input + aes_block_size) (len upd + len fin)); [discriminate|].
  intros [= <-].
  exists (c :: pw), (fit 16 salt), (fit 16 iv), key, (upd ++ fin).
  rewrite !len_fit, len_app. unfold aes_block_size in *.
  repeat split; try assumption; try lia; try discriminate.
  rewrite <- !app_assoc. reflexivity.
Qed.

(** The envelope of "hello" under the password "pw". *)
Lemma envelope_layout_witness :
  exists pw salt iv key ct,
    Some password_pw = Some pw /\ pw <> []
    /\ len salt = 16 /\ len iv = 16
    /\ @env_PBKDF2 demo_envelope pw (s32 (len pw)) salt = Some key
    /\ @env_EncryptInit demo_envelope (fit 32 key) iv = true
    /\ len ct <= len data_hello + 16
    /\ envelope_hello = env_magic ++ salt ++ iv ++ ct.
Proof.
  apply (@envelope_layout demo_envelope data_hello (Some password_pw) envelope_hello).
  reflexivity.
Defined.

(** ** Variable-length integers *)

Lemma lor_u64 (a b : Z) : 0 <= a < 2 ^ 64 -> 0 <= b < 2 ^ 64 -> 0 <= Z.lor a b < 2 ^ 64.
Proof.
  intros Ha Hb. split; [apply Z.lor_nonneg; lia|].
  destruct (Z.eq_dec (Z.lor a b) 0) as [->|Hz]; [lia|].
  apply Z.log2_lt_pow2; [pose proof (Z.lor_nonneg a b); lia|].
  rewrite Z.log2_lor by lia.
  apply Z.max_lub_lt.
  - destruct (Z.eq_dec a 0) as [->|]; [cbn; lia|]. apply Z.log2_lt_pow2; lia.
  - destruct (Z.eq_dec b 0) as [->|]; [cbn; lia|]. apply Z.log2_lt_pow2; lia.
Qed.

Lemma u64_range (x : Z) : 0 <= u64 x < 2 ^ 64.
Proof. unfold u64. apply Z.mod_pos_bound. lia. Qed.

Lemma rar_vint_exit_value (remain shift t nread v r : Z) :
  rar_vint_exit remain shift t nread = VintOk v r ->
  v = t /\ r = nread /\ shift <= 64.
Proof.
  unfold rar_vint_exit. destruct (remain =? 0); [discriminate|].
  destruct (Z.ltb_spec 64 shift); [discriminate|]. cbn.
  intros [= <- <-]. lia.
Qed.

Lemma rar_vint_loop_value (mem : list byte) :
  forall remain shift t nread v r,
    rar_vint_loop mem remain shift t nread = VintOk v r ->
    0 <= t < 2 ^ 64 -> shift = 7 * nread ->
    0 <= v < 2 ^ 64 /\ r <= 9.
Proof.
  induction mem as [|b mem IH]; intros remain shift t nread v r; cbn [rar_vint_loop];
    destruct (0 <? remain); destruct (Z.leb_spec shift 57); cbn [andb];
    try discriminate;
    try (intros Hx Ht Hs; apply rar_vint_exit_value in Hx; lia).
  pose proof (u64_range (Z.shiftl (Z.land (u8 b) 127) shift)) as Hu.
  destruct (Z.testbit (u8 b) 7).
  - intros Hx Ht Hs. apply IH in Hx; [exact Hx | apply lor_u64; lia | lia].
  - intros Hx Ht Hs. apply rar_vint_exit_value in Hx as (-> & -> & _).
    split; [apply lor_u64; lia | lia].
Qed.

(** A RAR variable-length integer that is decoded took at least one
    byte, no more than the [remain] bytes allowed and no more than nine, and
    its value fits 64 bits. *)
Theorem rar_vint_reads_within (start : list byte) (remain v r : Z) :
  rspamd_archive_rar_read_vint start remain = VintOk v r ->
  0 <= remain ->
  1 <= r <= Z.min remain 9 /\ 0 <= v < 2 ^ 64.
Proof.
  intros Hx Hr. pose proof (rar_read_vint_bounds _ _ _ _ Hx Hr) as Hb.
  unfold rspamd_archive_rar_read_vint in Hx.
  apply rar_vint_loop_value in Hx; lia.
Qed.

(** Two bytes that hold the value 300, out of three. *)
Lemma rar_vint_reads_within_witness :
  rspamd_archive_rar_read_vint [xac; x02; x00] 3 = VintOk 300 2
  /\ 1 <= 2 <= Z.min 3 9 /\ 0 <= 300 < 2 ^ 64.
Proof.
  split; [reflexivity|].
  apply (rar_vint_reads_within [xac; x02; x00] 3 300 2); [reflexivity | lia].
Defined.

Lemma le_bytes_bound (bs : list byte) : le_bytes bs < 2 ^ (8 * len bs).
Proof.
  induction bs as [|b bs IH]; cbn [le_bytes]; [cbn; lia|].
  rewrite len_cons. pose proof (u8_range b). pose proof (len_nonneg bs).
  pose proof (le_bytes_nonneg bs).
  replace (8 * (1 + len bs)) with (8 + 8 * len bs) by lia.
  rewrite Z.pow_add_r by lia. nia.
Qed.

Lemma sz_vint_loop_nread `{Platform} (cur_bit : nat) (intlen t : Z)
  (rest : list byte) (remain v r : Z) :
  sz_vint_loop cur_bit intlen t rest remain = VintOk v r ->
  r <= intlen + Z.of_nat cur_bit /\ v < 2 ^ 64.
Proof.
  revert intlen. induction cur_bit as [|n IH]; intros intlen; cbn [sz_vint_loop].
  - discriminate.
  - destruct (_ && _).
    + intros [= <- <-]. split; [lia | apply u64_range].
    + intros Hx. apply IH in Hx. lia.
Qed.

(** A 7-Zip variable-length integer that is decoded took at least one
    byte, no more than the [remain] bytes allowed and no more than nine, and
    its value fits 64 bits. *)
Theorem sz_vint_reads_within `{Platform} (start : list byte) (remain v r : Z) :
  rspamd_archive_7zip_read_vint start remain = VintOk v r ->
  0 <= remain ->
  1 <= r <= Z.min remain 9 /\ 0 <= v < 2 ^ 64.
Proof.
  intros Hx Hr. pose proof (sz_read_vint_bounds _ _ _ _ Hx Hr) as [Hb Hv].
  unfold rspamd_archive_7zip_read_vint in Hx.
  destruct (remain =? 0); [discriminate|].
  destruct start as [|b rest]; [discriminate|].
  destruct (negb (isset (u8 b) 7)).
  - injection Hx as <- <-. pose proof (u8_range b). lia.
  - destruct (u8 b =? 255).
    + destruct (9 <=? remain); [|discriminate].
      pose proof (le_bytes_bound (firstn 8 rest)) as Hl.
      assert (Hn : len (firstn 8 rest) <= 8)
        by (unfold len; rewrite length_firstn; lia).
      assert (2 ^ (8 * len (firstn 8 rest)) <= 2 ^ 64)
        by (apply Z.pow_le_mono_r; lia).
      set (fr := firstn 8 rest) in *. clearbody fr.
      injection Hx as <- <-. lia.
    + apply sz_vint_loop_nread in Hx. lia.
Qed.

(** The two bytes 0x81 0x2C, out of three. *)
Lemma sz_vint_reads_within_witness :
  @rspamd_archive_7zip_read_vint x86_64_zeroed [x81; x2c; x00] 3 = VintOk 300 2
  /\ 1 <= 2 <= Z.min 3 9 /\ 0 <= 300 < 2 ^ 64.
Proof.
  split; [reflexivity|].
  apply (@sz_vint_reads_within x86_64_zeroed [x81; x2c; x00] 3 300 2);
    [reflexivity | lia].
Defined.

(** ** UCS-2 names of the 7-Zip reader *)

Lemma U8_APPEND_ascii (b : byte) : u8 b < 128 -> U8_APPEND (u8 b) = Some [b].
Proof.
  intros Hb. unfold U8_APPEND.
  destruct (Z.leb_spec (u8 b) 127); [|lia]. now rewrite byte_of_Z_u8.
Qed.

Lemma U16_IS_LEAD_ascii (c : Z) : 0 <= c < 128 -> U16_IS_LEAD c = false.
Proof.
  intros Hc. unfold U16_IS_LEAD.
  replace (Z.land c 4294966272) with 0; [reflexivity|].
  symmetry. apply Z.bits_inj'. intros n Hn. rewrite Z.land_spec, Z.bits_0.
  destruct (Z.ltb_spec n 7).
  - replace (Z.testbit 4294966272 n) with false; [apply andb_false_r|].
    assert (Hcases : n = 0 \/ n = 1 \/ n = 2 \/ n = 3 \/ n = 4 \/ n = 5 \/ n = 6) by lia.
    destruct Hcases as [->|[->|[->|[->|[->|[->| ->]]]]]]; reflexivity.
  - rewrite (Z.bits_above_log2 c n); [reflexivity | lia |].
    destruct (Z.eq_dec c 0) as [->|]; [cbn; lia|].
    apply Z.lt_le_trans with 7; [apply Z.log2_lt_pow2; lia | lia].
Qed.

Lemma ascii_ucs2_converts (name : list byte) :
  Forall (fun b => 0 < u8 b < 128) name ->
  rspamd_7zip_ucs2_to_utf8 (ascii_as_ucs2 name) = Some name.
Proof.
  unfold rspamd_7zip_ucs2_to_utf8, ascii_as_ucs2.
  induction 1 as [|b rest Hb Hrest IH]; [reflexivity|].
  cbn [flat_map app ucs2_units].
  change (u8 x00) with 0. rewrite Z.mul_0_l, Z.add_0_r.
  cbn [ucs2_to_utf8_units].
  destruct (ucs2_units (flat_map (fun b0 => [b0; x00]) rest)) as [|c2 rest2] eqn:Hu.
  - destruct (Z.ltb_spec 0 (u8 b)); [|lia].
    rewrite U8_APPEND_ascii by lia.
    cbn in IH. injection IH as <-. reflexivity.
  - rewrite U16_IS_LEAD_ascii by lia. cbn [andb].
    destruct (Z.ltb_spec 0 (u8 b)); [|lia].
    rewrite U8_APPEND_ascii by lia.
    rewrite IH. reflexivity.
Qed.

(** A name of ASCII characters other than NUL, stored as UTF-16LE,
    comes out of [rspamd_7zip_ucs2_to_utf8] as the same ASCII bytes. *)
Theorem ucs2_to_utf8_ascii (name : list byte) :
  Forall (fun b => 0 < u8 b < 128) name ->
  rspamd_7zip_ucs2_to_utf8 (ascii_as_ucs2 name) = Some name.
Proof. intros Hn. apply ascii_ucs2_converts. exact Hn. Qed.

(** The name a.txt. *)
Lemma ucs2_to_utf8_ascii_witness :
  rspamd_7zip_ucs2_to_utf8 (ascii_as_ucs2 name_a_txt) = Some name_a_txt.
Proof.
  apply (ucs2_to_utf8_ascii name_a_txt).
  repeat constructor.
Defined.

(** ** The gzip reader *)

(** The archive the gzip reader attaches holds exactly one entry,
    without sizes and not marked as encrypted, and the archive is marked as
    encrypted exactly when bit 5 of the FLG byte of the stream is set. *)
Theorem gzip_attaches_one_entry `{Charsets} (buf : list byte)
  (cd_filename : option (list byte)) (arch : rspamd_archive) :
  rspamd_archive_process_gzip buf cd_filename = Attached arch ->
  arch_encrypted arch = has_bits (peek buf 3) 32
  /\ exists f, files arch = [f]
              /\ compressed_size f = 0 /\ uncompressed_size f = 0
              /\ file_encrypted f = false.
Proof.
  unfold rspamd_archive_process_gzip, gzip_stored_name, gzip_attach, RAR_READ_UINT16,
    bail_if, walk_bind.
  intros Ha. cbv zeta in Ha. change (Z.shiftl 1 5) with 32 in Ha.
  split_cases;
    (split; [destruct (has_bits (peek buf 3) 32); reflexivity|]);
    eexists; (split; [destruct (has_bits (peek buf 3) 32); reflexivity|]);
    cbn; auto.
Qed.

(** The stream [gz_no_name] in a part named foo.gz. *)
Lemma gzip_attaches_one_entry_witness :
  arch_encrypted gz_foo_archive = has_bits (peek gz_no_name 3) 32
  /\ exists f, files gz_foo_archive = [f]
              /\ compressed_size f = 0 /\ uncompressed_size f = 0
              /\ file_encrypted f = false.
Proof.
  apply (@gzip_attaches_one_entry ascii_charsets gz_no_name (Some name_foo_gz)
           gz_foo_archive).
  reflexivity.
Defined.

(** ** DOS time stamps of the ZIP writer *)

Lemma in_range_nat (x : Z) (n : nat) :
  0 <= x < Z.of_nat n -> In (Z.to_nat x) (seq 0 n) /\ Z.of_nat (Z.to_nat x) = x.
Proof. intros Hx. split; [apply in_seq; lia | lia]. Qed.

Lemma dos_time_checked :
  forallb (fun h => forallb (fun m => forallb (fun s =>
    let h := Z.of_nat h in let m := Z.of_nat m in let s := Z.of_nat s in
    let d := u16 (Z.lor (Z.lor (Z.shiftl (u16 (Z.land h 0x1f)) 11)
                               (Z.shiftl (u16 (Z.land m 0x3f)) 5))
                        (u16 (Z.land (Z.quot s 2) 0x1f))) in
    (Z.shiftr d 11 =? h) && (Z.land (Z.shiftr d 5) 63 =? m) && (Z.land d 31 =? s / 2))
    (seq 0 61)) (seq 0 60)) (seq 0 24) = true.
Proof. vm_compute. reflexivity. Qed.

Lemma dos_date_checked :
  forallb (fun y => forallb (fun m => forallb (fun d =>
    let y := Z.of_nat y in let m := Z.of_nat m in let d := Z.of_nat d in
    let v := u16 (Z.lor (Z.lor (Z.shiftl (u16 (Z.land y 0x7f)) 9)
                               (Z.shiftl (u16 (Z.land (m + 1) 0x0f)) 5))
                        (u16 (Z.land d 0x1f))) in
    (Z.shiftr v 9 =? y) && (Z.land (Z.shiftr v 5) 15 =? m + 1) && (Z.land v 31 =? d))
    (seq 0 32)) (seq 0 12)) (seq 0 128) = true.
Proof. vm_compute. reflexivity. Qed.

(** For a local time with hour, minute and second in their ranges
    (a leap second included), the DOS time [rspamd_zip_time_dos] packs
    holds the hour in bits 11 to 15, the minute in bits 5 to 10 and half the
    second, rounded down, in bits 0 to 4. *)
Theorem zip_time_dos_fields `{Clock} (t : Z) (lt : tm) :
  localtime_r (if t =? 0 then time_now else t) = lt ->
  0 <= tm_hour lt < 24 -> 0 <= tm_min lt < 60 -> 0 <= tm_sec lt <= 60 ->
  Z.shiftr (rspamd_zip_time_dos t) 11 = tm_hour lt
  /\ Z.land (Z.shiftr (rspamd_zip_time_dos t) 5) 63 = tm_min lt
  /\ Z.land (rspamd_zip_time_dos t) 31 = tm_sec lt / 2.
Proof.
  intros Hlt Hh Hm Hs. unfold rspamd_zip_time_dos. cbv zeta. rewrite Hlt.
  destruct (in_range_nat (tm_hour lt) 24 ltac:(lia)) as [Ih Eh].
  destruct (in_range_nat (tm_min lt) 60 ltac:(lia)) as [Im Em].
  destruct (in_range_nat (tm_sec lt) 61 ltac:(lia)) as [Is Es].
  pose proof dos_time_checked as Hc.
  rewrite forallb_forall in Hc. specialize (Hc _ Ih).
  rewrite forallb_forall in Hc. specialize (Hc _ Im).
  rewrite forallb_forall in Hc. specialize (Hc _ Is).
  cbv zeta in Hc. rewrite Eh, Em, Es in Hc.
  apply andb_prop in Hc as [Hc H3]. apply andb_prop in Hc as [H1 H2].
  apply Z.eqb_eq in H1, H2, H3. auto.
Qed.

(** The time 23:59:58 of [clock_2024]. *)
Lemma zip_time_dos_fields_witness :
  Z.shiftr (@rspamd_zip_time_dos clock_2024 0) 11 = 23
  /\ Z.land (Z.shiftr (@rspamd_zip_time_dos clock_2024 0) 5) 63 = 59
  /\ Z.land (@rspamd_zip_time_dos clock_2024 0) 31 = 58 / 2.
Proof.
  apply (@zip_time_dos_fields clock_2024 0 (mk_tm 58 59 23 29 1 124));
    [reflexivity | cbn; lia ..].
Defined.

(** For a local date up to the year 2107, the DOS date
    [rspamd_zip_date_dos] packs holds the years since 1980 in bits 9 to 15
    (none for a year before 1980), the month counted from 1 in bits 5 to 8
    and the day of the month in bits 0 to 4. *)
Theorem zip_date_dos_fields `{Clock} (t : Z) (lt : tm) :
  localtime_r (if t =? 0 then time_now else t) = lt ->
  tm_year lt + 1900 <= 2107 -> 0 <= tm_mon lt < 12 -> 1 <= tm_mday lt <= 31 ->
  Z.shiftr (rspamd_zip_date_dos t) 9 = Z.max 1980 (tm_year lt + 1900) - 1980
  /\ Z.land (Z.shiftr (rspamd_zip_date_dos t) 5) 15 = tm_mon lt + 1
  /\ Z.land (rspamd_zip_date_dos t) 31 = tm_mday lt.
Proof.
  intros Hlt Hy Hm Hd. unfold rspamd_zip_date_dos. cbv zeta. rewrite Hlt.
  set (year := if tm_year lt + 1900 <? 1980 then 1980 else tm_year lt + 1900).
  assert (Hyear : year = Z.max 1980 (tm_year lt + 1900))
    by (subst year; destruct (Z.ltb_spec (tm_year lt + 1900) 1980); lia).
  destruct (in_range_nat (year - 1980) 128 ltac:(lia)) as [Iy Ey].
  destruct (in_range_nat (tm_mon lt) 12 ltac:(lia)) as [Im Em].
  destruct (in_range_nat (tm_mday lt) 32 ltac:(lia)) as [Id Ed].
  pose proof dos_date_checked as Hc.
  rewrite forallb_forall in Hc. specialize (Hc _ Iy).
  rewrite forallb_forall in Hc. specialize (Hc _ Im).
  rewrite forallb_forall in Hc. specialize (Hc _ Id).
  cbv zeta in Hc. rewrite Ey, Em, Ed in Hc.
  apply andb_prop in Hc as [Hc H3]. apply andb_prop in Hc as [H1 H2].
  apply Z.eqb_eq in H1, H2, H3. rewrite <- Hyear. auto.
Qed.

(** The date 2024-02-29 of [clock_2024]. *)
Lemma zip_date_dos_fields_witness :
  Z.shiftr (@rspamd_zip_date_dos clock_2024 0) 9 = Z.max 1980 (124 + 1900) - 1980
  /\ Z.land (Z.shiftr (@rspamd_zip_date_dos clock_2024 0) 5) 15 = 1 + 1
  /\ Z.land (@rspamd_zip_date_dos clock_2024 0) 31 = 29.
Proof.
  apply (@zip_date_dos_fields clock_2024 0 (mk_tm 58 59 23 29 1 124));
    [reflexivity | cbn; lia ..].
Defined.

(** ** The normaliser without a charset *)

Lemma byte_suspicious_control (b : byte) : byte_suspicious b = (u8 b <? 0x20).
Proof. destruct b; reflexivity. Qed.

Lemma sanitize_byte_graph (b : byte) : g_ascii_isgraph (u8 (sanitize_byte b)) = true.
Proof.
  unfold sanitize_byte. destruct (g_ascii_isgraph (u8 b)) eqn:Hg; [exact Hg | reflexivity].
Qed.

(** When no charset is detected for a file name, the normaliser
    stores a name of the same length in which every byte is a printable
    ASCII character: the bytes that are printable are kept and every other
    byte is replaced by a question mark. The name is flagged as obfuscated
    exactly when one of its bytes is below 0x20; a space, DEL or a byte
    above 0x7f is replaced without the flag. *)
Theorem try_utf_without_charset `{Charsets} (name : list byte) :
  rspamd_mime_charset_find_by_content name = None ->
  fst (rspamd_archive_file_try_utf name)
  = map (fun b => if g_ascii_isgraph (u8 b) then b else x3f) name
  /\ len (fst (rspamd_archive_file_try_utf name)) = len name
  /\ Forall (fun b => g_ascii_isgraph (u8 b) = true) (fst (rspamd_archive_file_try_utf name))
  /\ snd (rspamd_archive_file_try_utf name) = existsb (fun b => u8 b <? 0x20) name.
Proof.
  intros Hcs. unfold rspamd_archive_file_try_utf. rewrite Hcs. cbn [fst snd].
  split; [reflexivity|].
  split; [unfold len; now rewrite length_map|].
  split.
  - apply Forall_forall. intros b Hb. apply in_map_iff in Hb as (b0 & <- & _).
    apply sanitize_byte_graph.
  - clear Hcs. induction name as [|b rest IH]; [reflexivity|].
    cbn [existsb]. rewrite byte_suspicious_control, IH. reflexivity.
Qed.

(** The name "a", space, 0x01, DEL, with a detector that recognises
    nothing. *)
Lemma try_utf_without_charset_witness :
  fst (@rspamd_archive_file_try_utf no_charsets [x61; x20; x01; x7f])
  = map (fun b => if g_ascii_isgraph (u8 b) then b else x3f) [x61; x20; x01; x7f]
  /\ len (fst (@rspamd_archive_file_try_utf no_charsets [x61; x20; x01; x7f]))
     = len [x61; x20; x01; x7f]
  /\ Forall (fun b => g_ascii_isgraph (u8 b) = true)
       (fst (@rspamd_archive_file_try_utf no_charsets [x61; x20; x01; x7f]))
  /\ snd (@rspamd_archive_file_try_utf no_charsets [x61; x20; x01; x7f])
     = existsb (fun b => u8 b <? 0x20) [x61; x20; x01; x7f].
Proof.
  apply (@try_utf_without_charset no_charsets [x61; x20; x01; x7f]).
  reflexivity.
Defined.
(** * Writing an encrypted archive and reading it back *)

Section ZipRoundTripAes.

Context `{Clock} `{Zlib} `{OpenSSL} `{Charsets}.

(** The central directory record an encrypted write appends. *)
Lemma zip_write_entry_aes_cd (i : nat) (pw : list byte) (f : rspamd_zip_file_spec)
  (name zip cd zip' cd' : list byte) :
  zip_write_entry_aes i pw f name zip cd = WOk (zip', cd') ->
  exists actual csize, cd' = cd ++ aes_cd_record f name actual csize (len zip).
Proof.
  unfold zip_write_entry_aes. intros Hw. write_ok Hw.
  inversion Hw as [[Hz Hc]]. clear Hw Hz.
  eexists _, _. unfold rspamd_zip_write_extra_aes, rspamd_zip_write_central_header,
    aes_cd_record.
  rewrite <- !app_assoc. reflexivity.
Qed.

Lemma len_aes_cd_record (f : rspamd_zip_file_spec) (name : list byte)
  (actual csize off : Z) :
  len (aes_cd_record f name actual csize off) = 46 + len name + 11.
Proof.
  unfold aes_cd_record.
  rewrite !len_app, len_central_header_fixed, len_extra_aes. lia.
Qed.

Lemma zip_write_entries_aes_cd (c : byte) (pw : list byte)
  (files : list rspamd_zip_file_spec) :
  forall i zip cd zip' cd',
    zip_write_entries i (Some (c :: pw)) files zip cd = WOk (zip', cd') ->
    exists local cds,
      zip' = zip ++ local /\ cd' = cd ++ concat cds /\ aes_cd_records files cds.
Proof.
  induction files as [|f files IH]; intros i zip cd zip' cd' Hw.
  - inversion Hw; subst. exists [], []. rewrite !app_nil_r.
    repeat split. constructor.
  - cbn [zip_write_entries] in Hw.
    destruct (rspamd_zip_validate_name (spec_name f)) eqn:Hv; [|discriminate].
    cbn [negb] in Hw.
    destruct (spec_name f) as [name|] eqn:Hname; [|discriminate].
    destruct (G_MAXUINT <? len (spec_data f)); [discriminate|].
    destruct (zip_write_entry_aes i (c :: pw) f name zip cd) as [[zip1 cd1]|e|] eqn:He;
      try discriminate.
    destruct (zip_write_entry_aes_extent _ _ _ _ _ _ _ _ He) as (rec & -> & _).
    destruct (zip_write_entry_aes_cd _ _ _ _ _ _ _ _ He) as (actual & csize & ->).
    destruct (IH _ _ _ _ _ Hw) as (local & cds & -> & -> & Hall).
    exists (rec ++ local), (aes_cd_record f name actual csize (len zip) :: cds).
    cbn [concat]. rewrite <- !app_assoc.
    repeat split.
    constructor; [|assumption]. now exists name, actual, csize, (len zip).
Qed.

(** The fields the reader loads from such a record. *)
Lemma aes_cd_record_fields (f : rspamd_zip_file_spec) (name r : list byte)
  (actual csize off : Z) :
  let rec := aes_cd_record f name actual csize off ++ r in
  sub rec 0 4 = cd_magic
  /\ le16 rec 8 = 2049
  /\ le32 rec 20 = u32 csize
  /\ le32 rec 24 = u32 (u32 (len (spec_data f)))
  /\ le16 rec 28 = u16 (u16 (len name))
  /\ le16 rec 30 = 11
  /\ le16 rec 32 = 0
  /\ sub rec 46 (len name) = name
  /\ le16 rec (46 + len name) = 0x9901
  /\ le16 rec (46 + len name + 2) = 7.
Proof.
  intros rec. subst rec. unfold aes_cd_record.
  set (hdr := central_header_fixed name 51 2049 99 (spec_mtime f) 0 csize
                (u32 (len (spec_data f))) off (spec_mode f) 11).
  set (ex := extra_aes 2 3 actual).
  assert (Hh : len hdr = 46) by reflexivity.
  pose proof (len_nonneg name) as Hn.
  split; [reflexivity|].
  split; [reflexivity|].
  split; [change (le32 ((hdr ++ name ++ ex) ++ r) 20) with (le32 (u32le csize ++ []) 0);
          apply le32_u32le|].
  split; [change (le32 ((hdr ++ name ++ ex) ++ r) 24)
            with (le32 (u32le (u32 (len (spec_data f))) ++ []) 0);
          apply le32_u32le|].
  split; [change (le16 ((hdr ++ name ++ ex) ++ r) 28)
            with (le16 (u16le (u16 (len name)) ++ []) 0);
          apply le16_u16le|].
  split; [reflexivity|].
  split; [reflexivity|].
  rewrite <- !app_assoc. rewrite <- Hh.
  split.
  { replace (len hdr) with (len hdr + 0) at 1 by lia.
    rewrite sub_app_r by lia. apply sub_prefix. }
  rewrite (app_assoc hdr name). rewrite <- len_app.
  split.
  - replace (len (hdr ++ name)) with (len (hdr ++ name) + 0) by lia.
    rewrite le16_app_r by lia. reflexivity.
  - rewrite le16_app_r by lia. reflexivity.
Qed.

(** The reader's step over one record of an encrypted write: the entry is
    marked as encrypted, and the AES extra field is walked over. *)
Lemma zip_cd_record_aes (f : rspamd_zip_file_spec) (name pre post : list byte)
  (actual csize off eocd : Z) (arch : rspamd_archive) :
  len name < 2 ^ 16 ->
  len (spec_data f) < 2 ^ 32 ->
  fst (rspamd_archive_file_try_utf name) = name ->
  len pre + (46 + len name + 11) <= eocd ->
  zip_cd_record (pre ++ aes_cd_record f name actual csize off ++ post)
    eocd (len pre) arch
  = Some (Go (len pre + (46 + len name + 11),
              add_file arch
                (mk_archive_file name (u32 csize) (len (spec_data f)) true
                   (snd (rspamd_archive_file_try_utf name))))).
Proof.
  intros Hn Hd Hfix Heocd.
  pose proof (len_nonneg name). pose proof (len_nonneg (spec_data f)).
  pose proof (len_nonneg pre).
  destruct (aes_cd_record_fields f name post actual csize off)
    as (Fm & Ffl & Fcs & Fus & Ffn & Fel & Fcl & Fname & Fid & Fsz).
  set (rec := aes_cd_record f name actual csize off ++ post) in *.
  unfold zip_cd_record, cd_basic_len.
  replace (sub (pre ++ rec) (len pre) 4) with (sub rec 0 4)
    by (rewrite <- (sub_app_r pre rec 0 4) by lia; f_equal; lia).
  rewrite !le16_app_r, !le32_app_r, sub_app_r by lia.
  rewrite Fm, Ffl, Fcs, Fus, Ffn, Fel, Fcl.
  rewrite (u16_small (len name)) by lia.
  rewrite (u16_small (len name)) by lia.
  rewrite (u32_small (len (spec_data f))) by lia.
  rewrite (u32_small (len (spec_data f))) by lia.
  rewrite Fname.
  destruct (Z.ltb_spec (eocd - len pre) 46); [lia|].
  replace (bytes_eqb cd_magic cd_magic) with true by reflexivity. cbn [negb orb].
  destruct (Z.ltb_spec eocd (len pre + len name + 0 + 11 + 46)); [lia|].
  destruct (rspamd_archive_file_try_utf name) as [n obf] eqn:Hutf.
  cbn [fst snd] in *. subst n.
  change (Z.to_nat 11) with 11%nat. cbn [zip_extra_walk].
  destruct (Z.ltb_spec (len pre + len name + 46 + 2 * 2) (len pre + len name + 46 + 11));
    [|lia].
  replace (len pre + len name + 46) with (len pre + (46 + len name)) by lia.
  replace (len pre + (46 + len name) + 2) with (len pre + (46 + len name + 2)) by lia.
  rewrite !le16_app_r by lia. rewrite Fid, Fsz.
  cbn [orb Z.eqb].
  destruct (Z.ltb_spec (len pre + (46 + len name) + (7 + 2 * 2) + 2 * 2)
              (len pre + (46 + len name) + 11)); [lia|].
  change (has_bits 2049 65) with true.
  do 3 f_equal. lia.
Qed.

(** The reader's walk over the central directory of an encrypted write. *)
Lemma zip_cd_walk_aes (files : list rspamd_zip_file_spec) (cds : list (list byte)) :
  aes_cd_records files cds ->
  Forall reads_back files ->
  forall pre post arch fuel,
    (length cds <= fuel)%nat ->
    exists entries,
      entries_match_encrypted files entries
      /\ zip_cd_walk fuel (pre ++ concat cds ++ post)
           (len pre + len (concat cds)) (len pre + len (concat cds)) (len pre) arch
         = Some (Attached (set_arch_size (fold_left add_file entries arch)
                             (len (pre ++ concat cds ++ post)))).
Proof.
  induction 1 as [|f cdrec files cds Hrec Hall IH];
    intros Hok pre post arch fuel Hfuel.
  - exists []. split; [constructor|].
    cbn [concat]. rewrite len_nil. apply zip_cd_walk_done. lia.
  - inversion Hok as [|? ? Hf Hok']; subst.
    destruct Hrec as (name & actual & csize & off & Hname & ->).
    destruct Hf as (name' & Hname' & Hn & Hd & Hfix).
    rewrite Hname in Hname'. inversion Hname'; subst name'. clear Hname'.
    destruct fuel as [|fuel]; [simpl in Hfuel; lia|].
    cbn [concat]. rewrite len_app, len_aes_cd_record.
    pose proof (len_nonneg name). pose proof (len_nonneg (concat cds)).
    pose proof (len_nonneg pre).
    cbn [zip_cd_walk].
    destruct (Z.ltb_spec (len pre) (len pre + (46 + len name + 11 + len (concat cds))));
      [|lia].
    rewrite <- app_assoc.
    rewrite zip_cd_record_aes by (assumption || lia).
    set (e := mk_archive_file name (u32 csize) (len (spec_data f)) true
                (snd (rspamd_archive_file_try_utf name))).
    destruct (IH Hok' (pre ++ aes_cd_record f name actual csize off) post
                (add_file arch e) fuel ltac:(simpl in Hfuel; lia))
      as (entries & Hm & Hw).
    exists (e :: entries). split.
    + constructor; [|assumption]. subst e. cbn. auto.
    + rewrite len_app, len_aes_cd_record in Hw.
      rewrite <- !app_assoc in Hw.
      replace (len pre + (46 + len name + 11) + len (concat cds))
        with (len pre + (46 + len name + 11 + len (concat cds))) in Hw by lia.
      exact Hw.
Qed.

Lemma aes_cd_records_count (files : list rspamd_zip_file_spec)
  (cds : list (list byte)) :
  aes_cd_records files cds ->
  (length cds <= length (concat cds))%nat /\ (files <> [] -> 57 <= len (concat cds)).
Proof.
  induction 1 as [|f cdrec files cds (name & m & cs & off & _ & ->) _ IH].
  - split; [reflexivity | congruence].
  - cbn [concat length]. rewrite len_app, length_app.
    pose proof (len_aes_cd_record f name m cs off) as Hl.
    pose proof (len_nonneg name). pose proof (len_nonneg (concat cds)).
    unfold len in *. lia.
Qed.

Lemma fold_add_file_files (es : list rspamd_archive_file) :
  forall a, files (fold_left add_file es a) = files a ++ es
            /\ arch_type (fold_left add_file es a) = arch_type a
            /\ arch_encrypted (fold_left add_file es a) = arch_encrypted a.
Proof.
  induction es as [|e es IH]; intros a; cbn [fold_left].
  - now rewrite app_nil_r.
  - destruct (IH (add_file a e)) as (-> & -> & ->). cbn. now rewrite <- app_assoc.
Qed.

(** An archive written under a non-empty password and shorter than
    4 GiB, of files whose names fit the 16-bit length field and pass the
    normaliser unchanged and whose data fit the 32-bit size field, is read
    back by the ZIP reader as one entry per file, in order, with the file's
    name and the length of its data as uncompressed size, every entry marked
    as encrypted and the archive itself not. *)
Theorem zip_write_read_round_trip_aes (specs : list rspamd_zip_file_spec)
  (password cdname : option (list byte)) (out : list byte) :
  use_aes password = true ->
  Forall reads_back specs ->
  rspamd_archives_zip_write specs password = WOk out ->
  len out < 2 ^ 32 ->
  exists arch,
    rspamd_archive_process_zip out cdname = Some (Attached arch)
    /\ arch_type arch = RSPAMD_ARCHIVE_ZIP
    /\ arch_size arch = len out
    /\ arch_encrypted arch = false
    /\ entries_match_encrypted specs (files arch).
Proof.
  intros Hpw Hok Hwrite Hcap.
  destruct password as [[|c pw]|]; try discriminate. clear Hpw.
  unfold rspamd_archives_zip_write in Hwrite.
  destruct specs as [|f0 specs0]; [discriminate|].
  set (specs := f0 :: specs0) in *.
  assert (Hne : specs <> []) by (subst specs; discriminate).
  clearbody specs.
  destruct (zip_write_entries 0 (Some (c :: pw)) specs [] []) as [[zip cd]|e|] eqn:Hw;
    try discriminate.
  destruct (negb (ba_fits zip (len cd + 22))); [discriminate|].
  injection Hwrite as <-.
  destruct (zip_write_entries_aes_cd c pw specs _ _ _ _ _ Hw)
    as (local & cds & -> & -> & Hrec).
  cbn [app] in *.
  set (CD := concat cds) in *.
  set (tail := eocd_record (len specs) (len CD) (len local)) in *.
  assert (Hlen : len ((local ++ CD) ++ tail) = len local + len CD + 22)
    by (now rewrite !len_app).
  rewrite Hlen in Hcap.
  pose proof (len_nonneg local). pose proof (len_nonneg CD).
  destruct (aes_cd_records_count _ _ Hrec) as [Hcount Hcd57].
  specialize (Hcd57 Hne). fold CD in Hcd57, Hcount.
  assert (Hsig : le32 ((local ++ CD) ++ tail) (len (local ++ CD) + 0) = eocd_magic)
    by (rewrite le32_app_r by lia; reflexivity).
  assert (Hfind : zip_find_eocd 1026 ((local ++ CD) ++ tail)
                    (len ((local ++ CD) ++ tail) - 1 - 21) 0
                  = Some (len (local ++ CD) + 0)).
  { rewrite Hlen.
    replace (len local + len CD + 22 - 1 - 21) with (len (local ++ CD) + 0)
      by (rewrite len_app; lia).
    apply (zip_find_eocd_found 1025); [rewrite len_app; lia | reflexivity | exact Hsig]. }
  unfold rspamd_archive_process_zip. rewrite Hfind. clear Hfind. rewrite Hlen.
  destruct (Z.ltb_spec (len local + len CD + 22 - 1 - (len (local ++ CD) + 0)) 21);
    [rewrite len_app in *; lia|].
  rewrite <- !Z.add_assoc, !le32_app_r by lia.
  change (le32 tail (0 + 12)) with (le32 (u32le (len CD) ++ []) 0).
  change (le32 tail (0 + 16)) with (le32 (u32le (len local) ++ []) 0).
  rewrite !le32_u32le.
  rewrite Z.add_0_r, len_app.
  rewrite (u32_small (len local)), (u32_small (len CD)) by lia.
  rewrite !u32_small by lia.
  rewrite Z.ltb_irrefl.
  destruct (zip_cd_walk_aes specs cds Hrec Hok local tail
              (new_archive RSPAMD_ARCHIVE_ZIP cdname)
              (S (length ((local ++ CD) ++ tail))))
    as (entries & Hm & Hwalk).
  { rewrite !length_app. lia. }
  fold CD in Hwalk. rewrite <- app_assoc. rewrite <- app_assoc in Hwalk.
  rewrite Hwalk. eexists. split; [reflexivity|].
  destruct (fold_add_file_files entries (new_archive RSPAMD_ARCHIVE_ZIP cdname))
    as (Hfiles & Htype & Henc).
  cbn [arch_type arch_size arch_encrypted files set_arch_size].
  rewrite Htype, Hfiles, Henc. cbn. repeat split; [|assumption].
  rewrite !len_app. reflexivity.
Qed.

End ZipRoundTripAes.

(** The archive of [two_files] under the password "pw", read back. *)
Lemma zip_write_read_round_trip_aes_witness :
  exists arch,
    @rspamd_archive_process_zip ascii_charsets zip_two_files_aes None
    = Some (Attached arch)
    /\ arch_type arch = RSPAMD_ARCHIVE_ZIP
    /\ arch_size arch = len zip_two_files_aes
    /\ arch_encrypted arch = false
    /\ entries_match_encrypted two_files (files arch).
Proof.
  apply (@zip_write_read_round_trip_aes demo_clock demo_zlib demo_openssl ascii_charsets
           two_files (Some password_pw) None zip_two_files_aes).
  - reflexivity.
  - repeat constructor; eexists; (split; [reflexivity|]); vm_compute; repeat split.
  - vm_compute. reflexivity.
  - vm_compute. reflexivity.
Defined.
(** * The layout of an unencrypted archive *)

Section ZipPlainLayout.

Context `{Clock} `{Zlib} `{OpenSSL}.




End ZipPlainLayout.

(** * A 7-Zip archive that names its files, read *)

Lemma len_ascii_as_ucs2 (name : list byte) : len (ascii_as_ucs2 name) = 2 * len name.
Proof.
  unfold ascii_as_ucs2. induction name as [|b rest IH]; [reflexivity|].
  cbn [flat_map app]. rewrite !len_cons, IH. lia.
Qed.

Lemma len_ucs2_name (name : list byte) : len (ucs2_name name) = 2 * len name + 2.
Proof. unfold ucs2_name. rewrite len_app, len_ascii_as_ucs2. reflexivity. Qed.

(** The terminator of a name without NUL characters is found right behind
    the name. *)
Lemma find_ucs2_end_ascii (name rest : list byte) :
  Forall (fun b => 0 < u8 b < 128) name ->
  forall off, find_ucs2_end (ucs2_name name ++ rest) off = Some (off + 2 * len name).
Proof.
  unfold ucs2_name, ascii_as_ucs2.
  induction 1 as [|b name Hb _ IH]; intros off.
  - cbn. f_equal. lia.
  - cbn [flat_map app find_ucs2_end].
    destruct (Z.eqb_spec (u8 b) 0); [lia|]. cbn [andb].
    rewrite <- app_assoc in IH. cbn [app] in IH.
    rewrite <- !app_assoc. cbn [app]. rewrite IH, len_cons. f_equal. lia.
Qed.

Lemma sub_all (l : list byte) : sub l 0 (len l) = l.
Proof. rewrite <- (app_nil_r l) at 1. apply sub_prefix. Qed.

Section SevenZipNames.

Context `{Platform} `{Libarchive}.

(** The loop over the names of a kName property: every name becomes an
    entry, in order. *)
Lemma sz_read_names_ascii (post : list byte) (names : list (list byte)) :
  Forall (fun name => name <> [] /\ Forall (fun b => 0 < u8 b < 128) name) names ->
  forall (fuel : nat) (pre : list byte) (st : sz_state),
    (length names < fuel)%nat ->
    sz_read_names (pre ++ concat (map ucs2_name names) ++ post)
      (len (pre ++ concat (map ucs2_name names) ++ post))
      fuel (len names) (len pre) st
    = SzOk (inl (len pre + len (concat (map ucs2_name names))))
        (mk_sz_state (fold_left add_file (sz_entries names) (sz_arch st))
           (sz_failures st)).
Proof.
  induction 1 as [|name names [Hne Hascii] _ IH]; intros fuel pre st Hfuel.
  - destruct fuel; [simpl in Hfuel; lia|]. cbn. destruct st. cbn.
    unfold sz_ret. do 2 f_equal. lia.
  - destruct fuel as [|fuel]; [simpl in Hfuel; lia|].
    cbn [map concat sz_entries fold_left]. fold (sz_entries names).
    rewrite len_cons. pose proof (len_nonneg names) as Hn.
    pose proof (len_nonneg pre) as Hpre. pose proof (len_nonneg name) as Hname.
    cbn [sz_read_names].
    destruct (Z.ltb_spec 0 (1 + len names)); [|lia].
    set (rest := concat (map ucs2_name names) ++ post).
    rewrite <- (app_assoc (ucs2_name name)). fold rest.
    assert (Hsub : sub (pre ++ ucs2_name name ++ rest) (len pre)
                     (len (pre ++ ucs2_name name ++ rest) - len pre)
                   = ucs2_name name ++ rest).
    { replace (len pre) with (len pre + 0) at 1 by lia.
      rewrite sub_app_r by lia. rewrite len_app.
      replace (len pre + len (ucs2_name name ++ rest) - len pre)
        with (len (ucs2_name name ++ rest)) by lia.
      apply sub_all. }
    rewrite Hsub, (find_ucs2_end_ascii name rest Hascii 0).
    assert (Hpos : 0 < len name).
    { destruct name; [congruence|]. rewrite len_cons.
      pose proof (len_nonneg name). lia. }
    destruct (Z.eqb_spec (0 + 2 * len name) 0); [lia|].
    assert (Hraw : sub (pre ++ ucs2_name name ++ rest) (len pre) (0 + 2 * len name)
                   = ascii_as_ucs2 name).
    { replace (len pre) with (len pre + 0) at 1 by lia.
      rewrite sub_app_r by lia. unfold ucs2_name. rewrite <- app_assoc.
      rewrite <- len_ascii_as_ucs2. cbn [Z.add]. apply sub_prefix. }
    rewrite Hraw, (ascii_ucs2_converts name Hascii).
    unfold sz_bind at 1. cbn [sz_update_arch].
    replace (1 + len names - 1) with (len names) by lia.
    specialize (IH fuel (pre ++ ucs2_name name)
                  (mk_sz_state
                     (add_file (sz_arch st) (mk_archive_file name 0 0 false false))
                     (sz_failures st))
                  ltac:(simpl in Hfuel; lia)).
    rewrite <- !app_assoc in IH. fold rest in IH.
    rewrite (len_app pre (ucs2_name name)), len_ucs2_name in IH.
    replace (len pre + (0 + 2 * len name) + 2) with (len pre + (2 * len name + 2)) by lia.
    rewrite IH. cbn [sz_arch sz_failures].
    rewrite (len_app (ucs2_name name)), len_ucs2_name. do 2 f_equal. lia.
Qed.

End SevenZipNames.

Lemma nth_error_skipn_cons {A : Type} (n : nat) :
  forall (l : list A) (x : A),
    nth_error l n = Some x -> exists tl, skipn n l = x :: tl.
Proof.
  induction n as [|n IH]; intros [|y l] x; cbn; try discriminate.
  - intros [= ->]. now exists l.
  - apply IH.
Qed.

Lemma testbit7_small (x : Z) : 0 <= x < 128 -> Z.testbit x 7 = false.
Proof.
  intros Hx. apply Z.testbit_false; [lia|].
  change (2 ^ 7) with 128. rewrite Z.div_small by lia. reflexivity.
Qed.

Lemma fold_add_sz_entries (names : list (list byte)) :
  forall a,
    fold_left add_file (sz_entries names) a
    = mk_archive (arch_type a) (archive_name a) (arch_size a) (arch_encrypted a)
        (arch_has_obfuscated a) (files a ++ sz_entries names).
Proof.
  induction names as [|name names IH]; intros a; cbn [sz_entries map fold_left].
  - rewrite app_nil_r. now destruct a.
  - fold (sz_entries names). rewrite IH. cbn. rewrite orb_false_r, <- app_assoc.
    reflexivity.
Qed.

Lemma names_count (names : list (list byte)) :
  (length names <= length (concat (map ucs2_name names)))%nat.
Proof.
  induction names as [|name names IH]; [reflexivity|].
  cbn [map concat length]. rewrite length_app.
  pose proof (len_ucs2_name name) as Hl. pose proof (len_nonneg name).
  unfold len in *. lia.
Qed.

Section SevenZipNamesOnly.

Context `{Platform} `{Libarchive}.

Lemma sz_bind_ok {A B : Type} (m : szm A) (k : A -> szm B) (st st' : sz_state) (a : A) :
  m st = SzOk a st' -> sz_bind m k st = k a st'.
Proof. intros Hm. unfold sz_bind. now rewrite Hm. Qed.

Lemma SZ_SKIP_BYTES_ok (end_ p n : Z) (st : sz_state) :
  n <= end_ - p -> SZ_SKIP_BYTES end_ p n st = SzOk (p + n) st.
Proof. intros Hn. unfold SZ_SKIP_BYTES. destruct (Z.leb_spec n (end_ - p)); [reflexivity | lia]. Qed.

Lemma SZ_READ_VINT_one_byte (buf : list byte) (end_ p : Z) (b : byte) (st : sz_state) :
  nth_error buf (Z.to_nat p) = Some b ->
  0 < end_ - p < 2 ^ 64 -> u8 b < 128 ->
  SZ_READ_VINT buf end_ p st = SzOk (u8 b, p + 1) st.
Proof.
  intros Hb Hp Hs. unfold SZ_READ_VINT, rspamd_archive_7zip_read_vint.
  apply nth_error_skipn_cons in Hb as [tl ->].
  rewrite u64_small by lia.
  destruct (Z.eqb_spec (end_ - p) 0); [lia|].
  unfold isset. rewrite testbit7_small by (pose proof (u8_range b); lia).
  reflexivity.
Qed.

Variable names : list (list byte).

Hypothesis names_few : len names < 128.
Hypothesis names_ascii :
  Forall (fun name => name <> [] /\ Forall (fun b => 0 < u8 b < 128) name) names.
Hypothesis addressable : len (sz_names_only names) < 2 ^ 64.

Let block : list byte := concat (map ucs2_name names).
Let head : list byte := firstn 38 (sz_names_only names).

Lemma sz_names_only_parts : sz_names_only names = head ++ block ++ [x00; x00].
Proof. reflexivity. Qed.

Lemma len_sz_names_only : len (sz_names_only names) = 40 + len block.
Proof.
  rewrite sz_names_only_parts, !len_app. change (len head) with 38.
  change (len [x00; x00]) with 2. lia.
Qed.

Lemma files_info_names_only (st : sz_state) :
  rspamd_7zip_read_files_info (sz_names_only names) (len (sz_names_only names)) 34 st
  = SzOk (39 + len block)
      (mk_sz_state (fold_left add_file (sz_entries names) (sz_arch st))
         (sz_failures st)).
Proof.
  pose proof len_sz_names_only as HL. pose proof (len_nonneg block) as Hb.
  pose proof (len_nonneg names) as Hn.
  set (buf := sz_names_only names) in *. set (L := len buf) in *.
  unfold rspamd_7zip_read_files_info.
  rewrite (sz_bind_ok _ _ _ _ _
             (SZ_READ_VINT_one_byte buf L 34 (byte_of_Z (len names)) st
                eq_refl ltac:(lia)
                ltac:(rewrite u8_byte_of_Z, Z.mod_small by lia; lia))).
  rewrite u8_byte_of_Z, Z.mod_small by lia. change (34 + 1) with 35.
  match goal with
  | |- sz_bind (sz_while _ _ ?f _ _) _ _ = _ => set (body := f)
  end.
  set (st1 := mk_sz_state (fold_left add_file (sz_entries names) (sz_arch st))
                (sz_failures st)).
  assert (Hnames : sz_read_names buf L (sz_fuel buf) (len names) 38 st
                   = SzOk (inl (38 + len block)) st1).
  { pose proof (sz_read_names_ascii [x00; x00] names names_ascii (sz_fuel buf) head st)
      as Hr.
    change (len head) with 38 in Hr. apply Hr.
    unfold sz_fuel. pose proof (names_count names) as Hc. fold block in Hc.
    unfold L, len in HL. lia. }
  assert (Hb1 : body tt 35 st = SzOk (Continue tt (38 + len block)) st1).
  { subst body. cbv beta.
    rewrite (sz_bind_ok _ _ _ _ _ (SZ_SKIP_BYTES_ok L 35 1 st ltac:(lia))).
    change (peek buf 35) with 17. change (35 + 1) with 36.
    change (17 =? kEnd) with false. cbv iota.
    rewrite (sz_bind_ok _ _ _ _ _
               (SZ_READ_VINT_one_byte buf L 36 x00 st eq_refl ltac:(lia) ltac:(cbn; lia))).
    change (36 + 1) with 37.
    match goal with
    | |- (if ?c then _ else if ?d then _ else _) _ = _ =>
        change c with false; change d with true
    end.
    cbv iota.
    rewrite (sz_bind_ok _ _ _ _ _ (SZ_SKIP_BYTES_ok L 37 1 st ltac:(lia))).
    change (peek buf 37) with 0. cbn [Z.eqb negb]. change (37 + 1) with 38.
    rewrite (sz_bind_ok _ _ _ _ _ Hnames). reflexivity. }
  assert (Hb2 : body tt (38 + len block) st1 = SzOk (Break tt (39 + len block)) st1).
  { subst body. cbv beta.
    rewrite (sz_bind_ok _ _ _ _ _ (SZ_SKIP_BYTES_ok L (38 + len block) 1 st1 ltac:(lia))).
    assert (Hp : peek buf (38 + len block) = 0).
    { unfold buf. rewrite sz_names_only_parts, app_assoc.
      replace (38 + len block) with (len (head ++ block) + 0)
        by (rewrite len_app; change (len head) with 38; lia).
      rewrite peek_app_r by lia. reflexivity. }
    rewrite Hp. change (0 =? kEnd) with true. cbv iota.
    unfold sz_ret. do 2 f_equal. lia. }
  assert (Hlen : exists n, length buf = S n).
  { destruct (length buf) eqn:E; [unfold L, len in HL; lia | eauto]. }
  destruct Hlen as [n Hlen].
  assert (Hw : sz_while (sz_fuel buf) L body tt 35 st = SzOk (tt, 39 + len block) st1).
  { unfold sz_fuel. rewrite Hlen. cbn [sz_while].
    destruct (Z.ltb_spec 35 L); [|lia].
    rewrite (sz_bind_ok _ _ _ _ _ Hb1).
    destruct (Z.ltb_spec (38 + len block) L); [|lia].
    rewrite (sz_bind_ok _ _ _ _ _ Hb2). reflexivity. }
  rewrite (sz_bind_ok _ _ _ _ _ Hw). reflexivity.
Qed.

Lemma sections_names_only (st : sz_state) (fuel : nat) :
  (3 <= fuel)%nat ->
  sz_sections (sz_names_only names) (len (sz_names_only names)) fuel 32 st
  = WalkDone (mk_sz_state (fold_left add_file (sz_entries names) (sz_arch st))
                (sz_failures st)).
Proof.
  intros Hfuel. destruct fuel as [|[|[|fuel]]]; try lia.
  pose proof len_sz_names_only as HL. pose proof (len_nonneg block) as Hb.
  pose proof (files_info_names_only st) as Hfi.
  set (buf := sz_names_only names) in *. set (L := len buf) in *.
  set (st1 := mk_sz_state (fold_left add_file (sz_entries names) (sz_arch st))
                (sz_failures st)) in *.
  assert (H1 : rspamd_7zip_read_next_section buf L 32 st = SzOk 33 st).
  { unfold rspamd_7zip_read_next_section. cbv zeta.
    rewrite (sz_bind_ok _ _ _ _ _ (SZ_SKIP_BYTES_ok L 32 1 st ltac:(lia))).
    reflexivity. }
  assert (H2 : rspamd_7zip_read_next_section buf L 33 st = SzOk (39 + len block) st1).
  { unfold rspamd_7zip_read_next_section. cbv zeta.
    rewrite (sz_bind_ok _ _ _ _ _ (SZ_SKIP_BYTES_ok L 33 1 st ltac:(lia))).
    change (peek buf 33) with 5. change (33 + 1) with 34.
    change (5 =? kHeader) with false. change (5 =? kEncodedHeader) with false.
    change (5 =? kArchiveProperties) with false.
    change (5 =? kMainStreamsInfo) with false.
    change (5 =? kAdditionalStreamsInfo) with false.
    change (5 =? kFilesInfo) with true. cbv iota. exact Hfi. }
  assert (H3 : rspamd_7zip_read_next_section buf L (39 + len block) st1 = SzNull st1).
  { unfold rspamd_7zip_read_next_section. cbv zeta.
    rewrite (sz_bind_ok _ _ _ _ _
               (SZ_SKIP_BYTES_ok L (39 + len block) 1 st1 ltac:(lia))).
    assert (Hp : peek buf (39 + len block) = 0).
    { unfold buf. rewrite sz_names_only_parts, app_assoc.
      replace (39 + len block) with (len (head ++ block) + 1)
        by (rewrite len_app; change (len head) with 38; lia).
      rewrite peek_app_r by lia. reflexivity. }
    rewrite Hp. reflexivity. }
  cbn [sz_sections]. rewrite H1, H2, H3. reflexivity.
Qed.

Lemma start_header_names_only : sz_start_header (sz_names_only names) = inr 32.
Proof.
  pose proof len_sz_names_only as HL. pose proof (len_nonneg block) as Hb.
  set (buf := sz_names_only names) in *. set (L := len buf) in *.
  unfold sz_start_header. cbv zeta. fold buf. fold L.
  change (bytes_eqb (sub buf 0 6) sz_magic) with true.
  change (le64 buf (0 + (8 + 4))) with 0.
  rewrite !u64_small by lia.
  destruct (Z.leb_spec (L - 0) (8 + 4)); [lia|]. cbn [negb orb].
  destruct (Z.ltb_spec (L - (0 + (8 + 4))) 8); [lia|].
  destruct (Z.ltb_spec (L - (0 + (8 + 4) + 8)) 8); [lia|].
  destruct (Z.ltb_spec 4 (L - (0 + (8 + 4) + 8 + 8))); [|lia]. cbn [negb].
  destruct (Z.ltb_spec 0 (L - (0 + (8 + 4) + 8 + 8 + 4))); [|lia]. cbn [negb].
  reflexivity.
Qed.

End SevenZipNamesOnly.

(** A 7-Zip archive whose header is a kFilesInfo section with the one
    property kName, for fewer than 128 non-empty names of ASCII characters
    other than NUL, is attached with one entry per name, in order: every
    entry carries its name, no sizes and no flags, and nothing is logged. *)
Theorem sz_names_only_read `{Platform} `{Libarchive} (names : list (list byte))
  (cd_filename : option (list byte)) :
  len names < 128 ->
  Forall (fun name => name <> [] /\ Forall (fun b => 0 < u8 b < 128) name) names ->
  len (sz_names_only names) < 2 ^ 64 ->
  rspamd_archive_process_7zip (sz_names_only names) cd_filename
  = Some (mk_sz_report
            (Attached (mk_archive RSPAMD_ARCHIVE_7ZIP cd_filename
                         (len (sz_names_only names)) false false (sz_entries names)))
            []).
Proof.
  intros Hfew Hascii Haddr. unfold rspamd_archive_process_7zip.
  rewrite (start_header_names_only names Haddr). cbv zeta.
  assert (Hfuel : (3 <= S (length (sz_names_only names)))%nat).
  { pose proof (len_sz_names_only names) as HL.
    pose proof (len_nonneg (concat (map ucs2_name names))).
    unfold len in *. lia. }
  rewrite (sections_names_only names Hfew Hascii Haddr _ _ Hfuel).
  cbn [sz_arch sz_failures]. rewrite fold_add_sz_entries. reflexivity.
Qed.

(** The archive that names a.txt and foo. *)
Lemma sz_names_only_read_witness :
  @rspamd_archive_process_7zip x86_64_zeroed no_libarchive
    (sz_names_only [name_a_txt; name_foo]) None
  = Some (mk_sz_report
            (Attached (mk_archive RSPAMD_ARCHIVE_7ZIP None
                         (len (sz_names_only [name_a_txt; name_foo])) false false
                         (sz_entries [name_a_txt; name_foo])))
            []).
Proof.
  apply (@sz_names_only_read x86_64_zeroed no_libarchive [name_a_txt; name_foo] None).
  - reflexivity.
  - repeat constructor; discriminate.
  - reflexivity.
Defined.
(** * A gzip stream that carries its file name, read *)

Lemma gzip_name_end_found (name rest : list byte) :
  Forall (fun b => u8 b <> 0) name ->
  forall off, 0 <= off -> 0 < off + len name ->
    gzip_name_end (name ++ x00 :: rest) off = Some (off + len name).
Proof.
  induction 1 as [|b name Hb _ IH]; intros off Hoff Hpos.
  - cbn [app gzip_name_end]. change (len (@nil byte)) with 0 in *.
    change (u8 x00 =? 0) with true. destruct (Z.ltb_spec 0 off); [|lia].
    cbn. f_equal. lia.
  - cbn [app gzip_name_end]. destruct (Z.eqb_spec (u8 b) 0); [contradiction|].
    cbn [andb]. rewrite len_cons. pose proof (len_nonneg name).
    rewrite IH by lia. f_equal. lia.
Qed.

(** A gzip stream with the FNAME flag alone and a non-empty stored name is
    attached as an archive of one entry, named by what the file name
    normaliser makes of the stored name and flagged as it flags it. *)
Theorem gzip_stored_name_read `{Charsets} (name rest : list byte)
  (cd_filename : option (list byte)) :
  name <> [] ->
  Forall (fun b => u8 b <> 0) name ->
  rspamd_archive_process_gzip (gz_named name rest) cd_filename
  = Attached
      (mk_archive RSPAMD_ARCHIVE_GZIP cd_filename (len (gz_named name rest)) false
         (snd (rspamd_archive_file_try_utf name))
         [mk_archive_file (fst (rspamd_archive_file_try_utf name)) 0 0 false
            (snd (rspamd_archive_file_try_utf name))]).
Proof.
  intros Hne Hnz.
  assert (Hpos : 0 < len name).
  { destruct name; [congruence|]. rewrite len_cons. pose proof (len_nonneg name). lia. }
  set (head := firstn 10 (gz_named name rest)).
  assert (Hparts : gz_named name rest = head ++ name ++ [x00] ++ rest) by reflexivity.
  assert (HL : len (gz_named name rest) = 11 + len name + len rest).
  { rewrite Hparts, !len_app. change (len head) with 10. change (len [x00]) with 1. lia. }
  pose proof (len_nonneg rest) as Hrest.
  unfold rspamd_archive_process_gzip. cbv zeta.
  set (buf := gz_named name rest) in *.
  destruct (Z.leb_spec (len buf - 0) 10); [lia|].
  change (bytes_eqb (sub buf 0 2) gz_magic) with true. cbn [negb orb].
  change (peek buf 3) with 8.
  change (has_bits 8 (Z.shiftl 1 5)) with false.
  change (has_bits 8 (Z.shiftl 1 3)) with true. cbv iota.
  unfold gzip_stored_name. cbv zeta.
  change (has_bits 8 (Z.shiftl 1 1)) with false.
  change (has_bits 8 (Z.shiftl 1 2)) with false. cbv iota.
  unfold walk_bind. change (0 + 10) with 10.
  change (skipn (Z.to_nat 10) buf) with (name ++ x00 :: rest).
  rewrite (gzip_name_end_found name rest Hnz 0) by lia.
  assert (Hsub : sub buf 10 (0 + len name) = name).
  { rewrite Hparts. change 10 with (len head + 0). rewrite sub_app_r by lia.
    cbn [Z.add]. apply sub_prefix. }
  rewrite Hsub.
  destruct (rspamd_archive_file_try_utf name) as [n obf]. reflexivity.
Qed.

(** The stream that stores the name foo. *)
Lemma gzip_stored_name_read_witness :
  @rspamd_archive_process_gzip ascii_charsets (gz_named name_foo [x03; x00]) None
  = Attached
      (mk_archive RSPAMD_ARCHIVE_GZIP None (len (gz_named name_foo [x03; x00])) false
         (snd (@rspamd_archive_file_try_utf ascii_charsets name_foo))
         [mk_archive_file (fst (@rspamd_archive_file_try_utf ascii_charsets name_foo))
            0 0 false (snd (@rspamd_archive_file_try_utf ascii_charsets name_foo))]).
Proof.
  apply (@gzip_stored_name_read ascii_charsets name_foo [x03; x00] None).
  - discriminate.
  - repeat constructor; discriminate.
Defined.
(** * A RAR v5 archive of plain file headers, read *)

Lemma nth_error_app_at (pre r : list byte) (k : Z) :
  0 <= k -> nth_error (pre ++ r) (Z.to_nat (len pre + k)) = nth_error r (Z.to_nat k).
Proof.
  intros Hk. unfold len.
  replace (Z.to_nat (Z.of_nat (length pre) + k)) with (length pre + Z.to_nat k)%nat by lia.
  rewrite nth_error_app2 by lia. f_equal. lia.
Qed.

Lemma rar_read_vint_one_byte (b : byte) (mem : list byte) (remain : Z) :
  u8 b < 128 -> 0 < remain ->
  rspamd_archive_rar_read_vint (b :: mem) remain = VintOk (u8 b) 1.
Proof.
  intros Hb Hr. pose proof (u8_range b) as Hu.
  unfold rspamd_archive_rar_read_vint. cbn [rar_vint_loop].
  destruct (Z.ltb_spec 0 remain); [|lia]. cbn [Z.leb Z.compare andb].
  rewrite testbit7_small by lia.
  change 127 with (Z.ones 7). rewrite Z.land_ones by lia.
  rewrite Z.shiftl_0_r, Z.mod_small by (change (2 ^ 7) with 128; lia).
  rewrite u64_small by lia. rewrite Z.lor_0_l.
  unfold rar_vint_exit. destruct (Z.eqb_spec remain 0); [lia|]. reflexivity.
Qed.

Section RarNamesOnly.

Context `{Charsets}.

Lemma RAR_READ_VINT_SKIP_one_byte (buf : list byte) (end_ p : Z) (b : byte) :
  nth_error buf (Z.to_nat p) = Some b ->
  0 < end_ - p < 2 ^ 64 -> u8 b < 128 ->
  RAR_READ_VINT_SKIP buf end_ p = Go (u8 b, p + 1).
Proof.
  intros Hb Hp Hs. unfold RAR_READ_VINT_SKIP.
  apply nth_error_skipn_cons in Hb as [tl ->].
  rewrite u64_small by lia. rewrite rar_read_vint_one_byte by lia. reflexivity.
Qed.

Lemma RAR_SKIP_BYTES_ok (end_ p n : Z) :
  0 < n -> n <= end_ - p < 2 ^ 64 -> RAR_SKIP_BYTES end_ p n = Go (p + n).
Proof.
  intros Hn Hp. unfold RAR_SKIP_BYTES.
  destruct (Z.leb_spec n 0); [lia|]. rewrite u64_small by lia.
  destruct (Z.ltb_spec (end_ - p) n); [lia | reflexivity].
Qed.

Lemma len_rar5_file_record (name : list byte) :
  len (rar5_file_record name) = 13 + len name.
Proof. unfold rar5_file_record. rewrite len_app. reflexivity. Qed.

(** One iteration of the record loop over a plain file header. *)
Lemma rar_v5_record_file (inner : nat) (pre post name : list byte) (st : rar5_state) :
  r5_p st = len pre ->
  0 < len name < 120 ->
  len (pre ++ rar5_file_record name ++ post) < 2 ^ 64 ->
  rar_v5_record inner (pre ++ rar5_file_record name ++ post)
    (len (pre ++ rar5_file_record name ++ post)) st
  = Some (Go (mk_rar5_state (len pre + (13 + len name)) (r5_comp_sz st) (r5_extra_sz st)
                (add_file (r5_arch st)
                   (mk_archive_file (fst (rspamd_archive_file_try_utf name))
                      (r5_comp_sz st) 0 false
                      (snd (rspamd_archive_file_try_utf name)))))).
Proof.
  intros Hp Hname Haddr.
  pose proof (len_nonneg pre) as Hpre. pose proof (len_nonneg post) as Hpost.
  set (rec := rar5_file_record name) in *.
  set (buf := pre ++ rec ++ post) in *.
  assert (HL : len buf = len pre + (13 + len name) + len post).
  { unfold buf. rewrite !len_app. unfold rec. rewrite len_rar5_file_record. lia. }
  set (L := len buf) in *.
  assert (Hbyte : forall k b, 0 <= k -> nth_error (rec ++ post) (Z.to_nat k) = Some b ->
                    nth_error buf (Z.to_nat (len pre + k)) = Some b).
  { intros k b Hk Hb. unfold buf. rewrite nth_error_app_at by lia. exact Hb. }
  assert (Hvint : forall k b, 0 <= k < 13 -> u8 b < 128 ->
                    nth_error (rec ++ post) (Z.to_nat k) = Some b ->
                    RAR_READ_VINT_SKIP buf L (len pre + k) = Go (u8 b, len pre + (k + 1))).
  { intros k b Hk Hs Hb.
    rewrite (RAR_READ_VINT_SKIP_one_byte buf L (len pre + k) b);
      [|apply Hbyte; [lia | exact Hb] | lia | exact Hs].
    do 2 f_equal. lia. }
  unfold rar_v5_record. rewrite Hp.
  rewrite (RAR_SKIP_BYTES_ok L (len pre) 4) by lia. cbn [walk_bind].
  rewrite (Hvint 4 (byte_of_Z (8 + len name)))
    by (try reflexivity; try rewrite u8_byte_of_Z, Z.mod_small; lia).
  cbn [walk_bind]. rewrite u8_byte_of_Z, Z.mod_small by lia.
  destruct (Z.eqb_spec (8 + len name) 0); [lia|]. cbn [bail_if walk_bind].
  unfold rar_v5_header.
  rewrite (Hvint (4 + 1) x02) by (try reflexivity; cbn; lia). cbn [walk_bind].
  rewrite (Hvint (4 + 1 + 1) x00) by (try reflexivity; cbn; lia). cbn [walk_bind].
  change (u8 x02) with 2. change (u8 x00) with 0.
  change (has_bits 0 1) with false. change (has_bits 0 2) with false.
  cbn [walk_bind]. change (negb (2 =? 2)) with false. cbv iota. cbv zeta.
  unfold rar_v5_file_header.
  rewrite (Hvint (4 + 1 + 1 + 1) x00) by (try reflexivity; cbn; lia). cbn [walk_bind].
  rewrite (Hvint (4 + 1 + 1 + 1 + 1) x00) by (try reflexivity; cbn; lia). cbn [walk_bind].
  rewrite (Hvint (4 + 1 + 1 + 1 + 1 + 1) x00) by (try reflexivity; cbn; lia).
  cbn [walk_bind]. change (u8 x00) with 0.
  change (has_bits 0 2) with false. change (has_bits 0 4) with false.
  change (has_bits 0 1) with false. cbn [walk_bind].
  rewrite (Hvint (4 + 1 + 1 + 1 + 1 + 1 + 1) x00) by (try reflexivity; cbn; lia).
  cbn [walk_bind].
  rewrite (Hvint (4 + 1 + 1 + 1 + 1 + 1 + 1 + 1) x00) by (try reflexivity; cbn; lia).
  cbn [walk_bind].
  rewrite (Hvint (4 + 1 + 1 + 1 + 1 + 1 + 1 + 1 + 1) (byte_of_Z (len name)))
    by (try reflexivity; try rewrite u8_byte_of_Z, Z.mod_small; lia).
  cbn [walk_bind]. rewrite u8_byte_of_Z, Z.mod_small by lia.
  change (4 + 1 + 1 + 1 + 1 + 1 + 1 + 1 + 1 + 1) with 13.
  destruct (Z.eqb_spec (len name) 0); [lia|].
  rewrite u64_small by lia.
  destruct (Z.ltb_spec (L - (len pre + 13)) (len name)); [lia|].
  cbn [orb bail_if walk_bind].
  unfold name_bytes.
  destruct (Z.ltb_spec L (len pre + 13 + len name)); [lia|]. cbn [walk_bind].
  assert (Hsub : sub buf (len pre + 13) (len name) = name).
  { unfold buf. rewrite sub_app_r by lia. unfold rec, rar5_file_record.
    rewrite <- app_assoc.
    change 13 with (len [x00; x00; x00; x00; byte_of_Z (8 + len name); x02; x00; x00;
                         x00; x00; x00; x00; byte_of_Z (len name)] + 0).
    rewrite sub_app_r by lia. apply sub_prefix. }
  rewrite Hsub.
  destruct (rspamd_archive_file_try_utf name) as [nm obf]. cbn [fst snd].
  rewrite (RAR_SKIP_BYTES_ok L (len pre + (4 + 1)) (8 + len name)) by lia.
  cbn [walk_bind]. do 3 f_equal. lia.
Qed.

(** The record loop over the file headers: one entry per header. *)
Lemma rar_v5_walk_files (inner : nat) (post : list byte) (names : list (list byte)) :
  Forall (fun name => 0 < len name < 120) names ->
  post <> [] ->
  forall (fuel : nat) (pre : list byte) (st : rar5_state),
    r5_p st = len pre ->
    r5_comp_sz st = 0 ->
    len (pre ++ concat (map rar5_file_record names) ++ post) < 2 ^ 64 ->
    rar_v5_walk (length names + fuel) inner
      (pre ++ concat (map rar5_file_record names) ++ post)
      (len (pre ++ concat (map rar5_file_record names) ++ post)) st
    = rar_v5_walk fuel inner
        (pre ++ concat (map rar5_file_record names) ++ post)
        (len (pre ++ concat (map rar5_file_record names) ++ post))
        (mk_rar5_state (len pre + len (concat (map rar5_file_record names))) 0
           (r5_extra_sz st)
           (fold_left add_file (rar_entries names) (r5_arch st))).
Proof.
  intros Hnames Hpost.
  induction Hnames as [|name names Hname _ IH]; intros fuel pre st Hp Hc Haddr.
  - cbn [map concat length Nat.add rar_entries fold_left app].
    change (len (@nil byte)) with 0. rewrite Z.add_0_r, <- Hp, <- Hc.
    destruct st; reflexivity.
  - cbn [map concat length Nat.add rar_entries fold_left] in *.
    fold (rar_entries names).
    rewrite <- (app_assoc (rar5_file_record name)) in *.
    set (rest := concat (map rar5_file_record names) ++ post) in *.
    cbn [rar_v5_walk].
    pose proof (len_nonneg pre). pose proof (len_nonneg rest).
    pose proof (len_nonneg name).
    assert (HL : len (pre ++ rar5_file_record name ++ rest)
                 = len pre + (13 + len name) + len rest)
      by (rewrite !len_app, len_rar5_file_record; lia).
    rewrite Hp.
    destruct (Z.ltb_spec (len pre) (len (pre ++ rar5_file_record name ++ rest))); [|lia].
    rewrite (rar_v5_record_file inner pre rest name st Hp Hname Haddr).
    specialize (IH fuel (pre ++ rar5_file_record name)
                  (mk_rar5_state (len pre + (13 + len name)) (r5_comp_sz st)
                     (r5_extra_sz st)
                     (add_file (r5_arch st)
                        (mk_archive_file (fst (rspamd_archive_file_try_utf name))
                           (r5_comp_sz st) 0 false
                           (snd (rspamd_archive_file_try_utf name)))))).
    rewrite <- !app_assoc in IH. fold rest in IH.
    rewrite IH.
    + cbn [r5_extra_sz r5_arch]. rewrite Hc.
      do 2 f_equal. rewrite !len_app. lia.
    + cbn [r5_p]. rewrite len_app, len_rar5_file_record. reflexivity.
    + exact Hc.
    + exact Haddr.
Qed.

(** The end of archive header is stepped over. *)
Lemma rar_v5_record_end (inner : nat) (pre : list byte) (st : rar5_state) :
  r5_p st = len pre ->
  len pre + 8 < 2 ^ 64 ->
  rar_v5_record inner (pre ++ [x00; x00; x00; x00; x03; x05; x00; x00])
    (len (pre ++ [x00; x00; x00; x00; x03; x05; x00; x00])) st
  = Some (Go (mk_rar5_state (len pre + 8) (r5_comp_sz st) (r5_extra_sz st) (r5_arch st))).
Proof.
  intros Hp Haddr. pose proof (len_nonneg pre) as Hpre.
  set (rec := [x00; x00; x00; x00; x03; x05; x00; x00]).
  set (buf := pre ++ rec).
  assert (HL : len buf = len pre + 8) by (unfold buf; rewrite len_app; reflexivity).
  set (L := len buf) in *.
  assert (Hvint : forall k b, 0 <= k < 8 -> u8 b < 128 ->
                    nth_error rec (Z.to_nat k) = Some b ->
                    RAR_READ_VINT_SKIP buf L (len pre + k) = Go (u8 b, len pre + (k + 1))).
  { intros k b Hk Hs Hb.
    rewrite (RAR_READ_VINT_SKIP_one_byte buf L (len pre + k) b);
      [|unfold buf; rewrite nth_error_app_at by lia; exact Hb | lia | exact Hs].
    do 2 f_equal. lia. }
  unfold rar_v5_record. rewrite Hp.
  rewrite (RAR_SKIP_BYTES_ok L (len pre) 4) by lia. cbn [walk_bind].
  rewrite (Hvint 4 x03) by (try reflexivity; cbn; lia). cbn [walk_bind].
  change (u8 x03) with 3. change (3 =? 0) with false. cbn [bail_if walk_bind].
  unfold rar_v5_header.
  rewrite (Hvint (4 + 1) x05) by (try reflexivity; cbn; lia). cbn [walk_bind].
  rewrite (Hvint (4 + 1 + 1) x00) by (try reflexivity; cbn; lia). cbn [walk_bind].
  change (u8 x05) with 5. change (u8 x00) with 0.
  change (has_bits 0 1) with false. change (has_bits 0 2) with false.
  cbn [walk_bind]. change (negb (5 =? 2)) with true. cbv iota.
  rewrite (RAR_SKIP_BYTES_ok L (len pre + (4 + 1)) 3) by lia.
  cbn [walk_bind]. do 3 f_equal. lia.
Qed.

End RarNamesOnly.

Lemma fold_add_file_all (es : list rspamd_archive_file) :
  forall a,
    fold_left add_file es a
    = mk_archive (arch_type a) (archive_name a) (arch_size a) (arch_encrypted a)
        (arch_has_obfuscated a || existsb file_obfuscated es) (files a ++ es).
Proof.
  induction es as [|e es IH]; intros a; cbn [fold_left existsb].
  - rewrite orb_false_r, app_nil_r. now destruct a.
  - rewrite IH. cbn. rewrite orb_assoc, <- app_assoc. reflexivity.
Qed.

(** A RAR v5 archive made of the signature, a main header, one plain file
    header per name (names of 1 to 119 bytes) and an end of archive header
    is attached with one entry per name, in order, each named by what the
    file name normaliser makes of the stored name; the archive is flagged
    for obfuscated names exactly when one of the entries is. *)
Theorem rar5_names_only_read `{Charsets} (fuel : nat) (names : list (list byte))
  (cd_filename : option (list byte)) :
  Forall (fun name => 0 < len name < 120) names ->
  len (rar5_names_only names) < 2 ^ 64 ->
  (length names < fuel)%nat ->
  rspamd_archive_process_rar fuel (rar5_names_only names) cd_filename
  = Some (Attached
            (mk_archive RSPAMD_ARCHIVE_RAR cd_filename (len (rar5_names_only names))
               false (existsb file_obfuscated (rar_entries names))
               (rar_entries names))).
Proof.
  intros Hnames Haddr Hfuel.
  set (block := concat (map rar5_file_record names)).
  set (head := firstn 16 (rar5_names_only names)).
  set (tail := [x00; x00; x00; x00; x03; x05; x00; x00]).
  assert (Hparts : rar5_names_only names = head ++ block ++ tail) by reflexivity.
  assert (HL : len (rar5_names_only names) = 24 + len block).
  { rewrite Hparts, !len_app. change (len head) with 16. change (len tail) with 8. lia. }
  pose proof (len_nonneg block) as Hblock.
  unfold rspamd_archive_process_rar. cbv zeta.
  set (buf := rar5_names_only names) in *. set (L := len buf) in *.
  rewrite u64_small by lia.
  destruct (Z.leb_spec (L - 0) 8); [lia|].
  change (bytes_eqb (sub buf 0 8) rar_v5_magic) with true. cbv iota.
  assert (Hvint : forall k b, 0 <= k < 16 -> u8 b < 128 ->
                    nth_error buf (Z.to_nat k) = Some b ->
                    RAR_READ_VINT_SKIP buf L k = Go (u8 b, k + 1)).
  { intros k b Hk Hs Hb. apply RAR_READ_VINT_SKIP_one_byte; [exact Hb | lia | exact Hs]. }
  rewrite (RAR_SKIP_BYTES_ok L (0 + 8) 4) by lia. cbn [walk_bind].
  rewrite (Hvint (0 + 8 + 4) x03) by (try reflexivity; cbn; lia). cbn [walk_bind].
  unfold rar_v5_header.
  rewrite (Hvint (0 + 8 + 4 + 1) x01) by (try reflexivity; cbn; lia). cbn [walk_bind].
  rewrite (Hvint (0 + 8 + 4 + 1 + 1) x00) by (try reflexivity; cbn; lia).
  cbn [walk_bind].
  change (u8 x03) with 3. change (u8 x01) with 1. change (u8 x00) with 0.
  change (has_bits 0 1) with false. change (has_bits 0 2) with false.
  cbn [walk_bind]. change (1 =? 4) with false. cbv iota.
  change (negb (1 =? 1)) with false. cbn [bail_if walk_bind].
  rewrite (RAR_SKIP_BYTES_ok L (0 + 8 + 4 + 1) 3) by lia.
  change (0 + 8 + 4 + 1 + 3) with 16.
  replace fuel with (length names + S (fuel - length names - 1))%nat at 1 by lia.
  pose proof (rar_v5_walk_files fuel tail names Hnames ltac:(discriminate)
                (S (fuel - length names - 1)) head
                (mk_rar5_state 16 0 0 (new_archive RSPAMD_ARCHIVE_RAR cd_filename))
                eq_refl eq_refl) as Hw.
  fold block in Hw. rewrite <- Hparts in Hw. fold buf in Hw. fold L in Hw.
  rewrite (Hw Haddr). clear Hw.
  cbn [r5_extra_sz r5_arch rar_v5_walk r5_p].
  change (len head) with 16.
  destruct (Z.ltb_spec (16 + len block) L); [|lia].
  assert (Hend : rar_v5_record fuel buf L
                   (mk_rar5_state (16 + len block) 0 0
                      (fold_left add_file (rar_entries names)
                         (new_archive RSPAMD_ARCHIVE_RAR cd_filename)))
                 = Some (Go (mk_rar5_state (16 + len block + 8) 0 0
                               (fold_left add_file (rar_entries names)
                                  (new_archive RSPAMD_ARCHIVE_RAR cd_filename))))).
  { pose proof (rar_v5_record_end fuel (head ++ block)
                  (mk_rar5_state (16 + len block) 0 0
                     (fold_left add_file (rar_entries names)
                        (new_archive RSPAMD_ARCHIVE_RAR cd_filename)))) as Hr.
    rewrite <- app_assoc in Hr. fold tail in Hr. rewrite <- Hparts in Hr.
    fold buf in Hr. fold L in Hr.
    rewrite len_app in Hr. change (len head) with 16 in Hr.
    apply Hr; [reflexivity | lia]. }
  rewrite Hend.
  assert (Hdone : forall k st, r5_p st = L ->
                    rar_v5_walk k fuel buf L st = Some (rar_attach buf (r5_arch st))).
  { intros k st Hp. destruct k; cbn [rar_v5_walk]; rewrite Hp;
      (destruct (Z.ltb_spec L L); [lia | reflexivity]). }
  rewrite Hdone by (cbn [r5_p]; lia).
  cbn [r5_arch]. unfold rar_attach. rewrite fold_add_file_all. reflexivity.
Qed.

(** The archive of a.txt and foo. *)
Lemma rar5_names_only_read_witness :
  @rspamd_archive_process_rar ascii_charsets 8
    (rar5_names_only [name_a_txt; name_foo]) None
  = Some (Attached
            (mk_archive RSPAMD_ARCHIVE_RAR None
               (len (rar5_names_only [name_a_txt; name_foo])) false
               (existsb file_obfuscated
                  (@rar_entries ascii_charsets [name_a_txt; name_foo]))
               (@rar_entries ascii_charsets [name_a_txt; name_foo]))).
Proof.
  apply (@rar5_names_only_read ascii_charsets 8 [name_a_txt; name_foo] None).
  - repeat constructor.
  - reflexivity.
  - simpl. lia.
Defined.
(** * A RAR v4 archive of plain file headers, read *)

Lemma len_rar4_file_record (name : list byte) :
  len (rar4_file_record name) = 32 + len name.
Proof.
  unfold rar4_file_record. rewrite !len_app, !len_u16le.
  change (len [x00; x00; x74; x00; x80]) with 5.
  change (len [x00; x00; x00; x00]) with 4.
  match goal with |- context [len (?a :: ?l)] => change (len (a :: l)) with 19 end.
  lia.
Qed.

(** The fields the reader loads from a plain v4 file header. *)
Lemma rar4_file_record_fields (name r : list byte) :
  let rec := rar4_file_record name ++ r in
  peek rec 2 = 0x74
  /\ le16 rec 3 = 0x8000
  /\ le16 rec 5 = u16 (32 + len name)
  /\ le32 rec 7 = 0
  /\ le32 rec 11 = 0
  /\ le16 rec 26 = u16 (len name)
  /\ sub rec 32 (len name) = name.
Proof.
  intros rec. subst rec.
  split; [reflexivity|].
  split; [reflexivity|].
  split; [change (le16 (rar4_file_record name ++ r) 5)
            with (le16 (u16le (32 + len name) ++ []) 0); apply le16_u16le|].
  split; [reflexivity|].
  split; [reflexivity|].
  split; [change (le16 (rar4_file_record name ++ r) 26)
            with (le16 (u16le (len name) ++ []) 0); apply le16_u16le|].
  change (rar4_file_record name ++ r)
    with (firstn 32 (rar4_file_record name) ++ name ++ r).
  change 32 with (len (firstn 32 (rar4_file_record name)) + 0).
  rewrite sub_app_r by lia. apply sub_prefix.
Qed.

Section Rar4NamesOnly.

Context `{Charsets}.

Lemma RAR_READ_UINT16_ok (buf : list byte) (end_ p : Z) :
  2 <= end_ - p -> RAR_READ_UINT16 buf end_ p = Go (le16 buf p, p + 2).
Proof.
  intros Hp. unfold RAR_READ_UINT16. destruct (Z.ltb_spec (end_ - p) 2); [lia | reflexivity].
Qed.

Lemma RAR_READ_UINT32_ok (buf : list byte) (end_ p : Z) :
  4 <= end_ - p -> RAR_READ_UINT32 buf end_ p = Go (le32 buf p, p + 4).
Proof.
  intros Hp. unfold RAR_READ_UINT32. destruct (Z.ltb_spec (end_ - p) 4); [lia | reflexivity].
Qed.

(** One iteration of the record loop over a plain file header. *)
Lemma rar_v4_record_file (pre post name : list byte) (st : rar4_state) :
  r4_p st = len pre ->
  0 < len name < 65504 ->
  len (pre ++ rar4_file_record name ++ post) < 2 ^ 64 ->
  rar_v4_record (pre ++ rar4_file_record name ++ post)
    (len (pre ++ rar4_file_record name ++ post)) st
  = Go (mk_rar4_state (len pre + (32 + len name)) 0 0
          (add_file (r4_arch st)
             (mk_archive_file (fst (rspamd_archive_file_try_utf name)) 0 0 false
                (snd (rspamd_archive_file_try_utf name))))).
Proof.
  intros Hp Hname Haddr.
  pose proof (len_nonneg pre) as Hpre. pose proof (len_nonneg post) as Hpost.
  destruct (rar4_file_record_fields name post)
    as (Ftype & Fflags & Fsize & Fpack & Funp & Fnlen & Fname).
  set (rec := rar4_file_record name ++ post) in *.
  assert (HL : len (pre ++ rec) = len pre + (32 + len name) + len post).
  { unfold rec. rewrite !len_app, len_rar4_file_record. lia. }
  set (L := len (pre ++ rec)) in *.
  unfold rar_v4_record. cbv zeta. rewrite Hp.
  rewrite (RAR_SKIP_BYTES_ok L (len pre) 2) by lia. cbn [walk_bind].
  rewrite peek_app_r, Ftype by lia.
  rewrite RAR_READ_UINT16_ok by lia. cbn [walk_bind].
  replace (len pre + 2 + 1) with (len pre + 3) by lia.
  rewrite le16_app_r, Fflags by lia.
  change (116 =? 115) with false. cbn [andb].
  rewrite RAR_READ_UINT16_ok by lia. cbn [walk_bind].
  replace (len pre + 3 + 2) with (len pre + 5) by lia.
  rewrite le16_app_r, Fsize by lia. rewrite u16_small by lia.
  change (has_bits 32768 32768) with true. cbv iota.
  rewrite RAR_READ_UINT32_ok by lia. cbn [walk_bind].
  replace (len pre + 5 + 2) with (len pre + 7) by lia.
  rewrite le32_app_r, Fpack by lia. rewrite Z.add_0_r.
  destruct (Z.eqb_spec (32 + len name) 0); [lia|]. cbn [bail_if walk_bind].
  change (116 =? 116) with true. cbv iota.
  unfold rar_v4_file_header.
  rewrite RAR_READ_UINT32_ok by lia. cbn [walk_bind].
  replace (len pre + 7 + 4) with (len pre + 11) by lia.
  rewrite le32_app_r, Funp by lia.
  rewrite (RAR_SKIP_BYTES_ok L (len pre + 11 + 4) 11) by lia. cbn [walk_bind].
  rewrite RAR_READ_UINT16_ok by lia. cbn [walk_bind].
  replace (len pre + 11 + 4 + 11) with (len pre + 26) by lia.
  rewrite le16_app_r, Fnlen by lia. rewrite u16_small by lia.
  destruct (Z.eqb_spec (len name) 0); [lia|].
  rewrite u64_small by lia.
  destruct (Z.ltb_spec (L - (len pre + 26 + 2)) (len name)); [lia|].
  cbn [orb bail_if walk_bind].
  rewrite (RAR_SKIP_BYTES_ok L (len pre + 26 + 2) 4) by lia. cbn [walk_bind].
  change (has_bits 32768 256) with false. cbv iota. cbn [walk_bind].
  unfold rar_v4_name_bytes, name_bytes.
  change (has_bits 32768 512) with false. cbv iota.
  destruct (Z.ltb_spec L (len pre + 26 + 2 + 4 + len name)); [lia|]. cbn [walk_bind].
  replace (len pre + 26 + 2 + 4) with (len pre + 32) by lia.
  rewrite sub_app_r, Fname by lia.
  change (has_bits 32768 4) with false.
  destruct (rspamd_archive_file_try_utf name) as [nm obf]. cbn [fst snd walk_bind].
  rewrite (RAR_SKIP_BYTES_ok L (len pre) (32 + len name)) by lia.
  cbn [walk_bind]. reflexivity.
Qed.

(** The record loop over the file headers: one entry per header. *)
Lemma rar_v4_walk_files (post : list byte) (names : list (list byte)) :
  Forall (fun name => 0 < len name < 65504) names ->
  forall (fuel : nat) (pre : list byte) (st : rar4_state),
    r4_p st = len pre ->
    r4_comp_sz st = 0 -> r4_uncomp_sz st = 0 ->
    len (pre ++ concat (map rar4_file_record names) ++ post) < 2 ^ 64 ->
    rar_v4_walk (length names + fuel)
      (pre ++ concat (map rar4_file_record names) ++ post)
      (len (pre ++ concat (map rar4_file_record names) ++ post)) st
    = rar_v4_walk fuel
        (pre ++ concat (map rar4_file_record names) ++ post)
        (len (pre ++ concat (map rar4_file_record names) ++ post))
        (mk_rar4_state (len pre + len (concat (map rar4_file_record names))) 0 0
           (fold_left add_file (rar_entries names) (r4_arch st))).
Proof.
  intros Hnames.
  induction Hnames as [|name names Hname _ IH]; intros fuel pre st Hp Hc Hu Haddr.
  - cbn [map concat length Nat.add rar_entries fold_left app].
    change (len (@nil byte)) with 0. rewrite Z.add_0_r, <- Hp.
    destruct st as [p c u a]. cbn in Hc, Hu. subst c u. reflexivity.
  - cbn [map concat length Nat.add rar_entries fold_left] in *.
    fold (rar_entries names).
    rewrite <- (app_assoc (rar4_file_record name)) in *.
    set (rest := concat (map rar4_file_record names) ++ post) in *.
    cbn [rar_v4_walk].
    pose proof (len_nonneg pre). pose proof (len_nonneg rest).
    pose proof (len_nonneg name).
    assert (HL : len (pre ++ rar4_file_record name ++ rest)
                 = len pre + (32 + len name) + len rest)
      by (rewrite !len_app, len_rar4_file_record; lia).
    rewrite Hp.
    destruct (Z.ltb_spec (len pre) (len (pre ++ rar4_file_record name ++ rest))); [|lia].
    rewrite (rar_v4_record_file pre rest name st Hp Hname Haddr).
    specialize (IH fuel (pre ++ rar4_file_record name)
                  (mk_rar4_state (len pre + (32 + len name)) 0 0
                     (add_file (r4_arch st)
                        (mk_archive_file (fst (rspamd_archive_file_try_utf name))
                           0 0 false (snd (rspamd_archive_file_try_utf name)))))).
    rewrite <- !app_assoc in IH. fold rest in IH.
    rewrite IH.
    + cbn [r4_arch]. do 2 f_equal. rewrite !len_app. lia.
    + cbn [r4_p]. rewrite len_app, len_rar4_file_record. reflexivity.
    + reflexivity.
    + reflexivity.
    + exact Haddr.
Qed.

(** The end block is stepped over. *)
Lemma rar_v4_record_end (pre : list byte) (st : rar4_state) :
  r4_p st = len pre ->
  len pre + 7 < 2 ^ 64 ->
  rar_v4_record (pre ++ [x00; x00; x7b; x00; x40; x07; x00])
    (len (pre ++ [x00; x00; x7b; x00; x40; x07; x00])) st
  = Go (mk_rar4_state (len pre + 7) (r4_comp_sz st) (r4_uncomp_sz st) (r4_arch st)).
Proof.
  intros Hp Haddr. pose proof (len_nonneg pre) as Hpre.
  set (rec := [x00; x00; x7b; x00; x40; x07; x00]).
  assert (HL : len (pre ++ rec) = len pre + 7) by (rewrite len_app; reflexivity).
  set (L := len (pre ++ rec)) in *.
  unfold rar_v4_record. cbv zeta. rewrite Hp.
  rewrite (RAR_SKIP_BYTES_ok L (len pre) 2) by lia. cbn [walk_bind].
  rewrite peek_app_r by lia. change (peek rec 2) with 123.
  rewrite RAR_READ_UINT16_ok by lia. cbn [walk_bind].
  replace (len pre + 2 + 1) with (len pre + 3) by lia.
  rewrite le16_app_r by lia. change (le16 rec 3) with 16384.
  change (123 =? 115) with false. cbn [andb].
  rewrite RAR_READ_UINT16_ok by lia. cbn [walk_bind].
  replace (len pre + 3 + 2) with (len pre + 5) by lia.
  rewrite le16_app_r by lia. change (le16 rec 5) with 7.
  change (has_bits 16384 32768) with false. cbv iota. cbn [walk_bind].
  change (7 =? 0) with false. cbn [bail_if walk_bind].
  change (123 =? 116) with false. cbv iota. cbn [walk_bind].
  rewrite (RAR_SKIP_BYTES_ok L (len pre) 7) by lia.
  cbn [walk_bind]. reflexivity.
Qed.

End Rar4NamesOnly.

(** A RAR v4 archive made of the signature, a main header, one plain file
    header per name (names of 1 to 65503 bytes) and an end block is
    attached with one entry per name, in order, each named by what the file
    name normaliser makes of the stored name; the archive is flagged for
    obfuscated names exactly when one of the entries is. *)
Theorem rar4_names_only_read `{Charsets} (fuel : nat) (names : list (list byte))
  (cd_filename : option (list byte)) :
  Forall (fun name => 0 < len name < 65504) names ->
  len (rar4_names_only names) < 2 ^ 64 ->
  (length names + 1 < fuel)%nat ->
  rspamd_archive_process_rar fuel (rar4_names_only names) cd_filename
  = Some (Attached
            (mk_archive RSPAMD_ARCHIVE_RAR cd_filename (len (rar4_names_only names))
               false (existsb file_obfuscated (rar_entries names))
               (rar_entries names))).
Proof.
  intros Hnames Haddr Hfuel.
  set (block := concat (map rar4_file_record names)).
  set (sig := firstn 7 (rar4_names_only names)).
  set (main := firstn 13 (skipn 7 (rar4_names_only names))).
  set (tail := [x00; x00; x7b; x00; x40; x07; x00]).
  assert (Hparts : rar4_names_only names = (sig ++ main) ++ block ++ tail) by reflexivity.
  assert (HL : len (rar4_names_only names) = 27 + len block).
  { rewrite Hparts, !len_app. change (len sig) with 7. change (len main) with 13.
    change (len tail) with 7. lia. }
  pose proof (len_nonneg block) as Hblock.
  unfold rspamd_archive_process_rar, rspamd_archive_process_rar_v4. cbv zeta.
  set (buf := rar4_names_only names) in *. set (L := len buf) in *.
  rewrite u64_small by lia.
  destruct (Z.leb_spec (L - 0) 8); [lia|].
  change (bytes_eqb (sub buf 0 8) rar_v5_magic) with false.
  change (bytes_eqb (sub buf 0 7) rar_v4_magic) with true. cbv iota.
  set (arch := new_archive RSPAMD_ARCHIVE_RAR cd_filename).
  (* the main header *)
  destruct fuel as [|fuel]; [lia|]. cbn [rar_v4_walk r4_p].
  destruct (Z.ltb_spec (0 + 7) L); [|lia].
  assert (Hmain : rar_v4_record buf L (mk_rar4_state (0 + 7) 0 0 arch)
                  = Go (mk_rar4_state 20 0 0 arch)).
  { unfold rar_v4_record. cbv zeta. cbn [r4_p r4_arch r4_comp_sz r4_uncomp_sz].
    rewrite (RAR_SKIP_BYTES_ok L (0 + 7) 2) by lia. cbn [walk_bind].
    change (peek buf (0 + 7 + 2)) with 115.
    rewrite RAR_READ_UINT16_ok by lia. cbn [walk_bind].
    change (le16 buf (0 + 7 + 2 + 1)) with 0.
    change (has_bits 0 128) with false. rewrite andb_false_r.
    rewrite RAR_READ_UINT16_ok by lia. cbn [walk_bind].
    change (le16 buf (0 + 7 + 2 + 1 + 2)) with 13.
    change (has_bits 0 32768) with false. cbv iota. cbn [walk_bind].
    change (13 =? 0) with false. cbn [bail_if walk_bind].
    change (115 =? 116) with false. cbv iota. cbn [walk_bind].
    rewrite (RAR_SKIP_BYTES_ok L (0 + 7) 13) by lia. reflexivity. }
  rewrite Hmain. clear Hmain.
  (* the file headers *)
  replace fuel with (length names + S (fuel - length names - 1))%nat by lia.
  pose proof (rar_v4_walk_files tail names Hnames
                (S (fuel - length names - 1)) (sig ++ main)
                (mk_rar4_state 20 0 0 arch) eq_refl eq_refl eq_refl) as Hw.
  fold block in Hw. rewrite <- Hparts in Hw. fold buf in Hw. fold L in Hw.
  rewrite (Hw Haddr). clear Hw.
  cbn [r4_arch rar_v4_walk r4_p].
  change (len (sig ++ main)) with 20.
  destruct (Z.ltb_spec (20 + len block) L); [|lia].
  (* the end block *)
  assert (Hend : rar_v4_record buf L
                   (mk_rar4_state (20 + len block) 0 0
                      (fold_left add_file (rar_entries names) arch))
                 = Go (mk_rar4_state (20 + len block + 7) 0 0
                         (fold_left add_file (rar_entries names) arch))).
  { pose proof (rar_v4_record_end ((sig ++ main) ++ block)
                  (mk_rar4_state (20 + len block) 0 0
                     (fold_left add_file (rar_entries names) arch))) as Hr.
    fold tail in Hr. rewrite <- (app_assoc (sig ++ main) block tail) in Hr.
    rewrite <- Hparts in Hr.
    fold buf in Hr. fold L in Hr.
    rewrite len_app in Hr. change (len (sig ++ main)) with 20 in Hr.
    apply Hr; [reflexivity | lia]. }
  rewrite Hend.
  assert (Hdone : forall k st, r4_p st = L ->
                    rar_v4_walk k buf L st = Some (rar_attach buf (r4_arch st))).
  { intros k st Hp. destruct k; cbn [rar_v4_walk]; rewrite Hp;
      (destruct (Z.ltb_spec L L); [lia | reflexivity]). }
  rewrite Hdone by (cbn [r4_p]; lia).
  cbn [r4_arch]. unfold rar_attach. rewrite fold_add_file_all. reflexivity.
Qed.

(** The archive of a.txt and foo. *)
Lemma rar4_names_only_read_witness :
  @rspamd_archive_process_rar ascii_charsets 8
    (rar4_names_only [name_a_txt; name_foo]) None
  = Some (Attached
            (mk_archive RSPAMD_ARCHIVE_RAR None
               (len (rar4_names_only [name_a_txt; name_foo])) false
               (existsb file_obfuscated
                  (@rar_entries ascii_charsets [name_a_txt; name_foo]))
               (@rar_entries ascii_charsets [name_a_txt; name_foo]))).
Proof.
  apply (@rar4_names_only_read ascii_charsets 8 [name_a_txt; name_foo] None).
  - repeat constructor.
  - reflexivity.
  - simpl. lia.
Defined.
(** * RAR archives with encrypted headers *)

(** A RAR v5 archive that starts with an archive encryption header, and a
    RAR v4 archive whose main header says that the block headers are
    encrypted, are attached as encrypted archives without entries, whatever
    bytes follow. *)
Theorem rar_encrypted_headers_detected `{Charsets} (fuel : nat) (rest : list byte)
  (cd_filename : option (list byte)) :
  (0 < fuel)%nat ->
  len rest < 2 ^ 63 ->
  rspamd_archive_process_rar fuel (rar5_encrypted rest) cd_filename
  = Some (Attached (mk_archive RSPAMD_ARCHIVE_RAR cd_filename
                      (len (rar5_encrypted rest)) true false []))
  /\ rspamd_archive_process_rar fuel (rar4_encrypted rest) cd_filename
     = Some (Attached (mk_archive RSPAMD_ARCHIVE_RAR cd_filename
                         (len (rar4_encrypted rest)) true false [])).
Proof.
  intros Hfuel Haddr. pose proof (len_nonneg rest) as Hrest. split.
  - assert (HL : len (rar5_encrypted rest) = 15 + len rest).
    { unfold rar5_encrypted. rewrite len_app. reflexivity. }
    unfold rspamd_archive_process_rar. cbv zeta.
    set (buf := rar5_encrypted rest) in *. set (L := len buf) in *.
    rewrite u64_small by lia.
    destruct (Z.leb_spec (L - 0) 8); [lia|].
    change (bytes_eqb (sub buf 0 8) rar_v5_magic) with true. cbv iota.
    assert (Hvint : forall k b, 0 <= k < 15 -> u8 b < 128 ->
                      nth_error buf (Z.to_nat k) = Some b ->
                      RAR_READ_VINT_SKIP buf L k = Go (u8 b, k + 1)).
    { intros k b Hk Hs Hb. apply RAR_READ_VINT_SKIP_one_byte; [exact Hb | lia | exact Hs]. }
    rewrite (RAR_SKIP_BYTES_ok L (0 + 8) 4) by lia. cbn [walk_bind].
    rewrite (Hvint (0 + 8 + 4) x04) by (try reflexivity; cbn; lia). cbn [walk_bind].
    unfold rar_v5_header.
    rewrite (Hvint (0 + 8 + 4 + 1) x04) by (try reflexivity; cbn; lia). cbn [walk_bind].
    rewrite (Hvint (0 + 8 + 4 + 1 + 1) x00) by (try reflexivity; cbn; lia).
    cbn [walk_bind].
    change (u8 x04) with 4. change (u8 x00) with 0.
    change (has_bits 0 1) with false. change (has_bits 0 2) with false.
    cbn [walk_bind]. reflexivity.
  - assert (HL : len (rar4_encrypted rest) = 12 + len rest).
    { unfold rar4_encrypted. rewrite len_app. reflexivity. }
    unfold rspamd_archive_process_rar, rspamd_archive_process_rar_v4. cbv zeta.
    set (buf := rar4_encrypted rest) in *. set (L := len buf) in *.
    rewrite u64_small by lia.
    destruct (Z.leb_spec (L - 0) 8); [lia|].
    change (bytes_eqb (sub buf 0 8) rar_v5_magic) with false.
    change (bytes_eqb (sub buf 0 7) rar_v4_magic) with true. cbv iota.
    destruct fuel as [|fuel]; [lia|]. cbn [rar_v4_walk r4_p].
    destruct (Z.ltb_spec (0 + 7) L); [|lia].
    unfold rar_v4_record. cbv zeta. cbn [r4_p r4_arch].
    rewrite (RAR_SKIP_BYTES_ok L (0 + 7) 2) by lia. cbn [walk_bind].
    change (peek buf (0 + 7 + 2)) with 115.
    rewrite RAR_READ_UINT16_ok by lia. cbn [walk_bind].
    change (le16 buf (0 + 7 + 2 + 1)) with 128.
    reflexivity.
Qed.

(** The two archives with nothing behind the header. *)
Lemma rar_encrypted_headers_detected_witness :
  @rspamd_archive_process_rar ascii_charsets 1 (rar5_encrypted []) None
  = Some (Attached (mk_archive RSPAMD_ARCHIVE_RAR None
                      (len (rar5_encrypted [])) true false []))
  /\ @rspamd_archive_process_rar ascii_charsets 1 (rar4_encrypted []) None
     = Some (Attached (mk_archive RSPAMD_ARCHIVE_RAR None
                         (len (rar4_encrypted [])) true false [])).
Proof.
  apply (@rar_encrypted_headers_detected ascii_charsets 1 [] None).
  - lia.
  - reflexivity.
Defined.
(** * All or nothing: what the readers attach, and when *)

Section RecordLoopFacts.

Context {S : Type}.
Variable running : S -> bool.
Variable round : S -> option (walk S).
Variable attach : S -> read_outcome.


(** The states a loop passes through lie on one line: a round that leaves
    the function decides the result. *)
Lemma loop_result_unique (s0 s : S) (r r0 : read_outcome) :
  reaches running round s0 s -> running s = true -> round s = Some (Stop r) ->
  loop_result running round attach s0 r0 -> r0 = r.
Proof.
  intros Hreach Hrun Hstop. induction Hreach as [s|s s1 s2 Hr1 Hg1 Hreach IH]; intros Hres.
  - destruct Hres as [s' Hreach' Hend | s' r' Hreach' Hrun' Hstop'].
    + inversion Hreach'; subst; congruence.
    + inversion Hreach'; subst; congruence.
  - apply IH; [assumption | assumption |].
    destruct Hres as [s' Hreach' Hend | s' r' Hreach' Hrun' Hstop'].
    + inversion Hreach'; subst; [congruence|].
      assert (s3 = s1) by congruence. subst. apply loop_through; assumption.
    + inversion Hreach'; subst; [congruence|].
      assert (s3 = s1) by congruence. subst. eapply loop_left; eassumption.
Qed.

End RecordLoopFacts.

Section Walks.

Context `{Charsets}.

Variable buf : list byte.




End Walks.








(** ** Worked inputs *)

(** The entry of the first record of [zip_bad_second_record] is collected,
    the second record is refused, and the reader rejects the input. *)
Lemma zip_entries_dropped :
  reaches (fun s => fst s <? 93)
    (fun s => @zip_cd_record ascii_charsets zip_bad_second_record 93 (fst s) (snd s))
    (0, new_archive RSPAMD_ARCHIVE_ZIP None)
    (47, add_file (new_archive RSPAMD_ARCHIVE_ZIP None)
           (mk_archive_file [x61] 0 0 false false))
  /\ @zip_cd_record ascii_charsets zip_bad_second_record 93 47
       (add_file (new_archive RSPAMD_ARCHIVE_ZIP None)
          (mk_archive_file [x61] 0 0 false false))
     = Some (Stop (Rejected ZipBadCdRecord))
  /\ @rspamd_archive_process_zip ascii_charsets zip_bad_second_record None
     = Some (Rejected ZipBadCdRecord).
Proof.
  split; [|split; vm_compute; reflexivity].
  eapply reaches_round; [reflexivity | vm_compute; reflexivity | constructor].
Qed.

(** [rar4_unicode_short]: the NUL ends the search for the ASCII name inside
    the input, and the entry "a" is attached. *)
Lemma rar4_unicode_short_attached :
  @rspamd_archive_process_rar ascii_charsets 38 rar4_unicode_short None
  = Some (Attached (mk_archive RSPAMD_ARCHIVE_RAR None 37 false false
                      [mk_archive_file [x61] 0 0 false false])).
Proof. vm_compute. reflexivity. Qed.

(** [sz_props_wrap]: the property length read at offset 35 carries the
    cursor from offset 44 back to offset 34, where the same property is read
    again; the loop of [rspamd_7zip_read_archive_props] is never left,
    wherever in memory the data lies. *)
Lemma sz_props_wrap_never_leaves `{Platform} :
  0 <= data_addr -> data_addr + 44 <= 2 ^ 64 ->
  forall (fuel : nat) (st : sz_state),
    sz_archive_props_loop sz_props_wrap 44 fuel 1 35 st = SzFuel.
Proof.
  intros Ha Hb. induction fuel as [|fuel IH]; intros st; [reflexivity|].
  cbn [sz_archive_props_loop]. change (negb (1 =? 0)) with true. cbv iota.
  unfold sz_bind at 1.
  change (SZ_READ_VINT sz_props_wrap 44 35 st) with (SzOk (2 ^ 64 - 10, 44) st).
  cbv beta iota zeta.
  assert (Hq : sz_ptr_add 44 (2 ^ 64 - 10) = 34).
  { unfold sz_ptr_add, u64.
    replace (data_addr + 44 + (2 ^ 64 - 10)) with (data_addr + 34 + 1 * 2 ^ 64) by lia.
    rewrite Z.mod_add by lia. rewrite Z.mod_small by lia. lia. }
  rewrite Hq. change (34 <? 44) with true. change (34 <? 0) with false. cbv iota.
  change (peek sz_props_wrap 34) with 1.
  unfold sz_bind. change (SZ_SKIP_BYTES 44 34 1 st) with (SzOk 35 st). cbv iota beta.
  apply IH.
Qed.

(** On [sz_props_wrap] the reader is still in that loop when its fuel is
    spent. *)
Lemma sz_props_wrap_not_returned :
  @rspamd_archive_process_7zip x86_64_zeroed no_libarchive sz_props_wrap None = None.
Proof. vm_compute. reflexivity. Qed.

(** No property length of [sz_bad_after_name] wraps an address on the
    machine of the worked examples. *)
Lemma sz_bad_after_name_fits : @sz_props_fit x86_64_zeroed sz_bad_after_name 44.
Proof.
  split; [vm_compute; discriminate|].
  intros p v r Hp.
  assert (Hall : forallb (fun k =>
            match @rspamd_archive_7zip_read_vint x86_64_zeroed
                    (skipn k sz_bad_after_name) (u64 (44 - Z.of_nat k)) with
            | VintOk v r => @data_addr x86_64_zeroed + Z.of_nat k + r + v <? 2 ^ 64
            | _ => true
            end) (seq 0 45) = true) by (vm_compute; reflexivity).
  rewrite forallb_forall in Hall.
  specialize (Hall (Z.to_nat p) ltac:(apply in_seq; lia)).
  rewrite Z2Nat.id in Hall by lia.
  intros Hv. rewrite Hv in Hall. apply Z.ltb_lt in Hall. exact Hall.
Qed.
(** * The ZIP writer returns an archive *)

Lemma len_skipn_fit (a b : nat) (l : list byte) :
  len (skipn a (fit (a + b) l)) = Z.of_nat b.
Proof.
  unfold len. rewrite length_skipn. fold (len (fit (a + b) l)).
  pose proof (len_fit (a + b) l) as Hl. unfold len in *. lia.
Qed.

Section ZipWriterTotal.

Context `{Clock} `{Zlib} `{OpenSSL}.

(** An encrypted entry whose header, name, extra field, salt, password
    check, DEFLATE window and tag fit the array, and whose record fits the
    central directory, is written; the array grows by no more than that. *)
Lemma zip_write_entry_aes_fits (i : nat) (pw : list byte) (f : rspamd_zip_file_spec)
  (name zip cd : list byte) :
  collaborators_succeed ->
  len pw <= G_MAXINT ->
  len (spec_data f) <= G_MAXINT ->
  len zip + 69 + len name + deflateBound (len (spec_data f)) <= G_MAXUINT ->
  len cd + 57 + len name <= G_MAXUINT ->
  exists zip' cd',
    zip_write_entry_aes i pw f name zip cd = WOk (zip', cd')
    /\ len zip' <= len zip + 69 + len name + deflateBound (len (spec_data f))
    /\ len cd' = len cd + 57 + len name.
Proof.
  intros (Hz & Hr & Hk & Hi & He) Hpw Hdata Hzip Hcd.
  destruct (Hz (spec_data f)) as (out & Hd & Hb).
  pose proof (len_nonneg out). pose proof (len_nonneg name).
  pose proof (len_nonneg zip). pose proof (len_nonneg cd).
  pose proof (len_nonneg (spec_data f)).
  unfold zip_write_entry_aes. cbv zeta.
  destruct (Hr i) as [salt ->].
  match goal with
  | |- context [PKCS5_PBKDF2_HMAC ?p ?s] => destruct (Hk p s) as [dk ->]
  end.
  rewrite Hi, Hd. cbn [negb].
  match goal with
  | |- context [EVP_Encrypt ?k ?p] => destruct (He k p) as (cipher & -> & Hc)
  end.
  assert (Hhdr : forall v g m t c cs us el,
             len (rspamd_zip_write_local_header zip name v g m t c cs us el)
             = len zip + 30 + len name)
    by (intros; unfold rspamd_zip_write_local_header;
        rewrite !len_app, len_local_header_fixed; lia).
  assert (Hcdr : forall v g m t c cs us off mode el,
             len (rspamd_zip_write_central_header cd name v g m t c cs us off mode el)
             = len cd + 46 + len name)
    by (intros; unfold rspamd_zip_write_central_header;
        rewrite !len_app, len_central_header_fixed; lia).
  assert (Hext : forall a v s m, len (rspamd_zip_write_extra_aes a v s m) = len a + 11)
    by (intros; unfold rspamd_zip_write_extra_aes; rewrite len_app, len_extra_aes; lia).
  assert (Hsalt : len (fit 16 salt) = 16) by apply len_fit.
  assert (Hpv : len (skipn (32 * 2) (fit (32 * 2 + 2) dk)) = 2)
    by apply (len_skipn_fit 64 2).
  pose proof (u32_le (len name) ltac:(lia)) as Hu.
  unfold ba_fits. rewrite !len_app, !Hext, !Hhdr, Hsalt, Hpv.
  unfold G_MAXUINT, G_MAXINT in *.
  destruct (Z.leb_spec (len (spec_data f)) (len out));
    repeat match goal with
           | |- context [?a <=? ?b] => destruct (Z.leb_spec a b); [|lia]
           | |- context [?a <? ?b] => destruct (Z.ltb_spec a b); [lia|]
           end;
    cbn [negb orb];
    (eexists _, _; split; [reflexivity|]);
    (split; [|rewrite Hext, Hcdr; lia]);
    match goal with
    | |- context [patch (patch ?x _ _) _ _] => set (X := x)
    end;
    assert (HX : len X = len zip + 30 + len name + 11 + 16 + 2 + len cipher + 10)
      by (subst X; rewrite !len_app, Hext, Hhdr, Hsalt, Hpv, len_fit; lia);
    (rewrite len_patch;
     [rewrite len_patch; [lia | lia | rewrite len_u32le; lia]
     | lia
     | rewrite len_patch; [rewrite len_u16le; lia | lia | rewrite len_u32le; lia]]).
Qed.

Lemma zip_write_room_ge_22 (aes : bool) (files : list rspamd_zip_file_spec) :
  collaborators_succeed -> 22 <= zip_write_room aes files.
Proof.
  intros (Hz & _). induction files as [|f files IH]; cbn [zip_write_room fold_right];
    [lia|].
  fold (zip_write_room aes files). unfold zip_entry_room.
  destruct (Hz (spec_data f)) as (out & _ & Hb).
  pose proof (len_nonneg out).
  pose proof (len_nonneg (match spec_name f with Some n => n | None => [] end)).
  destruct aes; lia.
Qed.

Lemma zip_write_entries_succeed (password : option (list byte))
  (files : list rspamd_zip_file_spec) :
  collaborators_succeed ->
  Forall (fun f => rspamd_zip_validate_name (spec_name f) = true) files ->
  Forall (fun f => len (spec_data f)
                   <= if use_aes password then G_MAXINT else G_MAXUINT) files ->
  len (match password with Some pw => pw | None => [] end) <= G_MAXINT ->
  forall i zip cd,
    len zip + len cd + zip_write_room (use_aes password) files <= G_MAXUINT ->
    exists zip' cd',
      zip_write_entries i password files zip cd = WOk (zip', cd')
      /\ len zip' + len cd' + 22 <= G_MAXUINT.
Proof.
  intros Hok Hv Hd Hpw. revert Hd.
  induction Hv as [|f files Hf _ IH]; intros Hd i zip cd Hroom.
  - exists zip, cd. split; [reflexivity | exact Hroom].
  - inversion Hd as [|? ? Hdf Hd']; subst.
    pose proof (zip_write_room_ge_22 (use_aes password) files Hok) as Hge.
    cbn [zip_write_room fold_right] in Hroom.
    fold (zip_write_room (use_aes password) files) in Hroom.
    unfold zip_entry_room in Hroom.
    cbn [zip_write_entries]. rewrite Hf. cbn [negb].
    set (name := match spec_name f with Some n => n | None => [] end) in *.
    pose proof (len_nonneg name). pose proof (len_nonneg zip). pose proof (len_nonneg cd).
    destruct Hok as (Hz & Hrest).
    destruct (Hz (spec_data f)) as (out & Hdef & Hb).
    pose proof (len_nonneg out).
    assert (Hu : (G_MAXUINT <? len (spec_data f)) = false).
    { apply Z.ltb_ge. destruct (use_aes password); unfold G_MAXINT, G_MAXUINT in *; lia. }
    rewrite Hu.
    assert (He : exists zip1 cd1,
               match password with
               | Some (c :: pw) => zip_write_entry_aes i (c :: pw) f name zip cd
               | _ => zip_write_entry_plain f name zip cd
               end = WOk (zip1, cd1)
               /\ len zip1 + len cd1
                  <= len zip + len cd
                     + ((if use_aes password then 126 else 76) + 2 * len name
                        + deflateBound (len (spec_data f)))).
    { assert (Hplain : use_aes password = false ->
                exists zip1 cd1,
                  zip_write_entry_plain f name zip cd = WOk (zip1, cd1)
                  /\ len zip1 + len cd1
                     <= len zip + len cd
                        + (76 + 2 * len name + deflateBound (len (spec_data f)))).
      { intros Hp. rewrite Hp in Hroom, Hge.
        destruct (zip_write_entry_plain_fits f name zip cd out Hdef Hb)
          as (zip1 & cd1 & He); [lia | lia |].
        exists zip1, cd1. split; [exact He|].
        destruct (zip_write_entry_plain_bytes _ _ _ _ _ _ He)
          as (rec & method & crc & csize & -> & Hrec & ->).
        rewrite !len_app, len_plain_cd_record. lia. }
      destruct password as [[|c pw]|].
      - apply Hplain. reflexivity.
      - cbn [use_aes] in *.
        destruct (zip_write_entry_aes_fits i (c :: pw) f name zip cd
                    (conj Hz Hrest) Hpw Hdf)
          as (zip1 & cd1 & He & Hl1 & Hl2); [lia | lia |].
        exists zip1, cd1. split; [exact He | lia].
      - apply Hplain. reflexivity. }
    destruct He as (zip1 & cd1 & -> & Hlen).
    apply (IH Hd'). lia.
Qed.

(** When zlib and OpenSSL report no failure and keep to their contracts,
    the writer returns a byte array for every non-empty list of files whose
    names all pass the validation and that fit: the headers, the names and the
    DEFLATE windows of [zip_write_room] add up to no more than G_MAXUINT
    bytes, and the data of each file, and under a password the password
    itself, are no longer than the count they are passed in can tell. *)
Theorem zip_write_succeeds (files : list rspamd_zip_file_spec)
  (password : option (list byte)) :
  collaborators_succeed ->
  files <> [] ->
  Forall (fun f => rspamd_zip_validate_name (spec_name f) = true) files ->
  Forall (fun f => len (spec_data f)
                   <= if use_aes password then G_MAXINT else G_MAXUINT) files ->
  len (match password with Some pw => pw | None => [] end) <= G_MAXINT ->
  zip_write_room (use_aes password) files <= G_MAXUINT ->
  exists out, rspamd_archives_zip_write files password = WOk out.
Proof.
  intros Hok Hne Hv Hd Hpw Hroom. unfold rspamd_archives_zip_write.
  destruct files as [|f files]; [congruence|].
  destruct (zip_write_entries_succeed password (f :: files) Hok Hv Hd Hpw 0%nat [] []
              Hroom)
    as (zip & cd & -> & Hfit).
  unfold ba_fits.
  destruct (Z.leb_spec (len zip + (len cd + 22)) G_MAXUINT); [|lia].
  now eexists.
Qed.

End ZipWriterTotal.

(** The stand-ins for zlib and OpenSSL keep to the contracts. *)
Lemma demo_collaborators_succeed : @collaborators_succeed demo_zlib demo_openssl.
Proof.
  repeat split; intros; try (eexists; reflexivity).
  - eexists. split; [reflexivity|].
    cbn [deflateBound demo_zlib]. rewrite !len_app, !len_u16le.
    change (len [x01]) with 1. lia.
  - eexists. split; [reflexivity|]. unfold len. now rewrite length_map.
Qed.

(** The writer at [two_files] under the password "pw". *)
Lemma zip_write_succeeds_witness :
  exists out,
    @rspamd_archives_zip_write demo_clock demo_zlib demo_openssl two_files
      (Some password_pw) = WOk out.
Proof.
  apply (@zip_write_succeeds demo_clock demo_zlib demo_openssl two_files
           (Some password_pw)).
  - exact demo_collaborators_succeed.
  - discriminate.
  - repeat constructor.
  - repeat constructor; vm_compute; discriminate.
  - vm_compute. discriminate.
  - vm_compute. discriminate.
Defined.
